(** * wkkkis-hooks: the reconciliation and rewriting core of the CLI

    A shallow embedding of [src/cli.ts]: the import-path rewriter, the
    version-header codec, the semantic-version comparison and the
    install / update / remove / migrate operations over an explicit file
    store, followed by the theorems that relate them to the specification.

    Conventions.
    - JavaScript strings are lists of characters ([list ascii]); the
      characters are code units below 256.
    - The file system is a finite map from canonical absolute paths (lists
      of path segments) to nodes; every [fs] call resolves its string
      argument against the working directory first, as the operating
      system does.
    - Asynchronous functions run sequentially; they are written in a state
      and error monad over the store.  Console output is not part of the
      store and is left out.
    - [node:path] is the POSIX flavour. *)

From Stdlib Require Import Ascii String ZArith Lia Bool.
From stdpp Require Import gmap strings list fin_maps sorting.

Set Warnings "-via-type-remapping,-via-type-mismatch,-notation-incompatible-prefix,-register-all".

(** ** Strings *)

Inductive lstr : Set := LNil | LCons (a : ascii) (l : lstr).

Abbreviation str := (list ascii).

Fixpoint lstr_of_bytes (l : list Byte.byte) : lstr :=
  match l with
  | [] => LNil
  | b :: l => LCons (ascii_of_byte b) (lstr_of_bytes l)
  end.

Fixpoint bytes_of_lstr (l : lstr) : list Byte.byte :=
  match l with
  | LNil => []
  | LCons a l => byte_of_ascii a :: bytes_of_lstr l
  end.

Declare Scope str_scope.
Delimit Scope str_scope with str.
String Notation list lstr_of_bytes bytes_of_lstr
  (via lstr mapping [[nil] => LNil, [cons] => LCons]) : str_scope.
Open Scope str_scope.

Module Str.

Definition code (c : ascii) : nat := nat_of_ascii c.

Definition eqc (a b : ascii) : bool := Ascii.eqb a b.

Fixpoint eqs (a b : str) : bool :=
  match a, b with
  | [], [] => true
  | x :: a, y :: b => eqc x y && eqs a b
  | _, _ => false
  end.

(** [s.startsWith(p)] *)
Fixpoint startsWith (p s : str) : bool :=
  match p, s with
  | [], _ => true
  | x :: p, y :: s => eqc x y && startsWith p s
  | _ :: _, [] => false
  end.

(** [s.endsWith(p)] *)
Definition endsWith (p s : str) : bool := startsWith (rev p) (rev s).

(** [s.includes(p)] *)
Fixpoint includes (p s : str) : bool :=
  startsWith p s || match s with [] => false | _ :: s' => includes p s' end.

(** [s.split(c)] for a one-character separator: never the empty list. *)
Fixpoint split (c : ascii) (s : str) : list str :=
  match s with
  | [] => [[]]
  | a :: s =>
      if eqc a c then [] :: split c s
      else match split c s with
           | [] => [[a]]
           | w :: ws => (a :: w) :: ws
           end
  end.

(** [l.join(sep)] *)
Fixpoint join (sep : str) (l : list str) : str :=
  match l with
  | [] => []
  | [w] => w
  | w :: ws => w ++ sep ++ join sep ws
  end.

(** [s.replace(/\\/g, "/")] *)
Definition slashes (s : str) : str :=
  map (fun c => if eqc c "\"%char then "/"%char else c) s.

(** White space of [\s] and of [trim] among the code units below 256. *)
Definition isSpace (c : ascii) : bool :=
  let n := code c in
  ((9 <=? n) && (n <=? 13)) || (n =? 32) || (n =? 160).

Definition isDigit (c : ascii) : bool :=
  let n := code c in (48 <=? n) && (n <=? 57).

Definition isLower (c : ascii) : bool :=
  let n := code c in (97 <=? n) && (n <=? 122).

Definition isUpper (c : ascii) : bool :=
  let n := code c in (65 <=? n) && (n <=? 90).

Fixpoint trimStart (s : str) : str :=
  match s with
  | c :: s' => if isSpace c then trimStart s' else s
  | [] => []
  end.

(** [s.trim()] *)
Definition trim (s : str) : str := rev (trimStart (rev (trimStart s))).

(** Number of positions at which [p] occurs in [s]. *)
Fixpoint occurrences (p s : str) : nat :=
  (if startsWith p s then 1 else 0) +
  match s with [] => 0 | _ :: s' => occurrences p s' end.

End Str.

(** ** Regular expressions

    The part of the ECMAScript pattern language the program uses, with the
    backtracking semantics of the specification: alternatives are tried
    left to right, quantifiers are greedy, and a search returns the
    leftmost match. *)

Module Regex.

Inductive regex : Type :=
| Eps                                   (* empty pattern *)
| Chr (c : ascii)                       (* a literal character *)
| Cls (p : ascii -> bool)               (* a character class *)
| Seq (r1 r2 : regex)                   (* r1 r2 *)
| Alt (r1 r2 : regex)                   (* r1 | r2 *)
| Opt (r : regex)                       (* r? *)
| Rep (min : nat) (p : ascii -> bool)   (* class* (min 0), class+ (min 1) *)
| Grp (i : nat) (r : regex)             (* capture group number i *)
| Bol.                                  (* ^ *)

(** A literal string in a pattern. *)
Fixpoint Lit (s : str) : regex :=
  match s with
  | [] => Eps
  | c :: s => Seq (Chr c) (Lit s)
  end.

Record flags := { ignoreCase : bool; multiline : bool }.

Definition noflags : flags := {| ignoreCase := false; multiline := false |}.

(** Canonicalize of the specification (no unicode flag): upper case, on
    the code units below 256. *)
Definition canon (c : ascii) : ascii :=
  let n := Str.code c in
  if (97 <=? n) && (n <=? 122) then ascii_of_nat (n - 32)
  else if (224 <=? n) && (n <=? 254) && negb (n =? 247) then ascii_of_nat (n - 32)
  else c.

Definition uncanon (c : ascii) : ascii :=
  let n := Str.code c in
  if (65 <=? n) && (n <=? 90) then ascii_of_nat (n + 32)
  else if (192 <=? n) && (n <=? 222) && negb (n =? 215) then ascii_of_nat (n + 32)
  else c.

Definition chrMatch (fl : flags) (c a : ascii) : bool :=
  if ignoreCase fl then Str.eqc (canon c) (canon a) else Str.eqc c a.

Definition clsMatch (fl : flags) (p : ascii -> bool) (a : ascii) : bool :=
  if ignoreCase fl then p a || p (canon a) || p (uncanon a) else p a.

Definition isLineTerminator (c : ascii) : bool :=
  let n := Str.code c in (n =? 10) || (n =? 13).

Definition atBol (fl : flags) (prev : option ascii) : bool :=
  match prev with
  | None => true
  | Some c => multiline fl && isLineTerminator c
  end.

(** Captures: group number and captured text, latest first. *)
Definition caps : Type := list (nat * str).

Fixpoint capture (cs : caps) (i : nat) : option str :=
  match cs with
  | [] => None
  | (j, w) :: cs => if Nat.eqb i j then Some w else capture cs i
  end.

Section Run.
Context {R : Type}.

(** Greedy repetition of a class, at least [min] times: the longest run
    first, then shorter ones. *)
Fixpoint rep (fl : flags) (p : ascii -> bool) (min : nat)
    (prev : option ascii) (s : str)
    (k : option ascii -> str -> option R) : option R :=
  match s with
  | c :: s' =>
      if clsMatch fl p c then
        match rep fl p (pred min) (Some c) s' k with
        | Some x => Some x
        | None => match min with 0 => k prev s | S _ => None end
        end
      else match min with 0 => k prev s | S _ => None end
  | [] => match min with 0 => k prev s | S _ => None end
  end.

(** The matcher, in continuation-passing style: [k] is what remains of the
    pattern; [prev] is the character before the current position. *)
Fixpoint run (fl : flags) (r : regex) (prev : option ascii) (s : str)
    (cs : caps) (k : option ascii -> str -> caps -> option R) : option R :=
  match r with
  | Eps => k prev s cs
  | Chr c =>
      match s with
      | a :: s' => if chrMatch fl c a then k (Some a) s' cs else None
      | [] => None
      end
  | Cls p =>
      match s with
      | a :: s' => if clsMatch fl p a then k (Some a) s' cs else None
      | [] => None
      end
  | Seq r1 r2 =>
      run fl r1 prev s cs (fun prev' s' cs' => run fl r2 prev' s' cs' k)
  | Alt r1 r2 =>
      match run fl r1 prev s cs k with
      | Some x => Some x
      | None => run fl r2 prev s cs k
      end
  | Opt r1 =>
      match run fl r1 prev s cs k with
      | Some x => Some x
      | None => k prev s cs
      end
  | Rep min p => rep fl p min prev s (fun prev' s' => k prev' s' cs)
  | Grp i r1 =>
      run fl r1 prev s cs
        (fun prev' s' cs' => k prev' s' ((i, take (length s - length s') s) :: cs'))
  | Bol => if atBol fl prev then k prev s cs else None
  end.

End Run.

(** A match at the current position: the text left after it and the
    captures. *)
Definition matchAt (fl : flags) (r : regex) (prev : option ascii) (s : str)
    : option (str * caps) :=
  run fl r prev s [] (fun _ s' cs => Some (s', cs)).

Record found := { before : str; matched : str; after : str; groups : caps }.

(** [RegExp.prototype.exec] from the current position: the leftmost match. *)
Fixpoint search (fl : flags) (r : regex) (prev : option ascii) (s : str)
    : option found :=
  match matchAt fl r prev s with
  | Some (s', cs) =>
      Some {| before := []; matched := take (length s - length s') s;
              after := s'; groups := cs |}
  | None =>
      match s with
      | [] => None
      | c :: t =>
          match search fl r (Some c) t with
          | Some f => Some {| before := c :: before f; matched := matched f;
                              after := after f; groups := groups f |}
          | None => None
          end
      end
  end.

(** [s.match(re)] without the global flag. *)
Definition exec (fl : flags) (r : regex) (s : str) : option found :=
  search fl r None s.

(** GetSubstitution for a replacement string: [$$], [$&], [$`] and [$']
    (the patterns replaced with a string have no capture group, so [$n]
    stands for itself). *)
Fixpoint substitute (f : found) (t : str) : str :=
  match t with
  | "$"%char :: t' =>
      match t' with
      | "$"%char :: t'' => "$"%char :: substitute f t''
      | "&"%char :: t'' => matched f ++ substitute f t''
      | "`"%char :: t'' => before f ++ substitute f t''
      | "'"%char :: t'' => after f ++ substitute f t''
      | _ => "$"%char :: substitute f t'
      end
  | c :: t' => c :: substitute f t'
  | [] => []
  end.

(** [s.replace(re, t)] without the global flag: the first match only. *)
Definition replaceFirst (fl : flags) (r : regex) (s t : str) : str :=
  match exec fl r s with
  | Some f => before f ++ substitute f t ++ after f
  | None => s
  end.

(** One piece of the subject of a global replace: a character outside
    every match, or a match with its captures. *)
Inductive piece : Type :=
| Keep (c : ascii)
| Hit (m : str) (cs : caps).

(** The scan of [s.replace(re, f)] with the global flag: matches are taken
    leftmost first and do not overlap; after an empty match the scan moves
    on by one character.  [skip] counts the characters of the current
    match still to be passed. *)
Fixpoint scan (fl : flags) (r : regex) (skip : nat) (prev : option ascii)
    (s : str) : list piece :=
  match skip with
  | S n =>
      match s with
      | c :: t => scan fl r n (Some c) t
      | [] => []
      end
  | 0 =>
      match matchAt fl r prev s with
      | Some (s', cs) =>
          let m := take (length s - length s') s in
          Hit m cs ::
          match s with
          | c :: t =>
              match length m with
              | 0 => Keep c :: scan fl r 0 (Some c) t
              | S n => scan fl r n (Some c) t
              end
          | [] => []
          end
      | None =>
          match s with
          | c :: t => Keep c :: scan fl r 0 (Some c) t
          | [] => []
          end
      end
  end.

Definition source (p : piece) : str :=
  match p with
  | Keep c => [c]
  | Hit m _ => m
  end.

Definition replaced (f : str -> caps -> str) (p : piece) : str :=
  match p with
  | Keep c => [c]
  | Hit m cs => f m cs
  end.

(** [s.replace(re, f)] with the global flag and a replacer function. *)
Definition replaceAll (fl : flags) (r : regex) (s : str)
    (f : str -> caps -> str) : str :=
  concat (map (replaced f) (scan fl r 0 None s)).

(** *** What a pattern matches

    The relation the matcher computes: [Matches fl r prev w cs cs'] says
    that the text [w], found right after the character [prev], is matched
    by [r], taking the captures from [cs] to [cs']. *)

Definition prevAfter (prev : option ascii) (w : str) : option ascii :=
  match last w with
  | Some c => Some c
  | None => prev
  end.

Fixpoint Matches (fl : flags) (r : regex) (prev : option ascii) (w : str)
    (cs cs' : caps) : Prop :=
  match r with
  | Eps => w = [] /\ cs' = cs
  | Chr c => exists a, w = [a] /\ chrMatch fl c a = true /\ cs' = cs
  | Cls p => exists a, w = [a] /\ clsMatch fl p a = true /\ cs' = cs
  | Seq r1 r2 =>
      exists w1 w2 cs1,
        w = w1 ++ w2 /\ Matches fl r1 prev w1 cs cs1 /\
        Matches fl r2 (prevAfter prev w1) w2 cs1 cs'
  | Alt r1 r2 => Matches fl r1 prev w cs cs' \/ Matches fl r2 prev w cs cs'
  | Opt r1 => Matches fl r1 prev w cs cs' \/ (w = [] /\ cs' = cs)
  | Rep min p =>
      Forall (fun a => clsMatch fl p a = true) w /\ min <= length w /\ cs' = cs
  | Grp i r1 => exists cs1, Matches fl r1 prev w cs cs1 /\ cs' = (i, w) :: cs1
  | Bol => w = [] /\ atBol fl prev = true /\ cs' = cs
  end.

End Regex.

(** ** Paths ([node:path], POSIX) *)

Module Path.

Definition isSlash (c : ascii) : bool := Str.eqc c "/"%char.
Definition notSlash (c : ascii) : bool := negb (isSlash c).
Definition notDot (c : ascii) : bool := negb (Str.eqc c "."%char).

Fixpoint dropWhile (p : ascii -> bool) (s : str) : str :=
  match s with
  | c :: s' => if p c then dropWhile p s' else s
  | [] => []
  end.

Fixpoint takeWhile (p : ascii -> bool) (s : str) : str :=
  match s with
  | c :: s' => if p c then c :: takeWhile p s' else []
  | [] => []
  end.

(** A canonical absolute path: its segments below the root. *)
Abbreviation path := (list str).

(** One segment applied to the path built so far (normalizeString): empty
    and [.] segments vanish, [..] drops the last segment and stays at the
    root. *)
Definition applySeg (acc : path) (seg : str) : path :=
  if Str.eqs seg "" || Str.eqs seg "." then acc
  else if Str.eqs seg ".." then removelast acc
  else acc ++ [seg].

Definition applyPath (acc : path) (p : str) : path :=
  fold_left applySeg (Str.split "/"%char p)
    (if Str.startsWith "/" p then [] else acc).

(** [path.resolve(wd, ...ps)] for the absolute working directory [wd]. *)
Definition resolve (wd : path) (ps : list str) : path :=
  fold_left applyPath ps wd.

(** The string of a canonical path. *)
Definition render (p : path) : str := "/" ++ Str.join "/" p.

(** [path.dirname] *)
Definition dirname (s : str) : str :=
  match s with
  | [] => "."
  | c0 :: t =>
      match dropWhile notSlash (dropWhile isSlash (rev t)) with
      | [] => if isSlash c0 then "/" else "."
      | _ :: r' =>
          if isSlash c0 && Str.eqs r' "" then "//" else c0 :: rev r'
      end
  end.

(** [path.basename] *)
Definition basename (s : str) : str :=
  rev (takeWhile notSlash (dropWhile isSlash (rev s))).

(** [path.parse(s).name]: the base name without its extension; a leading
    dot does not start an extension, and the base name [..] has none,
    except right below the root, where the name is [.]. *)
Definition parseName (s : str) : str :=
  let b := basename s in
  let rb := rev b in
  let ext := takeWhile notDot rb in
  match dropWhile notDot rb with
  | [] => b
  | _ :: rest =>
      if Str.eqs rest "" then b
      else if Str.eqs rest "." && Str.eqs ext "" then
        if Str.eqs (rev (dropWhile isSlash (rev s))) "/.." then "." else b
      else rev rest
  end.

Fixpoint stripCommon (a b : path) : path * path :=
  match a, b with
  | x :: a', y :: b' => if Str.eqs x y then stripCommon a' b' else (a, b)
  | _, _ => (a, b)
  end.

(** [path.relative(from, to)]: both are resolved first; one [..] for each
    segment of [from] below the common directory, then the rest of [to]. *)
Definition relative (wd : path) (from to : str) : str :=
  let '(f, t) := stripCommon (resolve wd [from]) (resolve wd [to]) in
  Str.join "/" (repeat ("..") (length f) ++ t).

(** A segment of a canonical path: not empty, not [.] or [..], without a
    slash. *)
Definition okSeg (seg : str) : bool :=
  negb (Str.eqs seg "") && negb (Str.eqs seg ".") && negb (Str.eqs seg "..")
  && forallb notSlash seg.

Definition canonical (p : path) : Prop := forallb okSeg p = true.

End Path.

(** ** The file store ([node:fs]) *)

Module Fs.

Inductive node : Type :=
| File (content : str)
| Dir.

Abbreviation store := (gmap Path.path node).

Inductive error : Type :=
| UnknownHook (id : str)                (* Error("Unknown hook: <id>") *)
| FetchFailed (url : str)               (* Error("Fetch <status>: <url>") *)
| Usage                                 (* Error("Usage: ...") *)
| ENOENT (p : Path.path)
| EISDIR (p : Path.path)
| ENOTDIR (p : Path.path)
| EEXIST (p : Path.path)
| Unmodelled.                            (* pattern text outside [parsePattern] *)

Inductive result (A : Type) : Type :=
| Ok (a : A)
| Err (e : error).
Arguments Ok {A} a.
Arguments Err {A} e.

(** An effectful computation: the outcome and the store it leaves, also
    when it fails (nothing is rolled back). *)
Definition M (A : Type) : Type := store -> result A * store.

Definition ret {A} (a : A) : M A := fun s => (Ok a, s).
Definition throw {A} (e : error) : M A := fun s => (Err e, s).
Definition bind {A B} (m : M A) (f : A -> M B) : M B :=
  fun s =>
    match m s with
    | (Ok a, s') => f a s'
    | (Err e, s') => (Err e, s')
    end.

(** A fetch: the remote answer, or a failed request. *)
Definition fetched {A} (url : str) (o : option A) : M A :=
  match o with
  | Some a => ret a
  | None => throw (FetchFailed url)
  end.

(** The node at a path; the root is always a directory. *)
Definition nodeAt (s : store) (p : Path.path) : option node :=
  match p with
  | [] => Some Dir
  | _ => s !! p
  end.

Definition isDir (s : store) (p : Path.path) : bool :=
  match nodeAt s p with Some Dir => true | _ => false end.

Definition isFile (s : store) (p : Path.path) : bool :=
  match nodeAt s p with Some (File _) => true | _ => false end.

(** [fs.existsSync] *)
Definition existsAt (s : store) (p : Path.path) : bool :=
  match nodeAt s p with Some _ => true | None => false end.

(** The directories from [p] up to (not including) the root. *)
Fixpoint upsRev (r : list str) : list Path.path :=
  match r with
  | [] => []
  | _ :: r' => rev r :: upsRev r'
  end.

Definition ups (p : Path.path) : list Path.path := upsRev (rev p).

Definition mkdirs (s : store) (l : list Path.path) : store :=
  foldr (fun q acc => <[q := Dir]> acc) s l.

(** [fs.promises.mkdir(p, { recursive: true })]: a file at [p] or above it
    makes it fail, and the error names the directory asked for. *)
Definition mkdirp (p : Path.path) : M unit :=
  fun s =>
    match find (isFile s) (ups p) with
    | Some q => (Err (if decide (q = p) then EEXIST p else ENOTDIR p), s)
    | None => (Ok tt, mkdirs s (ups p))
    end.

(** Every directory from [p] up to the root is there. *)
Definition treeTo (s : store) (p : Path.path) : bool :=
  forallb (isDir s) (ups p).

(** The store names its nodes by canonical paths. *)
Definition storeOk (s : store) : Prop :=
  map_Forall (fun q _ => Path.canonical q) s.

(** The content of the file at [p] (empty when there is none). *)
Definition contentAt (s : store) (p : Path.path) : str :=
  match nodeAt s p with
  | Some (File c) => c
  | _ => []
  end.

(** [fs.promises.readFile(p, "utf8")] *)
Definition readFile (p : Path.path) : M str :=
  fun s =>
    match nodeAt s p with
    | Some (File c) => (Ok c, s)
    | Some Dir => (Err (EISDIR p), s)
    | None => (Err (ENOENT p), s)
    end.

(** [fs.promises.writeFile(p, c, "utf8")] *)
Definition writeFile (p : Path.path) (c : str) : M unit :=
  fun s =>
    if isDir s p then (Err (EISDIR p), s)
    else if isDir s (removelast p) then (Ok tt, <[p := File c]> s)
    else (Err (ENOENT p), s).

(** [fs.promises.appendFile(p, c, "utf8")] *)
Definition appendFile (p : Path.path) (c : str) : M unit :=
  fun s =>
    match nodeAt s p with
    | Some (File old) => writeFile p (old ++ c) s
    | _ => writeFile p c s
    end.

(** [fs.promises.copyFile(src, dst)]; copying a file onto itself leaves it
    as it is. *)
Definition copyFile (src dst : Path.path) : M unit :=
  bind (readFile src) (fun c =>
    if decide (src = dst) then ret tt else writeFile dst c).

(** [fs.promises.unlink(p)] *)
Definition unlink (p : Path.path) : M unit :=
  fun s =>
    match nodeAt s p with
    | Some (File _) => (Ok tt, delete p s)
    | Some Dir => (Err (EISDIR p), s)
    | None => (Err (ENOENT p), s)
    end.

(** [q] lies strictly below the directory [d], and every directory from
    [d] down to [q] is there to be walked through. *)
Definition below (s : store) (d q : Path.path) : bool :=
  bool_decide (d `prefix_of` q) && negb (bool_decide (d = q)) &&
  forallb (fun a => bool_decide (a = q) || negb (bool_decide (d `prefix_of` a))
                    || isDir s a) (ups q).

(** [strcmp] on names: the byte order, a name before its extensions. *)
Fixpoint nameLeb (a b : str) : bool :=
  match a, b with
  | [], _ => true
  | _ :: _, [] => false
  | x :: a', y :: b' =>
      (Str.code x <? Str.code y) || ((Str.code x =? Str.code y) && nameLeb a' b')
  end.

Definition nameLe (a b : str) : Prop := nameLeb a b = true.

#[global] Instance nameLe_dec : RelDecision nameLe :=
  fun a b => bool_eq_dec (nameLeb a b) true.

(** The name of [q] as an entry of the directory [d]. *)
Definition entryOf (d q : Path.path) : option str :=
  match last q with
  | Some n => if decide (q = d ++ [n]) then Some n else None
  | None => None
  end.

(** The names of the entries of the directory [d]. *)
Definition entries (s : store) (d : Path.path) : gset str :=
  list_to_set (omap (fun '(q, _) => entryOf d q) (map_to_list s)).

(** [fs.promises.readdir(d)]: the names of the entries of [d], in byte
    order (the entries of a directory scan come sorted by [strcmp]). *)
Definition readdir (s : store) (d : Path.path) : list str :=
  merge_sort nameLe (elements (entries s d)).

(** The loop of [walk(d)], its recursion bounded by [fuel]: the entries of
    [d] in the order of [readdir], a directory replaced by the files of
    its own walk. *)
Fixpoint walkFrom (fuel : nat) (s : store) (d : Path.path) : list Path.path :=
  match fuel with
  | 0 => []
  | S fuel' =>
      flat_map (fun n => if isDir s (d ++ [n]) then walkFrom fuel' s (d ++ [n])
                         else [d ++ [n]])
               (readdir s d)
  end.

(** No path of the store is longer: a bound on the depth of a walk. *)
Definition depth (s : store) : nat :=
  S (max_list (map (fun '(q, _) => length q) (map_to_list s))).

(** The files found by the recursive [walk(dir)] of a directory, in the
    order in which it finds them: as keys and as path strings. *)
Definition walkKeys (s : store) (d : Path.path) : list Path.path :=
  if isDir s d then walkFrom (depth s) s d else [].

(** The bound [fuel] is enough for the walk of [d]. *)
Definition deepEnough (fuel : nat) (s : store) (d : Path.path) : Prop :=
  forall q, is_Some (s !! q) -> d `prefix_of` q -> length q < length d + fuel.

Definition walkFiles (s : store) (d : Path.path) : list str :=
  map Path.render (walkKeys s d).

End Fs.

(** ** Data of the program *)

Notation "x <- m ;; k" := (Fs.bind m (fun x => k))
  (at level 100, m at next level, right associativity).

Definition dq : ascii := "034"%char.      (* the double quote *)
Definition sq : ascii := "039"%char.      (* the single quote *)
Definition CR : ascii := "013"%char.
Definition LF : ascii := "010"%char.

Definition REGISTRY_URL : str :=
  "https://raw.githubusercontent.com/wkkkis/hooks-registry/main/registry.json".

Definition CONFIG_FILE : str := "hooks.config.json".

Record ProjectConfig := {
  baseDir : str;
  addIndex : bool;
  stripUseClient : bool;
  aliasPrefix : option str;
  aliasTarget : option str
}.

Definition DEFAULT_CFG : ProjectConfig :=
  {| baseDir := "src/hooks"; addIndex := true; stripUseClient := false;
     aliasPrefix := None; aliasTarget := None |}.

(** The values of [JSON.parse]. *)
Inductive json : Type :=
| JNull
| JBool (b : bool)
| JNum (n : Z)
| JStr (s : str)
| JArr (l : list json)
| JObj (fields : list (str * json)).

(** The registry document and a hook's [meta.json] (typed [any] in the
    source), with the fields the program reads. *)
Record HookEntry := { entry_id : str; entry_path : str }.

Record Registry := {
  reg_baseUrl : str;
  reg_version : option str;
  reg_hooks : list HookEntry
}.

Record FileDesc := { file_from : str; file_to : str }.

Record Meta := {
  meta_name : str;
  meta_id : str;
  meta_version : option str;
  meta_files : list FileDesc
}.

(** The [options] argument of [installHook]. *)
Record InstallOptions := {
  dry : option bool;
  force : option bool;
  opt_stripUseClient : option bool
}.

(** Truthiness of an optional flag, as in [options?.dry]. *)
Definition truthy (o : option bool) : bool :=
  match o with Some b => b | None => false end.

(** Truthiness of a string: the empty string is falsy. *)
Definition nonEmpty (s : str) : bool :=
  match s with [] => false | _ => true end.

(** [x ?? d] *)
Definition orElse {A} (o : option A) (d : A) : A :=
  match o with Some a => a | None => d end.

(** ** Pure functions of the program *)

(** The double nearest to an integer, ties to even: the integers below
    2^53 are doubles themselves.  (Overflow to Infinity, from 2^1024 on,
    is not covered.) *)
Definition roundDouble (z : Z) : Z :=
  let a := Z.abs z in
  if (a <? 2 ^ 53)%Z then z
  else
    let e := (Z.log2 a - 52)%Z in
    let q := (a / 2 ^ e)%Z in
    let r := (a mod 2 ^ e)%Z in
    let h := (2 ^ (e - 1))%Z in
    let q' := if (r <? h)%Z then q
              else if (h <? r)%Z then (q + 1)%Z
              else if Z.even q then q else (q + 1)%Z in
    (Z.sgn z * (q' * 2 ^ e))%Z.

(** The result of [+n] on one component of a version.  Digit strings
    stand for the double nearest to their value and the empty string for
    0; any other text counts as NaN here (signs, exponents, radix prefixes
    and surrounding white space are not covered). *)
Inductive number : Type :=
| NaN
| Num (z : Z).

Definition digit (c : ascii) : Z := (Z.of_nat (Str.code c) - 48)%Z.

Definition decimal (s : str) : Z :=
  fold_left (fun acc c => (10 * acc + digit c)%Z) s 0%Z.

Definition toNumber (s : str) : number :=
  if forallb Str.isDigit s then Num (roundDouble (decimal s)) else NaN.

(** [x || 0] for an array element that may be missing. *)
Definition orZero (x : option number) : Z :=
  match x with
  | Some (Num z) => z
  | _ => 0%Z
  end.

Fixpoint cmpLoop (pa pb : list number) (i n : nat) : Z :=
  match n with
  | 0 => 0%Z
  | S n' =>
      let d := roundDouble (orZero (pa !! i) - orZero (pb !! i)) in
      if (d =? 0)%Z then cmpLoop pa pb (S i) n' else d
  end.

Definition cmpSemver (a b : str) : Z :=
  let pa := map toNumber (Str.split "."%char a) in
  let pb := map toNumber (Str.split "."%char b) in
  cmpLoop pa pb 0 3.

(** The text [major.minor.patch]. *)
Definition version (major minor patch : str) : str :=
  major ++ "." ++ minor ++ "." ++ patch.

(** A component of a semantic version: decimal digits, of a value doubles
    hold exactly. *)
Definition component (s : str) : Prop :=
  forallb Str.isDigit s = true /\ (decimal s < 2 ^ 53)%Z.

(** Comparison of major, then minor, then patch. *)
Definition lexCompare (a b : Z * Z * Z) : comparison :=
  let '(a1, a2, a3) := a in
  let '(b1, b2, b3) := b in
  match (a1 ?= b1)%Z with
  | Eq => match (a2 ?= b2)%Z with
          | Eq => (a3 ?= b3)%Z
          | c => c
          end
  | c => c
  end.

Definition isQuote (c : ascii) : bool := Str.eqc c sq || Str.eqc c dq.
Definition notQuote (c : ascii) : bool := negb (isQuote c).

(** [[a-z0-9-]] *)
Definition idChar (c : ascii) : bool :=
  Str.isLower c || Str.isDigit c || Str.eqc c "-"%char.

Import Regex.

Definition iflag : flags := {| ignoreCase := true; multiline := false |}.
Definition mflag : flags := {| ignoreCase := false; multiline := true |}.

(** [/hook:([a-z0-9-]+)@([0-9]+\.[0-9]+\.[0-9]+)/i] *)
Definition headerRe : regex :=
  Seq (Lit "hook:")
 (Seq (Grp 1 (Rep 1 idChar))
 (Seq (Chr "@"%char)
      (Grp 2 (Seq (Rep 1 Str.isDigit)
             (Seq (Chr "."%char)
             (Seq (Rep 1 Str.isDigit)
             (Seq (Chr "."%char) (Rep 1 Str.isDigit)))))))).

(** The object returned by [parseLocalHookVersion]. *)
Record LocalVersion := { lv_id : option str; lv_version : option str }.

Definition noVersion : LocalVersion := {| lv_id := None; lv_version := None |}.

(** The body of [parseLocalHookVersion] after the file is read. *)
Definition decodeHeader (content : str) : LocalVersion :=
  let first := take 2048 content in
  match exec iflag headerRe first with
  | Some m => {| lv_id := capture (groups m) 1;
                 lv_version := capture (groups m) 2 |}
  | None => noVersion
  end.

(** The header line written by [installHook]. *)
Definition header (id : str) (version registryVersion : option str) : str :=
  "/* Installed via wkkkis-hooks | hook:" ++ id ++ "@" ++
  orElse version "0.0.0" ++ " | registry:" ++ orElse registryVersion "0" ++
  " */" ++ [LF].

(** The identifiers and versions the header pattern reads back: letters,
    digits and hyphens; three runs of decimal digits. *)
Definition isIdChar (c : ascii) : bool :=
  Str.isLower c || Str.isUpper c || Str.isDigit c || Str.eqc c "-"%char.

Definition hookId (id : str) : Prop :=
  id <> [] /\ forallb isIdChar id = true.

Definition digits (d : str) : Prop :=
  d <> [] /\ forallb Str.isDigit d = true.

(** Equality up to the case of letters. *)
Definition sameFold (a b : str) : Prop := map canon a = map canon b.

(** The text holds a header marker [hook:<id>@<major>.<minor>.<patch>]. *)
Definition HeaderIn (s : str) : Prop :=
  exists pre h id d1 d2 d3 post,
    s = pre ++ h ++ id ++ "@" ++ version d1 d2 d3 ++ post /\
    sameFold h "hook:" /\ hookId id /\ digits d1 /\ digits d2 /\ digits d3.

(** [/^(?:src\/)?hooks/] *)
Definition remapRe : regex := Seq Bol (Seq (Opt (Lit "src/")) (Lit "hooks")).

Definition remapToBaseDir (originalTo baseDir : str) : str :=
  let norm := Str.slashes originalTo in
  replaceFirst noflags remapRe norm (Str.slashes baseDir).

Definition fileBaseName (destPath : str) : str := Path.parseName destPath.

(** [/^\s*['"]use client['"];\s*\r?\n/] *)
Definition useClientRe : regex :=
  Seq Bol
 (Seq (Rep 0 Str.isSpace)
 (Seq (Cls isQuote)
 (Seq (Lit "use client")
 (Seq (Cls isQuote)
 (Seq (Chr ";"%char)
 (Seq (Rep 0 Str.isSpace)
 (Seq (Opt (Chr CR)) (Chr LF)))))))).

Definition removeUseClient (src : str) : str :=
  replaceFirst noflags useClientRe src "".

(** The characters [escapeRegex] puts a backslash before. *)
Definition isSpecial (c : ascii) : bool :=
  existsb (Str.eqc c) ".*+?^${}()|[]\".

Fixpoint escapeRegex (s : str) : str :=
  match s with
  | [] => []
  | c :: s' =>
      if isSpecial c then "\"%char :: c :: escapeRegex s'
      else c :: escapeRegex s'
  end.

(** The pattern a piece of text stands for when it is put into a
    [RegExp] source: ordinary characters and escaped special characters
    stand for themselves, a dot for any character but a line terminator.
    Text with other pattern syntax is outside this fragment. *)
Fixpoint parsePattern (s : str) : option regex :=
  match s with
  | [] => Some Eps
  | c :: s' =>
      if Str.eqc c "\"%char then
        match s' with
        | d :: s'' =>
            if isSpecial d then
              match parsePattern s'' with
              | Some r => Some (Seq (Chr d) r)
              | None => None
              end
            else None
        | [] => None
        end
      else if Str.eqc c "."%char then
        match parsePattern s' with
        | Some r => Some (Seq (Cls (fun a => negb (isLineTerminator a))) r)
        | None => None
        end
      else if isSpecial c then None
      else
        match parsePattern s' with
        | Some r => Some (Seq (Chr c) r)
        | None => None
        end
  end.

Definition toPosixPath (p : str) : str := Str.slashes p.

(** The four import shapes around the alias prefix [pre] (the pattern of
    the escaped prefix): groups 1-3, 4-6, 7-9 and 10-12. *)
Definition aliasRe (pre : regex) : regex :=
  Alt (Seq (Grp 1 (Seq (Lit "from") (Seq (Rep 1 Str.isSpace) (Cls isQuote))))
      (Seq pre (Seq (Grp 2 (Rep 1 notQuote)) (Grp 3 (Cls isQuote)))))
 (Alt (Seq (Grp 4 (Seq (Lit "import") (Seq (Rep 0 Str.isSpace)
                  (Seq (Chr "("%char) (Seq (Rep 0 Str.isSpace) (Cls isQuote))))))
      (Seq pre (Seq (Grp 5 (Rep 1 notQuote))
                    (Grp 6 (Seq (Cls isQuote)
                           (Seq (Rep 0 Str.isSpace) (Chr ")"%char)))))))
 (Alt (Seq (Grp 7 (Seq (Lit "export") (Seq (Rep 0 Str.isSpace)
                  (Seq (Chr "*"%char) (Seq (Rep 0 Str.isSpace)
                  (Seq (Lit "from") (Seq (Rep 0 Str.isSpace) (Cls isQuote))))))))
      (Seq pre (Seq (Grp 8 (Rep 1 notQuote)) (Grp 9 (Cls isQuote)))))
      (Seq (Grp 10 (Seq (Lit "require(") (Seq (Rep 0 Str.isSpace) (Cls isQuote))))
      (Seq pre (Seq (Grp 11 (Rep 1 notQuote))
                    (Grp 12 (Seq (Cls isQuote)
                            (Seq (Rep 0 Str.isSpace) (Chr ")"%char))))))))).

(** The pattern has no [^]: what it matches does not depend on the
    character before. *)
Fixpoint noBol (r : regex) : bool :=
  match r with
  | Bol => false
  | Seq r1 r2 | Alt r1 r2 => noBol r1 && noBol r2
  | Opt r1 | Grp _ r1 => noBol r1
  | _ => true
  end.

(** The four import shapes in words: the text [lhs] up to and including
    the opening quote, and the text [rhs] from the closing quote on. *)
Definition spaces (w : str) : Prop := forallb Str.isSpace w = true.

Definition quote (q : ascii) : Prop := isQuote q = true.

Inductive Shape : str -> str -> Prop :=
| shape_from ws q q' :
    ws <> [] -> spaces ws -> quote q -> quote q' ->
    Shape ("from" ++ ws ++ [q]) [q']
| shape_import ws1 ws2 ws3 q q' :
    spaces ws1 -> spaces ws2 -> spaces ws3 -> quote q -> quote q' ->
    Shape ("import" ++ ws1 ++ "(" ++ ws2 ++ [q]) (q' :: ws3 ++ ")")
| shape_export ws1 ws2 ws3 q q' :
    spaces ws1 -> spaces ws2 -> spaces ws3 -> quote q -> quote q' ->
    Shape ("export" ++ ws1 ++ "*" ++ ws2 ++ "from" ++ ws3 ++ [q]) [q']
| shape_require ws1 ws2 q q' :
    spaces ws1 -> spaces ws2 -> quote q -> quote q' ->
    Shape ("require(" ++ ws1 ++ [q]) (q' :: ws2 ++ ")").

(** The text [m] is an import of [prefix ++ x] in one of the shapes. *)
Definition AliasImport (prefix m lhs x rhs : str) : Prop :=
  m = lhs ++ prefix ++ x ++ rhs /\ Shape lhs rhs /\
  x <> [] /\ forallb notQuote x = true.

(** No import of the prefix starts inside the text [a] that stands before
    [rest]. *)
Definition noImportInside (prefix a rest : str) : Prop :=
  forall a1 a2 w rest' lhs x rhs,
    a = a1 ++ a2 -> a2 <> [] -> a2 ++ rest = w ++ rest' ->
    ~ AliasImport prefix w lhs x rhs.

(** The alias prefix, made to end with a slash. *)
Definition aliasPrefixOf (aliasPrefix : str) : str :=
  if Str.endsWith "/" aliasPrefix then aliasPrefix else aliasPrefix ++ "/".

Definition noBackslash (s : str) : Prop :=
  forallb (fun c => negb (Str.eqc c "\"%char)) s = true.

(** The loop of the replacer over the capture groups, three at a time:
    the first alternative whose left part is set (and not empty). *)
Fixpoint pickGroups (cs : caps) (i n : nat) : str * str * str :=
  match n with
  | 0 => ("", "", "")
  | S n' =>
      match capture cs i with
      | Some (c :: l) =>
          (c :: l, orElse (capture cs (i + 1)) "", orElse (capture cs (i + 2)) "")
      | _ => pickGroups cs (i + 3) n'
      end
  end.

(** ** A sample project

    A working directory, a remote with one hook of one file, and a few
    stores, on which the properties below are also run. *)

Module Sample.

Definition wd : Path.path := ["p"].

(** A codec that reads no text as a configuration. *)
Definition parse (_ : str) : option json := None.
Definition stringify (_ : json) : str := "{}".

Definition registry : Registry :=
  {| reg_baseUrl := "https://r"; reg_version := Some "1";
     reg_hooks := [{| entry_id := "use-x"; entry_path := "hooks/use-x" |}] |}.

Definition meta : Meta :=
  {| meta_name := "useX"; meta_id := "use-x"; meta_version := Some "1.0.0";
     meta_files := [{| file_from := "useX.ts"; file_to := "src/hooks/useX.ts" |}] |}.

Definition remoteRegistry (_ : str) : option Registry := Some registry.
Definition remoteMeta (_ : str) : option Meta := Some meta.
Definition remoteText (_ : str) : option str := Some "export const useX = 1;".
Definition prompt (_ : list str) : option str := None.

(** A remote that has the five hooks of the preset [essentials], each of
    one file. *)
Definition presetIds : list str :=
  ["use-boolean"; "use-debounce"; "use-disclosure"; "use-event-listener";
   "use-clipboard"].

Definition presetRegistry : Registry :=
  {| reg_baseUrl := "https://r"; reg_version := Some "1";
     reg_hooks :=
       map (fun id => {| entry_id := id; entry_path := "hooks/" ++ id |}) presetIds |}.

Definition presetMetaOf (id : str) : Meta :=
  {| meta_name := id; meta_id := id; meta_version := Some "1.0.0";
     meta_files :=
       [{| file_from := id ++ ".ts"; file_to := "src/hooks/" ++ id ++ ".ts" |}] |}.

Definition presetRemoteRegistry (_ : str) : option Registry := Some presetRegistry.

Definition presetRemoteMeta (url : str) : option Meta :=
  presetMetaOf <$>
    find (fun id => Str.eqs url ("https://r/hooks/" ++ id ++ "/meta.json")) presetIds.

Definition options : InstallOptions :=
  {| dry := None; force := None; opt_stripUseClient := None |}.

Definition dryOptions : InstallOptions :=
  {| dry := Some true; force := None; opt_stripUseClient := None |}.

Definition hooksDir : Path.path := ["p"; "src"; "hooks"].
Definition indexTs : Path.path := hooksDir ++ ["index.ts"].
Definition useX : Path.path := hooksDir ++ ["useX.ts"].

(** The directories down to [src/hooks], and nothing else. *)
Definition tree : Fs.store := Fs.mkdirs ∅ (Fs.ups hooksDir).

(** The tree with an index of the given content. *)
Definition withIndex (c : str) : Fs.store := <[indexTs := Fs.File c]> tree.

(** The tree with an earlier copy of the hook's file. *)
Definition installed : Fs.store := <[useX := Fs.File "old"]> tree.

(** One export statement of another module, with and without the end of
    its line. *)
Definition otherLine : str :=
  "export * from " ++ [dq] ++ "./other" ++ [dq] ++ ";" ++ [LF].
Definition otherText : str :=
  "export * from " ++ [dq] ++ "./other" ++ [dq] ++ ";".

(** The export line the install of the hook adds. *)
Definition useXLine : str :=
  "export * from " ++ [dq] ++ "./useX" ++ [dq] ++ ";" ++ [LF].

(** A hooks directory with a file, a subdirectory with a file, and a file
    that is not a module. *)
Definition hooks : Fs.store :=
  <[hooksDir ++ ["a.ts"] := Fs.File "A"]>
  (<[hooksDir ++ ["sub"; "b.js"] := Fs.File "B"]>
  (<[hooksDir ++ ["notes.md"] := Fs.File "N"]>
  (Fs.mkdirs ∅ (Fs.ups (hooksDir ++ ["sub"]))))).

(** A hooks directory with a file, and a subdirectory [v2] that holds a
    file of the same name. *)
Definition nested : Fs.store :=
  <[hooksDir ++ ["v2"; "a.ts"] := Fs.File "B"]>
  (<[hooksDir ++ ["a.ts"] := Fs.File "A"]>
  (Fs.mkdirs ∅ (Fs.ups (hooksDir ++ ["v2"])))).

End Sample.

(** ** The program over a working directory, a JSON codec and a remote *)

Section Cli.

(** [process.cwd()], a canonical absolute path. *)
Variable wd : Path.path.

(** [JSON.parse] ([None]: a syntax error) and [JSON.stringify(v, null, 2)]. *)
Variable JSON_parse : str -> option json.
Variable JSON_stringify : json -> str.

(** What the remote answers to [getJSON] and [getText], by URL ([None]: a
    request that fails). *)
Variable remoteRegistry : str -> option Registry.
Variable remoteMeta : str -> option Meta.
Variable remoteText : str -> option str.

(** The answer to the interactive choice of a hook ([None]: cancelled). *)
Variable promptHook : list str -> option str.

Definition getRegistry (url : str) : Fs.M Registry :=
  Fs.fetched url (remoteRegistry url).

Definition getMeta (url : str) : Fs.M Meta :=
  Fs.fetched url (remoteMeta url).

Definition getText (url : str) : Fs.M str :=
  Fs.fetched url (remoteText url).

(** The canonical path a path string names for the file system. *)
Definition key (p : str) : Path.path := Path.resolve wd [p].

(** [cwd(...p)] *)
Definition cwd (ps : list str) : str := Path.render (Path.resolve wd ps).

Definition existsSync (p : str) : Fs.M bool :=
  fun s => (Fs.Ok (Fs.existsAt s (key p)), s).

Definition ensureDir (d : str) : Fs.M unit := Fs.mkdirp (key d).

(** [findConfig()]: the first directory from the working directory upwards
    that holds the configuration file. *)
Definition findConfig (s : Fs.store) : option Path.path :=
  find (Fs.existsAt s)
       (map (fun d => d ++ [CONFIG_FILE]) (Fs.ups wd ++ [[]])).

(** Property access [data.k] on a parsed value: [None] is the TypeError
    on [null], [Some None] is [undefined]. *)
Definition getField (data : json) (k : str) : option (option json) :=
  match data with
  | JNull => None
  | JObj fields => Some (snd <$> find (fun kv => Str.eqs (fst kv) k) fields)
  | _ => Some None
  end.

Definition asString (v : option json) : option str :=
  match v with Some (JStr s) => Some s | _ => None end.

Definition asBool (v : option json) : option bool :=
  match v with Some (JBool b) => Some b | _ => None end.

Definition configOfJson (data : json) : option ProjectConfig :=
  match data with
  | JNull => None
  | _ =>
      let get k := orElse (getField data k) None in
      Some {| baseDir := orElse (asString (get "baseDir")) (baseDir DEFAULT_CFG);
              addIndex := orElse (asBool (get "addIndex")) (addIndex DEFAULT_CFG);
              stripUseClient :=
                orElse (asBool (get "stripUseClient")) (stripUseClient DEFAULT_CFG);
              aliasPrefix := asString (get "aliasPrefix");
              aliasTarget := asString (get "aliasTarget") |}
  end.

(** [readConfig()]: reads only; every failure gives [null]. *)
Definition readConfig (s : Fs.store) : option ProjectConfig :=
  match findConfig s with
  | None => None
  | Some p =>
      match Fs.nodeAt s p with
      | Some (Fs.File text) =>
          match JSON_parse text with
          | Some data => configOfJson data
          | None => None
          end
      | _ => None
      end
  end.

Definition getConfig : Fs.M (option ProjectConfig) :=
  fun s => (Fs.Ok (readConfig s), s).

(** The object [JSON.stringify] sees: undefined fields are left out. *)
Definition jsonOfConfig (cfg : ProjectConfig) : json :=
  JObj ([("baseDir", JStr (baseDir cfg));
         ("addIndex", JBool (addIndex cfg));
         ("stripUseClient", JBool (stripUseClient cfg))]
        ++ match aliasPrefix cfg with Some p => [("aliasPrefix", JStr p)] | None => [] end
        ++ match aliasTarget cfg with Some t => [("aliasTarget", JStr t)] | None => [] end).

Definition writeConfig (cfg : ProjectConfig) : Fs.M unit :=
  let p := cwd [CONFIG_FILE] in
  _ <- Fs.writeFile (key p) (JSON_stringify (jsonOfConfig cfg) ++ [LF]) ;;
  ensureDir (cwd [baseDir cfg]).

Definition backupFile (filePath : str) : Fs.M (option str) :=
  ex <- existsSync filePath ;;
  if negb ex then Fs.ret None
  else
    let bak := filePath ++ ".bak" in
    _ <- Fs.copyFile (key filePath) (key bak) ;;
    Fs.ret (Some bak).

Definition parseLocalHookVersion (filePath : str) : Fs.M LocalVersion :=
  ex <- existsSync filePath ;;
  if negb ex then Fs.ret noVersion
  else
    content <- Fs.readFile (key filePath) ;;
    Fs.ret (decodeHeader content).

(** The replacer of [rewriteAliasImports] for one match. *)
Definition rewriteMatch (targetAbs destAbsFile : str) (m : str) (cs : caps) : str :=
  let '(lhs, subpath, rhs) := pickGroups cs 1 4 in
  if negb (nonEmpty subpath) then m
  else
    let abs := Path.render (Path.resolve wd [targetAbs; subpath]) in
    let rel := toPosixPath (Path.relative wd (Path.dirname destAbsFile) abs) in
    let normalized := if Str.startsWith "." rel then rel else "./" ++ rel in
    lhs ++ normalized ++ rhs.

(** The path the replacer writes for the subpath [x]. *)
Definition relativeImport (targetAbs destAbsFile x : str) : str :=
  let abs := Path.render (Path.resolve wd [targetAbs; x]) in
  let rel := toPosixPath (Path.relative wd (Path.dirname destAbsFile) abs) in
  if Str.startsWith "." rel then rel else "./" ++ rel.

Definition rewriteAliasImports (code : str) (aliasPrefix aliasTarget : option str)
    (destAbsFile projectRootAbs : str) : str :=
  match aliasPrefix, aliasTarget with
  | Some ap, Some at_ =>
      if negb (nonEmpty ap) || negb (nonEmpty at_) then code
      else
        let prefix := aliasPrefixOf ap in
        let targetAbs := Path.render (Path.resolve wd [projectRootAbs; at_]) in
        replaceAll noflags (aliasRe (Lit prefix)) code
          (rewriteMatch targetAbs destAbsFile)
  | _, _ => code
  end.

Definition exportLine (name : str) : str :=
  "export * from " ++ [dq] ++ "./" ++ name ++ [dq] ++ ";" ++ [LF].

Definition noLF (s : str) : Prop :=
  forallb (fun c => negb (Str.eqc c LF)) s = true.

(** The body of the loop of [installHook] for one file descriptor; the
    value is the new [lastExportName]. *)
Definition installFile (registry : Registry) (entry : HookEntry) (meta : Meta)
    (cfg : ProjectConfig) (stripClient : bool) (baseDir : str)
    (options : option InstallOptions) (f : FileDesc) : Fs.M str :=
  let destRemapped := remapToBaseDir (file_to f) baseDir in
  let dest := cwd [destRemapped] in
  let src := reg_baseUrl registry ++ "/" ++ entry_path entry ++ "/" ++ file_from f in
  if truthy (options ≫= dry) then Fs.ret (fileBaseName dest)
  else
    content <- getText src ;;
    let content := if stripClient then removeUseClient content else content in
    let content :=
      rewriteAliasImports content (aliasPrefix cfg) (aliasTarget cfg) dest (cwd []) in
    _ <- ensureDir (Path.dirname dest) ;;
    let header := header (meta_id meta) (meta_version meta) (reg_version registry) in
    ex <- existsSync dest ;;
    _ <- (if ex && negb (truthy (options ≫= force))
          then _ <- backupFile dest ;; Fs.ret tt
          else Fs.ret tt) ;;
    _ <- Fs.writeFile (key dest) (header ++ content) ;;
    Fs.ret (fileBaseName dest).

Fixpoint installFiles (body : FileDesc -> Fs.M str) (files : list FileDesc)
    (lastExportName : option str) : Fs.M (option str) :=
  match files with
  | [] => Fs.ret lastExportName
  | f :: rest =>
      name <- body f ;;
      installFiles body rest (Some name)
  end.

(** The index block at the end of [installHook]. *)
Definition updateIndex (baseDir : str) (options : option InstallOptions)
    (lastExportName : str) : Fs.M unit :=
  let indexFile := "index.ts" in
  let indexPath := cwd [baseDir; indexFile] in
  let exportLine := exportLine lastExportName in
  if truthy (options ≫= dry) then Fs.ret tt
  else
    ex <- existsSync indexPath ;;
    if ex then
      curr <- Fs.readFile (key indexPath) ;;
      if negb (Str.includes exportLine curr)
      then Fs.appendFile (key indexPath) exportLine
      else Fs.ret tt
    else
      _ <- ensureDir (Path.dirname indexPath) ;;
      Fs.writeFile (key indexPath) exportLine.

Definition findHook (registry : Registry) (hookId : str) : option HookEntry :=
  find (fun h => bool_decide (entry_id h = hookId)) (reg_hooks registry).

Definition metaUrl (registry : Registry) (entry : HookEntry) : str :=
  reg_baseUrl registry ++ "/" ++ entry_path entry ++ "/meta.json".

Definition installHook (hookId baseDir : str) (addIndex : bool)
    (options : option InstallOptions) : Fs.M unit :=
  registry <- getRegistry REGISTRY_URL ;;
  match findHook registry hookId with
  | None => Fs.throw (Fs.UnknownHook hookId)
  | Some entry =>
      meta <- getMeta (metaUrl registry entry) ;;
      cfg0 <- getConfig ;;
      let cfg := orElse cfg0 DEFAULT_CFG in
      let stripClient :=
        orElse (options ≫= opt_stripUseClient) (stripUseClient cfg) in
      lastExportName <-
        installFiles (installFile registry entry meta cfg stripClient baseDir options)
                     (meta_files meta) None ;;
      match lastExportName with
      | Some name =>
          if addIndex && nonEmpty name then updateIndex baseDir options name
          else Fs.ret tt
      | None => Fs.ret tt
      end
  end.

(** The options of [cmdAdd], [cmdUpdate] and [cmdRemove]. *)
Record CmdOptions := {
  opt_baseDir : option str;
  opt_addIndex : option bool;
  opt_dry : option bool;
  opt_force : option bool
}.

Definition cmdAdd (hookId : option str) (opts : option CmdOptions) : Fs.M unit :=
  cfg <- getConfig ;;
  registry <- getRegistry REGISTRY_URL ;;
  let chosen :=
    match hookId with
    | Some (c :: l) => Some (c :: l)
    | _ =>
        match promptHook (map entry_id (reg_hooks registry)) with
        | Some (c :: l) => Some (c :: l)
        | _ => None
        end
    end in
  match chosen with
  | None => Fs.ret tt
  | Some id =>
      let baseDir :=
        orElse (opts ≫= opt_baseDir) (orElse (baseDir <$> cfg) "src/hooks") in
      let addIndex :=
        orElse (opts ≫= opt_addIndex) (orElse (addIndex <$> cfg) true) in
      cfg' <- getConfig ;;
      installHook id baseDir addIndex
        (Some {| dry := None; force := None;
                 opt_stripUseClient :=
                   Some (orElse (stripUseClient <$> cfg') false) |})
  end.

Definition cmdUpdate (hookId : str) (opts : option CmdOptions) : Fs.M unit :=
  cfg <- getConfig ;;
  let baseDir :=
    orElse (opts ≫= opt_baseDir) (orElse (baseDir <$> cfg) "src/hooks") in
  let addIndex :=
    orElse (opts ≫= opt_addIndex) (orElse (addIndex <$> cfg) true) in
  installHook hookId baseDir addIndex
    (Some {| dry := opts ≫= opt_dry; force := opts ≫= opt_force;
             opt_stripUseClient :=
               Some (orElse (stripUseClient <$> cfg) false) |}).

(** [^export \* from "\./<base>";\r?\n?] with the base name put into the
    pattern text as it is. *)
Definition removeRe (base : regex) : regex :=
  Seq Bol
 (Seq (Lit "export * from ")
 (Seq (Chr dq)
 (Seq (Lit "./")
 (Seq base
 (Seq (Chr dq)
 (Seq (Chr ";"%char)
 (Seq (Opt (Chr CR)) (Opt (Chr LF))))))))).

(** The inner loop of [cmdRemove] for one index file name. *)
Definition pruneIndex (baseDir base idxName : str) : Fs.M unit :=
  let indexPath := cwd [baseDir; idxName] in
  ex <- existsSync indexPath ;;
  if negb ex then Fs.ret tt
  else
    curr <- Fs.readFile (key indexPath) ;;
    match parsePattern base with
    | None => Fs.throw Fs.Unmodelled
    | Some rb =>
        match exec mflag (removeRe rb) curr with
        | Some m => Fs.writeFile (key indexPath) (before m ++ after m)
        | None => Fs.ret tt
        end
    end.

(** The body of the loop of [cmdRemove] for one file descriptor. *)
Definition removeFile (baseDir : str) (f : FileDesc) : Fs.M unit :=
  let destRemapped := remapToBaseDir (file_to f) baseDir in
  let dest := cwd [destRemapped] in
  let base := fileBaseName dest in
  ex <- existsSync dest ;;
  _ <- (if ex then Fs.unlink (key dest) else Fs.ret tt) ;;
  _ <- pruneIndex baseDir base "index.ts" ;;
  pruneIndex baseDir base "index.js".

Fixpoint forEach {A} (body : A -> Fs.M unit) (l : list A) : Fs.M unit :=
  match l with
  | [] => Fs.ret tt
  | a :: rest => _ <- body a ;; forEach body rest
  end.

Definition cmdRemove (hookId : str) (opts : option CmdOptions) : Fs.M unit :=
  cfg <- getConfig ;;
  let baseDir :=
    orElse (opts ≫= opt_baseDir) (orElse (baseDir <$> cfg) "src/hooks") in
  registry <- getRegistry REGISTRY_URL ;;
  match findHook registry hookId with
  | None => Fs.throw (Fs.UnknownHook hookId)
  | Some entry =>
      meta <- getMeta (metaUrl registry entry) ;;
      forEach (removeFile baseDir) (meta_files meta)
  end.

(** [walk(dir)]: [readdir] fails unless [dir] is a directory, with
    ENOTDIR when [dir] or a directory above it is a file. *)
Definition walk (dir : str) : Fs.M (list str) :=
  fun s =>
    if Fs.isDir s (key dir) then (Fs.Ok (Fs.walkFiles s (key dir)), s)
    else if Fs.isFile s (key dir) || existsb (Fs.isFile s) (Fs.ups (key dir))
         then (Fs.Err (Fs.ENOTDIR (key dir)), s)
    else (Fs.Err (Fs.ENOENT (key dir)), s).

(** The body of the copy loop of [cmdMigrate]. *)
Definition migrateFile (newBaseDir full : str) : Fs.M unit :=
  let basename := Path.basename full in
  let target := cwd [newBaseDir; basename] in
  Fs.copyFile (key full) (key target).

Definition lastSeg (q : Path.path) : str := List.last q [].

(** The store after the copy loop of [cmdMigrate]: each file of [L], with
    the content it has in [s0], written under [N] by its base name. *)
Definition copies (s0 : Fs.store) (N : Path.path) (L : list Path.path)
    (t : Fs.store) : Fs.store :=
  fold_left (fun acc q => <[N ++ [lastSeg q] := Fs.File (Fs.contentAt s0 q)]> acc)
            L t.

(** The extensions [cmdMigrate] copies. *)
Definition recognized (p : str) : bool :=
  Str.endsWith ".ts" p || Str.endsWith ".js" p.

Definition cmdMigrate (newBaseDir : str) : Fs.M unit :=
  if negb (nonEmpty newBaseDir) || negb (nonEmpty (Str.trim newBaseDir))
  then Fs.throw Fs.Usage
  else
    cfg0 <- getConfig ;;
    let cfg := orElse cfg0 DEFAULT_CFG in
    let oldBase := baseDir cfg in
    if bool_decide (cwd [oldBase] = cwd [newBaseDir]) then Fs.ret tt
    else
      _ <- ensureDir (cwd [newBaseDir]) ;;
      ex <- existsSync (cwd [oldBase]) ;;
      files <- (if ex
                then all <- walk (cwd [oldBase]) ;;
                     Fs.ret (List.filter recognized all)
                else Fs.ret []) ;;
      _ <- forEach (migrateFile newBaseDir) files ;;
      let nextCfg :=
        {| baseDir := newBaseDir; addIndex := addIndex cfg;
           stripUseClient := stripUseClient cfg;
           aliasPrefix := aliasPrefix cfg; aliasTarget := aliasTarget cfg |} in
      writeConfig nextCfg.

(** The destination of a file descriptor under [baseDir], as [installHook]
    and [cmdRemove] compute it. *)
Definition destOf (baseDir : str) (f : FileDesc) : str :=
  cwd [remapToBaseDir (file_to f) baseDir].

(** The paths an install of [files] may create or write: the destinations,
    the directories above them, and the backups. *)
Definition touched (baseDir : str) (files : list FileDesc) (p : Path.path) : Prop :=
  exists f, f ∈ files /\
    (p `prefix_of` key (destOf baseDir f) \/ p = key (destOf baseDir f ++ ".bak")).

(** From [s] to [s'] files stay files, and nothing changes outside [P]. *)
Definition frame (P : Path.path -> Prop) (s s' : Fs.store) : Prop :=
  forall p, (Fs.isFile s p = true -> Fs.isFile s' p = true) /\
            (~ P p -> Fs.nodeAt s' p = Fs.nodeAt s p).

(** The export statement of [name], without the end of the line. *)
Definition exportText (name : str) : str :=
  "export * from " ++ [dq] ++ "./" ++ name ++ [dq] ++ ";".

(** A base name that stands for itself in a pattern and in an export
    line: not empty, no pattern syntax, no quote, no line terminator. *)
Definition plainName (b : str) : bool :=
  nonEmpty b &&
  forallb (fun c => negb (isSpecial c) && negb (Str.eqc c dq)
                    && negb (isLineTerminator c)) b.

(** The content is empty or ends with a line feed. *)
Definition lineEnded (c : str) : Prop := c = [] \/ exists c', c = c' ++ [LF].

(** From [s] to [s'] nothing changes outside [P]. *)
Definition outside (P : Path.path -> Prop) (s s' : Fs.store) : Prop :=
  forall p, ~ P p -> Fs.nodeAt s' p = Fs.nodeAt s p.

(** Whatever its outcome, the computation [m] takes a store to one that is
    in the relation [R] to it. *)
Definition Preserves (R : Fs.store -> Fs.store -> Prop) {A} (m : Fs.M A) : Prop :=
  forall s r s', m s = (r, s') -> R s s'.

(** The index file at [p], if there is one, holds the export statement of
    none of the base names, and these are plain. *)
Definition indexQuiet (s : Fs.store) (p : Path.path) (bases : list str) : Prop :=
  match Fs.nodeAt s p with
  | None => True
  | Some (Fs.File c) =>
      forall b, b ∈ bases ->
        plainName b = true /\ Str.includes (exportText b) c = false
  | Some Fs.Dir => False
  end.

(** A codec for the sample project that knows one document, the default
    configuration. *)
Definition sampleConfigText : str := "{ default configuration }".

Definition sampleStringify (_ : json) : str := sampleConfigText.

Definition sampleParse (text : str) : option json :=
  if Str.eqs text (sampleConfigText ++ [LF]) then Some (jsonOfConfig DEFAULT_CFG)
  else None.

(** The hooks of the preset [essentials]. *)
Definition essentials : list str :=
  ["use-boolean"; "use-debounce"; "use-disclosure"; "use-event-listener";
   "use-clipboard"].

Definition cmdPreset (name : str) : Fs.M unit :=
  cfg <- getConfig ;;
  let baseDir := orElse (baseDir <$> cfg) "src/hooks" in
  let addIndex := orElse (addIndex <$> cfg) true in
  if Str.eqs name "essentials" then
    forEach (fun h =>
               cfg' <- getConfig ;;
               installHook h baseDir addIndex
                 (Some {| dry := None; force := Some true;
                          opt_stripUseClient :=
                            Some (orElse (stripUseClient <$> cfg') false) |}))
            essentials
  else Fs.ret tt.

(** The options [cmdPreset] passes to [installHook] on the store [s]. *)
Definition presetOptions (s : Fs.store) : InstallOptions :=
  {| dry := None; force := Some true;
     opt_stripUseClient := Some (orElse (stripUseClient <$> readConfig s) false) |}.

(** The paths a forced install of the hook [h] under [bd] may write: the
    destinations of its files, the index, and the directories above
    them. *)
Definition forcedScope (bd h : str) (p : Path.path) : Prop :=
  exists registry entry meta,
    remoteRegistry REGISTRY_URL = Some registry /\
    findHook registry h = Some entry /\
    remoteMeta (metaUrl registry entry) = Some meta /\
    ((exists f, f ∈ meta_files meta /\ p `prefix_of` key (destOf bd f)) \/
     p `prefix_of` Path.resolve wd [bd] ++ ["index.ts"]).

(** ** [cmdInit] *)

(** The answers of the prompts of [cmdInit]; [None] is a key the object
    does not have (a question that was skipped or not reached). *)
Record Answers := {
  ans_addIndex : option bool;
  ans_baseDir : option str;
  ans_stripUseClient : option bool;
  ans_aliasPrefix : option str;
  ans_aliasTarget : option str;
  ans_useAlias : option bool;
  ans_framework : option str
}.

Definition initialAnswers : Answers :=
  {| ans_addIndex := Some true; ans_baseDir := Some "src/hooks";
     ans_stripUseClient := Some false; ans_aliasPrefix := Some "";
     ans_aliasTarget := Some "src"; ans_useAlias := Some false;
     ans_framework := None |}.

(** The object without a key: what the prompts give when they fail. *)
Definition noAnswers : Answers :=
  {| ans_addIndex := None; ans_baseDir := None; ans_stripUseClient := None;
     ans_aliasPrefix := None; ans_aliasTarget := None; ans_useAlias := None;
     ans_framework := None |}.

Definition orKey {A} (y x : option A) : option A :=
  match y with Some v => Some v | None => x end.

(** [{ ...x, ...y }] *)
Definition spread (x y : Answers) : Answers :=
  {| ans_addIndex := orKey (ans_addIndex y) (ans_addIndex x);
     ans_baseDir := orKey (ans_baseDir y) (ans_baseDir x);
     ans_stripUseClient := orKey (ans_stripUseClient y) (ans_stripUseClient x);
     ans_aliasPrefix := orKey (ans_aliasPrefix y) (ans_aliasPrefix x);
     ans_aliasTarget := orKey (ans_aliasTarget y) (ans_aliasTarget x);
     ans_useAlias := orKey (ans_useAlias y) (ans_useAlias x);
     ans_framework := orKey (ans_framework y) (ans_framework x) |}.

(** [x || d] on a string that may be undefined. *)
Definition strOr (x : option str) (d : str) : str :=
  match x with Some (c :: l) => c :: l | _ => d end.

(** The configuration [cmdInit] builds from the answers; the initial
    answers define [baseDir], so it is never undefined here. *)
Definition initConfig (answers : Answers) : ProjectConfig :=
  {| baseDir := orElse (ans_baseDir answers) "";
     addIndex := truthy (ans_addIndex answers);
     stripUseClient := truthy (ans_stripUseClient answers);
     aliasPrefix := if truthy (ans_useAlias answers)
                    then Some (strOr (ans_aliasPrefix answers) "@/") else None;
     aliasTarget := if truthy (ans_useAlias answers)
                    then Some (strOr (ans_aliasTarget answers) "src") else None |}.

(** [try { m } catch { }]: an error ends [m]; what it wrote stays. *)
Definition attempt (m : Fs.M unit) : Fs.M unit :=
  fun s =>
    match m s with
    | (Fs.Ok a, s') => (Fs.Ok a, s')
    | (Fs.Err _, s') => (Fs.Ok tt, s')
    end.

(** [cmdInit], with what it reads from its environment as arguments:
    [isTty], the answers [a] of the prompts, and the answer [promptSample]
    to the choice of a sample hook among the given values. *)
Definition cmdInit (isTty : bool) (a : Answers)
    (promptSample : list str -> option str) : Fs.M unit :=
  let answers := if isTty then spread initialAnswers a else initialAnswers in
  if isTty && (negb (nonEmpty (orElse (ans_baseDir answers) "")) ||
               match ans_addIndex answers with Some _ => false | None => true end)
  then Fs.ret tt
  else
    let cfg := initConfig answers in
    _ <- writeConfig cfg ;;
    if isTty then
      attempt
        (registry <- getRegistry REGISTRY_URL ;;
         let chosen :=
           orElse (promptSample ("__SKIP__" :: map entry_id (reg_hooks registry)))
                  "__SKIP__" in
         if negb (Str.eqs chosen "__SKIP__") then
           installHook chosen (baseDir cfg) (addIndex cfg)
             (Some {| dry := None; force := None;
                      opt_stripUseClient := Some (stripUseClient cfg) |})
         else Fs.ret tt)
    else Fs.ret tt.

(** ** [listLocalHooks] *)

(** [.]: any character but a line terminator. *)
Definition anyChar (c : ascii) : bool := negb (isLineTerminator c).

(** [/export\s+\*\s+from\s+['"]\.\/(.+)['"];?/g] *)
Definition indexRe : regex :=
  Seq (Lit "export")
 (Seq (Rep 1 Str.isSpace)
 (Seq (Chr "*"%char)
 (Seq (Rep 1 Str.isSpace)
 (Seq (Lit "from")
 (Seq (Rep 1 Str.isSpace)
 (Seq (Cls isQuote)
 (Seq (Lit "./")
 (Seq (Grp 1 (Rep 1 anyChar))
 (Seq (Cls isQuote) (Opt (Chr ";"%char))))))))))).

(** [[/\\]] and [[^/\\]] *)
Definition isSep (c : ascii) : bool := Str.eqc c "/"%char || Str.eqc c "\"%char.
Definition notSep (c : ascii) : bool := negb (isSep c).

(** [/[/\\]use-[^/\\]+\.(t|j)s$/] up to its end anchor. *)
Definition hookFileRe : regex :=
  Seq (Cls isSep)
 (Seq (Lit "use-")
 (Seq (Rep 1 notSep)
 (Seq (Chr "."%char)
 (Seq (Grp 1 (Alt (Chr "t"%char) (Chr "j"%char))) (Chr "s"%char))))).

(** [re.test(s)] for the pattern [r$] without the multiline flag: is there
    a match of [r] that ends where [s] ends. *)
Fixpoint testAtEnd (fl : flags) (r : regex) (prev : option ascii) (s : str) : bool :=
  match run fl r prev s []
          (fun _ s' _ => match s' with [] => Some tt | _ :: _ => None end) with
  | Some _ => true
  | None =>
      match s with
      | [] => false
      | c :: t => testAtEnd fl r (Some c) t
      end
  end.

(** [[...s.matchAll(re)]] for a global pattern: the captures of the matches
    of the scan. *)
Definition matchAll (fl : flags) (r : regex) (s : str) : list caps :=
  omap (fun p => match p with Hit _ cs => Some cs | Keep _ => None end)
       (scan fl r 0 None s).

(** An entry of the list [listLocalHooks] returns. *)
Record LocalHook := { lh_id : str; lh_file : str }.

Fixpoint mapM {A B} (f : A -> Fs.M B) (l : list A) : Fs.M (list B) :=
  match l with
  | [] => Fs.ret []
  | a :: rest => b <- f a ;; bs <- mapM f rest ;; Fs.ret (b :: bs)
  end.

(** The ids an index names; group 1 takes part in every match. *)
Definition indexIds (content : str) : list str :=
  map (fun cs => orElse (capture cs 1) "") (matchAll noflags indexRe content).

Definition listLocalHooks (baseDir : str) : Fs.M (list LocalHook) :=
  let indexTs := cwd [baseDir; "index.ts"] in
  let indexJs := cwd [baseDir; "index.js"] in
  hasTs <- existsSync indexTs ;;
  hasJs <- existsSync indexJs ;;
  if hasTs || hasJs then
    hasTs' <- existsSync indexTs ;;
    let indexPath := if hasTs' then indexTs else indexJs in
    content <- Fs.readFile (key indexPath) ;;
    mapM (fun id =>
            let ts := cwd [baseDir; id ++ ".ts"] in
            let js := cwd [baseDir; id ++ ".js"] in
            hasFile <- existsSync ts ;;
            Fs.ret {| lh_id := id; lh_file := if hasFile then ts else js |})
         (indexIds content)
  else
    let baseAbs := cwd [baseDir] in
    hasBase <- existsSync baseAbs ;;
    if negb hasBase then Fs.ret []
    else
      all <- walk baseAbs ;;
      Fs.ret (map (fun f => {| lh_id := fileBaseName f; lh_file := f |})
                  (List.filter (testAtEnd noflags hookFileRe None) all)).

(** ** [cmdDoctor] *)

(** What [cmdDoctor] prints for a local hook (a file is printed relative
    to the working directory). *)
Inductive finding : Type :=
| MissingFile (file : str)                 (* missing file: <file> *)
| NoHeader (file : str)                    (* no header: <file> *)
| IdMismatch (fileId headerId : str)       (* id mismatch: file=.. header=.. *)
| NotInRegistry (id : str)                 (* not in registry: <id> *)
| Good (id : str) (version : option str).  (* <id> (<version>) *)

(** The body of the loop of [cmdDoctor]. *)
Definition diagnose (registry : Registry) (l : LocalHook) : Fs.M finding :=
  ex <- existsSync (lh_file l) ;;
  if negb ex then Fs.ret (MissingFile (lh_file l))
  else
    parsed <- parseLocalHookVersion (lh_file l) ;;
    match lv_id parsed with
    | Some (c :: id) =>
        if negb (bool_decide (c :: id = lh_id l))
        then Fs.ret (IdMismatch (lh_id l) (c :: id))
        else if existsb (fun h => bool_decide (entry_id h = lh_id l))
                        (reg_hooks registry)
             then Fs.ret (Good (lh_id l) (lv_version parsed))
             else Fs.ret (NotInRegistry (lh_id l))
    | _ => Fs.ret (NoHeader (lh_file l))
    end.

(** [cmdDoctor]; its value is the list of what it prints for the local
    hooks, in their order (the empty list: no installed hooks found). *)
Definition cmdDoctor : Fs.M (list finding) :=
  cfg <- getConfig ;;
  let baseDir := orElse (baseDir <$> cfg) "src/hooks" in
  registry <- getRegistry REGISTRY_URL ;;
  locals <- listLocalHooks baseDir ;;
  mapM (diagnose registry) locals.

(** * Properties *)

(** ** Strings *)

Lemma eqc_true (a b : ascii) : Str.eqc a b = true <-> a = b.
Proof. unfold Str.eqc. apply Ascii.eqb_eq. Qed.

Lemma eqc_refl (a : ascii) : Str.eqc a a = true.
Proof. by apply eqc_true. Qed.

Lemma eqc_false (a b : ascii) : Str.eqc a b = false <-> a <> b.
Proof. unfold Str.eqc. apply Ascii.eqb_neq. Qed.

Lemma eqs_true (a b : str) : Str.eqs a b = true <-> a = b.
Proof.
  revert b. induction a as [|x a IH]; intros [|y b]; simpl; try (split; congruence).
  rewrite andb_true_iff, eqc_true, IH. split; [intros [-> ->]; done | intros [= -> ->]; done].
Qed.

Lemma eqs_false (a b : str) : Str.eqs a b = false <-> a <> b.
Proof.
  rewrite <- not_true_iff_false, eqs_true. done.
Qed.

Lemma startsWith_true (p s : str) :
  Str.startsWith p s = true <-> exists t, s = p ++ t.
Proof.
  revert s. induction p as [|x p IH]; intros s; simpl.
  - split; [eauto | done].
  - destruct s as [|y s].
    + split; [done | intros [t [=]]].
    + rewrite andb_true_iff, eqc_true, IH. split.
      * intros [-> [t ->]]. eauto.
      * intros [t [= -> ->]]. eauto.
Qed.

Lemma startsWith_app (p t : str) : Str.startsWith p (p ++ t) = true.
Proof. apply startsWith_true. eauto. Qed.

Lemma includes_true (p s : str) :
  Str.includes p s = true <-> exists a b, s = a ++ p ++ b.
Proof.
  induction s as [|c s IH]; simpl.
  - rewrite orb_false_r, startsWith_true. split.
    + intros [t ->]. exists [], t. done.
    + intros [a [b H]]. symmetry in H.
      apply app_eq_nil in H as [-> H]. exists b. done.
  - rewrite orb_true_iff, startsWith_true, IH. split.
    + intros [[t ->] | [a [b ->]]].
      * exists [], t. done.
      * exists (c :: a), b. done.
    + intros [[|x a] [b H]].
      * left. exists b. done.
      * right. injection H as -> ->. eauto.
Qed.

Lemma includes_false (p s : str) :
  Str.includes p s = false <-> ~ exists a b, s = a ++ p ++ b.
Proof. rewrite <- not_true_iff_false, includes_true. done. Qed.

(** ** The matcher is sound for [Matches] *)

Lemma prevAfter_nil (prev : option ascii) : prevAfter prev [] = prev.
Proof. done. Qed.

Lemma prevAfter_cons (prev : option ascii) (c : ascii) (w : str) :
  prevAfter prev (c :: w) = prevAfter (Some c) w.
Proof.
  unfold prevAfter. destruct w as [|d w]; [done|].
  change (last (c :: d :: w)) with (last (d :: w)).
  destruct (last (d :: w)) eqn:E; [done|].
  apply last_None in E. done.
Qed.

Lemma prevAfter_app (prev : option ascii) (w1 w2 : str) :
  prevAfter prev (w1 ++ w2) = prevAfter (prevAfter prev w1) w2.
Proof.
  revert prev. induction w1 as [|c w1 IH]; intros prev; [done|].
  simpl. rewrite !prevAfter_cons. apply IH.
Qed.

Lemma rep_sound {R} fl p min prev s (k : option ascii -> str -> option R) x :
  rep fl p min prev s k = Some x ->
  exists w s',
    s = w ++ s' /\ Forall (fun a => clsMatch fl p a = true) w /\
    min <= length w /\ k (prevAfter prev w) s' = Some x.
Proof.
  revert min prev. induction s as [|c s IH]; intros min prev; simpl.
  - destruct min; [|done]. intros H. exists [], []. auto.
  - destruct (clsMatch fl p c) eqn:Hc.
    + destruct (rep fl p (pred min) (Some c) s k) eqn:Hr.
      * intros [= ->]. apply IH in Hr as (w & s' & -> & Hw & Hl & Hk).
        exists (c :: w), s'. rewrite prevAfter_cons. simpl.
        repeat split; [by constructor | lia | done].
      * destruct min; [|done]. intros H. exists [], (c :: s). auto.
    + destruct min; [|done]. intros H. exists [], (c :: s). auto.
Qed.

Lemma run_sound {R} fl r prev s cs
    (k : option ascii -> str -> caps -> option R) x :
  run fl r prev s cs k = Some x ->
  exists w s' cs',
    s = w ++ s' /\ Matches fl r prev w cs cs' /\
    k (prevAfter prev w) s' cs' = Some x.
Proof.
  revert prev s cs k. induction r as [|c|p|r1 IH1 r2 IH2|r1 IH1 r2 IH2|r1 IH1|min p|i r1 IH1|];
    intros prev s cs k; simpl.
  - intros H. exists [], s, cs. auto.
  - destruct s as [|a s]; [done|]. destruct (chrMatch fl c a) eqn:E; [|done].
    intros H. exists [a], s, cs. eauto 10.
  - destruct s as [|a s]; [done|]. destruct (clsMatch fl p a) eqn:E; [|done].
    intros H. exists [a], s, cs. eauto 10.
  - intros H. apply IH1 in H as (w1 & s1 & cs1 & -> & H1 & H).
    apply IH2 in H as (w2 & s2 & cs2 & -> & H2 & H).
    exists (w1 ++ w2), s2, cs2. rewrite prevAfter_app, app_assoc. eauto 10.
  - destruct (run fl r1 prev s cs k) eqn:E.
    + intros [= ->]. apply IH1 in E as (w & s' & cs' & ? & ? & ?). eauto 10.
    + intros H. apply IH2 in H as (w & s' & cs' & ? & ? & ?). eauto 10.
  - destruct (run fl r1 prev s cs k) eqn:E.
    + intros [= ->]. apply IH1 in E as (w & s' & cs' & ? & ? & ?). eauto 10.
    + intros H. exists [], s, cs. auto.
  - intros H. apply rep_sound in H as (w & s' & ? & ? & ? & ?). eauto 10.
  - intros H. apply IH1 in H as (w & s' & cs' & -> & H1 & H).
    replace (length (w ++ s') - length s') with (length w) in H
      by (rewrite length_app; lia).
    rewrite take_app_length in H. eauto 10.
  - destruct (atBol fl prev) eqn:E; [|done]. intros H. exists [], s, cs. auto.
Qed.

Lemma matchAt_sound fl r prev s s' cs :
  matchAt fl r prev s = Some (s', cs) ->
  exists w, s = w ++ s' /\ Matches fl r prev w [] cs.
Proof.
  unfold matchAt. intros H. apply run_sound in H as (w & s1 & cs1 & -> & Hm & [= -> ->]).
  eauto.
Qed.

(** A search finds a match of the pattern and splits the subject around
    it; no match starts inside [before]. *)
Lemma search_sound fl r prev s f :
  search fl r prev s = Some f ->
  s = before f ++ matched f ++ after f /\
  Matches fl r (prevAfter prev (before f)) (matched f) [] (groups f).
Proof.
  revert prev f. induction s as [|c s IH]; intros prev f; cbn [search].
  - destruct (matchAt fl r prev []) as [[s' cs]|] eqn:E; [|done].
    intros [= <-]. simpl. apply matchAt_sound in E as (w & Hs & Hm).
    symmetry in Hs. apply app_eq_nil in Hs as [-> ->]. done.
  - destruct (matchAt fl r prev (c :: s)) as [[s' cs]|] eqn:E.
    + intros [= <-]. cbn [before matched after groups].
      apply matchAt_sound in E as (w & Hs & Hm).
      assert (Hl : S (length s) - length s' = length w).
      { change (S (length s)) with (length (c :: s)). rewrite Hs, length_app. lia. }
      rewrite Hl, Hs, take_app_length. done.
    + destruct (search fl r (Some c) s) as [g|] eqn:Eg; [|done].
      intros [= <-]. simpl. apply IH in Eg as [-> Hm].
      rewrite prevAfter_cons. done.
Qed.

(** If no text anywhere in the subject is matched, the search fails. *)
Lemma search_none fl r prev s :
  (forall a w b cs, s = a ++ w ++ b -> ~ Matches fl r (prevAfter prev a) w [] cs) ->
  search fl r prev s = None.
Proof.
  intros H. destruct (search fl r prev s) as [f|] eqn:E; [|done].
  apply search_sound in E as [Hs Hm]. exfalso. eapply H; eauto.
Qed.

(** ** The scan of a global replace *)

Lemma scan_source fl r skip prev s :
  skip <= length s ->
  concat (map source (scan fl r skip prev s)) = drop skip s.
Proof.
  revert skip prev. induction s as [|c t IH]; intros skip prev Hk.
  - simpl in Hk. assert (skip = 0) as -> by lia. cbn [scan].
    destruct (matchAt fl r prev []) as [[s' cs]|] eqn:E; [|done].
    apply matchAt_sound in E as (w & Hs & _). symmetry in Hs.
    apply app_eq_nil in Hs as [-> ->]. done.
  - destruct skip as [|n].
    + cbn [scan]. destruct (matchAt fl r prev (c :: t)) as [[s' cs]|] eqn:E.
      * apply matchAt_sound in E as (w & Hs & _).
        assert (Hl : length (c :: t) - length s' = length w)
          by (rewrite Hs, length_app; lia).
        assert (Ht : take (length w) (c :: t) = w)
          by (rewrite Hs; apply take_app_length).
        rewrite Hl, !Ht.
        destruct w as [|d w]; cbn [length map concat source].
        -- rewrite IH by lia. by rewrite !drop_0.
        -- rewrite IH by (apply (f_equal length) in Hs; simpl in Hs;
                          rewrite length_app in Hs; lia).
           injection Hs as -> ->. rewrite drop_app_length. done.
      * cbn [map concat source]. rewrite IH by lia. done.
    + cbn [scan]. rewrite IH by (simpl in Hk; lia). done.
Qed.

Lemma scan_hits fl r skip prev s m cs :
  Hit m cs ∈ scan fl r skip prev s ->
  exists a b, s = a ++ m ++ b /\ Matches fl r (prevAfter prev a) m [] cs.
Proof.
  revert skip prev. induction s as [|c t IH]; intros skip prev.
  - destruct skip; cbn [scan]; [|by intros ?%elem_of_nil].
    destruct (matchAt fl r prev []) as [[s' cs']|] eqn:E; [|by intros ?%elem_of_nil].
    intros Hin. apply list_elem_of_singleton in Hin. injection Hin as -> ->.
    apply matchAt_sound in E as (w & Hs & Hm). symmetry in Hs.
    apply app_eq_nil in Hs as [-> ->]. exists [], []. done.
  - assert (Hrec : forall n, Hit m cs ∈ scan fl r n (Some c) t ->
        exists a b, c :: t = a ++ m ++ b /\ Matches fl r (prevAfter prev a) m [] cs).
    { intros n Hin. apply IH in Hin as (a & b & -> & Hm).
      exists (c :: a), b. rewrite prevAfter_cons. done. }
    destruct skip as [|n]; cbn [scan]; [|by apply Hrec].
    destruct (matchAt fl r prev (c :: t)) as [[s' cs']|] eqn:E.
    + apply matchAt_sound in E as (w & Hs & Hm).
      assert (Hl : length (c :: t) - length s' = length w)
        by (rewrite Hs, length_app; lia).
      assert (Ht : take (length w) (c :: t) = w)
        by (rewrite Hs; apply take_app_length).
      rewrite Hl, !Ht.
      intros Hin. apply elem_of_cons in Hin as [[= -> ->]|Hin].
      * exists [], s'. done.
      * destruct (length w).
        -- apply elem_of_cons in Hin as [[=]|Hin]. by eapply Hrec.
        -- by eapply Hrec.
    + intros Hin. apply elem_of_cons in Hin as [[=]|Hin]. by eapply Hrec.
Qed.

(** A global replace rewrites the matches and keeps the text between
    them. *)
Lemma replaceAll_pieces fl r s f :
  exists pieces,
    s = concat (map source pieces) /\
    replaceAll fl r s f = concat (map (replaced f) pieces) /\
    forall m cs, Hit m cs ∈ pieces ->
      exists a b, s = a ++ m ++ b /\ Matches fl r (prevAfter None a) m [] cs.
Proof.
  exists (scan fl r 0 None s). split; [|split].
  - rewrite scan_source by lia. by rewrite drop_0.
  - done.
  - intros m cs. apply scan_hits.
Qed.

Lemma replaceAll_none fl r s f :
  (forall a m b cs, s = a ++ m ++ b -> ~ Matches fl r (prevAfter None a) m [] cs) ->
  replaceAll fl r s f = s.
Proof.
  intros Hno. destruct (replaceAll_pieces fl r s f) as (ps & Hs & -> & Hh).
  etrans; [|symmetry; exact Hs]. f_equal. apply map_ext_in.
  intros [c|m cs] Hin; [done|].
  exfalso. apply list_elem_of_In in Hin. apply Hh in Hin as (a & b & Ha & Hm).
  eapply Hno; eauto.
Qed.

(** ** Comparison of versions *)

Lemma split_plain (c : ascii) (w : str) :
  Forall (fun a => a <> c) w -> Str.split c w = [w].
Proof.
  induction 1 as [|a w Ha _ IH]; [done|]. simpl.
  apply eqc_false in Ha. by rewrite Ha, IH.
Qed.

Lemma split_app (c : ascii) (w rest : str) :
  Forall (fun a => a <> c) w ->
  Str.split c (w ++ c :: rest) = w :: Str.split c rest.
Proof.
  induction 1 as [|a w Ha _ IH]; simpl.
  - by rewrite eqc_refl.
  - apply eqc_false in Ha. by rewrite Ha, IH.
Qed.

Lemma digits_no_dot (s : str) :
  forallb Str.isDigit s = true -> Forall (fun a => a <> "."%char) s.
Proof.
  intros H. apply Forall_forall. intros a Ha%list_elem_of_In ->.
  rewrite forallb_forall in H. by apply H in Ha.
Qed.

Lemma split_version (a1 a2 a3 : str) :
  forallb Str.isDigit a1 = true -> forallb Str.isDigit a2 = true ->
  forallb Str.isDigit a3 = true ->
  Str.split "."%char (version a1 a2 a3) = [a1; a2; a3].
Proof.
  intros H1 H2 H3. unfold version. simpl.
  rewrite split_app by by apply digits_no_dot.
  rewrite split_app by by apply digits_no_dot.
  rewrite split_plain by by apply digits_no_dot. done.
Qed.

Lemma digit_nonneg (c : ascii) : Str.isDigit c = true -> (0 <= digit c)%Z.
Proof.
  unfold Str.isDigit, digit. intros [H _]%andb_true_iff.
  apply Nat.leb_le in H. lia.
Qed.

Lemma decimal_nonneg (s : str) :
  forallb Str.isDigit s = true -> (0 <= decimal s)%Z.
Proof.
  unfold decimal.
  assert (H : forall acc, (0 <= acc)%Z -> forallb Str.isDigit s = true ->
            (0 <= fold_left (fun a c => (10 * a + digit c)%Z) s acc)%Z).
  { induction s as [|c s IH]; intros acc Hacc; simpl; [done|].
    intros [Hc Hs]%andb_true_iff. apply IH; [|done].
    apply digit_nonneg in Hc. lia. }
  by apply H.
Qed.

Lemma roundDouble_exact (z : Z) : (Z.abs z < 2 ^ 53)%Z -> roundDouble z = z.
Proof.
  intros H. unfold roundDouble. apply Z.ltb_lt in H. by rewrite H.
Qed.

Lemma toNumber_component (s : str) :
  component s -> toNumber s = Num (decimal s).
Proof.
  intros [Hd Hb]. unfold toNumber. rewrite Hd, roundDouble_exact; [done|].
  apply decimal_nonneg in Hd. lia.
Qed.

Lemma component_range (s : str) : component s -> (0 <= decimal s < 2 ^ 53)%Z.
Proof. intros [Hd Hb]. split; [by apply decimal_nonneg | done]. Qed.

(** C9. [cmpSemver] orders versions by major, then minor, then patch: on
    versions [major.minor.patch] of decimal components the sign of its
    result is the comparison of the three numbers in that order; and it
    is positive on 1.2.0 against 1.1.9, zero on 1.0.0 against 1.0.0 and
    negative on 0.9.0 against 1.0.0. *)
Theorem cmpSemver_componentwise :
  (forall a1 a2 a3 b1 b2 b3 : str,
     component a1 -> component a2 -> component a3 ->
     component b1 -> component b2 -> component b3 ->
     (cmpSemver (version a1 a2 a3) (version b1 b2 b3) ?= 0)%Z =
     lexCompare (decimal a1, decimal a2, decimal a3)
                (decimal b1, decimal b2, decimal b3)) /\
  (cmpSemver "1.2.0" "1.1.9" > 0)%Z /\
  cmpSemver "1.0.0" "1.0.0" = 0%Z /\
  (cmpSemver "0.9.0" "1.0.0" < 0)%Z.
Proof.
  split; [|by vm_compute].
  intros a1 a2 a3 b1 b2 b3 Ha1 Ha2 Ha3 Hb1 Hb2 Hb3.
  unfold cmpSemver.
  rewrite !split_version by apply Ha1 || apply Ha2 || apply Ha3
                            || apply Hb1 || apply Hb2 || apply Hb3.
  cbn [map]. rewrite !toNumber_component by done.
  apply component_range in Ha1, Ha2, Ha3, Hb1, Hb2, Hb3.
  cbn [cmpLoop lookup list_lookup orZero]. cbv zeta.
  rewrite !roundDouble_exact by lia.
  unfold lexCompare.
  repeat match goal with
         | |- context [(?x =? 0)%Z] => destruct (Z.eqb_spec x 0)
         end;
  repeat match goal with
         | |- context [(?x ?= ?y)%Z] => destruct (Z.compare_spec x y)
         end; try lia; try done.
Qed.

(** ** Running the matcher forwards *)

Lemma chrMatch_refl fl (c : ascii) : chrMatch fl c c = true.
Proof. unfold chrMatch. destruct (ignoreCase fl); apply eqc_refl. Qed.

Lemma run_lit {R} fl (l : str) prev s cs
    (k : option ascii -> str -> caps -> option R) :
  run fl (Lit l) prev (l ++ s) cs k = k (prevAfter prev l) s cs.
Proof.
  revert prev. induction l as [|c l IH]; intros prev; [done|].
  cbn [Lit run app]. rewrite chrMatch_refl, prevAfter_cons. apply IH.
Qed.

(** A greedy repetition takes the whole run of class characters when what
    follows the pattern succeeds there. *)
Lemma rep_greedy {R} fl p min prev w rest
    (k : option ascii -> str -> option R) x :
  Forall (fun a => clsMatch fl p a = true) w -> min <= length w ->
  match rest with c :: _ => clsMatch fl p c = false | [] => True end ->
  k (prevAfter prev w) rest = Some x ->
  rep fl p min prev (w ++ rest) k = Some x.
Proof.
  intros Hw. revert min prev.
  induction Hw as [|a w Ha Hw IH]; intros min prev Hm Hr Hk.
  - simpl in Hm. assert (min = 0) as -> by lia. simpl.
    destruct rest as [|c rest]; [done|]. simpl. by rewrite Hr.
  - simpl. rewrite Ha. rewrite prevAfter_cons in Hk.
    rewrite (IH (pred min) (Some a)); [done | simpl in Hm; lia | done | done].
Qed.

Lemma search_skip fl r prev c t :
  matchAt fl r prev (c :: t) = None ->
  search fl r prev (c :: t) =
  match search fl r (Some c) t with
  | Some f => Some {| before := c :: before f; matched := matched f;
                      after := after f; groups := groups f |}
  | None => None
  end.
Proof. intros H. cbn [search]. by rewrite H. Qed.

Lemma search_here fl r prev s s' cs :
  matchAt fl r prev s = Some (s', cs) ->
  search fl r prev s =
  Some {| before := []; matched := take (length s - length s') s;
          after := s'; groups := cs |}.
Proof. intros H. destruct s; cbn [search]; by rewrite H. Qed.

(** ** The version header *)

Lemma clsMatch_idChar (a : ascii) : clsMatch iflag idChar a = isIdChar a.
Proof. destruct a as [[] [] [] [] [] [] [] []]; reflexivity. Qed.

Lemma clsMatch_digit (a : ascii) : clsMatch iflag Str.isDigit a = Str.isDigit a.
Proof. destruct a as [[] [] [] [] [] [] [] []]; reflexivity. Qed.

Lemma forallb_Forall_eq (p q : ascii -> bool) (w : str) :
  (forall a, q a = p a) -> forallb p w = true ->
  Forall (fun a => q a = true) w.
Proof.
  intros Hpq H. apply Forall_forall. intros a Ha%list_elem_of_In.
  rewrite Hpq. rewrite forallb_forall in H. by apply H.
Qed.

Lemma digits_length (d : str) : digits d -> 1 <= length d.
Proof. intros [Hd _]. destruct d; [done | simpl; lia]. Qed.

Lemma hookId_length (d : str) : hookId d -> 1 <= length d.
Proof. intros [Hd _]. destruct d; [done | simpl; lia]. Qed.

Lemma take_diff (w s : str) : take (length (w ++ s) - length s) (w ++ s) = w.
Proof.
  replace (length (w ++ s) - length s) with (length w)
    by (rewrite length_app; lia).
  apply take_app_length.
Qed.
Lemma version_app d1 d2 d3 (tail : str) :
  version d1 d2 d3 ++ tail = d1 ++ "."%char :: d2 ++ "."%char :: d3 ++ tail.
Proof. unfold version. by rewrite <- !app_assoc. Qed.

Lemma header_matchAt prev id d1 d2 d3 tail :
  hookId id -> digits d1 -> digits d2 -> digits d3 ->
  match tail with c :: _ => Str.isDigit c = false | [] => True end ->
  matchAt iflag headerRe prev ("hook:" ++ id ++ "@" ++ version d1 d2 d3 ++ tail) =
  Some (tail, [(2, version d1 d2 d3); (1, id)]).
Proof.
  intros Hid H1 H2 H3 Ht. unfold matchAt, headerRe.
  cbn [run]. rewrite run_lit. cbn [run].
  pose proof (digits_length _ H1). pose proof (digits_length _ H2).
  pose proof (digits_length _ H3). pose proof (hookId_length _ Hid).
  destruct Hid as [_ Hid], H1 as [_ H1], H2 as [_ H2], H3 as [_ H3].
  erewrite rep_greedy; [reflexivity | | done | done | ].
  { eapply forallb_Forall_eq; [apply clsMatch_idChar | done]. }
  rewrite take_diff. cbn [app]. rewrite chrMatch_refl.
  rewrite (version_app d1 d2 d3 tail).
  erewrite rep_greedy; [reflexivity | | done | done | ].
  { eapply forallb_Forall_eq; [apply clsMatch_digit | done]. }
  rewrite chrMatch_refl.
  erewrite rep_greedy; [reflexivity | | done | done | ].
  { eapply forallb_Forall_eq; [apply clsMatch_digit | done]. }
  rewrite chrMatch_refl.
  erewrite rep_greedy; [reflexivity | | done | | ].
  { eapply forallb_Forall_eq; [apply clsMatch_digit | done]. }
  { destruct tail; [done|]. by rewrite clsMatch_digit. }
  rewrite <- (version_app d1 d2 d3 tail). by rewrite take_diff.
Qed.
Lemma header_shape id v rv (rest : str) :
  header id (Some v) rv ++ rest =
  ("/* Installed via wkkkis-hooks | hook:" ++ id ++ "@" ++ v) ++
  " "%char :: ("| registry:" ++ orElse rv "0" ++ " */" ++ [LF] ++ rest).
Proof. unfold header. cbn [orElse]. rewrite <- !app_assoc. done. Qed.

Lemma take_app_keep (n : nat) (l k : str) :
  length l <= n -> take n (l ++ k) = l ++ take (n - length l) k.
Proof. intros H. by rewrite take_app, take_ge. Qed.

Lemma search_skip_groups fl r prev c t cs :
  matchAt fl r prev (c :: t) = None ->
  (exists f, search fl r (Some c) t = Some f /\ groups f = cs) ->
  exists f, search fl r prev (c :: t) = Some f /\ groups f = cs.
Proof.
  intros Hn (f & Hf & Hg). rewrite search_skip, Hf by done. eauto.
Qed.

Lemma header_search id d1 d2 d3 tail :
  hookId id -> digits d1 -> digits d2 -> digits d3 ->
  match tail with c :: _ => Str.isDigit c = false | [] => True end ->
  exists f,
    search iflag headerRe None
      ("/* Installed via wkkkis-hooks | hook:" ++ id ++ "@" ++ version d1 d2 d3 ++ tail)
    = Some f /\ groups f = [(2, version d1 d2 d3); (1, id)].
Proof.
  intros Hid H1 H2 H3 Ht. cbn [app].
  do 32 (apply search_skip_groups; [reflexivity|]).
  eexists. split.
  - apply search_here. apply (header_matchAt _ id d1 d2 d3 tail); done.
  - reflexivity.
Qed.

Lemma decode_header id d1 d2 d3 rv rest :
  hookId id -> digits d1 -> digits d2 -> digits d3 ->
  length ("/* Installed via wkkkis-hooks | hook:" ++ id ++ "@" ++ version d1 d2 d3) <= 2048 ->
  decodeHeader (header id (Some (version d1 d2 d3)) rv ++ rest) =
  {| lv_id := Some id; lv_version := Some (version d1 d2 d3) |}.
Proof.
  intros Hid H1 H2 H3 Hlen. unfold decodeHeader.
  rewrite header_shape.
  rewrite take_app_keep by exact Hlen.
  set (tail := take _ _).
  assert (Ht : match tail with c :: _ => Str.isDigit c = false | [] => True end).
  { unfold tail. destruct (2048 - _); done. }
  clearbody tail.
  destruct (header_search id d1 d2 d3 tail Hid H1 H2 H3 Ht) as (f & Hf & Hg).
  unfold exec. rewrite <- !app_assoc.
  rewrite Hf, Hg. reflexivity.
Qed.

Lemma Matches_lit fl (l : str) prev w cs cs' :
  Matches fl (Lit l) prev w cs cs' ->
  cs' = cs /\ Forall2 (fun c a => chrMatch fl c a = true) l w.
Proof.
  revert prev w cs. induction l as [|c l IH]; intros prev w cs; cbn [Lit Matches].
  - intros [-> ->]. split; [done | constructor].
  - intros (w1 & w2 & cs1 & -> & (a & -> & Ha & ->) & H).
    apply IH in H as [-> H]. split; [done|]. by constructor.
Qed.

Lemma sameFold_of_match (l w : str) :
  Forall2 (fun c a => chrMatch iflag c a = true) l w -> sameFold w l.
Proof.
  unfold sameFold. induction 1 as [|c a l w Hc _ IH]; [done|].
  simpl. f_equal; [|done]. unfold chrMatch in Hc. simpl in Hc.
  by apply eqc_true in Hc.
Qed.

Lemma Forall_forallb_eq (p q : ascii -> bool) (w : str) :
  (forall a, q a = p a) -> Forall (fun a => q a = true) w ->
  forallb p w = true.
Proof.
  intros Hpq H. apply forallb_forall. intros a Ha%list_elem_of_In.
  rewrite <- Hpq. rewrite Forall_forall in H. by apply H.
Qed.

Lemma nonempty_of_length (w : str) : 1 <= length w -> w <> [].
Proof. destruct w; simpl; [lia | done]. Qed.

Lemma chrMatch_at (a : ascii) : chrMatch iflag "@"%char a = true -> a = "@"%char.
Proof.
  destruct a as [[] [] [] [] [] [] [] []]; intros H; try reflexivity;
    vm_compute in H; discriminate H.
Qed.

Lemma chrMatch_dot (a : ascii) : chrMatch iflag "."%char a = true -> a = "."%char.
Proof.
  destruct a as [[] [] [] [] [] [] [] []]; intros H; try reflexivity;
    vm_compute in H; discriminate H.
Qed.

Lemma header_Matches prev w cs :
  Matches iflag headerRe prev w [] cs ->
  exists h id d1 d2 d3,
    w = h ++ id ++ "@" ++ version d1 d2 d3 /\
    sameFold h "hook:" /\ hookId id /\ digits d1 /\ digits d2 /\ digits d3 /\
    cs = [(2, version d1 d2 d3); (1, id)].
Proof.
  unfold headerRe. cbn [Matches].
  intros (h & w1 & c1 & -> & Hh & id & w2 & c2 & -> & (c3 & (Hid & Hidl & ->) & ->)
          & at_ & v & c4 & -> & (a & -> & Ha & ->) & c5
          & (d1 & v1 & c6 & -> & (Hd1 & Hl1 & ->) & dot1 & v2 & c7 & ->
             & (b & -> & Hb & ->) & d2 & v3 & c8 & -> & (Hd2 & Hl2 & ->)
             & dot2 & d3 & c9 & -> & (c & -> & Hc & ->) & Hd3 & Hl3 & ->) & ->).
  apply Matches_lit in Hh as [-> Hh].
  apply chrMatch_at in Ha. apply chrMatch_dot in Hb, Hc. subst a b c.
  exists h, id, d1, d2, d3. unfold version, hookId, digits.
  repeat split; try by apply nonempty_of_length.
  - by apply sameFold_of_match.
  - by eapply Forall_forallb_eq; [apply clsMatch_idChar|].
  - by eapply Forall_forallb_eq; [apply clsMatch_digit|].
  - by eapply Forall_forallb_eq; [apply clsMatch_digit|].
  - by eapply Forall_forallb_eq; [apply clsMatch_digit|].
Qed.

Lemma decode_none content :
  ~ HeaderIn (take 2048 content) -> decodeHeader content = noVersion.
Proof.
  intros Hno. unfold decodeHeader, exec.
  destruct (search iflag headerRe None (take 2048 content)) as [m|] eqn:E; [|done].
  exfalso. apply Hno. apply search_sound in E as [Hs Hm].
  apply header_Matches in Hm as (h & id & d1 & d2 & d3 & Hw & ? & ? & ? & ? & ? & _).
  exists (before m), h, id, d1, d2, d3, (after m).
  rewrite Hs, Hw, <- !app_assoc. done.
Qed.

(** C2 (amended).  Decoding the header line written for a hook, followed by
    any content, gives back the hook's id and version when the id is made
    of letters, digits and hyphens, the version is three runs of decimal
    digits joined by dots, and the marker ends within the first 2048
    characters; decoding a content whose first 2048 characters hold no
    marker gives the absent result; and [parseLocalHookVersion] returns the
    decoded header of a file, or the absent result for a missing file,
    without failing and without touching the store. *)
Theorem header_roundtrip :
  (forall (id d1 d2 d3 : str) (rv : option str) (rest : str),
     hookId id -> digits d1 -> digits d2 -> digits d3 ->
     length ("/* Installed via wkkkis-hooks | hook:" ++ id ++ "@" ++
             version d1 d2 d3) <= 2048 ->
     decodeHeader (header id (Some (version d1 d2 d3)) rv ++ rest) =
     {| lv_id := Some id; lv_version := Some (version d1 d2 d3) |}) /\
  (forall content : str,
     ~ HeaderIn (take 2048 content) -> decodeHeader content = noVersion) /\
  (forall (s : Fs.store) (p c : str),
     Fs.nodeAt s (key p) = Some (Fs.File c) ->
     parseLocalHookVersion p s = (Fs.Ok (decodeHeader c), s)) /\
  (forall (s : Fs.store) (p : str),
     Fs.nodeAt s (key p) = None ->
     parseLocalHookVersion p s = (Fs.Ok noVersion, s)).
Proof.
  split; [|split; [|split]].
  - intros. by apply decode_header.
  - apply decode_none.
  - intros s p c H. unfold parseLocalHookVersion, existsSync, Fs.bind, Fs.existsAt.
    rewrite H. cbn [negb]. unfold Fs.readFile. by rewrite H.
  - intros s p H. unfold parseLocalHookVersion, existsSync, Fs.bind, Fs.existsAt.
    by rewrite H.
Qed.

(** C2 as stated fails: an id with an underscore is not read back. *)
Lemma header_roundtrip_any_id_fails :
  ~ (forall (id v : str) (rv : option str) (rest : str),
       decodeHeader (header id (Some v) rv ++ rest) =
       {| lv_id := Some id; lv_version := Some v |}).
Proof.
  intros H. specialize (H "use_debounce" "1.2.0" (Some "1") "").
  vm_compute in H. discriminate H.
Qed.

(** ** Paths *)

Lemma split_cons_nonempty (c : ascii) (s : str) : Str.split c s <> [].
Proof.
  induction s as [|a s IH]; simpl; [done|].
  destruct (Str.eqc a c); [done|]. by destruct (Str.split c s).
Qed.

Lemma split_noslash (s : str) :
  Forall (fun seg => forallb Path.notSlash seg = true) (Str.split "/"%char s).
Proof.
  induction s as [|a s IH]; simpl; [by repeat constructor|].
  destruct (Str.eqc a "/"%char) eqn:E; [by constructor|].
  destruct (Str.split "/"%char s) as [|w ws]; [by repeat constructor; simpl;
    unfold Path.notSlash, Path.isSlash; rewrite E|].
  inversion IH; subst. constructor; [|done]. simpl.
  unfold Path.notSlash at 1, Path.isSlash. by rewrite E.
Qed.

Lemma canonical_app (p q : Path.path) :
  Path.canonical (p ++ q) <-> Path.canonical p /\ Path.canonical q.
Proof. unfold Path.canonical. rewrite forallb_app, andb_true_iff. done. Qed.

Lemma canonical_removelast (p : Path.path) :
  Path.canonical p -> Path.canonical (removelast p).
Proof.
  destruct (decide (p = [])) as [->|Hne]; [done|].
  intros H. rewrite (app_removelast_last [] Hne) in H.
  by apply canonical_app in H as [H _].
Qed.

Lemma applySeg_canonical (acc : Path.path) (seg : str) :
  Path.canonical acc -> forallb Path.notSlash seg = true ->
  Path.canonical (Path.applySeg acc seg).
Proof.
  intros Hacc Hseg. unfold Path.applySeg.
  destruct (Str.eqs seg "") eqn:E1; [done|].
  destruct (Str.eqs seg ".") eqn:E2; [done|]. cbn [orb].
  destruct (Str.eqs seg "..") eqn:E3; [by apply canonical_removelast|].
  apply canonical_app. split; [done|].
  unfold Path.canonical, Path.okSeg. cbn [forallb].
  by rewrite E1, E2, E3, Hseg.
Qed.

Lemma fold_applySeg_canonical (segs : list str) (acc : Path.path) :
  Path.canonical acc ->
  Forall (fun seg => forallb Path.notSlash seg = true) segs ->
  Path.canonical (fold_left Path.applySeg segs acc).
Proof.
  intros Hacc Hs. revert acc Hacc.
  induction Hs as [|seg segs Hseg _ IH]; intros acc Hacc; [done|].
  simpl. apply IH. by apply applySeg_canonical.
Qed.

Lemma applyPath_canonical (acc : Path.path) (p : str) :
  Path.canonical acc -> Path.canonical (Path.applyPath acc p).
Proof.
  intros Hacc. unfold Path.applyPath.
  apply fold_applySeg_canonical; [by destruct (Str.startsWith "/" p)|].
  apply split_noslash.
Qed.

Lemma resolve_canonical (wd0 : Path.path) (ps : list str) :
  Path.canonical wd0 -> Path.canonical (Path.resolve wd0 ps).
Proof.
  unfold Path.resolve. revert wd0.
  induction ps as [|p ps IH]; intros wd0 H; [done|].
  simpl. apply IH. by apply applyPath_canonical.
Qed.

Lemma okSeg_noslash (seg : str) :
  Path.okSeg seg = true -> Forall (fun a => a <> "/"%char) seg.
Proof.
  unfold Path.okSeg. rewrite !andb_true_iff. intros [_ H].
  apply Forall_forall. intros a Ha%list_elem_of_In ->.
  rewrite forallb_forall in H. by apply H in Ha.
Qed.

Lemma split_join_cons (seg : str) (segs : list str) :
  Forall (fun a => a <> "/"%char) seg -> segs <> [] ->
  Str.split "/"%char (Str.join "/" (seg :: segs)) =
  seg :: Str.split "/"%char (Str.join "/" segs).
Proof.
  intros Hseg Hne. destruct segs as [|w ws]; [done|].
  cbn [Str.join]. change ("/" ++ ?x) with ("/"%char :: x).
  by rewrite split_app.
Qed.

Lemma split_join (segs : list str) :
  Forall (fun seg => Forall (fun a => a <> "/"%char) seg) segs -> segs <> [] ->
  Str.split "/"%char (Str.join "/" segs) = segs.
Proof.
  induction 1 as [|seg segs Hseg Hs IH]; [done|]. intros _.
  destruct segs as [|w ws].
  - simpl. by apply split_plain.
  - rewrite split_join_cons by done. by rewrite IH.
Qed.

Lemma canonical_noslash (p : Path.path) :
  Path.canonical p -> Forall (fun seg => Forall (fun a => a <> "/"%char) seg) p.
Proof.
  unfold Path.canonical. rewrite forallb_forall. intros H.
  apply Forall_forall. intros seg Hseg%list_elem_of_In.
  by apply okSeg_noslash, H.
Qed.

Lemma applySeg_ok (acc : Path.path) (seg : str) :
  Path.okSeg seg = true -> Path.applySeg acc seg = acc ++ [seg].
Proof.
  unfold Path.okSeg, Path.applySeg. rewrite !andb_true_iff, !negb_true_iff.
  intros [[[-> ->] ->] _]. done.
Qed.

Lemma fold_applySeg_ok (p acc : Path.path) :
  Path.canonical p -> fold_left Path.applySeg p acc = acc ++ p.
Proof.
  revert acc. induction p as [|seg p IH]; intros acc H.
  - by rewrite app_nil_r.
  - unfold Path.canonical in H. simpl in H. apply andb_true_iff in H as [Hs Hp].
    simpl. rewrite applySeg_ok by done. rewrite IH by done.
    by rewrite <- app_assoc.
Qed.

(** Resolving the string of a canonical path gives the path back. *)
Lemma applyPath_render (acc p : Path.path) :
  Path.canonical p -> Path.applyPath acc (Path.render p) = p.
Proof.
  intros Hp. unfold Path.applyPath, Path.render.
  change ("/" ++ ?x) with ("/"%char :: x). cbn [Str.startsWith Str.eqc].
  change (Ascii.eqb "/" "/") with true. cbn [andb].
  destruct p as [|seg p].
  - reflexivity.
  - cbn [Str.split]. rewrite eqc_refl. rewrite split_join by
      (by apply canonical_noslash || done).
    cbn [andb]. change (fold_left Path.applySeg ("" :: seg :: p) "")
      with (fold_left Path.applySeg (seg :: p) []).
    by rewrite fold_applySeg_ok.
Qed.

Lemma resolve_render (wd0 p : Path.path) (ps : list str) :
  Path.canonical p ->
  Path.resolve wd0 (Path.render p :: ps) = fold_left Path.applyPath ps p.
Proof.
  intros Hp. unfold Path.resolve. cbn [fold_left]. by rewrite applyPath_render.
Qed.

Lemma stripCommon_spec (a b f t : Path.path) :
  Path.stripCommon a b = (f, t) -> exists c, a = c ++ f /\ b = c ++ t.
Proof.
  revert b. induction a as [|x a IH]; intros b; simpl.
  - intros [= <- <-]. by exists [].
  - destruct b as [|y b]; [intros [= <- <-]; by exists []|].
    destruct (Str.eqs x y) eqn:E; [|intros [= <- <-]; by exists []].
    apply eqs_true in E as ->. intros H. apply IH in H as (c & -> & ->).
    by exists (y :: c).
Qed.

Lemma applySeg_up (acc : Path.path) : Path.applySeg acc ".." = removelast acc.
Proof. reflexivity. Qed.

Lemma fold_applySeg_ups (c f : Path.path) :
  fold_left Path.applySeg (repeat ".." (length f)) (c ++ f) = c.
Proof.
  induction f as [|x f IH] using rev_ind; [by rewrite app_nil_r|].
  rewrite length_app, Nat.add_comm. cbn [length Nat.add repeat fold_left].
  rewrite applySeg_up, app_assoc, removelast_last. apply IH.
Qed.

Lemma fold_applySeg_rel (c f t : Path.path) :
  Path.canonical t ->
  fold_left Path.applySeg (repeat ".." (length f) ++ t) (c ++ f) = c ++ t.
Proof.
  intros Ht. by rewrite fold_left_app, fold_applySeg_ups, fold_applySeg_ok.
Qed.

Lemma rel_noslash (f t : Path.path) :
  Path.canonical t ->
  Forall (fun seg => Forall (fun a => a <> "/"%char) seg)
         (repeat ".." (length f) ++ t).
Proof.
  intros Ht. apply Forall_app. split; [|by apply canonical_noslash].
  apply Forall_forall. intros seg Hseg%list_elem_of_In%repeat_spec. subst.
  repeat constructor; done.
Qed.

Lemma join_head_noslash (segs : list str) :
  Forall (fun seg => seg <> [] /\ Forall (fun a => a <> "/"%char) seg) segs ->
  Str.startsWith "/" (Str.join "/" segs) = false.
Proof.
  intros H. destruct H as [|seg segs [Hne Hseg] _]; [done|].
  destruct seg as [|a seg]; [done|]. inversion Hseg as [|? ? Ha _]; subst.
  assert (H : Str.eqc "/"%char a = false) by (apply eqc_false; congruence).
  destruct segs; cbn [Str.join app Str.startsWith]; rewrite H; done.
Qed.

Lemma rel_nonempty_segs (f t : Path.path) :
  Path.canonical t ->
  Forall (fun seg => seg <> [] /\ Forall (fun a => a <> "/"%char) seg)
         (repeat ".." (length f) ++ t).
Proof.
  intros Ht. apply Forall_app. split.
  - apply Forall_forall. intros seg Hseg%list_elem_of_In%repeat_spec. subst.
    split; [done | repeat constructor; done].
  - apply Forall_forall. intros seg Hseg.
    unfold Path.canonical in Ht. rewrite forallb_forall in Ht.
    pose proof (Ht seg (proj1 (list_elem_of_In _ _) Hseg)) as Hok.
    split; [|by apply okSeg_noslash].
    intros ->. done.
Qed.

(** The relative path leads from [from] back to [to]: with or without a
    leading [./]. *)
Lemma applyPath_relative (c f t : Path.path) (dot : bool) :
  Path.canonical t ->
  Path.applyPath (c ++ f)
    ((if dot then "./" else "") ++ Str.join "/" (repeat ".." (length f) ++ t))
  = c ++ t.
Proof.
  intros Ht. unfold Path.applyPath.
  destruct (decide (repeat ".." (length f) ++ t = [])) as [E|Hne].
  - rewrite E. apply app_eq_nil in E as [Ef ->].
    destruct f; [|done]. rewrite !app_nil_r. by destruct dot.
  - assert (Hs : Str.split "/"%char (Str.join "/" (repeat ".." (length f) ++ t))
               = repeat ".." (length f) ++ t)
      by (apply split_join; [by apply rel_noslash | done]).
    pose proof (join_head_noslash _ (rel_nonempty_segs f t Ht)) as Hh.
    destruct dot.
    + change ("./" ++ ?x) with ("."%char :: "/"%char :: x).
      cbn [Str.startsWith Str.split]. change (Str.eqc "." "/") with false.
      rewrite eqc_refl. cbn [andb]. rewrite Hs.
      destruct (Str.split "/"%char _) eqn:E; [by apply split_cons_nonempty in E|].
      clear E. cbn [fold_left].
      change (Path.applySeg (c ++ f) ".") with (c ++ f).
      by apply fold_applySeg_rel.
    + cbn [app]. rewrite Hh, Hs. by apply fold_applySeg_rel.
Qed.

(** ** The alias pattern *)

Lemma Matches_lit_eq (l : str) prev w cs cs' :
  Matches noflags (Lit l) prev w cs cs' -> w = l /\ cs' = cs.
Proof.
  intros [-> H]%Matches_lit. split; [|done].
  induction H as [|c a l w Hc _ IH]; [done|].
  apply eqc_true in Hc. by subst.
Qed.

Lemma Forall_forallb (p : ascii -> bool) (w : str) :
  Forall (fun a => p a = true) w -> forallb p w = true.
Proof. intros H. by eapply Forall_forallb_eq. Qed.

Ltac break_matches :=
  repeat match goal with
  | H : Matches _ (Lit _) _ _ _ _ |- _ => apply Matches_lit_eq in H as [? ?]
  | H : chrMatch noflags _ _ = true |- _ => apply eqc_true in H
  | H : ex _ |- _ => destruct H as [? H]
  | H : _ /\ _ |- _ => destruct H as [? ?]
  end; subst.

(** What the pattern matches is an import of the prefix in one of the four
    shapes, and the replacer picks its three parts. *)
Lemma aliasRe_Matches prefix prev m cs :
  Matches noflags (aliasRe (Lit prefix)) prev m [] cs ->
  exists lhs x rhs,
    AliasImport prefix m lhs x rhs /\ pickGroups cs 1 4 = (lhs, x, rhs).
Proof.
  unfold aliasRe. cbn [Matches].
  intros [H|[H|[H|H]]]; break_matches;
    (do 3 eexists;
     (split;
      [split;
       [reflexivity
       |split; [|split; [by apply nonempty_of_length | by apply Forall_forallb]]]
      |reflexivity]);
     constructor;
     (done || by apply Forall_forallb || by apply nonempty_of_length)).
Qed.

Lemma slashes_id (s : str) : noBackslash s -> Str.slashes s = s.
Proof.
  unfold noBackslash, Str.slashes. induction s as [|c s IH]; [done|].
  simpl. intros [Hc Hs]%andb_true_iff. apply negb_true_iff in Hc.
  rewrite Hc. f_equal. by apply IH.
Qed.

Lemma slashes_noBackslash (s : str) : noBackslash (Str.slashes s).
Proof.
  unfold noBackslash, Str.slashes. induction s as [|c s IH]; [done|].
  simpl. rewrite IH, andb_true_r.
  destruct (Str.eqc c "\"%char) eqn:E; [done|]. by rewrite E.
Qed.

Lemma rewriteMatch_picked targetAbs dest m cs lhs x rhs :
  pickGroups cs 1 4 = (lhs, x, rhs) -> x <> [] ->
  rewriteMatch targetAbs dest m cs = lhs ++ relativeImport targetAbs dest x ++ rhs.
Proof.
  intros Hp Hx. unfold rewriteMatch. rewrite Hp.
  destruct x; [done|]. reflexivity.
Qed.

Lemma relativeImport_dot targetAbs dest x :
  Str.startsWith "." (relativeImport targetAbs dest x) = true.
Proof.
  unfold relativeImport. cbv zeta.
  destruct (Str.startsWith "." (toPosixPath _)) eqn:E; [done | reflexivity].
Qed.

Lemma relativeImport_noBackslash targetAbs dest x :
  noBackslash (relativeImport targetAbs dest x).
Proof.
  unfold relativeImport. cbv zeta.
  destruct (Str.startsWith "." (toPosixPath _)); [apply slashes_noBackslash|].
  unfold noBackslash. cbn [app forallb]. apply slashes_noBackslash.
Qed.

Lemma relativeImport_resolves targetAbs dest x :
  Path.canonical wd ->
  noBackslash (Path.relative wd (Path.dirname dest)
                 (Path.render (Path.resolve wd [targetAbs; x]))) ->
  Path.resolve wd [Path.dirname dest; relativeImport targetAbs dest x] =
  Path.resolve wd [targetAbs; x].
Proof.
  intros Hwd Hnb. unfold relativeImport. cbv zeta. unfold toPosixPath.
  rewrite slashes_id by done. clear Hnb.
  unfold Path.relative.
  change (Path.resolve wd [Path.render (Path.resolve wd [targetAbs; x])])
    with (Path.applyPath wd (Path.render (Path.resolve wd [targetAbs; x]))).
  rewrite applyPath_render by by apply resolve_canonical.
  destruct (Path.stripCommon _ _) as [f t] eqn:E.
  apply stripCommon_spec in E as (c & Hf & Ht).
  assert (Hct : Path.canonical t).
  { pose proof (resolve_canonical wd [targetAbs; x] Hwd) as H.
    rewrite Ht in H. by apply canonical_app in H as [_ H]. }
  change (Path.resolve wd [Path.dirname dest; ?r])
    with (Path.applyPath (Path.resolve wd [Path.dirname dest]) r).
  rewrite Hf, Ht.
  destruct (Str.startsWith "." _).
  - apply (applyPath_relative c f t false Hct).
  - apply (applyPath_relative c f t true Hct).
Qed.

Lemma resolve_target root at_ x :
  Path.canonical wd ->
  Path.resolve wd [Path.render (Path.resolve wd [root; at_]); x] =
  Path.resolve wd [root; at_; x].
Proof.
  intros Hwd. rewrite resolve_render by by apply resolve_canonical. done.
Qed.

Lemma rewrite_unfold code ap at_ dest root :
  ap <> [] -> at_ <> [] ->
  rewriteAliasImports code (Some ap) (Some at_) dest root =
  replaceAll noflags (aliasRe (Lit (aliasPrefixOf ap))) code
    (rewriteMatch (Path.render (Path.resolve wd [root; at_])) dest).
Proof.
  intros Hap Hat. unfold rewriteAliasImports.
  destruct ap; [done|]. destruct at_; [done|]. reflexivity.
Qed.

Lemma spaces_Forall (w : str) :
  spaces w -> Forall (fun a => clsMatch noflags Str.isSpace a = true) w.
Proof.
  unfold spaces. rewrite forallb_forall, Forall_forall.
  intros H a Ha. apply H. by apply list_elem_of_In.
Qed.

Lemma Forall_spaces (w : str) :
  Forall (fun a => clsMatch noflags Str.isSpace a = true) w -> spaces w.
Proof. apply Forall_forallb. Qed.

Lemma quote_not_space (q : ascii) : quote q -> Str.isSpace q = false.
Proof.
  unfold quote, isQuote. intros [H|H]%orb_prop; apply eqc_true in H; by subst q.
Qed.

Lemma take_consumed (n x : str) : take (length (n ++ x) - length x) (n ++ x) = n.
Proof.
  rewrite length_app. replace (length n + length x - length x) with (length n) by lia.
  apply take_app_length.
Qed.

Lemma scan_skip fl r (w rest : str) prev :
  scan fl r (length w) prev (w ++ rest) = scan fl r 0 (prevAfter prev w) rest.
Proof.
  revert prev. induction w as [|c w IH]; intros prev.
  - by rewrite prevAfter_nil.
  - cbn [length app scan]. rewrite IH. by rewrite prevAfter_cons.
Qed.

(** ** The scan finds the imports *)

Lemma rep_prev {R} fl p min prev prev' (s : str)
    (k k' : option ascii -> str -> option R) :
  (forall p1 p2 t, k p1 t = k' p2 t) ->
  rep fl p min prev s k = rep fl p min prev' s k'.
Proof.
  intros Hk. revert min prev prev'.
  induction s as [|c s IH]; intros min prev prev'; cbn [rep].
  - destruct min; [apply Hk | done].
  - rewrite (IH (pred min) (Some c) (Some c)).
    destruct (clsMatch fl p c); destruct min; try done; by rewrite (Hk prev prev').
Qed.

Lemma run_prev {R} fl r prev prev' (s : str) cs
    (k k' : option ascii -> str -> caps -> option R) :
  noBol r = true ->
  (forall p1 p2 t cs', k p1 t cs' = k' p2 t cs') ->
  run fl r prev s cs k = run fl r prev' s cs k'.
Proof.
  revert prev prev' s cs k k'.
  induction r as [|c|p|r1 IH1 r2 IH2|r1 IH1 r2 IH2|r1 IH1|min p|i r1 IH1|];
    intros prev prev' s cs k k' Hb Hk; cbn [run noBol] in *.
  - apply Hk.
  - destruct s as [|a s]; [done|]. destruct (chrMatch fl c a); [apply Hk | done].
  - destruct s as [|a s]; [done|]. destruct (clsMatch fl p a); [apply Hk | done].
  - apply andb_prop in Hb as [Hb1 Hb2]. apply IH1; [done|].
    intros p1 p2 t cs'. by apply IH2.
  - apply andb_prop in Hb as [Hb1 Hb2].
    rewrite (IH1 prev prev' s cs k k') by done.
    by rewrite (IH2 prev prev' s cs k k').
  - rewrite (IH1 prev prev' s cs k k') by done. by rewrite (Hk prev prev').
  - apply rep_prev. intros p1 p2 t. apply Hk.
  - apply IH1; [done|]. intros p1 p2 t cs'. apply Hk.
  - done.
Qed.

Lemma matchAt_prev fl r prev prev' (s : str) :
  noBol r = true -> matchAt fl r prev s = matchAt fl r prev' s.
Proof. intros Hb. unfold matchAt. by apply run_prev. Qed.

Lemma scan_prev fl r skip prev prev' (s : str) :
  noBol r = true -> scan fl r skip prev s = scan fl r skip prev' s.
Proof.
  intros Hb. destruct s as [|c s]; destruct skip as [|n]; cbn [scan]; try done;
    by rewrite (matchAt_prev fl r prev prev').
Qed.

Lemma noBol_Lit (l : str) : noBol (Lit l) = true.
Proof. induction l as [|c l IH]; [done|]. cbn [Lit noBol]. by rewrite IH. Qed.

Lemma noBol_aliasRe (prefix : str) : noBol (aliasRe (Lit prefix)) = true.
Proof. unfold aliasRe. cbn [noBol]. by rewrite !noBol_Lit. Qed.

Lemma take_prefix (w r s : str) : s = w ++ r -> take (length s - length r) s = w.
Proof. intros ->. apply take_consumed. Qed.

Lemma notQuote_Forall (x : str) :
  forallb notQuote x = true ->
  Forall (fun a => clsMatch noflags notQuote a = true) x.
Proof.
  rewrite forallb_forall, Forall_forall.
  intros H a Ha. apply H. by apply list_elem_of_In.
Qed.

Lemma clsMatch_quote (q : ascii) : quote q -> clsMatch noflags isQuote q = true.
Proof. done. Qed.

Lemma notQuote_quote (q : ascii) : quote q -> clsMatch noflags notQuote q = false.
Proof. unfold quote, clsMatch, notQuote. cbn [ignoreCase noflags]. by intros ->. Qed.

Lemma space_quote (q : ascii) : quote q -> clsMatch noflags Str.isSpace q = false.
Proof. intros Hq. unfold clsMatch. cbn [ignoreCase noflags]. by apply quote_not_space. Qed.

Lemma length_pos (x : str) : x <> [] -> 1 <= length x.
Proof. destruct x; [done|]. cbn. lia. Qed.

Lemma run_Alt_l {R} fl r1 r2 prev (s : str) cs
    (k : option ascii -> str -> caps -> option R) x :
  run fl r1 prev s cs k = Some x -> run fl (Alt r1 r2) prev s cs k = Some x.
Proof. intros H. cbn [run]. by rewrite H. Qed.

Lemma run_Alt_r {R} fl r1 r2 prev (s : str) cs
    (k : option ascii -> str -> caps -> option R) :
  run fl r1 prev s cs k = None ->
  run fl (Alt r1 r2) prev s cs k = run fl r2 prev s cs k.
Proof. intros H. cbn [run]. by rewrite H. Qed.

(** An alternative that starts with another word fails at once. *)
Lemma run_word_fail {R} i (c : ascii) (l : str) r r' prev (a : ascii) (s : str) cs
    (k : option ascii -> str -> caps -> option R) :
  chrMatch noflags c a = false ->
  run noflags (Seq (Grp i (Seq (Lit (c :: l)) r)) r') prev (a :: s) cs k = None.
Proof. intros H. cbn [run Lit]. by rewrite H. Qed.

Ltac norm_app := repeat (progress cbn [app] || rewrite <- app_assoc).

Lemma matchAt_from (prefix x b ws : str) (q q' : ascii) prev :
  ws <> [] -> spaces ws -> quote q -> quote q' ->
  x <> [] -> forallb notQuote x = true ->
  exists cs,
    matchAt noflags (aliasRe (Lit prefix)) prev
      (("from" ++ ws ++ [q]) ++ prefix ++ x ++ [q'] ++ b) = Some (b, cs) /\
    pickGroups cs 1 4 = ("from" ++ ws ++ [q], x, [q']).
Proof.
  intros Hws Hsp Hq Hq' Hx Hnq.
  set (s3 := q' :: b).
  set (s2 := x ++ s3).
  set (s1 := prefix ++ s2).
  set (s0 := ws ++ q :: s1).
  assert (Es : ("from" ++ ws ++ [q]) ++ prefix ++ x ++ [q'] ++ b = "from" ++ s0).
  { unfold s0, s1, s2, s3. rewrite <- !app_assoc. reflexivity. }
  rewrite Es. eexists. split.
  - unfold matchAt, aliasRe. apply run_Alt_l. cbn [run].
    rewrite run_lit. cbv beta. unfold s0.
    erewrite rep_greedy;
      [reflexivity | by apply spaces_Forall | by apply length_pos
      | by apply space_quote |].
    rewrite (clsMatch_quote q Hq). unfold s1. rewrite run_lit. cbv beta. unfold s2.
    erewrite rep_greedy;
      [reflexivity | by apply notQuote_Forall | by apply length_pos
      | by apply notQuote_quote |].
    unfold s3. rewrite (clsMatch_quote q' Hq'). reflexivity.
  - cbn [pickGroups capture Nat.eqb Nat.add orElse].
    rewrite (take_prefix ("from" ++ ws ++ [q]) (prefix ++ x ++ q' :: b))
      by (rewrite <- !app_assoc; reflexivity).
    rewrite take_consumed. rewrite (take_prefix [q'] b) by reflexivity. reflexivity.
Qed.

Lemma matchAt_import (prefix x b ws1 ws2 ws3 : str) (q q' : ascii) prev :
  spaces ws1 -> spaces ws2 -> spaces ws3 -> quote q -> quote q' ->
  x <> [] -> forallb notQuote x = true ->
  exists cs,
    matchAt noflags (aliasRe (Lit prefix)) prev
      (("import" ++ ws1 ++ "(" ++ ws2 ++ [q]) ++ prefix ++ x ++ (q' :: ws3 ++ ")") ++ b)
      = Some (b, cs) /\
    pickGroups cs 1 4 = ("import" ++ ws1 ++ "(" ++ ws2 ++ [q], x, q' :: ws3 ++ ")").
Proof.
  intros H1 H2 H3 Hq Hq' Hx Hnq.
  set (s5 := ")"%char :: b).
  set (s4 := ws3 ++ s5).
  set (s3 := q' :: s4).
  set (s2 := x ++ s3).
  set (s1 := prefix ++ s2).
  set (t1 := ws2 ++ q :: s1).
  set (s0 := ws1 ++ "("%char :: t1).
  assert (Es : ("import" ++ ws1 ++ "(" ++ ws2 ++ [q]) ++ prefix ++ x ++
               (q' :: ws3 ++ ")") ++ b = "import" ++ s0).
  { unfold s0, t1, s1, s2, s3, s4, s5. norm_app. reflexivity. }
  rewrite Es. eexists. split.
  - unfold matchAt, aliasRe.
    rewrite run_Alt_r by (by apply run_word_fail).
    apply run_Alt_l. cbn [run].
    rewrite run_lit. cbv beta. unfold s0.
    erewrite rep_greedy; [reflexivity | by apply spaces_Forall | lia | done |].
    rewrite chrMatch_refl. unfold t1.
    erewrite rep_greedy;
      [reflexivity | by apply spaces_Forall | lia | by apply space_quote |].
    rewrite (clsMatch_quote q Hq). unfold s1. rewrite run_lit. cbv beta. unfold s2.
    erewrite rep_greedy;
      [reflexivity | by apply notQuote_Forall | by apply length_pos
      | by apply notQuote_quote |].
    unfold s3. rewrite (clsMatch_quote q' Hq'). unfold s4.
    erewrite rep_greedy; [reflexivity | by apply spaces_Forall | lia | done |].
    unfold s5. rewrite chrMatch_refl. reflexivity.
  - cbn [pickGroups capture Nat.eqb Nat.add orElse].
    rewrite (take_prefix ("import" ++ ws1 ++ "(" ++ ws2 ++ [q])
               (prefix ++ x ++ q' :: ws3 ++ ")"%char :: b))
      by (norm_app; reflexivity).
    rewrite take_consumed.
    rewrite (take_prefix (q' :: ws3 ++ ")") b)
      by (norm_app; reflexivity).
    reflexivity.
Qed.

Lemma matchAt_export (prefix x b ws1 ws2 ws3 : str) (q q' : ascii) prev :
  spaces ws1 -> spaces ws2 -> spaces ws3 -> quote q -> quote q' ->
  x <> [] -> forallb notQuote x = true ->
  exists cs,
    matchAt noflags (aliasRe (Lit prefix)) prev
      (("export" ++ ws1 ++ "*" ++ ws2 ++ "from" ++ ws3 ++ [q]) ++ prefix ++ x ++ [q'] ++ b)
      = Some (b, cs) /\
    pickGroups cs 1 4 =
      ("export" ++ ws1 ++ "*" ++ ws2 ++ "from" ++ ws3 ++ [q], x, [q']).
Proof.
  intros H1 H2 H3 Hq Hq' Hx Hnq.
  set (s3 := q' :: b).
  set (s2 := x ++ s3).
  set (s1 := prefix ++ s2).
  set (t3 := ws3 ++ q :: s1).
  set (t2 := "from" ++ t3).
  set (t1 := ws2 ++ t2).
  set (s0 := ws1 ++ "*"%char :: t1).
  assert (Es : ("export" ++ ws1 ++ "*" ++ ws2 ++ "from" ++ ws3 ++ [q]) ++ prefix ++
               x ++ [q'] ++ b = "export" ++ s0).
  { unfold s0, t1, t2, t3, s1, s2, s3. norm_app. reflexivity. }
  rewrite Es. eexists. split.
  - unfold matchAt, aliasRe.
    rewrite run_Alt_r by (by apply run_word_fail).
    rewrite run_Alt_r by (by apply run_word_fail).
    apply run_Alt_l. cbn [run].
    rewrite run_lit. cbv beta. unfold s0.
    erewrite rep_greedy; [reflexivity | by apply spaces_Forall | lia | done |].
    rewrite chrMatch_refl. unfold t1.
    erewrite rep_greedy; [reflexivity | by apply spaces_Forall | lia | done |].
    unfold t2. rewrite run_lit. cbv beta. unfold t3.
    erewrite rep_greedy;
      [reflexivity | by apply spaces_Forall | lia | by apply space_quote |].
    rewrite (clsMatch_quote q Hq). unfold s1. rewrite run_lit. cbv beta. unfold s2.
    erewrite rep_greedy;
      [reflexivity | by apply notQuote_Forall | by apply length_pos
      | by apply notQuote_quote |].
    unfold s3. rewrite (clsMatch_quote q' Hq'). reflexivity.
  - cbn [pickGroups capture Nat.eqb Nat.add orElse].
    rewrite (take_prefix ("export" ++ ws1 ++ "*" ++ ws2 ++ "from" ++ ws3 ++ [q])
               (prefix ++ x ++ q' :: b))
      by (norm_app; reflexivity).
    rewrite take_consumed. rewrite (take_prefix [q'] b) by reflexivity. reflexivity.
Qed.

Lemma matchAt_require (prefix x b ws1 ws2 : str) (q q' : ascii) prev :
  spaces ws1 -> spaces ws2 -> quote q -> quote q' ->
  x <> [] -> forallb notQuote x = true ->
  exists cs,
    matchAt noflags (aliasRe (Lit prefix)) prev
      (("require(" ++ ws1 ++ [q]) ++ prefix ++ x ++ (q' :: ws2 ++ ")") ++ b)
      = Some (b, cs) /\
    pickGroups cs 1 4 = ("require(" ++ ws1 ++ [q], x, q' :: ws2 ++ ")").
Proof.
  intros H1 H2 Hq Hq' Hx Hnq.
  set (s5 := ")"%char :: b).
  set (s4 := ws2 ++ s5).
  set (s3 := q' :: s4).
  set (s2 := x ++ s3).
  set (s1 := prefix ++ s2).
  set (s0 := ws1 ++ q :: s1).
  assert (Es : ("require(" ++ ws1 ++ [q]) ++ prefix ++ x ++ (q' :: ws2 ++ ")") ++ b =
               "require(" ++ s0).
  { unfold s0, s1, s2, s3, s4, s5. norm_app. reflexivity. }
  rewrite Es. eexists. split.
  - unfold matchAt, aliasRe.
    rewrite run_Alt_r by (by apply run_word_fail).
    rewrite run_Alt_r by (by apply run_word_fail).
    rewrite run_Alt_r by (by apply run_word_fail).
    cbn [run].
    rewrite run_lit. cbv beta. unfold s0.
    erewrite rep_greedy;
      [reflexivity | by apply spaces_Forall | lia | by apply space_quote |].
    rewrite (clsMatch_quote q Hq). unfold s1. rewrite run_lit. cbv beta. unfold s2.
    erewrite rep_greedy;
      [reflexivity | by apply notQuote_Forall | by apply length_pos
      | by apply notQuote_quote |].
    unfold s3. rewrite (clsMatch_quote q' Hq'). unfold s4.
    erewrite rep_greedy; [reflexivity | by apply spaces_Forall | lia | done |].
    unfold s5. rewrite chrMatch_refl. reflexivity.
  - cbn [pickGroups capture Nat.eqb Nat.add orElse].
    rewrite (take_prefix ("require(" ++ ws1 ++ [q])
               (prefix ++ x ++ q' :: ws2 ++ ")"%char :: b))
      by (norm_app; reflexivity).
    rewrite take_consumed.
    rewrite (take_prefix (q' :: ws2 ++ ")") b)
      by (norm_app; reflexivity).
    reflexivity.
Qed.

(** Where an import of the prefix stands, the pattern matches it, and the
    replacer sees its three parts. *)
Lemma matchAt_AliasImport (prefix m lhs x rhs b : str) prev :
  AliasImport prefix m lhs x rhs ->
  exists cs,
    matchAt noflags (aliasRe (Lit prefix)) prev (m ++ b) = Some (b, cs) /\
    pickGroups cs 1 4 = (lhs, x, rhs).
Proof.
  intros (-> & Hs & Hx & Hnq).
  assert (E : (lhs ++ prefix ++ x ++ rhs) ++ b = lhs ++ prefix ++ x ++ rhs ++ b)
    by by rewrite <- !app_assoc.
  rewrite E.
  destruct Hs as [ws q q' Hws Hsp Hq Hq'|ws1 ws2 ws3 q q' H1 H2 H3 Hq Hq'
                 |ws1 ws2 ws3 q q' H1 H2 H3 Hq Hq'|ws1 ws2 q q' H1 H2 Hq Hq'].
  - by apply matchAt_from.
  - by apply matchAt_import.
  - by apply matchAt_export.
  - by apply matchAt_require.
Qed.

Lemma concat_replaced_Keep (f : str -> caps -> str) (a : str) (ps : list piece) :
  concat (map (replaced f) (map Keep a ++ ps)) = a ++ concat (map (replaced f) ps).
Proof. induction a as [|c a IH]; [done|]. cbn. by rewrite IH. Qed.

(** The scan up to the first match: the characters before it are kept one
    by one, then the match is passed as a whole and the scan goes on
    behind it. *)
Lemma scan_at fl r (a m b : str) cs prev :
  noBol r = true -> m <> [] ->
  (forall a1 a2, a = a1 ++ a2 -> a2 <> [] ->
     matchAt fl r None (a2 ++ m ++ b) = None) ->
  matchAt fl r None (m ++ b) = Some (b, cs) ->
  scan fl r 0 prev (a ++ m ++ b) = map Keep a ++ Hit m cs :: scan fl r 0 None b.
Proof.
  intros Hb Hm Hno Hat. revert prev Hno. induction a as [|c a IH]; intros prev Hno.
  - destruct m as [|c m]; [done|]. cbn [app map] in *. cbn [scan].
    rewrite (matchAt_prev fl r prev None) by done. rewrite Hat.
    rewrite (take_prefix (c :: m) b) by reflexivity.
    cbn [length]. rewrite scan_skip. by rewrite (scan_prev fl r 0 _ None).
  - cbn [app map]. cbn [scan].
    rewrite (matchAt_prev fl r prev None) by done.
    pose proof (Hno [] (c :: a) eq_refl ltac:(done)) as Hn. cbn [app] in Hn. rewrite Hn.
    f_equal. apply IH. intros a1 a2 -> Ha2. by apply (Hno (c :: a1) a2).
Qed.

Lemma replaceAll_at fl r (a m b : str) cs (f : str -> caps -> str) :
  noBol r = true -> m <> [] ->
  (forall a1 a2, a = a1 ++ a2 -> a2 <> [] ->
     matchAt fl r None (a2 ++ m ++ b) = None) ->
  matchAt fl r None (m ++ b) = Some (b, cs) ->
  replaceAll fl r (a ++ m ++ b) f = a ++ f m cs ++ replaceAll fl r b f.
Proof.
  intros Hb Hm Hno Hat. unfold replaceAll.
  rewrite (scan_at fl r a m b cs None) by done.
  rewrite concat_replaced_Keep. reflexivity.
Qed.

Lemma AliasImport_nonempty prefix m lhs x rhs :
  AliasImport prefix m lhs x rhs -> m <> [].
Proof. intros (-> & Hs & _). by destruct Hs. Qed.

(** The first import of the prefix in the code is rewritten where it
    stands, the text before it is kept, and the text behind it is
    rewritten in the same way. *)
Lemma rewrite_first code ap at_ dest root (a m b lhs x rhs : str) :
  ap <> [] -> at_ <> [] ->
  code = a ++ m ++ b ->
  AliasImport (aliasPrefixOf ap) m lhs x rhs ->
  noImportInside (aliasPrefixOf ap) a (m ++ b) ->
  rewriteAliasImports code (Some ap) (Some at_) dest root =
  a ++ lhs ++ relativeImport (Path.render (Path.resolve wd [root; at_])) dest x ++ rhs ++
  rewriteAliasImports b (Some ap) (Some at_) dest root.
Proof.
  intros Hap Hat -> Hi Hno. rewrite !rewrite_unfold by done.
  destruct (matchAt_AliasImport (aliasPrefixOf ap) m lhs x rhs b None Hi)
    as (cs & Hm & Hp).
  rewrite (replaceAll_at noflags _ a m b cs).
  - rewrite (rewriteMatch_picked _ dest m cs lhs x rhs Hp)
      by by destruct Hi as (_ & _ & Hx & _).
    by rewrite <- !app_assoc.
  - apply noBol_aliasRe.
  - by eapply AliasImport_nonempty.
  - intros a1 a2 Ha Ha2.
    destruct (matchAt noflags _ None (a2 ++ m ++ b)) as [[s' cs']|] eqn:E; [|done].
    exfalso. apply matchAt_sound in E as (w & Hs & Hw).
    apply aliasRe_Matches in Hw as (lhs' & x' & rhs' & Hi' & _).
    by eapply (Hno a1 a2 w s').
  - done.
Qed.

(** Every import of the prefix starts with the [f] of [from], the [i] of
    [import], the [e] of [export] or the [r] of [require]. *)
Lemma AliasImport_head prefix w lhs x rhs :
  AliasImport prefix w lhs x rhs ->
  exists c t, w = c :: t /\ c ∈ ["f"; "i"; "e"; "r"]%char.
Proof.
  intros (-> & Hs & _).
  destruct Hs; cbn [app]; do 2 eexists; (split; [reflexivity|]); repeat constructor.
Qed.

Lemma noImportInside_letters prefix a rest :
  forallb (fun c => negb (existsb (Str.eqc c) "fier")) a = true ->
  noImportInside prefix a rest.
Proof.
  intros Hall a1 a2 w rest' lhs x rhs -> Ha2 He Hi.
  apply AliasImport_head in Hi as (c & t & -> & Hc).
  destruct a2 as [|c2 a2]; [done|]. cbn [app] in He. injection He as -> _.
  rewrite forallb_app in Hall. apply andb_prop in Hall as [_ Hall].
  cbn [forallb] in Hall. apply andb_prop in Hall as [Hn _].
  apply negb_true_iff in Hn.
  assert (Hy : existsb (Str.eqc c) "fier" = true); [|congruence].
  apply existsb_exists. exists c. split; [|apply eqc_refl].
  by apply list_elem_of_In.
Qed.
(** The rewriting cuts the code into characters it keeps and imports of
    the prefix it rewrites. *)
Lemma rewrite_pieces code ap at_ dest root :
  ap <> [] -> at_ <> [] ->
  exists pieces,
    code = concat (map source pieces) /\
    rewriteAliasImports code (Some ap) (Some at_) dest root =
    concat (map (replaced (rewriteMatch (Path.render (Path.resolve wd [root; at_])) dest))
                pieces) /\
    forall m cs, Hit m cs ∈ pieces ->
      exists a b lhs x rhs,
        code = a ++ m ++ b /\
        AliasImport (aliasPrefixOf ap) m lhs x rhs /\
        pickGroups cs 1 4 = (lhs, x, rhs).
Proof.
  intros Hap Hat. rewrite rewrite_unfold by done.
  destruct (replaceAll_pieces noflags (aliasRe (Lit (aliasPrefixOf ap))) code
              (rewriteMatch (Path.render (Path.resolve wd [root; at_])) dest))
    as (ps & Hs & Hr & Hh).
  exists ps. split; [done|]. split; [done|].
  intros m cs Hin. apply Hh in Hin as (a & b & Hc & Hm).
  apply aliasRe_Matches in Hm as (lhs & x & rhs & Hi & Hp). eauto 10.
Qed.

(** C1 (amended).  With an alias rule, [rewriteAliasImports] rewrites the
    imports of the prefix.  The first import [lhs prefix x rhs] of the code
    (one of the four shapes, no other import starting in the text before
    it) becomes [lhs R rhs]; the text before it is kept and the text behind
    it is rewritten in the same way.  The captured text around the source
    is kept as it is, [R] starts with a dot and has no backslash, and,
    provided the relative path from the destination's directory has no
    backslash of its own, resolving [R] from the destination file's
    directory gives the path of [x] under the alias target resolved under
    the project root.  Nothing else changes: the result is the code with
    every character outside the matched imports kept, and each matched
    import rewritten in this way. *)
Theorem rewrite_alias_relative (code ap at_ dest root : str) :
  Path.canonical wd -> ap <> [] -> at_ <> [] ->
  (forall a m b lhs x rhs,
     code = a ++ m ++ b ->
     AliasImport (aliasPrefixOf ap) m lhs x rhs ->
     noImportInside (aliasPrefixOf ap) a (m ++ b) ->
     let R := relativeImport (Path.render (Path.resolve wd [root; at_])) dest x in
     rewriteAliasImports code (Some ap) (Some at_) dest root =
       a ++ lhs ++ R ++ rhs ++ rewriteAliasImports b (Some ap) (Some at_) dest root /\
     Str.startsWith "." R = true /\ noBackslash R /\
     (noBackslash (Path.relative wd (Path.dirname dest)
                     (Path.render (Path.resolve wd [root; at_; x]))) ->
      Path.resolve wd [Path.dirname dest; R] = Path.resolve wd [root; at_; x])) /\
  exists pieces,
    code = concat (map source pieces) /\
    rewriteAliasImports code (Some ap) (Some at_) dest root =
    concat (map (replaced (rewriteMatch (Path.render (Path.resolve wd [root; at_])) dest))
                pieces) /\
    forall m cs, Hit m cs ∈ pieces ->
      exists lhs x rhs R,
        AliasImport (aliasPrefixOf ap) m lhs x rhs /\
        rewriteMatch (Path.render (Path.resolve wd [root; at_])) dest m cs =
          lhs ++ R ++ rhs /\
        Str.startsWith "." R = true /\ noBackslash R /\
        (noBackslash (Path.relative wd (Path.dirname dest)
                        (Path.render (Path.resolve wd [root; at_; x]))) ->
         Path.resolve wd [Path.dirname dest; R] = Path.resolve wd [root; at_; x]).
Proof.
  intros Hwd Hap Hat. split.
  { intros a m b lhs x rhs Hc Hi Hno R.
    split; [by apply (rewrite_first code ap at_ dest root a m b lhs x rhs)|].
    split; [apply relativeImport_dot|]. split; [apply relativeImport_noBackslash|].
    intros Hnb. rewrite <- (resolve_target root at_ x Hwd) in Hnb |- *.
    by apply relativeImport_resolves. }
  destruct (rewrite_pieces code ap at_ dest root Hap Hat) as (ps & Hs & Hr & Hh).
  exists ps. split; [done|]. split; [done|].
  intros m cs Hin. apply Hh in Hin as (a & b & lhs & x & rhs & _ & Hi & Hp).
  exists lhs, x, rhs, (relativeImport (Path.render (Path.resolve wd [root; at_])) dest x).
  split; [done|]. split.
  { apply rewriteMatch_picked; [done|]. by destruct Hi as (_ & _ & Hx & _). }
  split; [apply relativeImport_dot|]. split; [apply relativeImport_noBackslash|].
  intros Hnb. rewrite <- (resolve_target root at_ x Hwd) in Hnb |- *.
  by apply relativeImport_resolves.
Qed.

(** C8.  [rewriteAliasImports] returns the code unchanged when the alias
    prefix or target is absent (or empty), when no part of the code is an
    import of the prefix in one of the four shapes, and in particular when
    the prefix does not occur in the code; in every case the only text it
    alters lies inside such imports. *)
Theorem rewrite_alias_noop (code dest root : str) :
  (forall t, rewriteAliasImports code None t dest root = code) /\
  (forall p, rewriteAliasImports code p None dest root = code) /\
  (forall t, rewriteAliasImports code (Some "") t dest root = code) /\
  (forall p, rewriteAliasImports code p (Some "") dest root = code) /\
  (forall ap at_,
     (forall a m b lhs x rhs,
        code = a ++ m ++ b -> ~ AliasImport (aliasPrefixOf ap) m lhs x rhs) ->
     rewriteAliasImports code (Some ap) (Some at_) dest root = code) /\
  (forall ap at_,
     Str.includes (aliasPrefixOf ap) code = false ->
     rewriteAliasImports code (Some ap) (Some at_) dest root = code) /\
  (forall ap at_,
     exists pieces,
       code = concat (map source pieces) /\
       rewriteAliasImports code (Some ap) (Some at_) dest root =
       concat (map (replaced (rewriteMatch (Path.render (Path.resolve wd [root; at_])) dest))
                   pieces) /\
       forall m cs, Hit m cs ∈ pieces ->
         exists lhs x rhs, AliasImport (aliasPrefixOf ap) m lhs x rhs).
Proof.
  assert (Hnone : forall ap at_,
     (forall a m b lhs x rhs,
        code = a ++ m ++ b -> ~ AliasImport (aliasPrefixOf ap) m lhs x rhs) ->
     rewriteAliasImports code (Some ap) (Some at_) dest root = code).
  { intros ap at_ Hno.
    destruct (decide (ap = [])) as [->|Hap]; [done|].
    destruct (decide (at_ = [])) as [->|Hat]; [by destruct ap|].
    destruct (rewrite_pieces code ap at_ dest root Hap Hat) as (ps & Hs & Hr & Hh).
    rewrite Hr. transitivity (concat (map source ps)); [|by symmetry].
    f_equal. apply map_ext_in.
    intros [c|m cs] Hin%list_elem_of_In; [done|]. exfalso.
    apply Hh in Hin as (a & b & lhs & x & rhs & Hc & Hi & _). by eapply Hno. }
  assert (Hkeep : concat (map source (map Keep code)) = code
                  /\ forall f, concat (map (replaced f) (map Keep code)) = code).
  { split; [|intros f]; clear; induction code as [|c code' IH]; simpl;
      [done | by f_equal | done | by f_equal]. }
  split; [done|]. split; [by intros [?|]|].
  split; [by intros [[|? ?]|]|]. split; [by intros [[|? ?]|]|].
  split; [exact Hnone|]. split.
  - intros ap at_ Hinc. apply Hnone. intros a m b lhs x rhs Hc (Hm & _).
    apply includes_false in Hinc. apply Hinc.
    exists (a ++ lhs), (x ++ rhs ++ b). rewrite Hc, Hm, <- !app_assoc. done.
  - intros ap at_.
    destruct (decide (ap = [])) as [->|Hap].
    { exists (map Keep code). split; [by destruct Hkeep|]. split.
      - simpl. symmetry. apply Hkeep.
      - intros m cs (? & [=] & _)%list_elem_of_fmap. }
    destruct (decide (at_ = [])) as [->|Hat].
    { exists (map Keep code). split; [by destruct Hkeep|]. split.
      - destruct ap; [done|]. simpl. symmetry. apply Hkeep.
      - intros m cs (? & [=] & _)%list_elem_of_fmap. }
    destruct (rewrite_pieces code ap at_ dest root Hap Hat) as (ps & Hs & Hr & Hh).
    exists ps. split; [done|]. split; [done|].
    intros m cs Hin. apply Hh in Hin as (a & b & lhs & x & rhs & _ & Hi & _).
    eauto 10.
Qed.

(** ** Operations that leave the store alone *)

Lemma findHook_absent (registry : Registry) (hookId : str) :
  hookId ∉ map entry_id (reg_hooks registry) -> findHook registry hookId = None.
Proof.
  unfold findHook. induction (reg_hooks registry) as [|h hs IH]; [done|].
  simpl. intros Hnot. apply not_elem_of_cons in Hnot as [Hne Hnot].
  rewrite bool_decide_eq_false_2 by congruence. by apply IH.
Qed.

(** C6.  For a hook id absent from the fetched registry, install, update
    and remove (and add) fail with the "Unknown hook" error and leave the
    store exactly as it was. *)
Theorem unknown_hook_aborts (hookId : str) (registry : Registry) (s : Fs.store) :
  remoteRegistry REGISTRY_URL = Some registry ->
  hookId ∉ map entry_id (reg_hooks registry) ->
  (forall baseDir addIndex options,
     installHook hookId baseDir addIndex options s =
     (Fs.Err (Fs.UnknownHook hookId), s)) /\
  (forall opts, cmdUpdate hookId opts s = (Fs.Err (Fs.UnknownHook hookId), s)) /\
  (forall opts, cmdRemove hookId opts s = (Fs.Err (Fs.UnknownHook hookId), s)) /\
  (forall opts, hookId <> [] ->
     cmdAdd (Some hookId) opts s = (Fs.Err (Fs.UnknownHook hookId), s)).
Proof.
  intros Hreg Habs. apply findHook_absent in Habs.
  assert (Hinst : forall baseDir addIndex options,
     installHook hookId baseDir addIndex options s =
     (Fs.Err (Fs.UnknownHook hookId), s)).
  { intros. unfold installHook, Fs.bind, getRegistry. rewrite Hreg. simpl.
    by rewrite Habs. }
  split; [done|]. split; [|split].
  - intros opts. unfold cmdUpdate, Fs.bind, getConfig. apply Hinst.
  - intros opts. unfold cmdRemove, Fs.bind, getConfig, getRegistry.
    rewrite Hreg. simpl. by rewrite Habs.
  - intros opts Hne. unfold cmdAdd, Fs.bind, getConfig, getRegistry.
    rewrite Hreg. simpl. destruct hookId; [done|]. apply Hinst.
Qed.

Lemma installFiles_dry (body : FileDesc -> Fs.M str) (files : list FileDesc)
    (last : option str) (s : Fs.store) :
  (forall f, exists name, body f s = (Fs.Ok name, s)) ->
  exists last', installFiles body files last s = (Fs.Ok last', s).
Proof.
  intros Hbody. revert last. induction files as [|f files IH]; intros last.
  - by exists last.
  - simpl. unfold Fs.bind. destruct (Hbody f) as [name ->]. apply IH.
Qed.

Lemma installHook_dry (hookId baseDir : str) (addIndex : bool)
    (options : InstallOptions) (s : Fs.store) :
  truthy (dry options) = true ->
  snd (installHook hookId baseDir addIndex (Some options) s) = s.
Proof.
  intros Hdry. unfold installHook, Fs.bind, getRegistry, getMeta, getConfig.
  destruct (remoteRegistry REGISTRY_URL) as [registry|]; [|done]. simpl.
  destruct (findHook registry hookId) as [entry|]; [|done].
  destruct (remoteMeta (metaUrl registry entry)) as [meta|]; [|done]. simpl.
  match goal with
  | |- context [installFiles ?body ?files ?last s] =>
      destruct (installFiles_dry body files last s) as [last' ->]
  end.
  { intros f. unfold installFile. simpl. rewrite Hdry. by eexists. }
  destruct last' as [name|]; [|done].
  destruct (addIndex && nonEmpty name); [|done].
  unfold updateIndex. simpl. by rewrite Hdry.
Qed.

(** C10.  A dry run of [installHook] (and so of update) changes nothing in
    the store: no destination file, no backup, no index, no directory;
    whatever the hook and whether or not the run fails. *)
Theorem dry_run_writes_nothing (hookId baseDir : str) (addIndex : bool)
    (options : InstallOptions) (s : Fs.store) :
  truthy (dry options) = true ->
  snd (installHook hookId baseDir addIndex (Some options) s) = s /\
  (forall opts, opt_dry opts = Some true ->
     snd (cmdUpdate hookId (Some opts) s) = s).
Proof.
  intros Hdry. split; [by apply installHook_dry|].
  intros opts Ho. unfold cmdUpdate, Fs.bind, getConfig.
  apply installHook_dry. simpl. by rewrite Ho.
Qed.

(** ** The file store *)

Lemma nodeAt_insert (s : Fs.store) (p q : Path.path) (n : Fs.node) :
  p <> [] ->
  Fs.nodeAt (<[p := n]> s) q = if decide (p = q) then Some n else Fs.nodeAt s q.
Proof.
  intros Hp. unfold Fs.nodeAt. destruct q as [|x q].
  - by rewrite decide_False.
  - rewrite lookup_insert. by destruct (decide (p = x :: q)).
Qed.

Lemma nodeAt_delete (s : Fs.store) (p q : Path.path) :
  p <> [] ->
  Fs.nodeAt (delete p s) q = if decide (p = q) then None else Fs.nodeAt s q.
Proof.
  intros Hp. unfold Fs.nodeAt. destruct q as [|x q].
  - by rewrite decide_False.
  - rewrite lookup_delete. by destruct (decide (p = x :: q)).
Qed.

Lemma nodeAt_nonroot (s : Fs.store) (p : Path.path) (c : str) :
  Fs.nodeAt s p = Some (Fs.File c) -> p <> [].
Proof. by destruct p. Qed.

Lemma nodeAt_none_nonroot (s : Fs.store) (p : Path.path) :
  Fs.nodeAt s p = None -> p <> [].
Proof. by destruct p. Qed.

Lemma upsRev_spec (r : list str) (q : Path.path) :
  q ∈ Fs.upsRev r <-> q <> [] /\ exists t, rev r = q ++ t.
Proof.
  induction r as [|x r IH]; simpl.
  - split; [by intros ?%elem_of_nil|]. intros [Hq [t Ht]].
    symmetry in Ht. by apply app_eq_nil in Ht as [? _].
  - rewrite elem_of_cons, IH. split.
    + intros [->|[Hq [t Ht]]].
      * split; [|by exists []; rewrite app_nil_r].
        intros H. apply (f_equal length) in H. rewrite length_app in H.
        simpl in H. lia.
      * split; [done|]. exists (t ++ [x]). by rewrite Ht, app_assoc.
    + intros [Hq [t Ht]]. destruct t as [|y t _] using rev_ind.
      * left. by rewrite app_nil_r in Ht.
      * right. split; [done|]. exists t. rewrite app_assoc in Ht.
        by apply app_inj_tail in Ht as [? _].
Qed.

(** The directories [mkdir -p] makes: every non-root prefix of the path. *)
Lemma ups_spec (p q : Path.path) :
  q ∈ Fs.ups p <-> q <> [] /\ q `prefix_of` p.
Proof.
  unfold Fs.ups. rewrite upsRev_spec, rev_involutive. done.
Qed.

Lemma key_cwd (ps : list str) :
  Path.canonical wd -> key (cwd ps) = Path.resolve wd ps.
Proof.
  intros Hwd. unfold key, cwd.
  change (Path.resolve wd [?p]) with (Path.applyPath wd p).
  by rewrite applyPath_render by by apply resolve_canonical.
Qed.

Lemma key_render (p : Path.path) : Path.canonical p -> key (Path.render p) = p.
Proof. intros Hp. unfold key. by apply applyPath_render. Qed.

Lemma join_snoc (q : list str) (x : str) :
  q <> [] -> Str.join "/" (q ++ [x]) = Str.join "/" q ++ "/" ++ x.
Proof.
  induction q as [|y q IH]; [done|]. intros _.
  destruct q as [|z q]; [done|].
  change (Str.join "/" ((y :: z :: q) ++ [x]))
    with (y ++ "/" ++ Str.join "/" ((z :: q) ++ [x])).
  rewrite IH by done. cbn [Str.join]. by rewrite <- !app_assoc.
Qed.

Lemma render_snoc (q : Path.path) (x : str) :
  Path.render (q ++ [x]) = (if decide (q = []) then "" else Path.render q) ++ "/" ++ x.
Proof.
  unfold Path.render. destruct (decide (q = [])) as [->|Hq]; [done|].
  rewrite join_snoc by done. by rewrite <- !app_assoc.
Qed.

Lemma okSeg_inv (x : str) :
  Path.okSeg x = true ->
  x <> [] /\ x <> "." /\ x <> ".." /\ forallb Path.notSlash x = true.
Proof.
  unfold Path.okSeg. rewrite !andb_true_iff, !negb_true_iff, !eqs_false. tauto.
Qed.

Lemma okSeg_intro (x : str) :
  x <> [] -> x <> "." -> x <> ".." -> forallb Path.notSlash x = true ->
  Path.okSeg x = true.
Proof.
  intros. unfold Path.okSeg. rewrite !andb_true_iff, !negb_true_iff, !eqs_false. tauto.
Qed.

Lemma okSeg_suffix (x ext : str) :
  Path.okSeg x = true -> forallb Path.notSlash ext = true -> 2 <= length ext ->
  Path.okSeg (x ++ ext) = true.
Proof.
  intros (Hne & _ & _ & Hns)%okSeg_inv Hext Hlen.
  assert (Hl : 3 <= length (x ++ ext)).
  { rewrite length_app. destruct x; [done|]. simpl. lia. }
  apply okSeg_intro.
  - intros H. rewrite H in Hl. simpl in Hl. lia.
  - intros H. rewrite H in Hl. simpl in Hl. lia.
  - intros H. rewrite H in Hl. simpl in Hl. lia.
  - by rewrite forallb_app, Hns, Hext.
Qed.

Lemma canonical_snoc (q : Path.path) (x : str) :
  Path.canonical (q ++ [x]) <-> Path.canonical q /\ Path.okSeg x = true.
Proof.
  rewrite canonical_app. unfold Path.canonical at 2. simpl.
  by rewrite andb_true_r.
Qed.

(** The backup path of a canonical path. *)
Lemma key_bak (q : Path.path) (x : str) :
  Path.canonical (q ++ [x]) ->
  key (Path.render (q ++ [x]) ++ ".bak") = q ++ [x ++ ".bak"].
Proof.
  intros [Hq Hx]%canonical_snoc.
  replace (Path.render (q ++ [x]) ++ ".bak") with (Path.render (q ++ [x ++ ".bak"]))
    by (rewrite !render_snoc, <- !app_assoc; done).
  apply key_render. apply canonical_snoc. split; [done|].
  apply okSeg_suffix; [done | done | simpl; lia].
Qed.

Lemma dropWhile_app_stop (p : ascii -> bool) (a : str) (c : ascii) (b : str) :
  forallb p a = true -> p c = false ->
  Path.dropWhile p (a ++ c :: b) = c :: b.
Proof.
  induction a as [|x a IH]; simpl; [by intros _ ->|].
  intros [-> Ha]%andb_true_iff Hc. by apply IH.
Qed.

Lemma dropWhile_all (p : ascii -> bool) (a : str) :
  forallb p a = true -> Path.dropWhile p a = [].
Proof.
  induction a as [|x a IH]; simpl; [done|].
  intros [-> Ha]%andb_true_iff. by apply IH.
Qed.

Lemma takeWhile_app_stop (p : ascii -> bool) (a : str) (c : ascii) (b : str) :
  forallb p a = true -> p c = false ->
  Path.takeWhile p (a ++ c :: b) = a.
Proof.
  induction a as [|x a IH]; simpl; [by intros _ ->|].
  intros [-> Ha]%andb_true_iff Hc. f_equal. by apply IH.
Qed.

Lemma takeWhile_all (p : ascii -> bool) (a : str) :
  forallb p a = true -> Path.takeWhile p a = a.
Proof.
  induction a as [|x a IH]; simpl; [done|].
  intros [-> Ha]%andb_true_iff. f_equal. by apply IH.
Qed.

Lemma forallb_rev (p : ascii -> bool) (a : str) :
  forallb p (rev a) = forallb p a.
Proof.
  induction a as [|x a IH]; [done|]. simpl.
  rewrite forallb_app, IH. simpl. rewrite andb_true_r. apply andb_comm.
Qed.

Lemma dropWhile_slash_seg (x : str) (b : str) :
  Path.okSeg x = true ->
  Path.dropWhile Path.isSlash (rev x ++ b) = rev x ++ b.
Proof.
  intros (Hne & _ & _ & Hns)%okSeg_inv.
  destruct (rev x) as [|c r] eqn:E.
  { apply (f_equal (@rev ascii)) in E. rewrite rev_involutive in E. done. }
  assert (Hc : Path.notSlash c = true).
  { rewrite <- forallb_rev, E in Hns. simpl in Hns.
    by apply andb_true_iff in Hns as [? _]. }
  simpl. unfold Path.notSlash in Hc. apply negb_true_iff in Hc. by rewrite Hc.
Qed.

Lemma dirname_render (p : Path.path) :
  Path.canonical p -> Path.dirname (Path.render p) = Path.render (removelast p).
Proof.
  intros Hp. destruct p as [|x0 p0 _] using rev_ind; [done|].
  rewrite removelast_last.
  rename p0 into q, x0 into x.
  apply canonical_snoc in Hp as [Hq Hx].
  pose proof (okSeg_inv _ Hx) as (Hne & _ & _ & Hns).
  unfold Path.render at 1. change ("/" ++ ?t) with ("/"%char :: t).
  unfold Path.dirname.
  destruct (decide (q = [])) as [->|Hqne].
  - cbn [app Str.join]. rewrite <- (app_nil_r (rev x)).
    rewrite dropWhile_slash_seg by done. rewrite app_nil_r.
    rewrite dropWhile_all by by rewrite forallb_rev. done.
  - rewrite join_snoc by done. rewrite !rev_app_distr. cbn [rev app].
    rewrite <- !app_assoc. cbn [app].
    rewrite dropWhile_slash_seg by done.
    rewrite dropWhile_app_stop by (by rewrite ?forallb_rev).
    destruct (Str.eqs (rev (Str.join "/" q)) "") eqn:E.
    + apply eqs_true in E. apply (f_equal (@rev ascii)) in E.
      rewrite rev_involutive in E. simpl in E.
      destruct q as [|y q]; [done|].
      apply canonical_app with (p := [y]) in Hq as [Hy _].
      unfold Path.canonical in Hy. simpl in Hy. rewrite andb_true_r in Hy.
      apply okSeg_inv in Hy as (Hyne & _).
      destruct q; simpl in E; [done|]. by apply app_eq_nil in E as [? _].
    + rewrite andb_false_r, rev_involutive. done.
Qed.

Lemma key_dirname_cwd (ps : list str) :
  Path.canonical wd ->
  key (Path.dirname (cwd ps)) = removelast (Path.resolve wd ps).
Proof.
  intros Hwd. unfold cwd.
  rewrite dirname_render by by apply resolve_canonical.
  apply key_render. by apply canonical_removelast, resolve_canonical.
Qed.

Lemma applyPath_name (acc : Path.path) (n : str) :
  Path.okSeg n = true -> Path.applyPath acc n = acc ++ [n].
Proof.
  intros Hn. pose proof (okSeg_inv _ Hn) as (Hne & _ & _ & Hns).
  unfold Path.applyPath.
  rewrite split_plain by (by apply okSeg_noslash).
  assert (Str.startsWith "/" n = false) as ->.
  { destruct n as [|c n]; [done|]. simpl in Hns.
    apply andb_true_iff in Hns as [Hc _]. unfold Path.notSlash, Path.isSlash in Hc.
    apply negb_true_iff, eqc_false in Hc. cbn [Str.startsWith].
    assert (Str.eqc "/"%char c = false) as -> by (apply eqc_false; congruence). done. }
  simpl. by apply applySeg_ok.
Qed.

Lemma ups_nonroot (p : Path.path) : [] ∉ Fs.ups p.
Proof. rewrite ups_spec. by intros [? _]. Qed.

Lemma ups_self (p : Path.path) : p <> [] -> p ∈ Fs.ups p.
Proof. intros Hp. by apply ups_spec. Qed.

Lemma nodeAt_mkdirs (s : Fs.store) (l : list Path.path) (q : Path.path) :
  [] ∉ l ->
  Fs.nodeAt (Fs.mkdirs s l) q =
  if decide (q ∈ l) then Some Fs.Dir else Fs.nodeAt s q.
Proof.
  induction l as [|p l IH]; intros Hl.
  - destruct (decide (q ∈ [])) as [H|H]; [by apply elem_of_nil in H | done].
  - apply not_elem_of_cons in Hl as [Hp Hl].
    change (Fs.mkdirs s (p :: l)) with (<[p := Fs.Dir]> (Fs.mkdirs s l)).
    rewrite nodeAt_insert by done. rewrite IH by done.
    destruct (decide (p = q)) as [->|Hne].
    + by rewrite decide_True by apply list_elem_of_here.
    + destruct (decide (q ∈ l)) as [Hin|Hnin].
      * by rewrite decide_True by by apply list_elem_of_further.
      * rewrite decide_False; [done|]. rewrite elem_of_cons. by intros [->|?].
Qed.

Lemma find_none_iff {A} (f : A -> bool) (l : list A) :
  find f l = None <-> forall x, x ∈ l -> f x = false.
Proof.
  induction l as [|a l IH]; simpl.
  - split; [by intros _ ? ?%elem_of_nil | done].
  - destruct (f a) eqn:E.
    + split; [done|]. intros H. specialize (H a (list_elem_of_here _ _)). congruence.
    + rewrite IH. split.
      * intros H x [->|Hx]%elem_of_cons; auto.
      * intros H x Hx. apply H. by apply list_elem_of_further.
Qed.

Lemma mkdirp_ok (p : Path.path) (s s' : Fs.store) :
  Fs.mkdirp p s = (Fs.Ok tt, s') ->
  s' = Fs.mkdirs s (Fs.ups p) /\ forall q, q ∈ Fs.ups p -> Fs.isFile s q = false.
Proof.
  unfold Fs.mkdirp. destruct (find (Fs.isFile s) (Fs.ups p)) eqn:E; [done|].
  intros [= <-]. split; [done|]. by apply find_none_iff.
Qed.

Lemma mkdirp_err (p : Path.path) (s s' : Fs.store) (e : Fs.error) :
  Fs.mkdirp p s = (Fs.Err e, s') -> s' = s.
Proof.
  unfold Fs.mkdirp. destruct (find (Fs.isFile s) (Fs.ups p)); by intros [= ].
Qed.

Lemma isDir_lookup (s : Fs.store) (q : Path.path) :
  q <> [] -> Fs.isDir s q = true -> s !! q = Some Fs.Dir.
Proof.
  intros Hq. unfold Fs.isDir, Fs.nodeAt. destruct q; [done|].
  by destruct (s !! _) as [[]|].
Qed.

Lemma isDir_not_file (s : Fs.store) (q : Path.path) :
  Fs.isDir s q = true -> Fs.isFile s q = false.
Proof. unfold Fs.isDir, Fs.isFile. by destruct (Fs.nodeAt s q) as [[]|]. Qed.

Lemma mkdirs_present (s : Fs.store) (l : list Path.path) :
  [] ∉ l -> (forall q, q ∈ l -> Fs.isDir s q = true) -> Fs.mkdirs s l = s.
Proof.
  induction l as [|p l IH]; [done|]. intros [Hp Hl]%not_elem_of_cons Hd. simpl.
  rewrite IH; [|done|intros q Hq; apply Hd; by apply list_elem_of_further].
  apply insert_id, isDir_lookup; [done|]. apply Hd, list_elem_of_here.
Qed.

(** [mkdir -p] of a directory that is there already changes nothing. *)
Lemma mkdirp_present (p : Path.path) (s : Fs.store) :
  Fs.treeTo s p = true -> Fs.mkdirp p s = (Fs.Ok tt, s).
Proof.
  unfold Fs.treeTo. rewrite forallb_forall. intros Hd.
  assert (Hd' : forall q, q ∈ Fs.ups p -> Fs.isDir s q = true)
    by (intros q Hq%list_elem_of_In; by apply Hd).
  unfold Fs.mkdirp.
  assert (find (Fs.isFile s) (Fs.ups p) = None) as ->.
  { apply find_none_iff. intros q Hq. by apply isDir_not_file, Hd'. }
  rewrite mkdirs_present; [done | apply ups_nonroot | done].
Qed.

Lemma treeTo_isDir (s : Fs.store) (p : Path.path) :
  Fs.treeTo s p = true -> Fs.isDir s p = true.
Proof.
  destruct (decide (p = [])) as [->|Hp]; [done|].
  unfold Fs.treeTo. rewrite forallb_forall. intros H.
  apply H, list_elem_of_In, ups_self. done.
Qed.

Lemma writeFile_ok (p : Path.path) (c : str) (s : Fs.store) :
  Fs.isDir s p = false -> Fs.isDir s (removelast p) = true ->
  Fs.writeFile p c s = (Fs.Ok tt, <[p := Fs.File c]> s).
Proof. intros H1 H2. unfold Fs.writeFile. by rewrite H1, H2. Qed.

Lemma isDir_insert_file (s : Fs.store) (p q : Path.path) (c : str) :
  p <> [] ->
  Fs.isDir (<[p := Fs.File c]> s) q = if decide (p = q) then false else Fs.isDir s q.
Proof.
  intros Hp. unfold Fs.isDir. rewrite nodeAt_insert by done.
  by destruct (decide (p = q)).
Qed.

Lemma snoc_ne_removelast (q : Path.path) (x : str) : q ++ [x] <> q.
Proof.
  intros H. apply (f_equal length) in H. rewrite length_app in H. simpl in H. lia.
Qed.


(** ** Backup before overwrite *)


Lemma isDir_file (s : Fs.store) (p : Path.path) (c : str) :
  Fs.nodeAt s p = Some (Fs.File c) -> Fs.isDir s p = false.
Proof. unfold Fs.isDir. by intros ->. Qed.



(** ** Occurrences of a line *)

Lemma includes_app_r (p a : str) : Str.includes p (a ++ p) = true.
Proof. apply includes_true. exists a, []. by rewrite app_nil_r. Qed.

Lemma startsWith_length (p s : str) :
  Str.startsWith p s = true -> length p <= length s.
Proof.
  intros [t ->]%startsWith_true. rewrite length_app. lia.
Qed.

Lemma occurrences_short (p s : str) :
  length s < length p -> Str.occurrences p s = 0.
Proof.
  induction s as [|c s IH]; simpl; intros Hl.
  - destruct p; [simpl in Hl; lia | done].
  - destruct (Str.startsWith p (c :: s)) eqn:E.
    + apply startsWith_length in E. simpl in E. lia.
    + rewrite IH by lia. done.
Qed.

Lemma includes_occurrences (p s : str) :
  Str.includes p s = true <-> 1 <= Str.occurrences p s.
Proof.
  induction s as [|c s IH]; simpl.
  - destruct (Str.startsWith p []); simpl; split; (done || lia).
  - destruct (Str.startsWith p (c :: s)); simpl; [split; (done || lia)|].
    apply IH.
Qed.

Lemma includes_occurrences_0 (p s : str) :
  Str.includes p s = false <-> Str.occurrences p s = 0.
Proof.
  rewrite <- not_true_iff_false, includes_occurrences. lia.
Qed.

(** A text that ends with a character it has nowhere else does not
    overlap a copy of itself. *)
Lemma startsWith_straddle (w : str) (z : ascii) (u t : str) :
  z ∉ w -> Str.startsWith (w ++ [z]) (u ++ w ++ [z] ++ t) = true ->
  u = [] \/ exists v, u = (w ++ [z]) ++ v.
Proof.
  intros Hz [t' Ht]%startsWith_true.
  destruct (decide (u = [])) as [->|Hu]; [by left|right].
  destruct (decide (length (w ++ [z]) <= length u)) as [Hle|Hgt].
  - exists (drop (length (w ++ [z])) u).
    apply (f_equal (take (length (w ++ [z])))) in Ht.
    rewrite take_app_le in Ht by done. rewrite take_app_length in Ht.
    rewrite <- (take_drop (length (w ++ [z])) u) at 1. by rewrite Ht.
  - exfalso. apply Hz.
    assert (Hlen : length u <= length w).
    { rewrite length_app in Hgt. simpl in Hgt. lia. }
    assert (H1 : ((w ++ [z]) ++ t') !! length w = Some z).
    { rewrite <- app_assoc. rewrite lookup_app_r by lia. by rewrite Nat.sub_diag. }
    rewrite <- Ht in H1. rewrite lookup_app_r in H1 by lia.
    rewrite lookup_app_l in H1 by (destruct u; [done | simpl in *; lia]).
    by apply list_elem_of_lookup_2 in H1.
Qed.

Lemma occurrences_append (w : str) (z : ascii) (c : str) :
  z ∉ w -> Str.includes (w ++ [z]) c = false ->
  Str.occurrences (w ++ [z]) (c ++ w ++ [z]) = 1.
Proof.
  intros Hz. induction c as [|x c IH]; intros Hinc.
  - cbn [app]. destruct (w ++ [z]) as [|a l] eqn:E; [by destruct w|].
    cbn [Str.occurrences]. rewrite <- E at 1 2.
    assert (Str.startsWith (w ++ [z]) (w ++ [z]) = true) as Hs.
    { apply startsWith_true. exists []. by rewrite app_nil_r. }
    rewrite E in Hs. rewrite E. rewrite Hs. rewrite occurrences_short; [done|].
    simpl. lia.
  - cbn [app Str.occurrences].
    destruct (Str.startsWith (w ++ [z]) (x :: c ++ w ++ [z])) eqn:E.
    + exfalso.
      destruct (startsWith_straddle w z (x :: c) [] Hz) as [?|[v Hv]]; [|done|].
      { rewrite app_nil_r. exact E. }
      apply includes_false in Hinc. apply Hinc. exists [], v. by rewrite Hv.
    + rewrite IH; [done|]. apply includes_false. intros (a & b & Hab).
      apply includes_false in Hinc. apply Hinc. exists (x :: a), b. by rewrite Hab.
Qed.

Lemma exportLine_shape (name : str) :
  exportLine name = ("export * from " ++ [dq] ++ "./" ++ name ++ [dq] ++ ";") ++ [LF].
Proof. unfold exportLine. by rewrite <- !app_assoc. Qed.

Lemma noLF_not_in (s : str) : noLF s -> LF ∉ s.
Proof.
  unfold noLF. rewrite forallb_forall. intros H Hin%list_elem_of_In.
  apply H in Hin. by rewrite eqc_refl in Hin.
Qed.

Lemma exportText_noLF (name : str) :
  noLF name -> LF ∉ "export * from " ++ [dq] ++ "./" ++ name ++ [dq] ++ ";".
Proof.
  intros Hn. apply noLF_not_in. unfold noLF in *.
  rewrite !forallb_app, Hn. reflexivity.
Qed.

Lemma exportLine_occurs_once (name c : str) :
  noLF name -> Str.includes (exportLine name) c = false ->
  Str.occurrences (exportLine name) (c ++ exportLine name) = 1.
Proof.
  intros Hn Hinc. rewrite exportLine_shape in *.
  apply occurrences_append; [by apply exportText_noLF | done].
Qed.

Lemma exportLine_occurs_self (name : str) :
  noLF name -> Str.occurrences (exportLine name) (exportLine name) = 1.
Proof.
  intros Hn. apply (exportLine_occurs_once name [] Hn).
  apply includes_false. intros (a & b & H).
  apply (f_equal length) in H. rewrite !length_app in H.
  unfold exportLine in H. rewrite !length_app in H. simpl in H. lia.
Qed.

(** ** The index block *)

Lemma writeFile_inv (p : Path.path) (c : str) (s s' : Fs.store) :
  Fs.writeFile p c s = (Fs.Ok tt, s') ->
  s' = <[p := Fs.File c]> s /\ p <> [] /\ Fs.isDir s p = false /\
  Fs.isDir s (removelast p) = true.
Proof.
  unfold Fs.writeFile. destruct (Fs.isDir s p) eqn:E1; [done|].
  destruct (Fs.isDir s (removelast p)) eqn:E2; [|done].
  intros [= <-]. repeat split; try done. intros ->. done.
Qed.

Lemma indexKey (baseDir : str) :
  Path.canonical wd ->
  key (cwd [baseDir; "index.ts"]) = Path.resolve wd [baseDir] ++ ["index.ts"] /\
  key (Path.dirname (cwd [baseDir; "index.ts"])) = Path.resolve wd [baseDir].
Proof.
  intros Hwd.
  assert (H : Path.resolve wd [baseDir; "index.ts"] = Path.resolve wd [baseDir] ++ ["index.ts"]).
  { change (Path.resolve wd [baseDir; "index.ts"])
      with (Path.applyPath (Path.resolve wd [baseDir]) "index.ts").
    by apply applyPath_name. }
  split.
  - by rewrite key_cwd.
  - rewrite key_dirname_cwd by done. by rewrite H, removelast_last.
Qed.

(** What the index block does, case by case. *)
Lemma updateIndex_cases (baseDir name : str) (options : InstallOptions)
    (s : Fs.store) :
  Path.canonical wd -> truthy (dry options) = false ->
  let I := key (cwd [baseDir; "index.ts"]) in
  let line := exportLine name in
  updateIndex baseDir (Some options) name s =
  match Fs.nodeAt s I with
  | Some (Fs.File c) =>
      if Str.includes line c then (Fs.Ok tt, s)
      else Fs.writeFile I (c ++ line) s
  | Some Fs.Dir => (Fs.Err (Fs.EISDIR I), s)
  | None =>
      match Fs.mkdirp (removelast I) s with
      | (Fs.Ok _, s') => Fs.writeFile I line s'
      | (Fs.Err e, s') => (Fs.Err e, s')
      end
  end.
Proof.
  intros Hwd Hdry I line. destruct (indexKey baseDir Hwd) as [HI HP].
  unfold updateIndex. cbn [mbind option_bind]. rewrite Hdry.
  unfold Fs.bind, existsSync, Fs.existsAt, ensureDir. fold I. rewrite HP.
  replace (removelast I) with (Path.resolve wd [baseDir])
    by (unfold I; by rewrite HI, removelast_last).
  destruct (Fs.nodeAt s I) as [[c|]|] eqn:E.
  - unfold Fs.readFile. rewrite E. fold line.
    destruct (Str.includes line c); cbn [negb]; [done|].
    unfold Fs.appendFile. by rewrite E.
  - unfold Fs.readFile. by rewrite E.
  - done.
Qed.

Lemma mkdirp_nodeAt (p q : Path.path) (s s' : Fs.store) :
  Fs.mkdirp p s = (Fs.Ok tt, s') ->
  Fs.nodeAt s' q = if decide (q ∈ Fs.ups p) then Some Fs.Dir else Fs.nodeAt s q.
Proof.
  intros [-> _]%mkdirp_ok. apply nodeAt_mkdirs, ups_nonroot.
Qed.

Lemma not_in_ups_removelast (p : Path.path) : p ∉ Fs.ups (removelast p).
Proof.
  rewrite ups_spec. intros [Hne Hpre]. apply prefix_length in Hpre.
  destruct p as [|x p _] using rev_ind; [done|].
  rewrite removelast_last, length_app in Hpre. simpl in Hpre. lia.
Qed.

Lemma updateIndex_result (baseDir name : str) (options : InstallOptions)
    (s s1 : Fs.store) :
  Path.canonical wd -> truthy (dry options) = false ->
  let I := key (cwd [baseDir; "index.ts"]) in
  let line := exportLine name in
  updateIndex baseDir (Some options) name s = (Fs.Ok tt, s1) ->
  exists c1,
    Fs.nodeAt s1 I = Some (Fs.File c1) /\ Str.includes line c1 = true /\
    c1 = match Fs.nodeAt s I with
         | Some (Fs.File c) => if Str.includes line c then c else c ++ line
         | _ => line
         end.
Proof.
  intros Hwd Hdry I line. rewrite updateIndex_cases by done. fold I line.
  destruct (Fs.nodeAt s I) as [[c|]|] eqn:E; [|done|].
  - destruct (Str.includes line c) eqn:Ei.
    + intros [= <-]. eauto.
    + intros (-> & Hne & _)%writeFile_inv. exists (c ++ line).
      rewrite nodeAt_insert by done. rewrite decide_True by done.
      split; [done|]. split; [apply includes_app_r | done].
  - destruct (Fs.mkdirp (removelast I) s) as [[[]|e] s'] eqn:Em; [|done].
    intros (-> & Hne & _)%writeFile_inv. exists line.
    rewrite nodeAt_insert by done. rewrite decide_True by done.
    split; [done|]. split; [|done]. apply (includes_app_r line []).
Qed.

(** C5 (amended).  The index block appends the export line of the installed
    file only when the index does not hold it yet, and creates the index
    when there is none; running it again changes nothing.  After two runs
    the index holds the line exactly once, provided it did not hold it
    more than once before and the base name has no line break. *)
Theorem index_append_idempotent (baseDir name : str) (options : InstallOptions)
    (s : Fs.store) :
  Path.canonical wd -> truthy (dry options) = false ->
  let I := key (cwd [baseDir; "index.ts"]) in
  let line := exportLine name in
  let run := updateIndex baseDir (Some options) name in
  (forall c, Fs.nodeAt s I = Some (Fs.File c) -> Str.includes line c = true ->
     run s = (Fs.Ok tt, s)) /\
  (forall c, Fs.nodeAt s I = Some (Fs.File c) -> Str.includes line c = false ->
     Fs.isDir s (removelast I) = true ->
     run s = (Fs.Ok tt, <[I := Fs.File (c ++ line)]> s)) /\
  (Fs.nodeAt s I = None -> Fs.treeTo s (removelast I) = true ->
     run s = (Fs.Ok tt, <[I := Fs.File line]> s)) /\
  (forall s1, run s = (Fs.Ok tt, s1) -> run s1 = (Fs.Ok tt, s1)) /\
  (forall s1 s2,
     noLF name ->
     (forall c, Fs.nodeAt s I = Some (Fs.File c) -> Str.occurrences line c <= 1) ->
     run s = (Fs.Ok tt, s1) -> run s1 = (Fs.Ok tt, s2) ->
     exists c2, Fs.nodeAt s2 I = Some (Fs.File c2) /\ Str.occurrences line c2 = 1).
Proof.
  intros Hwd Hdry I line run. subst I line run. cbv beta.
  assert (Hidem : forall s1,
    updateIndex baseDir (Some options) name s = (Fs.Ok tt, s1) ->
    updateIndex baseDir (Some options) name s1 = (Fs.Ok tt, s1)).
  { intros s1 H1. apply updateIndex_result in H1 as (c1 & H1 & Hinc & _); try done.
    rewrite updateIndex_cases by done.
    by rewrite H1, Hinc. }
  split; [|split; [|split; [|split]]].
  - intros c Hc Hinc. rewrite updateIndex_cases by done.
    by rewrite Hc, Hinc.
  - intros c Hc Hinc Hd. rewrite updateIndex_cases by done.
    rewrite Hc, Hinc. apply writeFile_ok; [|done]. by eapply isDir_file.
  - intros Hnone Htree. rewrite updateIndex_cases by done.
    rewrite Hnone, mkdirp_present by done.
    apply writeFile_ok; [|by apply treeTo_isDir]. unfold Fs.isDir. by rewrite Hnone.
  - exact Hidem.
  - intros s1 s2 Hn Hocc H1 H2. rewrite (Hidem s1 H1) in H2. injection H2 as <-.
    apply updateIndex_result in H1 as (c1 & H1 & Hinc & Hc1); try done.
    exists c1. split; [done|].
    destruct (Fs.nodeAt s _) as [[c|]|] eqn:E.
    + destruct (Str.includes _ c) eqn:Ei; subst c1.
      * apply includes_occurrences in Ei. specialize (Hocc c eq_refl). lia.
      * by apply exportLine_occurs_once.
    + subst c1. by apply exportLine_occurs_self.
    + subst c1. by apply exportLine_occurs_self.
Qed.

(** ** Migration *)

Lemma basename_render (q : Path.path) (x : str) :
  Path.canonical (q ++ [x]) -> Path.basename (Path.render (q ++ [x])) = x.
Proof.
  intros [Hq Hx]%canonical_snoc.
  pose proof (okSeg_inv _ Hx) as (Hne & _ & _ & Hns).
  unfold Path.basename. rewrite render_snoc.
  change ("/" ++ x) with ("/"%char :: x).
  rewrite rev_app_distr. cbn [rev]. rewrite <- app_assoc. cbn [app].
  rewrite dropWhile_slash_seg by done.
  rewrite takeWhile_app_stop by (by rewrite ?forallb_rev).
  apply rev_involutive.
Qed.

Lemma recognized_not_config (q : Path.path) :
  recognized (Path.render (q ++ [CONFIG_FILE])) = false.
Proof.
  unfold recognized, Str.endsWith. rewrite render_snoc.
  rewrite !rev_app_distr. reflexivity.
Qed.

(** ** The walk *)

Lemma elem_entryOf (d q : Path.path) (n : str) :
  Fs.entryOf d q = Some n <-> q = d ++ [n].
Proof.
  unfold Fs.entryOf. split.
  - destruct (last q) as [m|]; [|done]. destruct (decide _) as [E|]; [|done].
    by intros [= <-].
  - intros ->. rewrite last_snoc. by rewrite decide_True.
Qed.

Lemma elem_entries (s : Fs.store) (d : Path.path) (n : str) :
  n ∈ Fs.entries s d <-> is_Some (s !! (d ++ [n])).
Proof.
  unfold Fs.entries. rewrite elem_of_list_to_set, list_elem_of_omap. split.
  - intros ([q x] & Hin%elem_of_map_to_list & ->%elem_entryOf). eauto.
  - intros [x Hx]. exists (d ++ [n], x).
    split; [by apply elem_of_map_to_list | by apply elem_entryOf].
Qed.

Lemma elem_readdir (s : Fs.store) (d : Path.path) (n : str) :
  n ∈ Fs.readdir s d <-> is_Some (s !! (d ++ [n])).
Proof.
  unfold Fs.readdir. rewrite merge_sort_Permutation, elem_of_elements.
  apply elem_entries.
Qed.

Lemma readdir_ext (s s' : Fs.store) (d : Path.path) :
  (forall n, is_Some (s !! (d ++ [n])) <-> is_Some (s' !! (d ++ [n]))) ->
  Fs.readdir s d = Fs.readdir s' d.
Proof.
  intros H. unfold Fs.readdir. do 2 f_equal. apply set_eq. intros n.
  by rewrite !elem_entries.
Qed.

Lemma readdir_nil (s : Fs.store) (d : Path.path) :
  (forall n, s !! (d ++ [n]) = None) -> Fs.readdir s d = [].
Proof.
  intros H. apply elem_of_nil_inv. intros n Hn%elem_readdir.
  rewrite H in Hn. by destruct Hn.
Qed.

Lemma flat_map_ext_elem {A B} (f g : A -> list B) (l : list A) :
  (forall a, a ∈ l -> f a = g a) -> flat_map f l = flat_map g l.
Proof.
  induction l as [|a l IH]; intros H; [done|]. cbn [flat_map].
  rewrite (H a) by apply list_elem_of_here.
  rewrite IH; [done|]. intros b Hb. by apply H, list_elem_of_further.
Qed.

Lemma elem_flat_map {A B} (f : A -> list B) (l : list A) (b : B) :
  b ∈ flat_map f l <-> exists a, a ∈ l /\ b ∈ f a.
Proof.
  rewrite list_elem_of_In, in_flat_map. split; intros (a & Ha & Hb); exists a.
  - by rewrite !list_elem_of_In.
  - by rewrite <- !list_elem_of_In.
Qed.

Lemma deepEnough_nil (s : Fs.store) (d : Path.path) :
  Fs.deepEnough 0 s d -> Fs.readdir s d = [].
Proof.
  intros H. apply readdir_nil. intros n.
  destruct (s !! (d ++ [n])) as [x|] eqn:E; [|done]. exfalso.
  assert (Hp : d `prefix_of` d ++ [n]) by by apply prefix_app_r.
  specialize (H (d ++ [n]) (mk_is_Some _ _ E) Hp).
  rewrite length_app in H. cbn in H. lia.
Qed.

Lemma deepEnough_step (f : nat) (s : Fs.store) (d : Path.path) (n : str) :
  Fs.deepEnough (S f) s d -> Fs.deepEnough f s (d ++ [n]).
Proof.
  intros H q Hq Hp. rewrite length_app. cbn [length].
  assert (Hd : d `prefix_of` q) by (etrans; [by apply prefix_app_r | exact Hp]).
  specialize (H q Hq Hd). lia.
Qed.

(** A bound that is enough can be replaced by any other. *)
Lemma walkFrom_fuel (f f' : nat) (s : Fs.store) (d : Path.path) :
  Fs.deepEnough f s d -> Fs.deepEnough f' s d ->
  Fs.walkFrom f s d = Fs.walkFrom f' s d.
Proof.
  revert f' d. induction f as [|f IH]; intros f' d Hf Hf'.
  - destruct f' as [|f']; [done|]. cbn [Fs.walkFrom].
    by rewrite (deepEnough_nil _ _ Hf).
  - destruct f' as [|f'].
    { cbn [Fs.walkFrom]. by rewrite (deepEnough_nil _ _ Hf'). }
    cbn [Fs.walkFrom]. apply flat_map_ext_elem. intros n _.
    destruct (Fs.isDir s (d ++ [n])); [|done].
    apply IH; by apply deepEnough_step.
Qed.

Lemma isDir_snoc_lookup (s : Fs.store) (d : Path.path) (n : str) :
  Fs.isDir s (d ++ [n]) = match s !! (d ++ [n]) with Some Fs.Dir => true | _ => false end.
Proof. unfold Fs.isDir, Fs.nodeAt. by destruct d. Qed.

(** The walk looks only at what lies below its directory. *)
Lemma walkFrom_ext (f : nat) (s s' : Fs.store) (d : Path.path) :
  (forall q, d `prefix_of` q -> d <> q -> s !! q = s' !! q) ->
  Fs.walkFrom f s d = Fs.walkFrom f s' d.
Proof.
  revert d. induction f as [|f IH]; intros d H; [done|]. cbn [Fs.walkFrom].
  assert (Hn : forall n, s !! (d ++ [n]) = s' !! (d ++ [n])).
  { intros n. apply H; [by apply prefix_app_r|].
    intros E. apply (f_equal length) in E. rewrite length_app in E. cbn in E. lia. }
  rewrite (readdir_ext s s' d) by (intros n; by rewrite Hn).
  apply flat_map_ext_elem. intros n _. rewrite !isDir_snoc_lookup, Hn.
  destruct (s' !! (d ++ [n])) as [[c|]|]; [done| |done].
  apply IH. intros q Hp Hne. apply H.
  - etrans; [by apply prefix_app_r | exact Hp].
  - intros ->. apply prefix_length in Hp. rewrite length_app in Hp. cbn in Hp. lia.
Qed.

Lemma below_spec (s : Fs.store) (d q : Path.path) :
  Fs.below s d q = true <->
  d `prefix_of` q /\ d <> q /\
  forall a, a <> [] -> a `prefix_of` q -> a <> q -> d `prefix_of` a ->
            Fs.isDir s a = true.
Proof.
  unfold Fs.below.
  rewrite !andb_true_iff, negb_true_iff, bool_decide_eq_true, bool_decide_eq_false,
    forallb_forall.
  split.
  - intros [[H1 H2] H3]. split; [done|]. split; [done|]. intros a Ha Hp Hq Hd.
    assert (Hin : a ∈ Fs.ups q) by by apply ups_spec.
    apply list_elem_of_In, H3 in Hin.
    rewrite !orb_true_iff, negb_true_iff, bool_decide_eq_true, bool_decide_eq_false
      in Hin.
    by destruct Hin as [[?|?]|?].
  - intros (H1 & H2 & H3). split; [done|].
    intros a [Ha Hp]%list_elem_of_In%ups_spec.
    rewrite !orb_true_iff, negb_true_iff, bool_decide_eq_true, bool_decide_eq_false.
    destruct (decide (a = q)); [by left; left|].
    destruct (decide (d `prefix_of` a)); [right; by apply H3 | left; by right].
Qed.

Lemma snoc_ne (d : Path.path) (n : str) (rest : list str) : d <> d ++ n :: rest.
Proof.
  intros E. apply (f_equal length) in E. rewrite length_app in E. cbn in E. lia.
Qed.

Lemma prefix_snoc_or (a d : Path.path) (n : str) :
  a `prefix_of` d ++ [n] -> a = d ++ [n] \/ a `prefix_of` d.
Proof.
  intros [k Hk]. destruct k as [|y k _] using rev_ind.
  - left. by rewrite app_nil_r in Hk.
  - right. rewrite app_assoc in Hk. apply app_inj_tail in Hk as [-> _].
    by exists k.
Qed.

Lemma below_entry (s : Fs.store) (d : Path.path) (n : str) :
  Fs.isDir s d = true -> Fs.below s d (d ++ [n]) = true.
Proof.
  intros Hd. apply below_spec. split; [by apply prefix_app_r|].
  split; [apply snoc_ne|]. intros a Ha Hp Hq Hda.
  apply prefix_snoc_or in Hp as [->|Hp]; [done|].
  by rewrite (anti_symm prefix a d Hp Hda).
Qed.

Lemma below_down (s : Fs.store) (d : Path.path) (n : str) (q : Path.path) :
  Fs.isDir s d = true -> Fs.isDir s (d ++ [n]) = true ->
  Fs.below s (d ++ [n]) q = true -> Fs.below s d q = true.
Proof.
  intros Hd Hn (Hp & Hne & H)%below_spec. apply below_spec.
  assert (Hdq : d `prefix_of` q) by (etrans; [by apply prefix_app_r | exact Hp]).
  split; [done|]. split.
  { intros ->. apply prefix_length in Hp. rewrite length_app in Hp. cbn in Hp. lia. }
  intros a Ha Hpa Hqa Hda.
  destruct (decide ((d ++ [n]) `prefix_of` a)) as [Hna|Hna]; [by apply H|].
  destruct (prefix_weak_total _ _ _ Hp Hpa) as [Ht|Ht]; [done|].
  apply prefix_snoc_or in Ht as [->|Ht]; [done|].
  by rewrite (anti_symm prefix a d Ht Hda).
Qed.

Lemma below_next (s : Fs.store) (d q : Path.path) :
  Fs.below s d q = true ->
  exists n rest, q = d ++ n :: rest /\
    (rest = [] \/ (Fs.isDir s (d ++ [n]) = true /\ Fs.below s (d ++ [n]) q = true)).
Proof.
  intros (Hp & Hne & H)%below_spec. destruct Hp as [[|n rest] ->].
  { by rewrite app_nil_r in Hne. }
  exists n, rest. split; [done|].
  destruct rest as [|m rest]; [by left|]. right.
  assert (Hpn : (d ++ [n]) `prefix_of` d ++ n :: m :: rest).
  { exists (m :: rest). by rewrite <- app_assoc. }
  assert (Hnn : d ++ [n] <> d ++ n :: m :: rest).
  { intros E. apply app_inv_head in E. done. }
  split.
  - apply H; [by destruct d | done | done | by apply prefix_app_r].
  - apply below_spec. split; [done|]. split; [done|].
    intros a Ha Hpa Hqa Hda. apply H; [done..|].
    etrans; [by apply prefix_app_r | exact Hda].
Qed.

Lemma elem_walkFrom (f : nat) (s : Fs.store) (d q : Path.path) :
  Fs.isDir s d = true ->
  (q ∈ Fs.walkFrom f s d ->
   (exists c, s !! q = Some (Fs.File c)) /\ Fs.below s d q = true) /\
  (Fs.deepEnough f s d -> (exists c, s !! q = Some (Fs.File c)) ->
   Fs.below s d q = true -> q ∈ Fs.walkFrom f s d).
Proof.
  revert d. induction f as [|f IH]; intros d Hd.
  - split; [by intros ?%elem_of_nil|].
    intros Hf [c Hc] [Hp _]%below_spec.
    specialize (Hf q (mk_is_Some _ _ Hc) Hp). apply prefix_length in Hp. lia.
  - cbn [Fs.walkFrom]. rewrite elem_flat_map. split.
    + intros (n & Hn%elem_readdir & Hq). rewrite isDir_snoc_lookup in Hq.
      destruct Hn as [x Hx]. rewrite Hx in Hq. destruct x as [c|].
      * apply list_elem_of_singleton in Hq. subst q.
        split; [by exists c | by apply below_entry].
      * assert (Hdn : Fs.isDir s (d ++ [n]) = true)
          by by rewrite isDir_snoc_lookup, Hx.
        apply (IH (d ++ [n]) Hdn) in Hq as [Hc Hb].
        split; [done|]. by eapply below_down.
    + intros Hf [c Hc] Hb.
      destruct (below_next _ _ _ Hb) as (n & rest & -> & Hrest).
      exists n. destruct Hrest as [->|[Hdn Hbn]].
      * split; [apply elem_readdir; by rewrite Hc|].
        rewrite isDir_snoc_lookup, Hc. apply list_elem_of_here.
      * split.
        { apply elem_readdir. rewrite isDir_snoc_lookup in Hdn.
          by destruct (s !! (d ++ [n])). }
        rewrite Hdn. apply (IH (d ++ [n]) Hdn); [|by exists c|done].
        by apply deepEnough_step.
Qed.

Lemma deepEnough_depth (s s' : Fs.store) (d : Path.path) :
  (forall q, is_Some (s !! q) -> d `prefix_of` q -> is_Some (s' !! q)) ->
  Fs.deepEnough (Fs.depth s') s d.
Proof.
  intros H q Hq Hp. destruct (H q Hq Hp) as [x Hx]. unfold Fs.depth.
  assert (length q ≤ max_list (map (fun '(q, _) => length q) (map_to_list s')));
    [|lia].
  apply max_list_elem_of_le. apply list_elem_of_In, in_map_iff.
  exists (q, x). split; [done|]. by apply list_elem_of_In, elem_of_map_to_list.
Qed.

Lemma elem_walkKeys (s : Fs.store) (d q : Path.path) :
  q ∈ Fs.walkKeys s d <->
  (exists c, s !! q = Some (Fs.File c)) /\ Fs.below s d q = true.
Proof.
  unfold Fs.walkKeys. destruct (Fs.isDir s d) eqn:Hd.
  - destruct (elem_walkFrom (Fs.depth s) s d q Hd) as [H1 H2]. split; [done|].
    intros [Hc Hb]. apply H2; [|done..]. by apply deepEnough_depth.
  - split; [by intros ?%elem_of_nil|]. intros [_ (Hp & Hne & H)%below_spec].
    destruct (decide (d = [])) as [->|Hd']; [done|].
    rewrite H in Hd; done.
Qed.

Lemma below_strict (s : Fs.store) (d q : Path.path) :
  Fs.below s d q = true -> d `prefix_of` q /\ d <> q.
Proof.
  unfold Fs.below. rewrite !andb_true_iff, negb_true_iff.
  intros [[H1 H2] _]. apply bool_decide_eq_true in H1.
  apply bool_decide_eq_false in H2. done.
Qed.

Lemma filter_map_render (L : list Path.path) :
  List.filter recognized (map Path.render L) =
  map Path.render (List.filter (fun q => recognized (Path.render q)) L).
Proof.
  induction L as [|q L IH]; [done|]. simpl.
  destruct (recognized (Path.render q)); simpl; by rewrite IH.
Qed.

Lemma lastSeg_snoc (q : Path.path) (x : str) : lastSeg (q ++ [x]) = x.
Proof. unfold lastSeg. apply last_last. Qed.

Lemma snoc_lastSeg (q : Path.path) : q <> [] -> q = removelast q ++ [lastSeg q].
Proof. intros H. unfold lastSeg. by apply app_removelast_last. Qed.

Lemma canonical_lastSeg (q : Path.path) :
  Path.canonical q -> q <> [] -> Path.okSeg (lastSeg q) = true.
Proof.
  intros Hc Hne. rewrite (snoc_lastSeg q Hne) in Hc.
  by apply canonical_snoc in Hc as [_ ?].
Qed.

Lemma key_target (newBaseDir : str) (q : Path.path) :
  Path.canonical wd -> Path.canonical q -> q <> [] ->
  key (cwd [newBaseDir; Path.basename (Path.render q)]) =
  Path.resolve wd [newBaseDir] ++ [lastSeg q].
Proof.
  intros Hwd Hq Hne. rewrite key_cwd by done.
  rewrite (snoc_lastSeg q Hne) at 1. rewrite basename_render
    by (by rewrite <- snoc_lastSeg).
  change (Path.resolve wd [newBaseDir; lastSeg q])
    with (Path.applyPath (Path.resolve wd [newBaseDir]) (lastSeg q)).
  apply applyPath_name. by apply canonical_lastSeg.
Qed.

Lemma copies_snoc (s0 : Fs.store) (N : Path.path) (L : list Path.path)
    (q : Path.path) (t : Fs.store) :
  copies s0 N (L ++ [q]) t =
  <[N ++ [lastSeg q] := Fs.File (Fs.contentAt s0 q)]> (copies s0 N L t).
Proof. unfold copies. by rewrite fold_left_app. Qed.

Lemma snoc_nonroot (N : Path.path) (x : str) : N ++ [x] <> [].
Proof. by destruct N. Qed.

Lemma copies_other (s0 : Fs.store) (N : Path.path) (L : list Path.path)
    (t : Fs.store) (p : Path.path) :
  (forall q, q ∈ L -> p <> N ++ [lastSeg q]) ->
  Fs.nodeAt (copies s0 N L t) p = Fs.nodeAt t p.
Proof.
  induction L as [|q L IH] using rev_ind; intros Hp; [done|].
  rewrite copies_snoc, nodeAt_insert by apply snoc_nonroot.
  rewrite decide_False.
  - apply IH. intros q' Hq'. apply Hp. apply elem_of_app. by left.
  - intros H. eapply Hp; [|by symmetry]. apply elem_of_app. right.
    apply list_elem_of_singleton. done.
Qed.

Lemma copies_target (s0 : Fs.store) (N : Path.path) (L : list Path.path)
    (t : Fs.store) (q : Path.path) :
  q ∈ L ->
  exists front q' back,
    L = front ++ q' :: back /\ lastSeg q' = lastSeg q /\
    (forall x, x ∈ back -> lastSeg x <> lastSeg q) /\
    Fs.nodeAt (copies s0 N L t) (N ++ [lastSeg q]) =
    Some (Fs.File (Fs.contentAt s0 q')).
Proof.
  induction L as [|q0 L IH] using rev_ind; [by intros ?%elem_of_nil|].
  intros Hin. rewrite copies_snoc, nodeAt_insert by apply snoc_nonroot.
  destruct (decide (N ++ [lastSeg q0] = N ++ [lastSeg q])) as [E|Hne].
  - exists L, q0, []. split; [done|].
    split; [apply app_inv_head in E; by injection E|].
    split; [by intros x ?%elem_of_nil | done].
  - apply elem_of_app in Hin as [Hin|Hin].
    + destruct (IH Hin) as (front & q' & back & -> & Hl & Hback & Hn).
      exists front, q', (back ++ [q0]). split; [by rewrite <- app_assoc|].
      split; [done|]. split; [|done].
      intros x [Hx|Hx%list_elem_of_singleton]%elem_of_app; [by apply Hback|].
      subst x. intros E. apply Hne. by rewrite E.
    + apply list_elem_of_singleton in Hin. subst. done.
Qed.

(** The copy loop, run from a store where the sources are as in [s0], the
    new root is a directory and no target is one. *)
Lemma migrate_loop (newBaseDir : str) (s0 : Fs.store) (L : list Path.path)
    (t : Fs.store) :
  Path.canonical wd ->
  let N := Path.resolve wd [newBaseDir] in
  (forall q, q ∈ L -> Path.canonical q /\ Fs.isFile s0 q = true) ->
  (forall q, q ∈ L -> Fs.nodeAt t q = Fs.nodeAt s0 q) ->
  Fs.isDir t N = true ->
  (forall q, q ∈ L -> Fs.isDir t (N ++ [lastSeg q]) = false) ->
  (forall q q', q ∈ L -> q' ∈ L -> q <> N ++ [lastSeg q']) ->
  forEach (migrateFile newBaseDir) (map Path.render L) t =
  (Fs.Ok tt, copies s0 N L t).
Proof.
  intros Hwd N. revert t. induction L as [|q L IH]; intros t HL HA HB HC HD; [done|].
  assert (Hq : q ∈ q :: L) by apply list_elem_of_here.
  destruct (HL q Hq) as [Hcan Hfile].
  assert (Hne : q <> []).
  { intros ->. done. }
  cbn [map forEach]. unfold Fs.bind, migrateFile.
  rewrite key_render, key_target by done. fold N.
  unfold Fs.copyFile, Fs.bind, Fs.readFile. rewrite (HA q Hq).
  unfold Fs.isFile in Hfile. destruct (Fs.nodeAt s0 q) as [[c|]|] eqn:Ec; try done.
  destruct (decide (q = N ++ [lastSeg q])) as [E|_]; [by apply HD in E|].
  rewrite writeFile_ok; [| by apply HC | by rewrite removelast_last].
  rewrite IH.
  - unfold copies. cbn [fold_left]. unfold Fs.contentAt. by rewrite Ec.
  - intros q' Hq'. apply HL. by apply list_elem_of_further.
  - intros q' Hq'. rewrite nodeAt_insert by apply snoc_nonroot.
    rewrite decide_False; [apply HA; by apply list_elem_of_further|].
    intros E. symmetry in E. revert E. apply HD; [by apply list_elem_of_further | done].
  - rewrite isDir_insert_file by apply snoc_nonroot.
    rewrite decide_False; [done|]. apply snoc_ne_removelast.
  - intros q' Hq'. rewrite isDir_insert_file by apply snoc_nonroot.
    destruct (decide _); [done|]. apply HC. by apply list_elem_of_further.
  - intros q1 q2 H1 H2. apply HD; by apply list_elem_of_further.
Qed.

Lemma prefix_snoc_inv' (O N : Path.path) (x : str) :
  O `prefix_of` N ++ [x] -> O `prefix_of` N \/ O = N ++ [x].
Proof.
  intros [k Hk]. destruct k as [|y k _] using rev_ind.
  - right. by rewrite app_nil_r in Hk.
  - left. rewrite app_assoc in Hk. apply app_inj_tail in Hk as [-> _].
    by exists k.
Qed.

Lemma snoc_not_prefix (N : Path.path) (x : str) : ~ N ++ [x] `prefix_of` N.
Proof.
  intros H%prefix_length. rewrite length_app in H. simpl in H. lia.
Qed.

Lemma snoc_not_in_ups (N : Path.path) (x : str) : N ++ [x] ∉ Fs.ups N.
Proof. rewrite ups_spec. intros [_ H]. by apply snoc_not_prefix in H. Qed.

Lemma cwd_inj (a b : str) :
  Path.canonical wd ->
  cwd [a] = cwd [b] <-> Path.resolve wd [a] = Path.resolve wd [b].
Proof.
  intros Hwd. split; [|unfold cwd; by intros ->].
  intros H. apply (f_equal key) in H. by rewrite !key_cwd in H.
Qed.

Lemma configKey :
  Path.canonical wd -> key (cwd [CONFIG_FILE]) = wd ++ [CONFIG_FILE].
Proof.
  intros Hwd. rewrite key_cwd by done.
  change (Path.resolve wd [CONFIG_FILE]) with (Path.applyPath wd CONFIG_FILE).
  by apply applyPath_name.
Qed.

Lemma config_roundtrip (cfg : ProjectConfig) :
  configOfJson (jsonOfConfig cfg) = Some cfg.
Proof.
  destruct cfg as [bd ai su [ap|] [at_|]]; reflexivity.
Qed.

Lemma ups_head (p : Path.path) :
  exists rest, Fs.ups p ++ [[]] = p :: rest.
Proof.
  unfold Fs.ups. destruct (rev p) as [|a r] eqn:E.
  - apply (f_equal (@rev str)) in E. rewrite rev_involutive in E.
    subst. by exists [].
  - cbn [Fs.upsRev app]. rewrite <- E, rev_involutive. eauto.
Qed.

Lemma findConfig_here (s : Fs.store) :
  Fs.existsAt s (wd ++ [CONFIG_FILE]) = true ->
  findConfig s = Some (wd ++ [CONFIG_FILE]).
Proof.
  intros H. unfold findConfig. destruct (ups_head wd) as [rest ->].
  cbn [map find]. by rewrite H.
Qed.

Lemma readConfig_written (s : Fs.store) (cfg : ProjectConfig) (text : str) :
  Fs.nodeAt s (wd ++ [CONFIG_FILE]) = Some (Fs.File text) ->
  JSON_parse text = Some (jsonOfConfig cfg) ->
  readConfig s = Some cfg.
Proof.
  intros Hn Hp. unfold readConfig.
  rewrite findConfig_here by (unfold Fs.existsAt; by rewrite Hn).
  rewrite Hn, Hp. apply config_roundtrip.
Qed.

Lemma isDir_mkdirs (s : Fs.store) (l : list Path.path) (q : Path.path) :
  [] ∉ l -> Fs.isDir s q = true -> Fs.isDir (Fs.mkdirs s l) q = true.
Proof.
  intros Hl Hd. unfold Fs.isDir. rewrite nodeAt_mkdirs by done.
  by destruct (decide (q ∈ l)).
Qed.

Lemma below_isDir (s : Fs.store) (d q : Path.path) :
  Fs.below s d q = true -> Fs.isDir s d = true.
Proof.
  intros Hb. destruct (decide (d = [])) as [->|Hd]; [done|].
  pose proof (below_strict _ _ _ Hb) as [Hpre Hne].
  unfold Fs.below in Hb. rewrite !andb_true_iff in Hb. destruct Hb as [_ Hb].
  rewrite forallb_forall in Hb.
  assert (Hin : d ∈ Fs.ups q) by by apply ups_spec.
  apply list_elem_of_In, Hb in Hin.
  rewrite !orb_true_iff, negb_true_iff in Hin.
  destruct Hin as [[Hin|Hin]|Hin]; [| |done].
  - by apply bool_decide_eq_true in Hin.
  - by apply bool_decide_eq_false in Hin.
Qed.


Lemma forallb_pointwise {A} (f g : A -> bool) (l : list A) :
  (forall a, f a = g a) -> forallb f l = forallb g l.
Proof. intros H. induction l as [|a l IH]; simpl; by rewrite ?H, ?IH. Qed.

(** Making directories outside [d] does not change what lies below [d]. *)
Lemma below_mkdirs (s : Fs.store) (l : list Path.path) (d q : Path.path) :
  [] ∉ l -> (forall a, a ∈ l -> ~ d `prefix_of` a) ->
  Fs.below (Fs.mkdirs s l) d q = Fs.below s d q.
Proof.
  intros Hl Hout. unfold Fs.below. f_equal. apply forallb_pointwise. intros a.
  destruct (bool_decide (d `prefix_of` a)) eqn:E; [|by rewrite !orb_true_r].
  apply bool_decide_eq_true in E. f_equal. unfold Fs.isDir.
  rewrite nodeAt_mkdirs by done. rewrite decide_False; [done|].
  intros Hin. by apply Hout in Hin.
Qed.

Lemma lookup_nodeAt (s : Fs.store) (q : Path.path) (c : str) :
  q <> [] -> s !! q = Some (Fs.File c) <-> Fs.nodeAt s q = Some (Fs.File c).
Proof. intros Hq. unfold Fs.nodeAt. by destruct q. Qed.

Lemma walkKeys_nodeAt (s : Fs.store) (d q : Path.path) :
  q ∈ Fs.walkKeys s d <->
  (exists c, Fs.nodeAt s q = Some (Fs.File c)) /\ Fs.below s d q = true.
Proof.
  rewrite elem_walkKeys. split; intros [[c Hc] Hb]; (split; [|done]); exists c.
  - apply lookup_nodeAt; [|done]. apply below_strict in Hb as [Hp Hn].
    intros ->. apply prefix_nil_inv in Hp. done.
  - apply lookup_nodeAt; [|done]. by eapply nodeAt_nonroot.
Qed.

Lemma walkKeys_mkdirs (s : Fs.store) (l : list Path.path) (d q : Path.path) :
  [] ∉ l -> (forall a, a ∈ l -> ~ d `prefix_of` a) ->
  q ∈ Fs.walkKeys (Fs.mkdirs s l) d <-> q ∈ Fs.walkKeys s d.
Proof.
  intros Hl Hout. rewrite !walkKeys_nodeAt, below_mkdirs by done.
  split; intros [[c Hc] Hb]; (split; [|done]); exists c;
    pose proof (below_strict _ _ _ Hb) as [Hp _];
    rewrite nodeAt_mkdirs in * by done;
    (rewrite decide_False in *; [done|]); intros Hin; by apply Hout in Hin.
Qed.

Lemma lookup_mkdirs (s : Fs.store) (l : list Path.path) (q : Path.path) :
  Fs.mkdirs s l !! q = if decide (q ∈ l) then Some Fs.Dir else s !! q.
Proof.
  induction l as [|a l IH]; [done|]. cbn [Fs.mkdirs foldr].
  destruct (decide (a = q)) as [->|Hne].
  - rewrite lookup_insert_eq. by rewrite decide_True by apply list_elem_of_here.
  - rewrite lookup_insert_ne by done. fold (Fs.mkdirs s l). rewrite IH.
    destruct (decide (q ∈ l)) as [Hin|Hnin].
    + by rewrite decide_True by by apply list_elem_of_further.
    + rewrite decide_False; [done|]. intros [?|?]%elem_of_cons; by subst.
Qed.

(** Making directories outside [d] does not change the walk of [d]. *)
Lemma walkKeys_mkdirs_eq (s : Fs.store) (l : list Path.path) (d : Path.path) :
  [] ∉ l -> (forall a, a ∈ l -> ~ d `prefix_of` a) ->
  Fs.walkKeys (Fs.mkdirs s l) d = Fs.walkKeys s d.
Proof.
  intros Hl Hout.
  assert (Hsame : forall q, d `prefix_of` q -> Fs.mkdirs s l !! q = s !! q).
  { intros q Hq. rewrite lookup_mkdirs. rewrite decide_False; [done|].
    intros Hin. by apply Hout in Hin. }
  unfold Fs.walkKeys.
  assert (Fs.isDir (Fs.mkdirs s l) d = Fs.isDir s d) as ->.
  { unfold Fs.isDir. rewrite nodeAt_mkdirs by done. rewrite decide_False; [done|].
    intros Hin. by apply Hout in Hin. }
  destruct (Fs.isDir s d); [|done].
  rewrite (walkFrom_ext _ (Fs.mkdirs s l) s d) by (intros q Hq _; by apply Hsame).
  apply walkFrom_fuel; apply deepEnough_depth; [|done].
  intros q Hq Hp. by rewrite Hsame.
Qed.

Lemma trim_nonblank (t : str) : Str.trim t <> [] -> t <> [].
Proof. by intros H ->. Qed.

(** C7 (amended).  [cmdMigrate] changes nothing when the new root resolves
    to the configured root.  Otherwise, when neither the new root nor the
    working directory lies inside the old root (and nothing stands in the
    way of the directories and files to be written), it succeeds; every
    file with a recognized extension found by the walk of the old root has
    a copy directly under the new root, by base name, and where several
    such files have the same base name the copy is that of the one the
    walk finds last (depth first, the entries of a directory in byte
    order); everything below the old root is as it was; and the
    configuration file in the working directory holds the configuration
    with [baseDir] set to the new root. *)
Theorem migrate_copies (newBaseDir : str) (s : Fs.store) :
  let cfg := orElse (readConfig s) DEFAULT_CFG in
  let O := Path.resolve wd [baseDir cfg] in
  let N := Path.resolve wd [newBaseDir] in
  let C := wd ++ [CONFIG_FILE] in
  let nextCfg :=
    {| baseDir := newBaseDir; addIndex := addIndex cfg;
       stripUseClient := stripUseClient cfg;
       aliasPrefix := aliasPrefix cfg; aliasTarget := aliasTarget cfg |} in
  let text := JSON_stringify (jsonOfConfig nextCfg) ++ [LF] in
  (O = N -> snd (cmdMigrate newBaseDir s) = s) /\
  (Path.canonical wd -> Fs.storeOk s ->
   Str.trim newBaseDir <> [] -> O <> N ->
   ~ O `prefix_of` N -> ~ O `prefix_of` wd ->
   Fs.treeTo s wd = true ->
   (forall q, q ∈ Fs.ups N -> Fs.isFile s q = false) ->
   Fs.isFile s O = false ->
   Fs.isDir s C = false -> C ∉ Fs.ups N ->
   (forall q, q ∈ Fs.walkKeys s O -> recognized (Path.render q) = true ->
      Fs.isDir s (N ++ [lastSeg q]) = false) ->
   exists s',
     cmdMigrate newBaseDir s = (Fs.Ok tt, s') /\
     (forall q, q ∈ Fs.walkKeys s O -> recognized (Path.render q) = true ->
        exists front q' back,
          List.filter (fun p => recognized (Path.render p)) (Fs.walkKeys s O) =
            front ++ q' :: back /\
          lastSeg q' = lastSeg q /\
          (forall x, x ∈ back -> lastSeg x <> lastSeg q) /\
          Fs.nodeAt s' (N ++ [lastSeg q]) = Some (Fs.File (Fs.contentAt s q'))) /\
     (forall q, O `prefix_of` q -> q <> O -> Fs.nodeAt s' q = Fs.nodeAt s q) /\
     Fs.nodeAt s' C = Some (Fs.File text) /\
     (JSON_parse text = Some (jsonOfConfig nextCfg) -> readConfig s' = Some nextCfg)).
Proof.
  intros cfg O N C nextCfg text. split.
  { intros HON. unfold cmdMigrate.
    destruct (negb (nonEmpty newBaseDir) || negb (nonEmpty (Str.trim newBaseDir)));
      [done|].
    unfold Fs.bind, getConfig. fold cfg.
    rewrite bool_decide_eq_true_2; [done|]. unfold cwd. fold O N. by rewrite HON. }
  intros Hwd Hok Hnb HON HP8 HP8' Hcwd HP4 HP5 HP6 HP6' HP7.
  assert (HupsN : [] ∉ Fs.ups N) by apply ups_nonroot.
  assert (HoutN : forall a, a ∈ Fs.ups N -> ~ O `prefix_of` a).
  { intros a [_ Ha]%ups_spec HO. apply HP8. by etrans. }
  set (sm := Fs.mkdirs s (Fs.ups N)).
  set (L := List.filter (fun q => recognized (Path.render q)) (Fs.walkKeys sm O)).
  assert (HLs : L = List.filter (fun q => recognized (Path.render q)) (Fs.walkKeys s O)).
  { unfold L, sm. by rewrite walkKeys_mkdirs_eq. }
  assert (HL : forall q, q ∈ L <-> q ∈ Fs.walkKeys s O /\ recognized (Path.render q) = true).
  { intros q. rewrite HLs. by rewrite list_elem_of_In, filter_In, <- list_elem_of_In. }
  assert (Hsm_under : forall q, O `prefix_of` q -> Fs.nodeAt sm q = Fs.nodeAt s q).
  { intros q Hq. unfold sm. rewrite nodeAt_mkdirs by done.
    rewrite decide_False; [done|]. intros Hin. by apply HoutN in Hin. }
  assert (Hsrc : forall q, q ∈ L ->
     O `prefix_of` q /\ q <> O /\ Path.canonical q /\ Fs.isFile sm q = true
     /\ Fs.contentAt sm q = Fs.contentAt s q).
  { intros q [Hq _]%HL. apply walkKeys_nodeAt in Hq as [[c Hc] Hb].
    pose proof (below_strict _ _ _ Hb) as [Hp Hn].
    split; [done|]. split; [done|]. split.
    - apply (Hok q (Fs.File c)). apply lookup_nodeAt; [|done]. by eapply nodeAt_nonroot.
    - unfold Fs.isFile, Fs.contentAt. rewrite Hsm_under by done. by rewrite Hc. }
  assert (Htgt_not_under : forall q, q ∈ L -> ~ O `prefix_of` N ++ [lastSeg q]).
  { intros q Hq [HO|HO]%prefix_snoc_inv'; [done|].
    apply HL in Hq as [Hq Hr]. pose proof (HP7 q Hq Hr) as Hd.
    apply walkKeys_nodeAt in Hq as [_ Hb]. apply below_isDir in Hb.
    rewrite <- HO in Hd. congruence. }
  assert (HsmN : Fs.isDir sm N = true).
  { unfold sm, Fs.isDir. rewrite nodeAt_mkdirs by done.
    destruct (decide (N = [])) as [->|HN]; [done|].
    by rewrite decide_True by by apply ups_self. }
  assert (Hsm_tgt : forall q, q ∈ L -> Fs.isDir sm (N ++ [lastSeg q]) = false).
  { intros q Hq. unfold sm, Fs.isDir. rewrite nodeAt_mkdirs by done.
    rewrite decide_False by apply snoc_not_in_ups.
    apply HL in Hq as [Hq Hr]. by apply HP7. }
  assert (Hloop : forEach (migrateFile newBaseDir) (map Path.render L) sm =
                  (Fs.Ok tt, copies sm N L sm)).
  { apply migrate_loop; try done.
    - intros q Hq. by destruct (Hsrc q Hq) as (_ & _ & ? & ? & _).
    - intros q q' Hq Hq' E. destruct (Hsrc q Hq) as (Hp & _).
      rewrite E in Hp. by apply (Htgt_not_under q'). }
  set (t' := copies sm N L sm) in *.
  assert (Ht'_other : forall p, (forall q, q ∈ L -> p <> N ++ [lastSeg q]) ->
                                Fs.nodeAt t' p = Fs.nodeAt sm p).
  { intros p Hp. by apply copies_other. }
  assert (HC_tgt : forall q, q ∈ L -> C <> N ++ [lastSeg q]).
  { intros q Hq E. apply app_inj_tail in E as [_ E].
    apply HL in Hq as [Hq Hr]. apply walkKeys_nodeAt in Hq as [[c Hc] _].
    apply nodeAt_nonroot in Hc. rewrite (snoc_lastSeg q Hc), <- E in Hr.
    by rewrite recognized_not_config in Hr. }
  assert (HsmC : Fs.nodeAt sm C = Fs.nodeAt s C).
  { unfold sm. rewrite nodeAt_mkdirs by done. by rewrite decide_False. }
  assert (Hsm_wd : Fs.isDir sm wd = true).
  { apply isDir_mkdirs; [done|]. by apply treeTo_isDir. }
  assert (Hwd_tgt : forall q, q ∈ L -> wd <> N ++ [lastSeg q]).
  { intros q Hq E. pose proof (Hsm_tgt q Hq) as Hd. rewrite <- E in Hd. congruence. }
  set (t2 := <[C := Fs.File text]> t').
  assert (HCne : C <> []) by apply snoc_nonroot.
  assert (Hwrite : Fs.writeFile C text t' = (Fs.Ok tt, t2)).
  { apply writeFile_ok.
    - unfold Fs.isDir. rewrite Ht'_other, HsmC by done. exact HP6.
    - unfold C. rewrite removelast_last. unfold Fs.isDir.
      rewrite Ht'_other by done. exact Hsm_wd. }
  assert (Hmk2 : Fs.mkdirp N t2 = (Fs.Ok tt, t2)).
  { apply mkdirp_present. unfold Fs.treeTo. apply forallb_forall.
    intros a Ha%list_elem_of_In. unfold t2.
    rewrite isDir_insert_file by done.
    rewrite decide_False by (intros ->; done).
    unfold Fs.isDir. rewrite Ht'_other.
    - unfold sm. rewrite nodeAt_mkdirs by done. by rewrite decide_True.
    - intros q _ ->. by apply snoc_not_in_ups in Ha. }
  assert (Hrun : cmdMigrate newBaseDir s = (Fs.Ok tt, t2)).
  { unfold cmdMigrate.
    assert (nonEmpty newBaseDir = true) as ->
      by (apply trim_nonblank in Hnb; by destruct newBaseDir).
    assert (nonEmpty (Str.trim newBaseDir) = true) as ->
      by by destruct (Str.trim newBaseDir).
    cbn [negb orb]. unfold Fs.bind, getConfig. fold cfg.
    rewrite bool_decide_eq_false_2 by (rewrite cwd_inj by done; exact HON).
    unfold ensureDir. rewrite !key_cwd by done. fold N O.
    assert (Fs.mkdirp N s = (Fs.Ok tt, sm)) as ->.
    { unfold Fs.mkdirp.
      assert (find (Fs.isFile s) (Fs.ups N) = None) as ->
        by by apply find_none_iff. done. }
    unfold existsSync. rewrite key_cwd by done. fold O.
    assert (HsmO : Fs.nodeAt sm O = Fs.nodeAt s O) by by apply Hsm_under.
    unfold Fs.existsAt. rewrite HsmO.
    unfold Fs.isFile in HP5.
    destruct (Fs.nodeAt s O) as [[c|]|] eqn:EO; [done| |].
    - unfold walk. rewrite key_cwd by done. fold O.
      unfold Fs.isDir. rewrite HsmO. unfold Fs.ret.
      unfold Fs.walkFiles. rewrite filter_map_render. fold L.
      rewrite Hloop. unfold writeConfig, Fs.bind. rewrite configKey by done.
      fold C. cbn [baseDir]. fold nextCfg text. fold t'. rewrite Hwrite.
      unfold ensureDir. rewrite key_cwd by done. fold N. exact Hmk2.
    - unfold Fs.ret. cbn [forEach].
      assert (HLnil : L = []).
      { apply elem_of_nil_inv. intros q Hq.
        apply HL in Hq as [Hq _]. apply walkKeys_nodeAt in Hq as [_ Hb].
        apply below_isDir in Hb. unfold Fs.isDir in Hb. by rewrite EO in Hb. }
      assert (Ht' : t' = sm) by (unfold t'; by rewrite HLnil).
      unfold writeConfig, Fs.bind. rewrite configKey by done.
      fold C. cbn [baseDir]. fold nextCfg text. rewrite <- Ht'. cbv beta iota delta [Fs.ret]. rewrite Hwrite.
      unfold ensureDir. rewrite key_cwd by done. fold N. exact Hmk2. }
  exists t2. split; [exact Hrun|].
  assert (HnC : Fs.nodeAt t2 C = Some (Fs.File text)).
  { unfold t2. rewrite nodeAt_insert by done. by rewrite decide_True. }
  split; [|split; [|split]].
  - intros q Hq Hr. assert (HqL : q ∈ L) by by apply HL.
    destruct (copies_target sm N L sm q HqL) as (front & q' & back & EL & Hlast & Hback & Hn).
    assert (Hq' : q' ∈ L).
    { rewrite EL. apply elem_of_app. right. apply list_elem_of_here. }
    exists front, q', back. rewrite <- HLs.
    split; [done|]. split; [done|]. split; [done|].
    unfold t2. rewrite nodeAt_insert by done.
    rewrite decide_False by by apply HC_tgt.
    fold t' in Hn. rewrite Hn. destruct (Hsrc q' Hq') as (_ & _ & _ & _ & ->). done.
  - intros q Hq Hne. unfold t2. rewrite nodeAt_insert by done.
    rewrite decide_False.
    + rewrite Ht'_other; [by apply Hsm_under|].
      intros q0 Hq0 ->. by apply (Htgt_not_under q0).
    + intros <-. apply prefix_snoc_inv' in Hq as [Hq|Hq]; [done|].
      by apply Hne.
  - exact HnC.
  - intros Hp. by apply (readConfig_written t2 nextCfg text).
Qed.

(** ** Removing an export line *)

Lemma exportLine_text (name : str) : exportLine name = exportText name ++ [LF].
Proof. unfold exportLine, exportText. by rewrite <- !app_assoc. Qed.

Lemma Matches_lit_exact fl (l : str) prev w cs cs' :
  ignoreCase fl = false ->
  Matches fl (Lit l) prev w cs cs' -> w = l /\ cs' = cs.
Proof.
  intros Hfl [-> H]%Matches_lit. split; [|done].
  induction H as [|c a l w Hc _ IH]; [done|].
  unfold chrMatch in Hc. rewrite Hfl in Hc. apply eqc_true in Hc. by subst.
Qed.

Lemma plainName_spec (b : str) :
  plainName b = true ->
  b <> [] /\ parsePattern b = Some (Lit b) /\ (dq ∉ b) /\ (LF ∉ b) /\
  forall c, c ∈ b -> isLineTerminator c = false.
Proof.
  unfold plainName. intros [Hne Hall]%andb_prop.
  split; [by destruct b|].
  rewrite forallb_forall in Hall.
  assert (Hc : forall c, c ∈ b ->
     isSpecial c = false /\ Str.eqc c dq = false /\ isLineTerminator c = false).
  { intros c Hin%list_elem_of_In. specialize (Hall c Hin).
    apply andb_prop in Hall as [[H1 H2]%andb_prop H3].
    by rewrite !negb_true_iff in *. }
  split; [|split; [|split]].
  - clear Hne Hall. induction b as [|c b IH]; [done|].
    destruct (Hc c) as (Hs & _ & _); [apply list_elem_of_here|].
    cbn [parsePattern Lit].
    assert (Str.eqc c "\"%char = false) as ->.
    { destruct (Str.eqc c "\"%char) eqn:E; [|done].
      apply eqc_true in E. subst c. done. }
    assert (Str.eqc c "."%char = false) as ->.
    { destruct (Str.eqc c "."%char) eqn:E; [|done].
      apply eqc_true in E. subst c. done. }
    rewrite Hs, IH; [done|]. intros c' Hc'. apply Hc. by apply list_elem_of_further.
  - intros Hin. destruct (Hc _ Hin) as (_ & H & _). by rewrite (proj2 (eqc_true _ _)) in H.
  - intros Hin. by destruct (Hc _ Hin) as (_ & _ & H).
  - intros c Hin. by destruct (Hc _ Hin) as (_ & _ & H).
Qed.

(** What the deletion pattern of a base name matches: at the start of a
    line, the export statement, then at most a carriage return and a line
    feed. *)
Lemma removeRe_Matches (b : str) prev w cs :
  Matches mflag (removeRe (Lit b)) prev w [] cs ->
  atBol mflag prev = true /\ exists t, w = exportText b ++ t.
Proof.
  unfold removeRe. cbn [Matches].
  intros (w0 & w1 & cs0 & -> & (-> & Hbol & ->) & H). split; [done|].
  destruct H as (w2 & w3 & cs1 & -> & [-> ->]%Matches_lit_exact & H); [|done].
  destruct H as (w4 & w5 & cs2 & -> & (a & -> & Ha & ->) & H).
  destruct H as (w6 & w7 & cs3 & -> & [-> ->]%Matches_lit_exact & H); [|done].
  destruct H as (w8 & w9 & cs4 & -> & [-> ->]%Matches_lit_exact & H); [|done].
  destruct H as (w10 & w11 & cs5 & -> & (a' & -> & Ha' & ->) & H).
  destruct H as (w12 & w13 & cs6 & -> & (a'' & -> & Ha'' & ->) & H).
  apply eqc_true in Ha, Ha', Ha''. subst.
  exists w13. unfold exportText. cbn [app]. by rewrite <- !app_assoc.
Qed.

Lemma search_app fl r (I rest : str) prev :
  (forall a c, I = a ++ c -> c <> [] ->
     matchAt fl r (prevAfter prev a) (c ++ rest) = None) ->
  search fl r prev (I ++ rest) =
  match search fl r (prevAfter prev I) rest with
  | Some f => Some {| before := I ++ before f; matched := matched f;
                      after := after f; groups := groups f |}
  | None => None
  end.
Proof.
  revert prev. induction I as [|c I IH]; intros prev H.
  - cbn [app]. rewrite prevAfter_nil. by destruct (search fl r prev rest) as [[]|].
  - cbn [app]. rewrite (search_skip fl r prev c (I ++ rest)) by (apply (H [] (c :: I)); done).
    rewrite IH, prevAfter_cons.
    + by destruct (search fl r (prevAfter (Some c) I) rest).
    + intros a c' -> Hc'. rewrite <- (prevAfter_cons prev). by apply (H (c :: a) c').
Qed.

Lemma exportText_chars (b : str) (x : ascii) :
  plainName b = true -> x ∈ exportText b -> isLineTerminator x = false.
Proof.
  intros (_ & _ & _ & _ & Hb)%plainName_spec. unfold exportText.
  rewrite !elem_of_app, !list_elem_of_In. cbn [In].
  intros [H|[H|[H|[H|[H|H]]]]];
    try (apply list_elem_of_In in H; by apply Hb);
    repeat (destruct H as [<-|H]; [done|]); done.
Qed.

Lemma app_cons_unique (z : ascii) (u v x y : str) :
  z ∉ u -> z ∉ v -> u ++ z :: x = v ++ z :: y -> u = v.
Proof.
  revert v. induction u as [|a u IH]; intros [|b v] Hu Hv E; simplify_eq/=.
  - done.
  - exfalso. apply Hv, list_elem_of_here.
  - exfalso. apply Hu, list_elem_of_here.
  - f_equal. apply IH; [| |done].
    + intros ?. apply Hu. by apply list_elem_of_further.
    + intros ?. apply Hv. by apply list_elem_of_further.
Qed.

Lemma atBol_after (prev : option ascii) (a : str) :
  a <> [] -> atBol mflag (prevAfter prev a) = true ->
  exists x, x ∈ a /\ isLineTerminator x = true.
Proof.
  intros Ha. unfold prevAfter. destruct (last a) as [x|] eqn:E.
  - intros H. exists x. split; [by apply last_Some_elem_of|]. done.
  - apply last_None in E. done.
Qed.

(** The deletion pattern of a base name finds nothing in a text without
    its export statement. *)
Lemma remove_absent (b T : str) prev :
  Str.includes (exportText b) T = false ->
  search mflag (removeRe (Lit b)) prev T = None.
Proof.
  intros Hex. apply search_none. intros a w c cs -> [_ [t ->]]%removeRe_Matches.
  apply includes_false in Hex. apply Hex. exists a, (t ++ c).
  by rewrite <- !app_assoc.
Qed.

(** In the export line of another base name it finds nothing either. *)
Lemma remove_other_line (b bl : str) prev :
  plainName b = true -> plainName bl = true -> b <> bl ->
  search mflag (removeRe (Lit b)) prev (exportLine bl) = None.
Proof.
  intros Hb Hbl Hne. apply search_none.
  intros a w c cs E [Hbol [t ->]]%removeRe_Matches.
  rewrite exportLine_text in E.
  destruct a as [|a0 a].
  - apply Hne. cbn [app] in E. unfold exportText in E. cbn [app] in E.
    simplify_eq/=. rewrite <- !app_assoc in E. cbn [app] in E.
    apply plainName_spec in Hb as (_ & _ & Hb & _).
    apply plainName_spec in Hbl as (_ & _ & Hbl & _).
    symmetry. by eapply app_cons_unique.
  - apply atBol_after in Hbol as (x & Hx & Hlt); [|done].
    assert (Hlen : length (a0 :: a) <= length (exportText bl)).
    { apply (f_equal length) in E. rewrite !length_app in E.
      assert (1 <= length (exportText b)) by (unfold exportText; simpl; lia).
      simpl in *. lia. }
    assert (Ha : a0 :: a = take (length (a0 :: a)) (exportText bl)).
    { rewrite <- (take_app_le _ [LF]) by done. rewrite E. by rewrite take_app_length. }
    assert (x ∈ exportText bl).
    { rewrite Ha in Hx. apply list_elem_of_lookup in Hx as [i Hi].
      apply lookup_take_Some in Hi as [Hi _]. by eapply list_elem_of_lookup_2. }
    by rewrite (exportText_chars bl x) in Hlt.
Qed.

(** At the start of a line it matches the whole export line of its base
    name. *)
Lemma removeRe_line (b : str) prev :
  atBol mflag prev = true ->
  matchAt mflag (removeRe (Lit b)) prev (exportLine b) = Some ([], []).
Proof.
  intros Hbol. unfold matchAt, removeRe, exportLine. cbn [run]. rewrite Hbol.
  rewrite run_lit. cbn. rewrite run_lit. cbn. reflexivity.
Qed.

Lemma lineEnded_split (I a c : str) :
  lineEnded I -> I = a ++ c -> c <> [] -> exists c', c = c' ++ [LF].
Proof.
  intros [->|[I' ->]] E Hc.
  - by destruct a, c.
  - destruct c as [|x c _] using rev_ind; [done|].
    rewrite app_assoc in E. apply app_inj_tail in E as [_ <-]. by exists c.
Qed.

(** Before the end of a line-ended text without the export statement of
    [b], the deletion pattern of [b] does not match, whatever follows. *)
Lemma remove_not_before (b I rest a c : str) prev :
  plainName b = true -> lineEnded I ->
  Str.includes (exportText b) I = false ->
  I = a ++ c -> c <> [] ->
  matchAt mflag (removeRe (Lit b)) (prevAfter prev a) (c ++ rest) = None.
Proof.
  intros Hb HI Hex E Hc.
  destruct (matchAt _ _ _ _) as [[s' cs]|] eqn:Hm; [|done]. exfalso.
  apply matchAt_sound in Hm as (w & Ew & [_ [t ->]]%removeRe_Matches).
  rewrite <- !app_assoc in Ew.
  apply app_eq_inv in Ew as [(k & -> & _)|(k & Ek & _)].
  - apply includes_false in Hex. apply Hex. exists a, k. by rewrite E.
  - destruct (lineEnded_split I a c HI E Hc) as [c' ->].
    assert (Hin : LF ∈ exportText b).
    { rewrite Ek. rewrite !elem_of_app. left. right. apply list_elem_of_here. }
    by apply (exportText_chars b) in Hin.
Qed.

Lemma atBol_lineEnded (I : str) :
  lineEnded I -> atBol mflag (prevAfter None I) = true.
Proof.
  intros [->|[I' ->]]; [done|]. unfold prevAfter. by rewrite last_snoc.
Qed.

(** The three cases of [cmdRemove]'s search in the index. *)
Lemma remove_finds_line (bl I : str) :
  plainName bl = true -> lineEnded I ->
  Str.includes (exportText bl) I = false ->
  exists f, exec mflag (removeRe (Lit bl)) (I ++ exportLine bl) = Some f /\
            before f = I /\ after f = [].
Proof.
  intros Hb HI Hex. unfold exec. rewrite search_app.
  - erewrite search_here by (apply removeRe_line; by apply atBol_lineEnded).
    eexists. split; [done|]. cbn [before after]. by rewrite app_nil_r.
  - intros a c E Hc. by apply (remove_not_before _ I).
Qed.

Lemma remove_skips_line (b bl I : str) :
  plainName b = true -> plainName bl = true -> b <> bl -> lineEnded I ->
  Str.includes (exportText b) I = false ->
  exec mflag (removeRe (Lit b)) (I ++ exportLine bl) = None.
Proof.
  intros Hb Hbl Hne HI Hex. unfold exec. rewrite search_app.
  - by rewrite remove_other_line.
  - intros a c E Hc. by apply (remove_not_before _ I).
Qed.

(** ** What an install leaves alone *)

Lemma bind_ok {A B} (m : Fs.M A) (k : A -> Fs.M B) (s s' : Fs.store) (b : B) :
  Fs.bind m k s = (Fs.Ok b, s') ->
  exists a s1, m s = (Fs.Ok a, s1) /\ k a s1 = (Fs.Ok b, s').
Proof.
  unfold Fs.bind. destruct (m s) as [[a|e] s1]; [|done]. eauto.
Qed.

Lemma frame_refl (P : Path.path -> Prop) (s : Fs.store) : frame P s s.
Proof. by intros p. Qed.

Lemma frame_trans (P : Path.path -> Prop) (s1 s2 s3 : Fs.store) :
  frame P s1 s2 -> frame P s2 s3 -> frame P s1 s3.
Proof.
  intros H12 H23 p. destruct (H12 p) as [Ha Hb], (H23 p) as [Hc Hd]. split.
  - auto.
  - intros Hp. by rewrite Hd, Hb.
Qed.

Lemma frame_weaken (P Q : Path.path -> Prop) (s s' : Fs.store) :
  (forall p, P p -> Q p) -> frame P s s' -> frame Q s s'.
Proof. intros HPQ H p. destruct (H p) as [Ha Hb]. split; [done|]. auto. Qed.

Lemma mkdirp_frame (p : Path.path) (s s' : Fs.store) (r : Fs.result unit) :
  Fs.mkdirp p s = (r, s') -> frame (fun q => q `prefix_of` p) s s'.
Proof.
  destruct r as [[]|e]; intros H.
  - intros q. pose proof (mkdirp_nodeAt p q s s' H) as Hn.
    apply mkdirp_ok in H as [_ Hf]. unfold Fs.isFile in *. rewrite Hn.
    destruct (decide (q ∈ Fs.ups p)) as [Hin|Hout]; [|done].
    split; [|intros Hq; by apply ups_spec in Hin as [_ ?]].
    specialize (Hf q Hin). by destruct (Fs.nodeAt s q) as [[]|].
  - apply mkdirp_err in H as ->. apply frame_refl.
Qed.

Lemma writeFile_frame (p : Path.path) (c : str) (s s' : Fs.store)
    (r : Fs.result unit) :
  Fs.writeFile p c s = (r, s') ->
  frame (fun q => q = p) s s' /\ (r = Fs.Ok tt -> Fs.isFile s' p = true).
Proof.
  unfold Fs.writeFile. destruct (Fs.isDir s p) eqn:Hd.
  { intros [= <- <-]. split; [apply frame_refl | done]. }
  destruct (Fs.isDir s (removelast p)); intros [= <- <-].
  - assert (Hne : p <> []) by (intros ->; done).
    split.
    + intros q. unfold Fs.isFile. rewrite nodeAt_insert by done.
      destruct (decide (p = q)) as [->|Hq]; [|done]. split; [done|]. by intros [].
    + intros _. unfold Fs.isFile. rewrite nodeAt_insert by done.
      by rewrite decide_True.
  - split; [apply frame_refl | done].
Qed.

Lemma copyFile_frame (src dst : Path.path) (s s' : Fs.store) (r : Fs.result unit) :
  Fs.copyFile src dst s = (r, s') -> frame (fun q => q = dst) s s'.
Proof.
  unfold Fs.copyFile, Fs.bind, Fs.readFile.
  destruct (Fs.nodeAt s src) as [[c|]|]; try (intros [= <- <-]; apply frame_refl).
  destruct (decide (src = dst)); [intros [= <- <-]; apply frame_refl|].
  intros H. by apply writeFile_frame in H as [? _].
Qed.

Lemma backupFile_frame (p : str) (s s' : Fs.store) (r : Fs.result (option str)) :
  backupFile p s = (r, s') -> frame (fun q => q = key (p ++ ".bak")) s s'.
Proof.
  unfold backupFile, Fs.bind, existsSync.
  destruct (Fs.existsAt s (key p)); cbn [negb]; [|intros [= <- <-]; apply frame_refl].
  destruct (Fs.copyFile _ _ s) as [[[]|e] s1] eqn:Hc.
  - intros [= <- <-]. by apply copyFile_frame in Hc.
  - intros [= <- <-]. by apply copyFile_frame in Hc.
Qed.

Lemma installFile_frame (registry : Registry) (entry : HookEntry) (meta : Meta)
    (cfg : ProjectConfig) (stripClient : bool) (baseDir : str)
    (o : InstallOptions) (f : FileDesc) (s s' : Fs.store) (name : str) :
  Path.canonical wd -> truthy (dry o) = false ->
  installFile registry entry meta cfg stripClient baseDir (Some o) f s
    = (Fs.Ok name, s') ->
  frame (touched baseDir [f]) s s' /\
  Fs.isFile s' (key (destOf baseDir f)) = true /\
  name = fileBaseName (destOf baseDir f).
Proof.
  intros Hwd Hdry. unfold installFile. fold (destOf baseDir f).
  set (dest := destOf baseDir f). cbn [mbind option_bind]. rewrite Hdry.
  intros (text & s1 & Ht & H)%bind_ok.
  assert (s1 = s) as ->.
  { unfold getText, Fs.fetched, Fs.ret, Fs.throw in Ht.
    destruct (remoteText _); by simplify_eq. }
  apply bind_ok in H as ([] & s2 & Hmk & H).
  apply bind_ok in H as (ex & s3 & Hex & H).
  unfold existsSync in Hex. simplify_eq.
  apply bind_ok in H as ([] & s4 & Hbk & H).
  apply bind_ok in H as ([] & s5 & Hw & H).
  unfold Fs.ret in H. simplify_eq.
  assert (Hin : f ∈ [f]) by apply list_elem_of_here.
  assert (F1 : frame (touched baseDir [f]) s s3).
  { unfold ensureDir in Hmk. apply mkdirp_frame in Hmk.
    eapply frame_weaken; [|exact Hmk]. intros p Hp. exists f. split; [done|]. left.
    unfold dest, destOf in Hp. rewrite key_dirname_cwd in Hp by done.
    etrans; [exact Hp|]. fold (destOf baseDir f). unfold destOf.
    rewrite key_cwd by done.
    exists (match last (Path.resolve wd [remapToBaseDir (file_to f) baseDir]) with
            | Some x => [x] | None => [] end).
    destruct (Path.resolve wd [remapToBaseDir (file_to f) baseDir])
      as [|x q _] using rev_ind; [done|].
    by rewrite removelast_last, last_snoc. }
  assert (F2 : frame (touched baseDir [f]) s3 s4).
  { destruct (Fs.existsAt s3 (key dest) && negb (truthy (force o))).
    - apply bind_ok in Hbk as (b & s6 & Hb & Hr). unfold Fs.ret in Hr. simplify_eq.
      apply backupFile_frame in Hb. eapply frame_weaken; [|exact Hb].
      intros p ->. exists f. split; [done|]. by right.
    - unfold Fs.ret in Hbk. simplify_eq. apply frame_refl. }
  apply writeFile_frame in Hw as [F3 Hf].
  split; [|split; [by apply Hf | done]].
  eapply frame_trans; [exact F1|]. eapply frame_trans; [exact F2|].
  eapply frame_weaken; [|exact F3]. intros p ->. exists f. split; [done|]. by left.
Qed.

Lemma touched_mono (baseDir : str) (l1 l2 : list FileDesc) (p : Path.path) :
  l1 ⊆ l2 -> touched baseDir l1 p -> touched baseDir l2 p.
Proof. intros Hl (f & Hf & H). exists f. split; [by apply Hl | done]. Qed.

Lemma installFiles_frame (registry : Registry) (entry : HookEntry) (meta : Meta)
    (cfg : ProjectConfig) (stripClient : bool) (baseDir : str)
    (o : InstallOptions) (files : list FileDesc) (last : option str)
    (s s' : Fs.store) (r : option str) :
  Path.canonical wd -> truthy (dry o) = false ->
  installFiles (installFile registry entry meta cfg stripClient baseDir (Some o))
    files last s = (Fs.Ok r, s') ->
  frame (touched baseDir files) s s' /\
  (forall f, f ∈ files -> Fs.isFile s' (key (destOf baseDir f)) = true) /\
  r = fold_left (fun _ f => Some (fileBaseName (destOf baseDir f))) files last.
Proof.
  intros Hwd Hdry. revert last s.
  induction files as [|f files IH]; intros last s; cbn [installFiles fold_left].
  - unfold Fs.ret. intros [= <- <-].
    split; [apply frame_refl|]. split; [|done]. by intros f Hf%elem_of_nil.
  - intros (name & s1 & Hf & H)%bind_ok.
    apply installFile_frame in Hf as (F1 & Hd & ->); [|done..].
    apply IH in H as (F2 & Hds & ->).
    split; [|split; [|done]].
    + eapply frame_trans.
      * eapply frame_weaken; [|exact F1]. intros p. apply touched_mono.
        intros x ->%list_elem_of_singleton. apply list_elem_of_here.
      * eapply frame_weaken; [|exact F2]. intros p. apply touched_mono.
        intros x Hx. by apply list_elem_of_further.
    + intros g [Hg|Hg]%elem_of_cons; [|by apply Hds].
      subst g. by apply (F2 (key (destOf baseDir f))).
Qed.

Lemma last_name_in (baseDir : str) (files : list FileDesc) (last : option str)
    (bl : str) :
  fold_left (fun _ f => Some (fileBaseName (destOf baseDir f))) files last = Some bl ->
  last = Some bl \/ bl ∈ map (fun f => fileBaseName (destOf baseDir f)) files.
Proof.
  revert last. induction files as [|f files IH]; intros last; cbn [fold_left map].
  - by left.
  - intros [[= <-]|H]%IH; right; [apply list_elem_of_here | by apply list_elem_of_further].
Qed.

Lemma indexJsKey (baseDir : str) :
  Path.canonical wd ->
  key (cwd [baseDir; "index.js"]) = Path.resolve wd [baseDir] ++ ["index.js"].
Proof.
  intros Hwd. rewrite key_cwd by done.
  change (Path.resolve wd [baseDir; "index.js"])
    with (Path.applyPath (Path.resolve wd [baseDir]) "index.js").
  by apply applyPath_name.
Qed.

(** ** Removing a hook *)

Lemma pruneIndex_absent (baseDir b idx : str) (s : Fs.store) :
  Fs.nodeAt s (key (cwd [baseDir; idx])) = None ->
  pruneIndex baseDir b idx s = (Fs.Ok tt, s).
Proof.
  intros H. unfold pruneIndex, Fs.bind, existsSync, Fs.existsAt. by rewrite H.
Qed.

Lemma pruneIndex_file (baseDir b idx : str) (s : Fs.store) (T : str) :
  Fs.nodeAt s (key (cwd [baseDir; idx])) = Some (Fs.File T) ->
  plainName b = true ->
  pruneIndex baseDir b idx s =
  match exec mflag (removeRe (Lit b)) T with
  | Some m => Fs.writeFile (key (cwd [baseDir; idx])) (before m ++ after m) s
  | None => (Fs.Ok tt, s)
  end.
Proof.
  intros H (_ & Hp & _)%plainName_spec.
  unfold pruneIndex, Fs.bind, existsSync, Fs.existsAt, Fs.readFile.
  rewrite H. cbn [negb]. rewrite Hp, H. by destruct (exec _ _ T).
Qed.

Lemma unlink_present (ex : bool) (p : Path.path) (s : Fs.store) :
  Fs.isDir s p = false -> ex = Fs.existsAt s p ->
  exists s1, (if ex then Fs.unlink p else Fs.ret tt) s = (Fs.Ok tt, s1) /\
    forall q, Fs.nodeAt s1 q = if decide (q = p) then None else Fs.nodeAt s q.
Proof.
  intros Hd ->. unfold Fs.existsAt, Fs.isDir in *.
  destruct (Fs.nodeAt s p) as [[c|]|] eqn:E; [|done|].
  - assert (p <> []) by by eapply nodeAt_nonroot.
    exists (delete p s). split; [unfold Fs.unlink; by rewrite E|].
    intros q. rewrite nodeAt_delete by done.
    by destruct (decide (p = q)), (decide (q = p)).
  - exists s. split; [done|]. intros q. destruct (decide (q = p)) as [->|]; done.
Qed.

(** One pass of [cmdRemove] over the index with the base name [b]: of an
    index that is [I], or [I] and the export line of one base name, the
    line goes when it is the line of [b], and nothing else changes. *)
Lemma pruneIndex_step (baseDir b I T : str) (bases : list str) (s : Fs.store) :
  Path.canonical wd -> lineEnded I ->
  let IP := Path.resolve wd [baseDir] ++ ["index.ts"] in
  (forall b', b' ∈ b :: bases ->
     plainName b' = true /\ Str.includes (exportText b') I = false) ->
  Fs.nodeAt s IP = Some (Fs.File T) -> Fs.isDir s (removelast IP) = true ->
  (T = I \/ exists bl, T = I ++ exportLine bl /\ bl ∈ b :: bases) ->
  exists s' T',
    pruneIndex baseDir b "index.ts" s = (Fs.Ok tt, s') /\
    Fs.nodeAt s' IP = Some (Fs.File T') /\
    (T' = I \/ exists bl, T' = I ++ exportLine bl /\ bl ∈ bases) /\
    forall q, q <> IP -> Fs.nodeAt s' q = Fs.nodeAt s q.
Proof.
  intros Hwd HI IP Hb HT Hpar HTI.
  destruct (indexKey baseDir Hwd) as [HK _]. fold IP in HK.
  destruct (Hb b) as [Hpb Hxb]; [apply list_elem_of_here|].
  rewrite (pruneIndex_file baseDir b "index.ts" s T) by (rewrite ?HK; done).
  rewrite HK.
  destruct HTI as [->|(bl & -> & Hbl)].
  - unfold exec. rewrite remove_absent by done.
    exists s, I. split; [done|]. split; [done|]. split; [by left | done].
  - destruct (Hb bl Hbl) as [Hpl Hxl].
    destruct (decide (b = bl)) as [<-|Hne].
    + destruct (remove_finds_line b I Hpb HI Hxb) as (m & -> & -> & ->).
      rewrite app_nil_r.
      assert (Hne : IP <> []) by by eapply nodeAt_nonroot.
      rewrite writeFile_ok; [|by eapply isDir_file | done].
      exists (<[IP := Fs.File I]> s), I.
      split; [done|]. split; [by rewrite nodeAt_insert, decide_True by done|].
      split; [by left|]. intros q Hq. rewrite nodeAt_insert by done.
      by rewrite decide_False.
    + rewrite remove_skips_line by done.
      exists s, (I ++ exportLine bl). split; [done|]. split; [done|].
      split; [|done]. right. exists bl. split; [done|].
      apply elem_of_cons in Hbl as [->|?]; done.
Qed.

Lemma pruneIndex_js (baseDir b : str) (s : Fs.store) :
  Path.canonical wd -> plainName b = true ->
  let IJ := Path.resolve wd [baseDir] ++ ["index.js"] in
  match Fs.nodeAt s IJ with
  | None => True
  | Some (Fs.File J) => Str.includes (exportText b) J = false
  | Some Fs.Dir => False
  end ->
  pruneIndex baseDir b "index.js" s = (Fs.Ok tt, s).
Proof.
  intros Hwd Hb IJ H. pose proof (indexJsKey baseDir Hwd) as HK. fold IJ in HK.
  destruct (Fs.nodeAt s IJ) as [[J|]|] eqn:E; [|done|].
  - rewrite (pruneIndex_file baseDir b "index.js" s J) by (rewrite ?HK; done).
    unfold exec. by rewrite remove_absent.
  - apply pruneIndex_absent. by rewrite HK.
Qed.

(** The loop of [cmdRemove]: the destinations are deleted, the export line
    leaves the index, and nothing else changes. *)
Lemma remove_loop (baseDir I : str) (rest : list FileDesc) (s : Fs.store) (T : str) :
  Path.canonical wd -> lineEnded I ->
  let IP := Path.resolve wd [baseDir] ++ ["index.ts"] in
  let IJ := Path.resolve wd [baseDir] ++ ["index.js"] in
  let base := fun f => fileBaseName (destOf baseDir f) in
  let dst := fun f => key (destOf baseDir f) in
  (forall f, f ∈ rest ->
     plainName (base f) = true /\ Str.includes (exportText (base f)) I = false /\
     dst f <> IP /\ dst f <> IJ /\ Fs.isDir s (dst f) = false) ->
  Fs.nodeAt s IP = Some (Fs.File T) -> Fs.isDir s (removelast IP) = true ->
  (T = I \/ exists bl, T = I ++ exportLine bl /\ bl ∈ map base rest) ->
  match Fs.nodeAt s IJ with
  | None => True
  | Some (Fs.File J) =>
      forall f, f ∈ rest -> Str.includes (exportText (base f)) J = false
  | Some Fs.Dir => False
  end ->
  exists s', forEach (removeFile baseDir) rest s = (Fs.Ok tt, s') /\
    Fs.nodeAt s' IP = Some (Fs.File I) /\
    forall q, q <> IP ->
      Fs.nodeAt s' q = if decide (q ∈ map dst rest) then None else Fs.nodeAt s q.
Proof.
  intros Hwd HI IP IJ base dst. revert s T.
  induction rest as [|f rest IH]; intros s T Hfs HT Hpar HTI HJ.
  - destruct HTI as [->|(bl & _ & Hbl)]; [|by apply elem_of_nil in Hbl].
    exists s. split; [done|]. split; [done|]. intros q _. by rewrite decide_False by apply not_elem_of_nil.
  - destruct (Hfs f) as (Hpb & Hxb & HdP & HdJ & Hdd); [apply list_elem_of_here|].
    assert (HPJ : IJ <> IP).
    { unfold IJ, IP. intros E%app_inj_tail. by destruct E. }
    destruct (unlink_present (Fs.existsAt s (dst f)) (dst f) s Hdd eq_refl)
      as (s1 & Hun & Hs1).
    assert (Hbs : forall b', b' ∈ base f :: map base rest ->
       plainName b' = true /\ Str.includes (exportText b') I = false).
    { intros b' Hb'. change (base f :: map base rest) with (map base (f :: rest)) in Hb'.
      apply list_elem_of_fmap in Hb' as (g & -> & Hg).
      by destruct (Hfs g Hg) as (? & ? & _). }
    assert (HT1 : Fs.nodeAt s1 IP = Some (Fs.File T)).
    { rewrite Hs1. by rewrite decide_False by done. }
    assert (Hpar1 : Fs.isDir s1 (removelast IP) = true).
    { unfold Fs.isDir. rewrite Hs1. destruct (decide _) as [E|_]; [|done].
      rewrite E in Hpar. congruence. }
    destruct (pruneIndex_step baseDir (base f) I T (map base rest) s1
                Hwd HI Hbs HT1 Hpar1 HTI) as (s2 & T' & Hpr & HT2 & HTI2 & Hs2).
    fold IP in HT2, Hs2.
    assert (HJ2 : Fs.nodeAt s2 IJ = Fs.nodeAt s IJ).
    { rewrite Hs2 by done. rewrite Hs1. by rewrite decide_False by done. }
    assert (Hjs : pruneIndex baseDir (base f) "index.js" s2 = (Fs.Ok tt, s2)).
    { apply pruneIndex_js; [done..|]. fold IJ. rewrite HJ2.
      destruct (Fs.nodeAt s IJ) as [[J|]|]; [|done..].
      apply HJ, list_elem_of_here. }
    destruct (IH s2 T') as (s' & Hloop & HI' & Hs').
    + intros g Hg. destruct (Hfs g) as (? & ? & ? & ? & Hd); [by apply list_elem_of_further|].
      split; [done|]. split; [done|]. split; [done|]. split; [done|].
      unfold Fs.isDir. rewrite Hs2 by done. rewrite Hs1.
      destruct (decide _); [done|]. exact Hd.
    + done.
    + unfold Fs.isDir. rewrite Hs2.
      * exact Hpar1.
      * unfold IP. rewrite removelast_last. apply not_eq_sym, snoc_ne_removelast.
    + done.
    + rewrite HJ2. destruct (Fs.nodeAt s IJ) as [[J|]|]; [|done..].
      intros g Hg. by apply HJ, list_elem_of_further.
    + exists s'. split; [|split; [done|]].
      * cbn [forEach]. unfold Fs.bind at 1. unfold removeFile.
        fold (destOf baseDir f). unfold Fs.bind, existsSync.
        change (key (destOf baseDir f)) with (dst f).
        change (fileBaseName (destOf baseDir f)) with (base f).
        rewrite Hun, Hpr, Hjs. exact Hloop.
      * intros q Hq. rewrite Hs' by done. cbn [map].
        destruct (decide (q ∈ map dst rest)) as [Hin|Hout].
        -- by rewrite decide_True by by apply list_elem_of_further.
        -- rewrite Hs2 by done. rewrite Hs1.
           destruct (decide (q = dst f)) as [->|Hqd].
           ++ by rewrite decide_True by apply list_elem_of_here.
           ++ rewrite decide_False; [done|]. by intros [?|?]%elem_of_cons.
Qed.

Lemma bak_not_index (baseDir idx : str) (f : FileDesc) :
  Path.canonical wd -> key (destOf baseDir f) <> [] ->
  Str.endsWith ".bak" idx = false ->
  key (destOf baseDir f ++ ".bak") <> Path.resolve wd [baseDir] ++ [idx].
Proof.
  intros Hwd Hne Hidx. unfold destOf in *. rewrite key_cwd in Hne by done.
  assert (Hcan : Path.canonical (Path.resolve wd [remapToBaseDir (file_to f) baseDir]))
    by by apply resolve_canonical.
  unfold cwd.
  destruct (Path.resolve wd [remapToBaseDir (file_to f) baseDir])
    as [|x q _] using rev_ind; [done|].
  rewrite key_bak by done. intros [_ E]%app_inj_tail.
  unfold Str.endsWith in Hidx. rewrite <- E, rev_app_distr in Hidx.
  assert (Str.startsWith (rev ".bak") (rev ".bak" ++ rev x) = true)
    by (apply startsWith_true; eauto).
  congruence.
Qed.

Lemma exportLine_absent (b I : str) :
  Str.includes (exportText b) I = false -> Str.includes (exportLine b) I = false.
Proof.
  rewrite !includes_false. intros H (a & c & ->). apply H.
  exists a, ([LF] ++ c). rewrite exportLine_text. by rewrite <- !app_assoc.
Qed.

(** The index after a successful [updateIndex] on an index without the
    export statement: the old content and the export line. *)
Lemma updateIndex_appends (baseDir name : str) (o : InstallOptions)
    (s s1 : Fs.store) :
  Path.canonical wd -> truthy (dry o) = false ->
  let IP := Path.resolve wd [baseDir] ++ ["index.ts"] in
  Str.includes (exportText name) (Fs.contentAt s IP) = false ->
  updateIndex baseDir (Some o) name s = (Fs.Ok tt, s1) ->
  Fs.nodeAt s1 IP = Some (Fs.File (Fs.contentAt s IP ++ exportLine name)) /\
  Fs.isDir s1 (removelast IP) = true /\
  frame (fun q => q `prefix_of` IP) s s1.
Proof.
  intros Hwd Hdry IP Hex. rewrite updateIndex_cases by done.
  destruct (indexKey baseDir Hwd) as [-> _]. fold IP.
  assert (Hins : forall t c s', Fs.writeFile IP c t = (Fs.Ok tt, s') ->
     Fs.nodeAt s' IP = Some (Fs.File c) /\ Fs.isDir s' (removelast IP) = true /\
     frame (fun q => q `prefix_of` IP) t s').
  { intros t c s' Hw. pose proof (writeFile_frame _ _ _ _ _ Hw) as [F _].
    apply writeFile_inv in Hw as (-> & Hne & _ & Hpar).
    split; [by rewrite nodeAt_insert, decide_True by done|]. split.
    - rewrite isDir_insert_file by done. rewrite decide_False; [done|].
      unfold IP. rewrite removelast_last. apply snoc_ne_removelast.
    - eapply frame_weaken; [|exact F]. by intros p ->. }
  unfold Fs.contentAt in *.
  destruct (Fs.nodeAt s IP) as [[c|]|] eqn:E; [| done |].
  - rewrite exportLine_absent by done. apply Hins.
  - destruct (Fs.mkdirp (removelast IP) s) as [[[]|e] sA] eqn:Hmk; [|done].
    intros (Hn & Hp & F)%Hins. split; [done|]. split; [done|].
    eapply frame_trans; [|exact F].
    apply mkdirp_frame in Hmk. eapply frame_weaken; [|exact Hmk].
    intros p Hp'. etrans; [exact Hp'|]. unfold IP. rewrite removelast_last.
    by apply prefix_app_r.
Qed.

(** C3 (amended).  A hook of the registry is installed under [baseDir],
    with the index maintained, and then removed under the same [baseDir].
    Assume the install succeeds, the base names of the hook's files are
    plain (not empty, no pattern syntax, quote or line terminator), no
    destination lies at or below [index.ts] or [index.js], the index before
    the install is empty or ends with a line feed and contains the export
    statement of none of these base names, and neither does [index.js].
    Then the removal succeeds, none of the hook's destinations exists
    afterwards, [index.ts] holds exactly what it held before the install
    (nothing, when it was not there), and every other path is as the
    install left it. *)
Theorem install_then_remove (hookId baseDir : str) (o : InstallOptions)
    (opts : CmdOptions) (registry : Registry) (entry : HookEntry) (meta : Meta)
    (s0 s1 : Fs.store) :
  let IP := Path.resolve wd [baseDir] ++ ["index.ts"] in
  let IJ := Path.resolve wd [baseDir] ++ ["index.js"] in
  let I := Fs.contentAt s0 IP in
  let base := fun f => fileBaseName (destOf baseDir f) in
  let dst := fun f => key (destOf baseDir f) in
  Path.canonical wd ->
  remoteRegistry REGISTRY_URL = Some registry ->
  findHook registry hookId = Some entry ->
  remoteMeta (metaUrl registry entry) = Some meta ->
  truthy (dry o) = false ->
  opt_baseDir opts = Some baseDir ->
  installHook hookId baseDir true (Some o) s0 = (Fs.Ok tt, s1) ->
  (forall f, f ∈ meta_files meta ->
     plainName (base f) = true /\
     Str.includes (exportText (base f)) I = false /\
     ~ IP `prefix_of` dst f /\ ~ IJ `prefix_of` dst f) ->
  lineEnded I -> Fs.isDir s0 IP = false ->
  match Fs.nodeAt s0 IJ with
  | None => True
  | Some (Fs.File J) =>
      forall f, f ∈ meta_files meta -> Str.includes (exportText (base f)) J = false
  | Some Fs.Dir => False
  end ->
  exists s2,
    cmdRemove hookId (Some opts) s1 = (Fs.Ok tt, s2) /\
    (forall f, f ∈ meta_files meta -> Fs.existsAt s2 (dst f) = false) /\
    Fs.contentAt s2 IP = I /\
    (meta_files meta <> [] -> Fs.nodeAt s2 IP = Some (Fs.File I)) /\
    Fs.nodeAt s2 IJ = Fs.nodeAt s0 IJ /\
    (forall q, q <> IP -> q ∉ map dst (meta_files meta) ->
       Fs.nodeAt s2 q = Fs.nodeAt s1 q).
Proof.
  intros IP IJ I base dst Hwd Hreg Hfind Hmeta Hdry Hopt Hinst Hfs HI HdP HJ.
  assert (Hrm : forall s, cmdRemove hookId (Some opts) s =
                          forEach (removeFile baseDir) (meta_files meta) s).
  { intros s. unfold cmdRemove, Fs.bind, getConfig, getRegistry, getMeta.
    cbn [mbind option_bind]. rewrite Hopt. cbn [orElse].
    rewrite Hreg. cbn [Fs.fetched Fs.ret]. rewrite Hfind, Hmeta. done. }
  unfold installHook in Hinst.
  apply bind_ok in Hinst as (registry' & sa & Hr & Hinst).
  unfold getRegistry in Hr. rewrite Hreg in Hr. unfold Fs.fetched, Fs.ret in Hr.
  injection Hr as <- <-. rewrite Hfind in Hinst.
  apply bind_ok in Hinst as (meta' & sa & Hm & Hinst).
  unfold getMeta in Hm. rewrite Hmeta in Hm. unfold Fs.fetched, Fs.ret in Hm.
  injection Hm as <- <-.
  apply bind_ok in Hinst as (cfg0 & sa & Hc & Hinst).
  unfold getConfig in Hc. injection Hc as <- <-.
  apply bind_ok in Hinst as (lastName & s' & Hfiles & Hidx).
  apply installFiles_frame in Hfiles as (F & Hdests & Hlast); [|done..].
  assert (HnotT : forall K idx, K = Path.resolve wd [baseDir] ++ [idx] ->
     Str.endsWith ".bak" idx = false ->
     (forall f, f ∈ meta_files meta -> ~ K `prefix_of` dst f) ->
     ~ touched baseDir (meta_files meta) K).
  { intros K idx -> Hidx' HK (f & Hf & [Hp|Hb]); [by apply (HK f)|].
    revert Hb. apply not_eq_sym, bak_not_index; [done| |done].
    specialize (Hdests f Hf). unfold Fs.isFile in Hdests.
    destruct (Fs.nodeAt s' (key (destOf baseDir f))) as [[c|]|] eqn:E; [|done..].
    by eapply nodeAt_nonroot. }
  assert (HnP : ~ touched baseDir (meta_files meta) IP).
  { apply (HnotT IP "index.ts"); [done..|]. intros f Hf. by destruct (Hfs f Hf) as (_ & _ & ? & _). }
  assert (HnJ : ~ touched baseDir (meta_files meta) IJ).
  { apply (HnotT IJ "index.js"); [done..|]. intros f Hf. by destruct (Hfs f Hf) as (_ & _ & _ & ?). }
  assert (HP' : Fs.nodeAt s' IP = Fs.nodeAt s0 IP) by by apply (F IP).
  assert (HJ' : Fs.nodeAt s' IJ = Fs.nodeAt s0 IJ) by by apply (F IJ).
  assert (HPJ : IJ <> IP).
  { unfold IJ, IP. intros E%app_inj_tail. by destruct E. }
  destruct lastName as [bl|].
  - symmetry in Hlast. apply last_name_in in Hlast as [?|Hbl]; [done|].
    apply list_elem_of_fmap in Hbl as (g & -> & Hg).
    destruct (Hfs g Hg) as (Hpg & Hxg & _).
    assert (nonEmpty (fileBaseName (destOf baseDir g)) = true) as Hne.
    { unfold plainName in Hpg. by apply andb_prop in Hpg as [? _]. }
    rewrite Hne in Hidx. cbn [andb] in Hidx.
    apply updateIndex_appends in Hidx as (HT1 & Hpar1 & F1); [|done..|].
    2:{ fold IP. unfold Fs.contentAt. rewrite HP'. exact Hxg. }
    fold IP in HT1, Hpar1, F1.
    assert (Fs.contentAt s' IP = I) as HcI by (unfold I, Fs.contentAt; by rewrite HP').
    rewrite HcI in HT1.
    assert (HJ1 : Fs.nodeAt s1 IJ = Fs.nodeAt s0 IJ).
    { rewrite <- HJ'. apply (F1 IJ). intros [Hp|Hp]%prefix_snoc_inv'; [|done].
      apply prefix_length in Hp. unfold IJ in Hp. rewrite length_app in Hp.
      simpl in Hp. lia. }
    destruct (remove_loop baseDir I (meta_files meta) s1
                (I ++ exportLine (fileBaseName (destOf baseDir g))) Hwd HI)
      as (s2 & Hloop & HI2 & Hs2).
    + intros f Hf. destruct (Hfs f Hf) as (? & ? & HnIP & HnIJ). cbv beta.
      split; [done|]. split; [done|].
      split; [by intros E; apply HnIP; unfold dst; rewrite E|].
      split; [by intros E; apply HnIJ; unfold dst; rewrite E|].
      pose proof (proj1 (F1 _) (Hdests f Hf)) as Hfile.
      unfold Fs.isFile in Hfile. unfold Fs.isDir.
      by destruct (Fs.nodeAt s1 (key (destOf baseDir f))) as [[]|].
    + exact HT1.
    + exact Hpar1.
    + right. eexists. split; [done|]. apply list_elem_of_fmap. by exists g.
    + fold IJ. rewrite HJ1. exact HJ.
    + fold IP in HI2, Hs2. fold dst in Hs2.
      exists s2. rewrite Hrm. split; [done|].
      split; [|split; [|split; [|split]]].
      * intros f Hf. unfold Fs.existsAt. rewrite Hs2.
        -- rewrite decide_True; [done|]. apply list_elem_of_fmap. by exists f.
        -- destruct (Hfs f Hf) as (_ & _ & HnIP & _). by intros E; apply HnIP; rewrite E.
      * unfold Fs.contentAt. by rewrite HI2.
      * done.
      * rewrite Hs2 by done. rewrite decide_False; [done|].
        intros (f & E & Hf)%list_elem_of_fmap.
        destruct (Hfs f Hf) as (_ & _ & _ & HnIJ). apply HnIJ. by rewrite <- E.
      * intros q Hq Hout. rewrite Hs2 by done. by rewrite decide_False.
  - assert (Hnil : meta_files meta = []).
    { destruct (meta_files meta) as [|f0 files0]; [done|]. exfalso.
      clear -Hlast. cbn [fold_left] in Hlast.
      revert Hlast. generalize (fileBaseName (destOf baseDir f0)).
      induction files0 as [|f files IH]; intros b; cbn [fold_left]; [done|]. apply IH. }
    unfold Fs.ret in Hidx. injection Hidx as <-.
    exists s'. rewrite Hrm, Hnil. split; [done|].
    split; [|split; [|split; [|split]]].
    + by intros f Hf%elem_of_nil.
    + unfold I, Fs.contentAt. by rewrite HP'.
    + done.
    + done.
    + done.
Qed.


(** * Further properties *)

(** ** Escaping a text for a pattern *)

Lemma isSpecial_plain (c : ascii) :
  isSpecial c = false ->
  Str.eqc c "\"%char = false /\ Str.eqc c "."%char = false.
Proof.
  intros H. split.
  - destruct (Str.eqc c "\"%char) eqn:E; [|done]. apply eqc_true in E. by subst c.
  - destruct (Str.eqc c "."%char) eqn:E; [|done]. apply eqc_true in E. by subst c.
Qed.

Lemma matchAt_lit (l rest : str) prev :
  matchAt noflags (Lit l) prev (l ++ rest) = Some (rest, []).
Proof. unfold matchAt. by rewrite run_lit. Qed.

(** X1.  The text [escapeRegex] makes of [s], put into a pattern, is the
    pattern of the literal text [s]: it matches [s] where [s] stands, and
    it matches nothing but [s]. *)
Theorem escapeRegex_literal (s : str) :
  parsePattern (escapeRegex s) = Some (Lit s) /\
  (forall prev rest, matchAt noflags (Lit s) prev (s ++ rest) = Some (rest, [])) /\
  (forall prev w cs cs', Matches noflags (Lit s) prev w cs cs' -> w = s).
Proof.
  split; [|split].
  - induction s as [|c s IH]; [done|]. cbn [escapeRegex].
    destruct (isSpecial c) eqn:Hc.
    + cbn [parsePattern]. rewrite Hc, IH. by cbn.
    + destruct (isSpecial_plain c Hc) as [H1 H2].
      cbn [parsePattern]. by rewrite H1, H2, Hc, IH.
  - intros prev rest. apply matchAt_lit.
  - intros prev w cs cs' H. by apply Matches_lit_eq in H as [-> _].
Qed.

(** ** Remapping a destination to the base directory *)

Lemma substitute_plain (f : found) (t : str) :
  "$"%char ∉ t -> substitute f t = t.
Proof.
  induction t as [|c t IH]; [done|]. intros H.
  assert (Hc : c <> "$"%char) by (intros ->; apply H, list_elem_of_here).
  assert (Ht : "$"%char ∉ t) by (intros ?; apply H; by apply list_elem_of_further).
  cbn [substitute]. rewrite IH by done.
  destruct c as [[] [] [] [] [] [] [] []]; try done.
Qed.

Lemma slashes_no_dollar (b : str) : "$"%char ∉ b -> "$"%char ∉ Str.slashes b.
Proof.
  unfold Str.slashes. intros H (c & Hc & Hin)%list_elem_of_fmap. apply H.
  destruct (Str.eqc c "\"%char); [done|]. by subst c.
Qed.

Lemma atBol_start (a : str) :
  atBol noflags (prevAfter None a) = true -> a = [].
Proof.
  unfold prevAfter. destruct (last a) as [c|] eqn:E; [done|].
  intros _. by apply last_None in E.
Qed.

Lemma remapRe_Matches prev w cs :
  Matches noflags remapRe prev w [] cs ->
  atBol noflags prev = true /\ (w = "src/hooks" \/ w = "hooks").
Proof.
  unfold remapRe. cbn [Matches].
  intros (w0 & w1 & cs0 & -> & (-> & Hbol & ->) & H). split; [done|].
  destruct H as (w2 & w3 & cs1 & -> & [H1|[-> ->]] & H2).
  - apply Matches_lit_eq in H1 as [-> ->]. apply Matches_lit_eq in H2 as [-> _].
    by left.
  - apply Matches_lit_eq in H2 as [-> _]. by right.
Qed.

(** X2.  For a base directory without [$]: a destination that starts, after
    its backslashes are made slashes, with [src/hooks] or with [hooks] has
    that start replaced by the base directory (also when it goes on as in
    [hooksmith]); any other destination only has its backslashes made
    slashes. *)
Theorem remapToBaseDir_cases (originalTo baseDir : str) :
  "$"%char ∉ baseDir ->
  (forall rest, Str.slashes originalTo = "src/hooks" ++ rest ->
     remapToBaseDir originalTo baseDir = Str.slashes baseDir ++ rest) /\
  (forall rest, Str.slashes originalTo = "hooks" ++ rest ->
     remapToBaseDir originalTo baseDir = Str.slashes baseDir ++ rest) /\
  (Str.startsWith "src/hooks" (Str.slashes originalTo) = false ->
   Str.startsWith "hooks" (Str.slashes originalTo) = false ->
   remapToBaseDir originalTo baseDir = Str.slashes originalTo).
Proof.
  intros Hb%slashes_no_dollar. unfold remapToBaseDir, replaceFirst, exec.
  split; [|split].
  - intros rest ->.
    erewrite search_here; [by rewrite substitute_plain|].
    unfold matchAt, remapRe. cbn [run atBol].
    change ("src/hooks" ++ rest) with ("src/" ++ "hooks" ++ rest).
    rewrite run_lit. cbv beta. by rewrite run_lit.
  - intros rest ->.
    erewrite search_here; [by rewrite substitute_plain|].
    unfold matchAt, remapRe. cbn [run atBol].
    assert (run noflags (Lit "src/") None ("hooks" ++ rest) []
              (fun prev' s' cs' =>
                 run noflags (Lit "hooks") prev' s' cs'
                   (fun _ s'0 cs0 => Some (s'0, cs0))) = None) as -> by done.
    by rewrite run_lit.
  - intros H1 H2. rewrite search_none; [done|].
    intros a w b' cs E [Hbol Hw]%remapRe_Matches.
    apply atBol_start in Hbol as ->. cbn [app] in E.
    destruct Hw as [-> | ->].
    + assert (Str.startsWith "src/hooks" (Str.slashes originalTo) = true)
        by (apply startsWith_true; eauto). congruence.
    + assert (Str.startsWith "hooks" (Str.slashes originalTo) = true)
        by (apply startsWith_true; eauto). congruence.
Qed.

(** ** Removing the client directive *)

Lemma rep_backtrack {R} fl p prev (w : str) (c : ascii) (rest : str)
    (k : option ascii -> str -> option R) x :
  Forall (fun a => clsMatch fl p a = true) w -> clsMatch fl p c = true ->
  match rest with d :: _ => clsMatch fl p d = false | [] => True end ->
  k (Some c) rest = None ->
  k (prevAfter prev w) (c :: rest) = Some x ->
  rep fl p 0 prev (w ++ c :: rest) k = Some x.
Proof.
  intros Hw Hc Hrest Hfail. revert prev.
  induction Hw as [|a w Ha Hw IH]; intros prev Hk.
  - cbn [app rep]. rewrite Hc. cbn [pred].
    assert (rep fl p 0 (Some c) rest k = None) as ->.
    { destruct rest as [|d rest]; [done|]. cbn [rep]. by rewrite Hrest. }
    by rewrite prevAfter_nil in Hk.
  - cbn [app rep]. rewrite Ha. cbn [pred]. rewrite prevAfter_cons in Hk.
    by rewrite (IH (Some a)).
Qed.

(** What the directive pattern matches: at the very start, white space,
    the quoted words, a semicolon, and white space up to a line feed. *)
Lemma useClientRe_Matches prev w cs :
  Matches noflags useClientRe prev w [] cs ->
  atBol noflags prev = true /\
  exists ws1 q q' ws2,
    spaces ws1 /\ quote q /\ quote q' /\ spaces ws2 /\
    w = ws1 ++ [q] ++ "use client" ++ [q'] ++ ";" ++ ws2 ++ [LF].
Proof.
  unfold useClientRe. cbn [Matches].
  intros (w0 & w1 & cs0 & -> & (-> & Hbol & ->) & H). split; [done|].
  destruct H as (ws1 & w2 & cs1 & -> & (Hws1 & _ & ->) & H).
  destruct H as (w3 & w4 & cs2 & -> & (q & -> & Hq & ->) & H).
  destruct H as (w5 & w6 & cs3 & -> & [-> ->]%Matches_lit_eq & H).
  destruct H as (w7 & w8 & cs4 & -> & (q' & -> & Hq' & ->) & H).
  destruct H as (w9 & w10 & cs5 & -> & (a & -> & Ha & ->) & H).
  destruct H as (ws2 & w11 & cs6 & -> & (Hws2 & _ & ->) & H).
  destruct H as (w12 & w13 & cs7 & -> & Hcr & (b & -> & Hb & ->)).
  apply eqc_true in Ha, Hb. subst a b.
  apply Forall_spaces in Hws1, Hws2.
  destruct Hcr as [(c & -> & Hc & _)|[-> _]].
  - apply eqc_true in Hc. subst c.
    exists ws1, q, q', (ws2 ++ [CR]). split; [done|]. split; [done|].
    split; [done|]. split.
    + unfold spaces in *. rewrite forallb_app, Hws2. done.
    + cbn [app]. by rewrite <- ?app_assoc.
  - exists ws1, q, q', ws2. split; [done|]. split; [done|].
    split; [done|]. split; [done|]. cbn [app]. by rewrite <- ?app_assoc.
Qed.

(** X3.  [removeUseClient] takes a client directive off the start of the
    text: the white space before it, the quoted words [use client], the
    semicolon and all the white space after it up to its last line feed.
    Whatever the text, the result is the text itself or what follows such
    a start; nothing after it is changed. *)
Theorem removeUseClient_spec (src : str) :
  (forall ws1 q q' ws2 rest,
     spaces ws1 -> quote q -> quote q' -> spaces ws2 ->
     match rest with c :: _ => Str.isSpace c = false | [] => True end ->
     removeUseClient
       (ws1 ++ [q] ++ "use client" ++ [q'] ++ ";" ++ ws2 ++ [LF] ++ rest) = rest) /\
  (removeUseClient src = src \/
   exists ws1 q q' ws2,
     spaces ws1 /\ quote q /\ quote q' /\ spaces ws2 /\
     src = ws1 ++ [q] ++ "use client" ++ [q'] ++ ";" ++ ws2 ++ [LF]
           ++ removeUseClient src).
Proof.
  split.
  - intros ws1 q q' ws2 rest Hws1 Hq Hq' Hws2 Hrest.
    unfold removeUseClient, replaceFirst, exec.
    erewrite search_here; [reflexivity|].
    unfold matchAt, useClientRe. cbn [run atBol].
    set (t1 := [q'] ++ ";" ++ ws2 ++ [LF] ++ rest).
    set (t0 := "use client" ++ t1).
    apply rep_greedy; [by apply spaces_Forall | cbn; lia | |].
    { cbn [app]. unfold clsMatch. cbn [ignoreCase noflags]. by apply quote_not_space. }
    cbn [app]. unfold clsMatch at 1. cbn [ignoreCase noflags]. rewrite Hq.
    unfold t0. rewrite run_lit. cbv beta. unfold t1. cbn [app].
    unfold clsMatch at 1. cbn [ignoreCase noflags]. rewrite Hq'.
    assert (chrMatch noflags ";" ";" = true) as -> by done.
    apply rep_backtrack.
    + by apply spaces_Forall.
    + done.
    + destruct rest as [|c rest]; [done|]. unfold clsMatch. by cbn [ignoreCase noflags].
    + destruct rest as [|c rest]; [done|]. cbn [run].
      assert (Hcr : chrMatch noflags CR c = false).
      { unfold chrMatch. cbn [ignoreCase noflags].
        destruct (Str.eqc CR c) eqn:E; [|done]. apply eqc_true in E. by subst c. }
      assert (Hlf : chrMatch noflags LF c = false).
      { unfold chrMatch. cbn [ignoreCase noflags].
        destruct (Str.eqc LF c) eqn:E; [|done]. apply eqc_true in E. by subst c. }
      by rewrite Hcr, Hlf.
    + cbn [run]. done.
  - unfold removeUseClient, replaceFirst, exec.
    destruct (search noflags useClientRe None src) as [f|] eqn:Hs; [|by left].
    right. apply search_sound in Hs as [E [Hbol Hm]%useClientRe_Matches].
    apply atBol_start in Hbol. rewrite Hbol in *. clear Hbol.
    destruct Hm as (ws1 & q & q' & ws2 & H1 & H2 & H3 & H4 & Hw).
    exists ws1, q, q', ws2. split; [done|]. split; [done|]. split; [done|].
    split; [done|]. rewrite E, Hw. cbn [substitute]. rewrite <- !app_assoc. reflexivity.
Qed.

(** ** The configuration file *)

(** What [writeConfig] writes, [readConfig] reads back. *)
Lemma writeConfig_then_read (cfg : ProjectConfig) (s s' : Fs.store) :
  Path.canonical wd ->
  JSON_parse (JSON_stringify (jsonOfConfig cfg) ++ [LF]) = Some (jsonOfConfig cfg) ->
  writeConfig cfg s = (Fs.Ok tt, s') ->
  readConfig s' = Some cfg /\
  Fs.isDir s' (Path.resolve wd [baseDir cfg]) = true /\
  forall q, q <> wd ++ [CONFIG_FILE] ->
            ~ q `prefix_of` Path.resolve wd [baseDir cfg] ->
            Fs.nodeAt s' q = Fs.nodeAt s q.
Proof.
  intros Hwd Hcodec. unfold writeConfig.
  intros ([] & s1 & Hw & Hmk)%bind_ok.
  rewrite configKey in Hw by done.
  unfold ensureDir in Hmk. rewrite key_cwd in Hmk by done.
  set (N := Path.resolve wd [baseDir cfg]) in *.
  set (C := wd ++ [CONFIG_FILE]) in *.
  apply writeFile_inv in Hw as (-> & HC & _ & _).
  pose proof (mkdirp_ok _ _ _ Hmk) as [_ Hfiles].
  assert (HCN : C ∉ Fs.ups N).
  { intros Hin. specialize (Hfiles C Hin). unfold Fs.isFile in Hfiles.
    by rewrite nodeAt_insert, decide_True in Hfiles by done. }
  split; [|split].
  - eapply readConfig_written; [|exact Hcodec]. fold C.
    rewrite (mkdirp_nodeAt _ _ _ _ Hmk), decide_False by done.
    by rewrite nodeAt_insert, decide_True by done.
  - unfold Fs.isDir. rewrite (mkdirp_nodeAt _ _ _ _ Hmk).
    destruct (decide (N = [])) as [->|HN]; [by destruct (decide _)|].
    by rewrite decide_True by by apply ups_self.
  - intros q HqC HqN. rewrite (mkdirp_nodeAt _ _ _ _ Hmk).
    rewrite decide_False by (intros [_ ?]%ups_spec; done).
    rewrite nodeAt_insert by done. by rewrite decide_False.
Qed.

(** X4.  What [writeConfig] writes, [readConfig] reads back: after a
    successful [writeConfig] of [cfg], with a [JSON.parse] that reads what
    [JSON.stringify] wrote for it, [readConfig] returns [cfg]; the base
    directory of [cfg] is there; and nothing changed but the configuration
    file and the directories down to the base directory. *)
Theorem writeConfig_readConfig (cfg : ProjectConfig) (s s' : Fs.store) :
  Path.canonical wd ->
  JSON_parse (JSON_stringify (jsonOfConfig cfg) ++ [LF]) = Some (jsonOfConfig cfg) ->
  writeConfig cfg s = (Fs.Ok tt, s') ->
  readConfig s' = Some cfg /\
  Fs.isDir s' (Path.resolve wd [baseDir cfg]) = true /\
  forall q, q <> wd ++ [CONFIG_FILE] ->
            ~ q `prefix_of` Path.resolve wd [baseDir cfg] ->
            Fs.nodeAt s' q = Fs.nodeAt s q.
Proof. apply writeConfig_then_read. Qed.

Lemma find_first {A} (f : A -> bool) (l : list A) (x : A) :
  find f l = Some x ->
  exists l1 l2, l = l1 ++ x :: l2 /\ f x = true /\ forall y, y ∈ l1 -> f y = false.
Proof.
  induction l as [|a l IH]; [done|]. cbn [find].
  destruct (f a) eqn:E.
  - intros [= ->]. exists [], l. split; [done|]. split; [done|].
    by intros y ?%elem_of_nil.
  - intros (l1 & l2 & -> & Hx & Hl1)%IH. exists (a :: l1), l2.
    split; [done|]. split; [done|]. intros y [->|Hy]%elem_of_cons; auto.
Qed.

(** The directories [findConfig] looks into, from the working directory
    up to the root: each one is shorter than those before it. *)
Lemma upsRev_sorted (r : list str) (l1 l2 : list Path.path) (d : Path.path) :
  Fs.upsRev r ++ [[]] = l1 ++ d :: l2 ->
  length d <= length r /\ forall y, y ∈ l1 -> length d < length y.
Proof.
  revert l1. induction r as [|x r IH]; intros l1 E.
  - cbn [Fs.upsRev app] in E. destruct l1 as [|y l1].
    + injection E as <- _. split; [done|]. by intros y ?%elem_of_nil.
    + injection E as _ E. by destruct l1.
  - cbn [Fs.upsRev app] in E. destruct l1 as [|y l1].
    + injection E as <- _.
      split; [cbn; rewrite ?length_app, ?length_rev; cbn; lia|].
      by intros y ?%elem_of_nil.
    + cbn [app] in E. injection E as <- E. apply IH in E as [Hd Hl1].
      split; [cbn [length]; lia|].
      intros y [->|Hy]%elem_of_cons; [|by apply Hl1].
      cbn. rewrite ?length_app, ?length_rev. cbn. lia.
Qed.

Lemma prefix_in_ups (p d : Path.path) :
  d `prefix_of` p -> d ∈ Fs.ups p ++ [[]].
Proof.
  intros Hd. rewrite elem_of_app, ups_spec, list_elem_of_singleton.
  destruct d; [by right | by left].
Qed.

(** X5.  [findConfig] returns the configuration file of the nearest
    directory, from the working directory upwards, that holds one: it
    returns nothing exactly when no directory above (or at) the working
    directory holds one; and the file it returns is in such a directory,
    exists, and no directory between that one and the working directory
    holds a configuration file. *)
Theorem findConfig_nearest (s : Fs.store) :
  (findConfig s = None <->
   forall d, d `prefix_of` wd -> Fs.existsAt s (d ++ [CONFIG_FILE]) = false) /\
  (forall p, findConfig s = Some p ->
     exists d, d `prefix_of` wd /\ p = d ++ [CONFIG_FILE] /\
       Fs.existsAt s p = true /\
       forall d', d `prefix_of` d' -> d' `prefix_of` wd -> d' <> d ->
                  Fs.existsAt s (d' ++ [CONFIG_FILE]) = false).
Proof.
  unfold findConfig. split.
  - rewrite find_none_iff. split.
    + intros H d Hd. apply H. apply list_elem_of_fmap.
      exists d. split; [done|]. by apply prefix_in_ups.
    + intros H x (d & -> & Hd)%list_elem_of_fmap. apply H.
      apply elem_of_app in Hd as [[_ Hd]%ups_spec|Hd%list_elem_of_singleton];
        [done | subst d; apply prefix_nil].
  - intros p (l1 & l2 & E & Hp & Hl1)%find_first.
    apply fmap_app_inv in E as (k1 & k2' & -> & Ek & E).
    destruct k2' as [|d k2]; [done|]. cbn [fmap list_fmap] in Ek.
    injection Ek as -> ->.
    assert (Hd : d ∈ Fs.ups wd ++ [[]])
      by (rewrite E; apply elem_of_app; right; apply list_elem_of_here).
    exists d. split.
    { apply elem_of_app in Hd as [[_ Hd]%ups_spec|Hd%list_elem_of_singleton];
        [done | subst d; apply prefix_nil]. }
    split; [done|]. split; [done|].
    intros d' Hdd' Hd' Hne. apply Hl1. apply list_elem_of_fmap.
    exists d'. split; [done|].
    pose proof (prefix_in_ups wd d' Hd') as Hin. rewrite E in Hin.
    apply elem_of_app in Hin as [Hin|Hin]; [done|].
    apply elem_of_cons in Hin as [->|Hin]; [done|]. exfalso.
    apply list_elem_of_split in Hin as (k3 & k4 & ->).
    unfold Fs.ups in E.
    assert (E' : Fs.upsRev (rev wd) ++ [[]] = (k1 ++ d :: k3) ++ d' :: k4)
      by (rewrite E; by rewrite <- app_assoc).
    apply upsRev_sorted in E' as [_ Hlt].
    assert (length d' < length d)
      by (apply Hlt, elem_of_app; right; apply list_elem_of_here).
    apply prefix_length in Hdd'. lia.
Qed.

(** ** What the commands leave alone, whatever their outcome *)

Instance frame_refl' (P : Path.path -> Prop) : Reflexive (frame P).
Proof. intros s. apply frame_refl. Qed.

Instance frame_trans' (P : Path.path -> Prop) : Transitive (frame P).
Proof. intros s1 s2 s3. apply frame_trans. Qed.

Instance outside_refl (P : Path.path -> Prop) : Reflexive (outside P).
Proof. by intros s p. Qed.

Instance outside_trans (P : Path.path -> Prop) : Transitive (outside P).
Proof. intros s1 s2 s3 H12 H23 p Hp. by rewrite H23, H12. Qed.

Lemma Preserves_ret R `{!Reflexive R} {A} (a : A) : Preserves R (Fs.ret a).
Proof. intros s r s' [= <- <-]. reflexivity. Qed.

Lemma Preserves_throw R `{!Reflexive R} {A} (e : Fs.error) :
  Preserves R (@Fs.throw A e).
Proof. intros s r s' [= <- <-]. reflexivity. Qed.

Lemma Preserves_fetched R `{!Reflexive R} {A} (url : str) (o : option A) :
  Preserves R (Fs.fetched url o).
Proof. destruct o; [apply Preserves_ret | apply Preserves_throw]; done. Qed.

Lemma Preserves_bind R `{!Transitive R} {A B} (m : Fs.M A) (k : A -> Fs.M B) :
  Preserves R m -> (forall a, Preserves R (k a)) -> Preserves R (Fs.bind m k).
Proof.
  intros Hm Hk s r s'. unfold Fs.bind.
  destruct (m s) as [[a|e] s1] eqn:E.
  - intros H. etrans; [by eapply Hm | by eapply Hk].
  - intros [= <- <-]. by eapply Hm.
Qed.

Lemma Preserves_weaken (R R' : Fs.store -> Fs.store -> Prop) {A} (m : Fs.M A) :
  (forall s s', R s s' -> R' s s') -> Preserves R m -> Preserves R' m.
Proof. intros H Hm s r s' E. by eapply H, Hm. Qed.

Lemma Preserves_read R `{!Reflexive R} {A} (f : Fs.store -> A) :
  Preserves R (fun s => (Fs.Ok (f s), s)).
Proof. intros s r s' [= <- <-]. reflexivity. Qed.

Lemma Preserves_readFile R `{!Reflexive R} (p : Path.path) :
  Preserves R (Fs.readFile p).
Proof.
  intros s r s'. unfold Fs.readFile.
  destruct (Fs.nodeAt s p) as [[c|]|]; intros [= <- <-]; reflexivity.
Qed.

Lemma frame_outside (P : Path.path -> Prop) (s s' : Fs.store) :
  frame P s s' -> outside P s s'.
Proof. intros H p. apply H. Qed.

Lemma Preserves_installFile (registry : Registry) (entry : HookEntry) (meta : Meta)
    (cfg : ProjectConfig) (stripClient : bool) (baseDir : str)
    (options : option InstallOptions) (f : FileDesc) :
  Path.canonical wd ->
  Preserves (frame (touched baseDir [f]))
    (installFile registry entry meta cfg stripClient baseDir options f).
Proof.
  intros Hwd. unfold installFile. fold (destOf baseDir f).
  assert (Hin : f ∈ [f]) by apply list_elem_of_here.
  assert (Hdest : forall p, p = key (destOf baseDir f) -> touched baseDir [f] p).
  { intros p ->. exists f. split; [done|]. by left. }
  destruct (truthy (options ≫= dry)); [by apply Preserves_ret|].
  apply Preserves_bind; [tc_solve | by apply Preserves_fetched |]. intros text.
  apply Preserves_bind; [tc_solve | |].
  { unfold ensureDir. intros s r s' Hmk. apply mkdirp_frame in Hmk.
    eapply frame_weaken; [|exact Hmk]. intros p Hp. exists f. split; [done|]. left.
    unfold destOf in *. rewrite key_dirname_cwd in Hp by done.
    rewrite key_cwd by done. etrans; [exact Hp|].
    destruct (Path.resolve wd [remapToBaseDir (file_to f) baseDir])
      as [|x q _] using rev_ind; [done|].
    rewrite removelast_last. by apply prefix_app_r. }
  intros [].
  apply Preserves_bind; [tc_solve | by apply Preserves_read |]. intros ex.
  apply Preserves_bind; [tc_solve | |].
  { destruct (ex && negb (truthy (options ≫= force))); [|by apply Preserves_ret].
    apply Preserves_bind; [tc_solve | | intros; by apply Preserves_ret].
    intros s r s' Hb. apply backupFile_frame in Hb.
    eapply frame_weaken; [|exact Hb]. intros p ->. exists f. split; [done|]. by right. }
  intros [].
  apply Preserves_bind; [tc_solve | | intros; by apply Preserves_ret].
  intros s r s' Hw. apply writeFile_frame in Hw as [Hw _].
  eapply frame_weaken; [|exact Hw]. intros p Hp. by apply Hdest.
Qed.

Lemma Preserves_installFiles R `{!Reflexive R} `{!Transitive R}
    (body : FileDesc -> Fs.M str) (files : list FileDesc) (last : option str) :
  (forall f, f ∈ files -> Preserves R (body f)) ->
  Preserves R (installFiles body files last).
Proof.
  revert last. induction files as [|f files IH]; intros last H; cbn [installFiles].
  - by apply Preserves_ret.
  - apply Preserves_bind; [done | apply H, list_elem_of_here |].
    intros name. apply IH. intros g Hg. by apply H, list_elem_of_further.
Qed.

Lemma Preserves_updateIndex (baseDir : str) (options : option InstallOptions)
    (name : str) :
  Path.canonical wd ->
  Preserves (frame (fun p => p `prefix_of` Path.resolve wd [baseDir] ++ ["index.ts"]))
    (updateIndex baseDir options name).
Proof.
  intros Hwd. unfold updateIndex.
  destruct (indexKey baseDir Hwd) as [HK HD].
  destruct (truthy (options ≫= dry)); [by apply Preserves_ret|].
  apply Preserves_bind; [tc_solve | by apply Preserves_read |]. intros ex.
  assert (Hw : forall c, Preserves
     (frame (fun p => p `prefix_of` Path.resolve wd [baseDir] ++ ["index.ts"]))
     (Fs.writeFile (key (cwd [baseDir; "index.ts"])) c)).
  { intros c s r s' H. apply writeFile_frame in H as [H _].
    eapply frame_weaken; [|exact H]. intros p ->. by rewrite HK. }
  destruct ex.
  - apply Preserves_bind; [tc_solve | by apply Preserves_readFile |]. intros curr.
    destruct (negb _); [|by apply Preserves_ret].
    intros s r s'. unfold Fs.appendFile.
    destruct (Fs.nodeAt s _) as [[old|]|]; apply Hw.
  - apply Preserves_bind; [tc_solve | | intros; apply Hw].
    unfold ensureDir. rewrite HD. intros s r s' Hmk. apply mkdirp_frame in Hmk.
    eapply frame_weaken; [|exact Hmk]. intros p Hp. by apply prefix_app_r.
Qed.

Lemma bind_ret_l {A B} (a : A) (k : A -> Fs.M B) : Fs.bind (Fs.ret a) k = k a.
Proof. reflexivity. Qed.

(** X6.  Whatever its options and its outcome, [installHook] of a hook
    with the files of [meta] changes nothing but the destinations of these
    files, the directories above them, their backups, and the index with
    the directories above it; and no file disappears or becomes a
    directory. *)
Theorem installHook_frame (hookId baseDir : str) (addIndex : bool)
    (options : option InstallOptions) (registry : Registry) (entry : HookEntry)
    (meta : Meta) (s s' : Fs.store) (r : Fs.result unit) :
  Path.canonical wd ->
  remoteRegistry REGISTRY_URL = Some registry ->
  findHook registry hookId = Some entry ->
  remoteMeta (metaUrl registry entry) = Some meta ->
  installHook hookId baseDir addIndex options s = (r, s') ->
  frame (fun p => touched baseDir (meta_files meta) p \/
                  p `prefix_of` Path.resolve wd [baseDir] ++ ["index.ts"]) s s'.
Proof.
  intros Hwd Hreg Hfind Hmeta. revert s r s'.
  change (Preserves
    (frame (fun p => touched baseDir (meta_files meta) p \/
                     p `prefix_of` Path.resolve wd [baseDir] ++ ["index.ts"]))
    (installHook hookId baseDir addIndex options)).
  unfold installHook, getRegistry, getMeta. rewrite Hreg. unfold Fs.fetched.
  rewrite bind_ret_l, Hfind, Hmeta, bind_ret_l.
  apply Preserves_bind; [tc_solve | by apply Preserves_read |]. intros cfg0.
  apply Preserves_bind; [tc_solve | |].
  - apply Preserves_installFiles; [tc_solve..|]. intros f Hf.
    eapply Preserves_weaken; [|by apply Preserves_installFile].
    intros s s'. apply frame_weaken. intros p Hp. left.
    eapply touched_mono; [|exact Hp]. by intros g ->%list_elem_of_singleton.
  - intros [name|]; [|by apply Preserves_ret].
    destruct (addIndex && nonEmpty name); [|by apply Preserves_ret].
    eapply Preserves_weaken; [|by apply Preserves_updateIndex].
    intros s s'. apply frame_weaken. intros p Hp. by right.
Qed.

Lemma Preserves_unlink (p : Path.path) :
  Preserves (outside (fun q => q = p)) (Fs.unlink p).
Proof.
  intros s r s'. unfold Fs.unlink.
  destruct (Fs.nodeAt s p) as [[c|]|] eqn:E; intros [= <- <-]; try reflexivity.
  assert (p <> []) by by eapply nodeAt_nonroot.
  intros q Hq. rewrite nodeAt_delete by done. by rewrite decide_False by congruence.
Qed.

Lemma Preserves_writeFile (p : Path.path) (c : str) :
  Preserves (outside (fun q => q = p)) (Fs.writeFile p c).
Proof.
  intros s r s' H. apply writeFile_frame in H as [H _]. by apply frame_outside.
Qed.

Lemma Preserves_pruneIndex (baseDir base idx : str) :
  Preserves (outside (fun q => q = key (cwd [baseDir; idx])))
    (pruneIndex baseDir base idx).
Proof.
  unfold pruneIndex.
  apply Preserves_bind; [tc_solve | by apply Preserves_read |]. intros ex.
  destruct (negb ex); [by apply Preserves_ret|].
  apply Preserves_bind; [tc_solve | by apply Preserves_readFile |]. intros curr.
  destruct (parsePattern base) as [rb|]; [|by apply Preserves_throw].
  destruct (exec _ _ curr); [apply Preserves_writeFile | by apply Preserves_ret].
Qed.

Lemma Preserves_forEach R `{!Reflexive R} `{!Transitive R} {A}
    (body : A -> Fs.M unit) (l : list A) :
  (forall a, a ∈ l -> Preserves R (body a)) -> Preserves R (forEach body l).
Proof.
  induction l as [|a l IH]; intros H; cbn [forEach].
  - by apply Preserves_ret.
  - apply Preserves_bind; [done | apply H, list_elem_of_here |].
    intros _. apply IH. intros b Hb. by apply H, list_elem_of_further.
Qed.

Lemma outside_weaken (P Q : Path.path -> Prop) (s s' : Fs.store) :
  (forall p, P p -> Q p) -> outside P s s' -> outside Q s s'.
Proof. intros HPQ H p Hp. apply H. auto. Qed.

(** X7.  Whatever its outcome (base names outside the modelled pattern
    fragment apart), [cmdRemove] of a hook with the files of [meta]
    changes nothing but the destinations of these files and the two index
    files of the base directory. *)
Theorem cmdRemove_outside (hookId : str) (opts : option CmdOptions)
    (registry : Registry) (entry : HookEntry) (meta : Meta)
    (s s' : Fs.store) (r : Fs.result unit) :
  let bd := orElse (opts ≫= opt_baseDir)
                   (orElse (baseDir <$> readConfig s) "src/hooks") in
  Path.canonical wd ->
  remoteRegistry REGISTRY_URL = Some registry ->
  findHook registry hookId = Some entry ->
  remoteMeta (metaUrl registry entry) = Some meta ->
  cmdRemove hookId opts s = (r, s') ->
  r <> Fs.Err Fs.Unmodelled ->
  outside (fun p => p ∈ map (fun f => key (destOf bd f)) (meta_files meta) \/
                    p = Path.resolve wd [bd] ++ ["index.ts"] \/
                    p = Path.resolve wd [bd] ++ ["index.js"]) s s'.
Proof.
  intros bd Hwd Hreg Hfind Hmeta Hrun _. revert Hrun.
  unfold cmdRemove, getConfig, getRegistry, getMeta.
  unfold Fs.bind at 1. fold bd. rewrite Hreg. unfold Fs.fetched.
  rewrite bind_ret_l, Hfind, Hmeta, bind_ret_l.
  apply Preserves_forEach; [tc_solve..|]. intros f Hf.
  unfold removeFile. fold (destOf bd f).
  apply Preserves_bind; [tc_solve | by apply Preserves_read |]. intros ex.
  apply Preserves_bind; [tc_solve | |].
  { destruct ex; [|by apply Preserves_ret].
    eapply Preserves_weaken; [|apply Preserves_unlink].
    intros t t'. apply outside_weaken. intros p ->. left.
    apply list_elem_of_fmap. by exists f. }
  intros [].
  apply Preserves_bind; [tc_solve | |].
  { eapply Preserves_weaken; [|apply Preserves_pruneIndex].
    intros t t'. apply outside_weaken. intros p ->. right. left.
    by destruct (indexKey bd Hwd) as [-> _]. }
  intros [].
  eapply Preserves_weaken; [|apply Preserves_pruneIndex].
  intros t t'. apply outside_weaken. intros p ->. right. right.
  by apply indexJsKey.
Qed.

Lemma pruneIndex_quiet (baseDir b idx : str) (s : Fs.store) :
  indexQuiet s (key (cwd [baseDir; idx])) [b] ->
  pruneIndex baseDir b idx s = (Fs.Ok tt, s).
Proof.
  unfold indexQuiet. intros H.
  destruct (Fs.nodeAt s _) as [[J|]|] eqn:E; [|done|].
  - destruct (H b) as [Hp Hx]; [apply list_elem_of_here|].
    rewrite (pruneIndex_file baseDir b idx s J) by done.
    unfold exec. by rewrite remove_absent.
  - by apply pruneIndex_absent.
Qed.

Lemma indexQuiet_mono (s : Fs.store) (p : Path.path) (l1 l2 : list str) :
  l1 ⊆ l2 -> indexQuiet s p l2 -> indexQuiet s p l1.
Proof.
  unfold indexQuiet. intros Hl. destruct (Fs.nodeAt s p) as [[c|]|]; [|done..].
  intros H b Hb. by apply H, Hl.
Qed.

(** X8.  Removing a hook that is not installed changes nothing: when none
    of the destinations of the hook's files exists, and the index files,
    where they exist, do not hold the export statement of any of their
    base names, [cmdRemove] succeeds and leaves the store as it is. *)
Theorem cmdRemove_not_installed (hookId : str) (opts : option CmdOptions)
    (registry : Registry) (entry : HookEntry) (meta : Meta) (s : Fs.store) :
  let bd := orElse (opts ≫= opt_baseDir)
                   (orElse (baseDir <$> readConfig s) "src/hooks") in
  let bases := map (fun f => fileBaseName (destOf bd f)) (meta_files meta) in
  Path.canonical wd ->
  remoteRegistry REGISTRY_URL = Some registry ->
  findHook registry hookId = Some entry ->
  remoteMeta (metaUrl registry entry) = Some meta ->
  (forall f, f ∈ meta_files meta -> Fs.existsAt s (key (destOf bd f)) = false) ->
  indexQuiet s (Path.resolve wd [bd] ++ ["index.ts"]) bases ->
  indexQuiet s (Path.resolve wd [bd] ++ ["index.js"]) bases ->
  cmdRemove hookId opts s = (Fs.Ok tt, s).
Proof.
  intros bd bases Hwd Hreg Hfind Hmeta Hnone Hts Hjs.
  unfold cmdRemove, getConfig, getRegistry, getMeta.
  unfold Fs.bind at 1. fold bd. rewrite Hreg. unfold Fs.fetched.
  rewrite bind_ret_l, Hfind, Hmeta, bind_ret_l.
  destruct (indexKey bd Hwd) as [HK _]. pose proof (indexJsKey bd Hwd) as HKj.
  unfold bases in *. clear bases.
  induction (meta_files meta) as [|f files IH]; [done|].
  cbn [forEach]. unfold Fs.bind at 1.
  assert (removeFile bd f s = (Fs.Ok tt, s)) as ->.
  { unfold removeFile, Fs.bind, existsSync. fold (destOf bd f).
    rewrite Hnone by apply list_elem_of_here. unfold Fs.ret at 1.
    rewrite !pruneIndex_quiet; [done | |].
    - rewrite HKj. eapply indexQuiet_mono; [|exact Hjs].
      intros b ->%list_elem_of_singleton. apply list_elem_of_here.
    - rewrite HK. eapply indexQuiet_mono; [|exact Hts].
      intros b ->%list_elem_of_singleton. apply list_elem_of_here. }
  apply IH.
  - intros g Hg. by apply Hnone, list_elem_of_further.
  - eapply indexQuiet_mono; [|exact Hts]. intros b Hb. by apply list_elem_of_further.
  - eapply indexQuiet_mono; [|exact Hjs]. intros b Hb. by apply list_elem_of_further.
Qed.

(** ** Reading back the version of an installed file *)

Lemma installFile_written (registry : Registry) (entry : HookEntry) (meta : Meta)
    (cfg : ProjectConfig) (stripClient : bool) (baseDir : str)
    (o : InstallOptions) (g : FileDesc) (s s' : Fs.store) (name : str) :
  Path.canonical wd -> truthy (dry o) = false ->
  installFile registry entry meta cfg stripClient baseDir (Some o) g s
    = (Fs.Ok name, s') ->
  (exists rest,
     Fs.nodeAt s' (key (destOf baseDir g)) =
     Some (Fs.File (header (meta_id meta) (meta_version meta) (reg_version registry)
                    ++ rest))) /\
  (forall p c, p <> key (destOf baseDir g) ->
     p <> key (destOf baseDir g ++ ".bak") ->
     Fs.nodeAt s p = Some (Fs.File c) -> Fs.nodeAt s' p = Some (Fs.File c)).
Proof.
  intros Hwd Hdry. unfold installFile. fold (destOf baseDir g).
  set (dest := destOf baseDir g). cbn [mbind option_bind]. rewrite Hdry.
  intros (text & s1 & Ht & H)%bind_ok.
  assert (s1 = s) as ->.
  { unfold getText, Fs.fetched, Fs.ret, Fs.throw in Ht.
    destruct (remoteText _); by simplify_eq. }
  apply bind_ok in H as ([] & s2 & Hmk & H).
  apply bind_ok in H as (ex & s3 & Hex & H).
  unfold existsSync in Hex. injection Hex as <- <-.
  apply bind_ok in H as ([] & s4 & Hbk & H).
  apply bind_ok in H as ([] & s5 & Hw & H).
  unfold Fs.ret in H. injection H as <- <-.
  apply writeFile_inv in Hw as (-> & Hne & _ & _).
  split.
  - eexists. by rewrite nodeAt_insert, decide_True by done.
  - intros p c Hpd Hpb Hp.
    rewrite nodeAt_insert by done. rewrite decide_False by done.
    assert (H2 : Fs.nodeAt s2 p = Some (Fs.File c)).
    { unfold ensureDir in Hmk. rewrite (mkdirp_nodeAt _ _ _ _ Hmk).
      apply mkdirp_ok in Hmk as [_ Hf].
      destruct (decide _) as [Hin|_]; [|done].
      specialize (Hf p Hin). unfold Fs.isFile in Hf. by rewrite Hp in Hf. }
    destruct (Fs.existsAt s2 (key dest) && negb (truthy (force o))).
    + apply bind_ok in Hbk as (b & s6 & Hb & Hr). unfold Fs.ret in Hr.
      injection Hr as <-. apply backupFile_frame in Hb.
      by rewrite (proj2 (Hb p)).
    + unfold Fs.ret in Hbk. by injection Hbk as <-.
Qed.

Lemma installFiles_written (registry : Registry) (entry : HookEntry) (meta : Meta)
    (cfg : ProjectConfig) (stripClient : bool) (baseDir : str)
    (o : InstallOptions) (files : list FileDesc) (last : option str)
    (s s' : Fs.store) (r : option str) :
  Path.canonical wd -> truthy (dry o) = false ->
  let hdr := header (meta_id meta) (meta_version meta) (reg_version registry) in
  let Headed := fun t p => exists rest, Fs.nodeAt t p = Some (Fs.File (hdr ++ rest)) in
  let notBak := fun p => forall g, g ∈ files -> p <> key (destOf baseDir g ++ ".bak") in
  installFiles (installFile registry entry meta cfg stripClient baseDir (Some o))
    files last s = (Fs.Ok r, s') ->
  (forall p, Headed s p -> notBak p -> Headed s' p) /\
  (forall f, f ∈ files -> notBak (key (destOf baseDir f)) ->
     Headed s' (key (destOf baseDir f))).
Proof.
  intros Hwd Hdry hdr Headed. revert last s.
  induction files as [|g files IH]; intros last s notBak; cbn [installFiles].
  - unfold Fs.ret. intros [= <- <-]. split; [done|]. by intros f ?%elem_of_nil.
  - intros (name & s1 & Hg & H)%bind_ok.
    apply installFile_written in Hg as (Hd & Hkeep); [|done..].
    apply IH in H as (IH1 & IH2).
    assert (Hstep : forall p, Headed s p -> notBak p -> Headed s1 p).
    { intros p [rest Hp] Hnb.
      destruct (decide (p = key (destOf baseDir g))) as [->|Hne]; [exact Hd|].
      exists rest. apply Hkeep; [done | apply Hnb, list_elem_of_here | done]. }
    assert (Hsub : forall p, notBak p ->
              forall g', g' ∈ files -> p <> key (destOf baseDir g' ++ ".bak")).
    { intros p Hnb g' Hg'. by apply Hnb, list_elem_of_further. }
    split.
    + intros p Hp Hnb. apply IH1; [by apply Hstep | by apply Hsub].
    + intros f [->|Hf]%elem_of_cons Hnb.
      * apply IH1; [exact Hd | by apply Hsub].
      * apply IH2; [done | by apply Hsub].
Qed.

(** The header of an installed file is read back. *)
Lemma installHook_header (hookId_ baseDir : str) (addIndex : bool)
    (o : InstallOptions) (registry : Registry) (entry : HookEntry) (meta : Meta)
    (s s' : Fs.store) (f : FileDesc) (d1 d2 d3 : str) :
  Path.canonical wd ->
  remoteRegistry REGISTRY_URL = Some registry ->
  findHook registry hookId_ = Some entry ->
  remoteMeta (metaUrl registry entry) = Some meta ->
  truthy (dry o) = false ->
  installHook hookId_ baseDir addIndex (Some o) s = (Fs.Ok tt, s') ->
  hookId (meta_id meta) -> digits d1 -> digits d2 -> digits d3 ->
  orElse (meta_version meta) "0.0.0" = version d1 d2 d3 ->
  length ("/* Installed via wkkkis-hooks | hook:" ++ meta_id meta ++ "@" ++
          version d1 d2 d3) <= 2048 ->
  f ∈ meta_files meta ->
  (forall g, g ∈ meta_files meta ->
     key (destOf baseDir f) <> key (destOf baseDir g ++ ".bak")) ->
  ~ key (destOf baseDir f) `prefix_of` Path.resolve wd [baseDir] ++ ["index.ts"] ->
  parseLocalHookVersion (destOf baseDir f) s' =
  (Fs.Ok {| lv_id := Some (meta_id meta); lv_version := Some (version d1 d2 d3) |},
   s').
Proof.
  intros Hwd Hreg Hfind Hmeta Hdry Hinst Hid H1 H2 H3 Hv Hlen Hf Hbak Hidx.
  unfold installHook, getRegistry, getMeta in Hinst. rewrite Hreg in Hinst.
  unfold Fs.fetched in Hinst. rewrite bind_ret_l, Hfind, Hmeta, bind_ret_l in Hinst.
  apply bind_ok in Hinst as (cfg0 & s0 & Hc & Hinst).
  unfold getConfig in Hc. injection Hc as <- <-.
  apply bind_ok in Hinst as (lastName & s1 & Hfiles & Hindex).
  apply installFiles_written in Hfiles as [_ Hw]; [|done..].
  destruct (Hw f Hf Hbak) as [rest Hrest].
  assert (Hkeep : Fs.nodeAt s' (key (destOf baseDir f)) =
                  Fs.nodeAt s1 (key (destOf baseDir f))).
  { destruct lastName as [name|].
    - destruct (addIndex && nonEmpty name).
      + apply Preserves_updateIndex in Hindex; [|done]. by apply (Hindex _).
      + unfold Fs.ret in Hindex. by injection Hindex as <-.
    - unfold Fs.ret in Hindex. by injection Hindex as <-. }
  rewrite <- Hkeep in Hrest.
  unfold parseLocalHookVersion, existsSync, Fs.bind, Fs.existsAt.
  rewrite Hrest. cbn [negb]. unfold Fs.readFile. rewrite Hrest. unfold Fs.ret.
  do 2 f_equal.
  assert (Hh : header (meta_id meta) (meta_version meta) (reg_version registry) =
               header (meta_id meta) (Some (version d1 d2 d3)) (reg_version registry)).
  { unfold header. cbn [orElse]. by rewrite Hv. }
  rewrite Hh. by apply decode_header.
Qed.

(** X9.  After a successful install (not a dry run) of a hook whose id is
    made of letters, digits and hyphens and whose version is three runs of
    digits (or is missing, and then counts as 0.0.0), with a header that
    fits into the first 2048 characters, [parseLocalHookVersion] reads the
    id and the version of the hook back from each destination that is
    neither the backup path of a destination nor at or above the index. *)
Theorem install_then_version (hookId_ baseDir : str) (addIndex : bool)
    (o : InstallOptions) (registry : Registry) (entry : HookEntry) (meta : Meta)
    (s s' : Fs.store) (f : FileDesc) (d1 d2 d3 : str) :
  Path.canonical wd ->
  remoteRegistry REGISTRY_URL = Some registry ->
  findHook registry hookId_ = Some entry ->
  remoteMeta (metaUrl registry entry) = Some meta ->
  truthy (dry o) = false ->
  installHook hookId_ baseDir addIndex (Some o) s = (Fs.Ok tt, s') ->
  hookId (meta_id meta) -> digits d1 -> digits d2 -> digits d3 ->
  orElse (meta_version meta) "0.0.0" = version d1 d2 d3 ->
  length ("/* Installed via wkkkis-hooks | hook:" ++ meta_id meta ++ "@" ++
          version d1 d2 d3) <= 2048 ->
  f ∈ meta_files meta ->
  (forall g, g ∈ meta_files meta ->
     key (destOf baseDir f) <> key (destOf baseDir g ++ ".bak")) ->
  ~ key (destOf baseDir f) `prefix_of` Path.resolve wd [baseDir] ++ ["index.ts"] ->
  parseLocalHookVersion (destOf baseDir f) s' =
  (Fs.Ok {| lv_id := Some (meta_id meta); lv_version := Some (version d1 d2 d3) |},
   s').
Proof. apply installHook_header. Qed.

(** ** Versions with fewer or more than three components *)

Lemma cmpLoop_ext (pa pa' pb pb' : list number) (i n : nat) :
  (forall j, i <= j < i + n -> orZero (pa !! j) = orZero (pa' !! j)) ->
  (forall j, i <= j < i + n -> orZero (pb !! j) = orZero (pb' !! j)) ->
  cmpLoop pa pb i n = cmpLoop pa' pb' i n.
Proof.
  revert i. induction n as [|n IH]; intros i Ha Hb; [done|].
  cbn [cmpLoop]. rewrite (Ha i), (Hb i) by lia.
  rewrite (IH (S i)); [done | |]; intros j Hj; [apply Ha | apply Hb]; lia.
Qed.

Lemma orZero_three (x1 x2 x3 : number) (rest : list number) (j : nat) :
  j < 3 -> orZero ((x1 :: x2 :: x3 :: rest) !! j) = orZero ([x1; x2; x3] !! j).
Proof. intros Hj. by destruct j as [|[|[|j]]]; [..|lia]. Qed.

Lemma toNumber_zero : toNumber "0" = Num 0.
Proof. reflexivity. Qed.

(** X10.  In [cmpSemver] a missing component counts as zero and the
    components after the third are not looked at: a version of one or two
    runs of digits compares, on either side, as the version filled up with
    zeros, and a version with further components as its first three. *)
Theorem cmpSemver_components (a1 a2 a3 x b : str) :
  component a1 -> component a2 -> component a3 ->
  (cmpSemver a1 b = cmpSemver (version a1 "0" "0") b /\
   cmpSemver b a1 = cmpSemver b (version a1 "0" "0")) /\
  (cmpSemver (a1 ++ "." ++ a2) b = cmpSemver (version a1 a2 "0") b /\
   cmpSemver b (a1 ++ "." ++ a2) = cmpSemver b (version a1 a2 "0")) /\
  (cmpSemver (version a1 a2 a3 ++ "." ++ x) b = cmpSemver (version a1 a2 a3) b /\
   cmpSemver b (version a1 a2 a3 ++ "." ++ x) = cmpSemver b (version a1 a2 a3)).
Proof.
  intros [H1 _] [H2 _] [H3 _].
  pose proof (digits_no_dot _ H1) as D1. pose proof (digits_no_dot _ H2) as D2.
  pose proof (digits_no_dot _ H3) as D3.
  assert (E1 : Str.split "."%char a1 = [a1]) by by apply split_plain.
  assert (E2 : Str.split "."%char (a1 ++ "." ++ a2) = [a1; a2]).
  { cbn [app]. rewrite split_app by done. by rewrite split_plain. }
  assert (E4 : Str.split "."%char (version a1 a2 a3 ++ "." ++ x) =
               a1 :: a2 :: a3 :: Str.split "."%char x).
  { unfold version. rewrite <- !app_assoc. cbn [app].
    by rewrite !split_app by done. }
  assert (Ez1 : Str.split "."%char (version a1 "0" "0") = [a1; "0"; "0"])
    by by apply split_version.
  assert (Ez2 : Str.split "."%char (version a1 a2 "0") = [a1; a2; "0"])
    by by apply split_version.
  assert (E3 : Str.split "."%char (version a1 a2 a3) = [a1; a2; a3])
    by by apply split_version.
  unfold cmpSemver. rewrite E1, E2, E4, Ez1, Ez2, E3. cbn [map].
  rewrite toNumber_zero.
  repeat split; apply cmpLoop_ext; intros j Hj; try done;
    try (by destruct j as [|[|[|j]]]; [..|lia]);
    apply orZero_three; lia.
Qed.

(** ** What a successful install establishes *)

(** The destinations and the index after a successful install. *)
Lemma installHook_written (hookId_ baseDir : str) (addIndex : bool)
    (o : InstallOptions) (registry : Registry) (entry : HookEntry) (meta : Meta)
    (s s' : Fs.store) :
  let IP := Path.resolve wd [baseDir] ++ ["index.ts"] in
  Path.canonical wd ->
  remoteRegistry REGISTRY_URL = Some registry ->
  findHook registry hookId_ = Some entry ->
  remoteMeta (metaUrl registry entry) = Some meta ->
  truthy (dry o) = false ->
  installHook hookId_ baseDir addIndex (Some o) s = (Fs.Ok tt, s') ->
  (forall f, f ∈ meta_files meta ->
     Fs.isFile s' (key (destOf baseDir f)) = true) /\
  (forall front l,
     addIndex = true -> meta_files meta = front ++ [l] ->
     fileBaseName (destOf baseDir l) <> [] ->
     ~ touched baseDir (meta_files meta) IP ->
     Fs.nodeAt s' IP =
     Some (Fs.File
             match Fs.nodeAt s IP with
             | Some (Fs.File c) =>
                 if Str.includes (exportLine (fileBaseName (destOf baseDir l))) c
                 then c
                 else c ++ exportLine (fileBaseName (destOf baseDir l))
             | _ => exportLine (fileBaseName (destOf baseDir l))
             end)).
Proof.
  intros IP Hwd Hreg Hfind Hmeta Hdry Hinst.
  unfold installHook, getRegistry, getMeta in Hinst. rewrite Hreg in Hinst.
  unfold Fs.fetched in Hinst. rewrite bind_ret_l, Hfind, Hmeta, bind_ret_l in Hinst.
  apply bind_ok in Hinst as (cfg0 & s0 & Hc & Hinst).
  unfold getConfig in Hc. injection Hc as <- <-.
  apply bind_ok in Hinst as (lastName & s1 & Hfiles & Hindex).
  apply installFiles_frame in Hfiles as (F & Hdests & Hlast); [|done..].
  split.
  - intros f Hf. specialize (Hdests f Hf).
    destruct lastName as [name|]; [destruct (addIndex && nonEmpty name)|].
    + apply Preserves_updateIndex in Hindex; [|done]. by apply (Hindex _).
    + unfold Fs.ret in Hindex. by injection Hindex as <-.
    + unfold Fs.ret in Hindex. by injection Hindex as <-.
  - intros front l -> Hfiles Hne HnT.
    rewrite Hfiles, fold_left_app in Hlast. cbn [fold_left] in Hlast. subst lastName.
    assert (nonEmpty (fileBaseName (destOf baseDir l)) = true) as Hn
      by by destruct (fileBaseName (destOf baseDir l)).
    rewrite Hn in Hindex. cbn [andb] in Hindex.
    apply updateIndex_result in Hindex as (c1 & Hc1 & _ & ->); [|done..].
    destruct (indexKey baseDir Hwd) as [HK _]. rewrite HK in *. fold IP in Hc1 |- *.
    rewrite Hc1. by rewrite (proj2 (F IP)).
Qed.

(** X11.  After a successful install (not a dry run) every destination of
    the hook is a file; and with the index maintained, [index.ts] holds
    what it held before and, if that text was not in it yet, the export
    line of the last file of the hook only (the index is created with
    that line when it was not there), provided the index is no
    destination, backup or directory above a destination. *)
Theorem installHook_result (hookId_ baseDir : str) (addIndex : bool)
    (o : InstallOptions) (registry : Registry) (entry : HookEntry) (meta : Meta)
    (s s' : Fs.store) :
  let IP := Path.resolve wd [baseDir] ++ ["index.ts"] in
  Path.canonical wd ->
  remoteRegistry REGISTRY_URL = Some registry ->
  findHook registry hookId_ = Some entry ->
  remoteMeta (metaUrl registry entry) = Some meta ->
  truthy (dry o) = false ->
  installHook hookId_ baseDir addIndex (Some o) s = (Fs.Ok tt, s') ->
  (forall f, f ∈ meta_files meta ->
     Fs.isFile s' (key (destOf baseDir f)) = true) /\
  (forall front l,
     addIndex = true -> meta_files meta = front ++ [l] ->
     fileBaseName (destOf baseDir l) <> [] ->
     ~ touched baseDir (meta_files meta) IP ->
     Fs.nodeAt s' IP =
     Some (Fs.File
             match Fs.nodeAt s IP with
             | Some (Fs.File c) =>
                 if Str.includes (exportLine (fileBaseName (destOf baseDir l))) c
                 then c
                 else c ++ exportLine (fileBaseName (destOf baseDir l))
             | _ => exportLine (fileBaseName (destOf baseDir l))
             end)).
Proof. apply installHook_written. Qed.

(** ** The base name of a destination *)

Lemma no_dot_forallb (e : str) : "."%char ∉ e -> forallb Path.notDot e = true.
Proof.
  intros H. apply forallb_forall. intros c Hc%list_elem_of_In.
  unfold Path.notDot. destruct (Str.eqc c "."%char) eqn:E; [|done].
  apply eqc_true in E. by subst c.
Qed.

(** The base name of a rendered path, by the shape of its last segment. *)
Lemma fileBaseName_cases (q : Path.path) (n e : str) :
  "."%char ∉ e ->
  (Path.canonical (q ++ [n ++ "." ++ e]) -> n <> [] ->
   fileBaseName (Path.render (q ++ [n ++ "." ++ e])) = n) /\
  (Path.canonical (q ++ [e]) ->
   fileBaseName (Path.render (q ++ [e])) = e) /\
  (Path.canonical (q ++ ["." ++ e]) ->
   fileBaseName (Path.render (q ++ ["." ++ e])) = "." ++ e).
Proof.
  intros He%no_dot_forallb.
  assert (Hre : forallb Path.notDot (rev e) = true) by by rewrite forallb_rev.
  unfold fileBaseName, Path.parseName. split; [|split].
  - intros Hc Hn. rewrite basename_render by done.
    rewrite !rev_app_distr. cbn [rev app]. rewrite <- !app_assoc. cbn [app].
    rewrite dropWhile_app_stop, takeWhile_app_stop by done.
    destruct (rev n) as [|c r] eqn:E.
    { apply (f_equal (@rev ascii)) in E. rewrite rev_involutive in E. done. }
    assert (Hn' : n = rev (c :: r)) by (rewrite <- E; by rewrite rev_involutive).
    destruct (Str.eqs (c :: r) "") eqn:E1; [done|].
    destruct (Str.eqs (c :: r) "." && Str.eqs (rev e) "") eqn:E2; [|done].
    exfalso. apply andb_prop in E2 as [E2 E3].
    apply eqs_true in E2, E3. apply canonical_snoc in Hc as [_ Hs].
    apply okSeg_inv in Hs as (_ & _ & Hdd & _). apply Hdd.
    rewrite Hn', E2. apply (f_equal (@rev ascii)) in E3.
    rewrite rev_involutive in E3. by rewrite E3.
  - intros Hc. rewrite basename_render by done.
    by rewrite dropWhile_all.
  - intros Hc. rewrite basename_render by done.
    rewrite !rev_app_distr. cbn [rev app].
    by rewrite dropWhile_app_stop by done.
Qed.

(** X12.  [fileBaseName] of a destination is its last segment without its
    last extension: [name.ext] gives [name] (also when [name] has dots of
    its own), a segment without a dot gives the segment, and a segment
    that only starts with a dot gives the segment. *)
Theorem fileBaseName_segment (q : Path.path) (n e : str) :
  "."%char ∉ e ->
  (Path.canonical (q ++ [n ++ "." ++ e]) -> n <> [] ->
   fileBaseName (Path.render (q ++ [n ++ "." ++ e])) = n) /\
  (Path.canonical (q ++ [e]) ->
   fileBaseName (Path.render (q ++ [e])) = e) /\
  (Path.canonical (q ++ ["." ++ e]) ->
   fileBaseName (Path.render (q ++ ["." ++ e])) = "." ++ e).
Proof. apply fileBaseName_cases. Qed.

(** ** The preset *)

Lemma Preserves_installFile_force (registry : Registry) (entry : HookEntry)
    (meta : Meta) (cfg : ProjectConfig) (stripClient : bool) (baseDir : str)
    (o : InstallOptions) (f : FileDesc) :
  Path.canonical wd -> truthy (force o) = true ->
  Preserves (frame (fun p => p `prefix_of` key (destOf baseDir f)))
    (installFile registry entry meta cfg stripClient baseDir (Some o) f).
Proof.
  intros Hwd Hforce. unfold installFile. fold (destOf baseDir f).
  cbn [mbind option_bind]. rewrite Hforce. cbn [negb].
  destruct (truthy (dry o)); [by apply Preserves_ret|].
  apply Preserves_bind; [tc_solve | by apply Preserves_fetched |]. intros text.
  apply Preserves_bind; [tc_solve | |].
  { unfold ensureDir. intros s r s' Hmk. apply mkdirp_frame in Hmk.
    eapply frame_weaken; [|exact Hmk]. intros p Hp.
    unfold destOf in *. rewrite key_dirname_cwd in Hp by done.
    rewrite key_cwd by done. etrans; [exact Hp|].
    destruct (Path.resolve wd [remapToBaseDir (file_to f) baseDir])
      as [|x q _] using rev_ind; [done|].
    rewrite removelast_last. by apply prefix_app_r. }
  intros [].
  apply Preserves_bind; [tc_solve | by apply Preserves_read |]. intros ex.
  rewrite andb_false_r.
  apply Preserves_bind; [tc_solve | by apply Preserves_ret |]. intros [].
  apply Preserves_bind; [tc_solve | | intros; by apply Preserves_ret].
  intros s r s' Hw. apply writeFile_frame in Hw as [Hw _].
  eapply frame_weaken; [|exact Hw]. by intros p ->.
Qed.

Lemma Preserves_bind_throw R `{!Reflexive R} {A B} (e : Fs.error)
    (k : A -> Fs.M B) :
  Preserves R (Fs.bind (Fs.throw e) k).
Proof. intros s r s' [= <- <-]. reflexivity. Qed.

Lemma Preserves_installHook_force (h baseDir : str) (addIndex : bool)
    (o : InstallOptions) :
  Path.canonical wd -> truthy (force o) = true ->
  Preserves (frame (forcedScope baseDir h))
    (installHook h baseDir addIndex (Some o)).
Proof.
  intros Hwd Hforce. unfold installHook, getRegistry, getMeta.
  destruct (remoteRegistry REGISTRY_URL) as [registry|] eqn:Hreg;
    [|by apply Preserves_bind_throw].
  unfold Fs.fetched at 1. rewrite bind_ret_l.
  destruct (findHook registry h) as [entry|] eqn:Hfind; [|by apply Preserves_throw].
  destruct (remoteMeta (metaUrl registry entry)) as [meta|] eqn:Hmeta;
    [|by apply Preserves_bind_throw].
  unfold Fs.fetched. rewrite bind_ret_l.
  assert (Hscope : forall p,
    (exists f, f ∈ meta_files meta /\ p `prefix_of` key (destOf baseDir f)) \/
     p `prefix_of` Path.resolve wd [baseDir] ++ ["index.ts"] ->
    forcedScope baseDir h p).
  { intros p Hp. exists registry, entry, meta. done. }
  apply Preserves_bind; [tc_solve | by apply Preserves_read |]. intros cfg0.
  apply Preserves_bind; [tc_solve | |].
  - apply Preserves_installFiles; [tc_solve..|]. intros f Hf.
    eapply Preserves_weaken; [|by apply Preserves_installFile_force].
    intros s s'. apply frame_weaken. intros p Hp. apply Hscope. left. eauto.
  - intros [name|]; [|by apply Preserves_ret].
    destruct (addIndex && nonEmpty name); [|by apply Preserves_ret].
    eapply Preserves_weaken; [|by apply Preserves_updateIndex].
    intros s s'. apply frame_weaken. intros p Hp. apply Hscope. by right.
Qed.

(** A loop that succeeds has run its body on every element in turn. *)
Lemma forEach_ok {A} (body : A -> Fs.M unit) (l : list A) (s s' : Fs.store) :
  forEach body l s = (Fs.Ok tt, s') ->
  forall front h back, l = front ++ h :: back ->
    exists t t1,
      forEach body front s = (Fs.Ok tt, t) /\ body h t = (Fs.Ok tt, t1) /\
      forEach body back t1 = (Fs.Ok tt, s').
Proof.
  intros H front. revert l s H.
  induction front as [|a front IH]; intros l s H h back ->; cbn [app forEach] in H.
  - apply bind_ok in H as ([] & t1 & Hb & Hrest). exists s, t1. done.
  - apply bind_ok in H as ([] & s1 & Hb & Hrest).
    destruct (IH _ _ Hrest h back eq_refl) as (t & t1 & Hf & Hh & Hk).
    exists t, t1. split; [|done]. cbn [forEach]. unfold Fs.bind. by rewrite Hb.
Qed.

(** A loop that fails has failed in the body on one element, after the
    body succeeded on those before it. *)
Lemma forEach_err {A} (body : A -> Fs.M unit) (l : list A) (s s' : Fs.store) e :
  forEach body l s = (Fs.Err e, s') ->
  exists front h back t,
    l = front ++ h :: back /\
    forEach body front s = (Fs.Ok tt, t) /\ body h t = (Fs.Err e, s').
Proof.
  revert s. induction l as [|a l IH]; intros s; cbn [forEach]; [done|].
  unfold Fs.bind. destruct (body a s) as [[[]|e0] s1] eqn:Hb.
  - intros H. apply IH in H as (front & h & back & t & -> & Hf & Hh).
    exists (a :: front), h, back, t. split; [done|]. split; [|done].
    cbn [forEach]. unfold Fs.bind. by rewrite Hb.
  - intros [= <- <-]. exists [], a, l, s. done.
Qed.

(** An install that succeeds has found the hook in the registry and has
    fetched its description. *)
Lemma installHook_ok_inv (h bd : str) (ai : bool) (o : option InstallOptions)
    (s s' : Fs.store) :
  installHook h bd ai o s = (Fs.Ok tt, s') ->
  exists registry entry meta,
    remoteRegistry REGISTRY_URL = Some registry /\
    findHook registry h = Some entry /\
    remoteMeta (metaUrl registry entry) = Some meta.
Proof.
  unfold installHook, getRegistry, getMeta.
  destruct (remoteRegistry REGISTRY_URL) as [registry|] eqn:Hreg; [|done].
  unfold Fs.fetched at 1. rewrite bind_ret_l.
  destruct (findHook registry h) as [entry|] eqn:Hfind; [|done].
  destruct (remoteMeta (metaUrl registry entry)) as [meta|] eqn:Hmeta; [|done].
  intros _. exists registry, entry, meta. done.
Qed.

(** The loop of the preset over some of its hooks keeps to their scope. *)
Lemma Preserves_preset (bd : str) (ai : bool) (hooks : list str) :
  Path.canonical wd ->
  Preserves (frame (fun p => exists h, h ∈ hooks /\ forcedScope bd h p))
    (forEach (fun h => cfg' <- getConfig ;;
                       installHook h bd ai
                         (Some {| dry := None; force := Some true;
                                  opt_stripUseClient :=
                                    Some (orElse (stripUseClient <$> cfg') false) |}))
             hooks).
Proof.
  intros Hwd. apply Preserves_forEach; [tc_solve..|]. intros h Hh.
  apply Preserves_bind; [tc_solve | by apply Preserves_read |]. intros cfg'.
  eapply Preserves_weaken; [|by apply Preserves_installHook_force].
  intros t t'. apply frame_weaken. intros p Hp. eauto.
Qed.

(** X13.  [cmdPreset] with a name other than [essentials] changes nothing.
    With [essentials] it installs the five hooks in order with [force]
    set: whatever its outcome, nothing changes but the destinations of
    their files, the index and the directories above them (so no backup is
    made), and no file disappears; and when the registry does not have
    the first hook, it fails at once and nothing changes.  When it
    succeeds, every hook of the preset has been installed, in the order of
    the list: the hook is in the registry, its install succeeded on a
    store that the hooks before it made and the hooks after it took to the
    final one, and in the final store every destination of its files is a
    file.  When it fails, the install of one of the hooks failed, with
    that error, and the hooks after it were not tried. *)
Theorem cmdPreset_frame (name : str) (s : Fs.store) :
  let bd := orElse (baseDir <$> readConfig s) "src/hooks" in
  let ai := orElse (addIndex <$> readConfig s) true in
  (name <> "essentials" -> cmdPreset name s = (Fs.Ok tt, s)) /\
  (Path.canonical wd ->
   forall r s', cmdPreset "essentials" s = (r, s') ->
     frame (fun p => exists h, h ∈ essentials /\ forcedScope bd h p) s s') /\
  (forall registry,
     remoteRegistry REGISTRY_URL = Some registry ->
     findHook registry "use-boolean" = None ->
     cmdPreset "essentials" s = (Fs.Err (Fs.UnknownHook "use-boolean"), s)) /\
  (Path.canonical wd ->
   forall s', cmdPreset "essentials" s = (Fs.Ok tt, s') ->
   forall front h back, essentials = front ++ h :: back ->
     exists registry entry meta t t1,
       remoteRegistry REGISTRY_URL = Some registry /\
       findHook registry h = Some entry /\
       remoteMeta (metaUrl registry entry) = Some meta /\
       frame (fun p => exists h', h' ∈ front /\ forcedScope bd h' p) s t /\
       installHook h bd ai (Some (presetOptions t)) t = (Fs.Ok tt, t1) /\
       frame (fun p => exists h', h' ∈ back /\ forcedScope bd h' p) t1 s' /\
       forall f, f ∈ meta_files meta ->
         Fs.isFile s' (key (destOf bd f)) = true) /\
  (Path.canonical wd ->
   forall e s', cmdPreset "essentials" s = (Fs.Err e, s') ->
     exists front h back t,
       essentials = front ++ h :: back /\
       frame (fun p => exists h', h' ∈ front /\ forcedScope bd h' p) s t /\
       installHook h bd ai (Some (presetOptions t)) t = (Fs.Err e, s')).
Proof.
  intros bd ai.
  set (body := fun h : str =>
         cfg' <- getConfig ;;
         installHook h bd ai
           (Some {| dry := None; force := Some true;
                    opt_stripUseClient :=
                      Some (orElse (stripUseClient <$> cfg') false) |})).
  assert (E : cmdPreset "essentials" s = forEach body essentials s) by reflexivity.
  assert (Eb : forall h t, body h t = installHook h bd ai (Some (presetOptions t)) t)
    by reflexivity.
  split; [|split; [|split; [|split]]].
  - intros Hne. apply eqs_false in Hne.
    unfold cmdPreset, getConfig. unfold Fs.bind at 1. by rewrite Hne.
  - intros Hwd r s'. rewrite E. by apply Preserves_preset.
  - intros registry Hreg Hfind. rewrite E.
    cbn [forEach essentials]. unfold Fs.bind at 1. rewrite Eb.
    unfold installHook, getRegistry. rewrite Hreg.
    unfold Fs.fetched. rewrite bind_ret_l, Hfind. done.
  - intros Hwd s'. rewrite E. intros H front h back Hl.
    destruct (forEach_ok body essentials s s' H front h back Hl)
      as (t & t1 & Hf & Hh & Hk).
    rewrite Eb in Hh.
    destruct (installHook_ok_inv _ _ _ _ _ _ Hh) as (registry & entry & meta & Hreg & Hfind & Hmeta).
    apply (Preserves_preset bd ai front Hwd) in Hf.
    apply (Preserves_preset bd ai back Hwd) in Hk.
    exists registry, entry, meta, t, t1. repeat (split; [done|]).
    intros f Hf'.
    destruct (installHook_written h bd ai (presetOptions t) registry entry meta t t1
                Hwd Hreg Hfind Hmeta eq_refl Hh) as [Hfiles _].
    by apply (Hk _), Hfiles.
  - intros Hwd e s'. rewrite E. intros H.
    apply forEach_err in H as (front & h & back & t & Hl & Hf & Hh).
    rewrite Eb in Hh. apply (Preserves_preset bd ai front Hwd) in Hf.
    exists front, h, back, t. done.
Qed.

(** ** Add and update *)

Lemma installHook_options_ext (h bd : str) (ai : bool) (o1 o2 : InstallOptions) :
  truthy (dry o1) = truthy (dry o2) -> truthy (force o1) = truthy (force o2) ->
  opt_stripUseClient o1 = opt_stripUseClient o2 ->
  installHook h bd ai (Some o1) = installHook h bd ai (Some o2).
Proof.
  intros Hd Hf Hs. unfold installHook, installFile, updateIndex.
  cbn [mbind option_bind]. rewrite Hd, Hf, Hs. reflexivity.
Qed.

(** X14.  [cmdUpdate] without a truthy [dry] or [force] does what [cmdAdd]
    does for the same hook id and options: the same outcome and the same
    store. *)
Theorem cmdAdd_as_update (id : str) (opts : option CmdOptions) (s : Fs.store) :
  id <> [] ->
  truthy (opts ≫= opt_dry) = false -> truthy (opts ≫= opt_force) = false ->
  cmdAdd (Some id) opts s = cmdUpdate id opts s.
Proof.
  intros Hid Hd Hf. destruct id as [|c id]; [done|].
  unfold cmdAdd, cmdUpdate, getConfig, getRegistry, Fs.bind. cbv beta iota.
  destruct (remoteRegistry REGISTRY_URL) as [registry|] eqn:Hreg.
  - unfold Fs.fetched, Fs.ret. cbv beta iota.
    erewrite installHook_options_ext; [reflexivity|..];
      cbn [dry force opt_stripUseClient].
    + by rewrite Hd.
    + by rewrite Hf.
    + reflexivity.
  - unfold installHook, getRegistry, Fs.bind. rewrite Hreg. reflexivity.
Qed.

(** X15.  With a truthy [force], [cmdUpdate] changes, whatever its
    outcome, nothing but the destinations of the hook's files, the index
    and the directories above them: no backup is written, and no file
    disappears. *)
Theorem cmdUpdate_force_frame (id : str) (opts : option CmdOptions)
    (s : Fs.store) (r : Fs.result unit) (s' : Fs.store) :
  Path.canonical wd ->
  truthy (opts ≫= opt_force) = true ->
  cmdUpdate id opts s = (r, s') ->
  frame (forcedScope
           (orElse (opts ≫= opt_baseDir)
                   (orElse (baseDir <$> readConfig s) "src/hooks")) id) s s'.
Proof.
  intros Hwd Hforce. unfold cmdUpdate, getConfig. unfold Fs.bind at 1.
  intros H. eapply Preserves_installHook_force; [done| |exact H]. exact Hforce.
Qed.

(** ** The initialisation *)

Lemma attempt_ok (m : Fs.M unit) (s : Fs.store) (r : Fs.result unit)
    (s' : Fs.store) :
  attempt m s = (r, s') -> r = Fs.Ok tt.
Proof.
  unfold attempt. destruct (m s) as [[[]|e] s1]; by intros [= <- <-].
Qed.

(** X16.  [cmdInit] fails only when writing the configuration fails, and
    then with that error.  An empty answer for the base directory cancels
    it: nothing is written.  Without a terminal, or with no answer at
    all, the configuration it builds is the default one.  And when it
    succeeds without installing a sample hook (no terminal, or the choice
    is skipped or cancelled), [readConfig] then returns the configuration
    built from the answers, and its base directory is there. *)
Theorem cmdInit_outcome (isTty : bool) (a : Answers)
    (promptSample : list str -> option str) (s : Fs.store)
    (r : Fs.result unit) (s' : Fs.store) :
  let cfg := initConfig (if isTty then spread initialAnswers a else initialAnswers) in
  cmdInit isTty a promptSample s = (r, s') ->
  (forall e, r = Fs.Err e -> writeConfig cfg s = (Fs.Err e, s')) /\
  (isTty = true -> ans_baseDir a = Some "" -> r = Fs.Ok tt /\ s' = s) /\
  (isTty = false \/ a = noAnswers -> cfg = DEFAULT_CFG) /\
  (Path.canonical wd ->
   JSON_parse (JSON_stringify (jsonOfConfig cfg) ++ [LF]) = Some (jsonOfConfig cfg) ->
   r = Fs.Ok tt -> baseDir cfg <> "" ->
   isTty = false \/
     (forall values, orElse (promptSample values) "__SKIP__" = "__SKIP__") ->
   readConfig s' = Some cfg /\
   Fs.isDir s' (Path.resolve wd [baseDir cfg]) = true).
Proof.
  intros cfg H. split; [|split; [|split]].
  - intros e ->. unfold cmdInit in H. fold cfg in H.
    destruct (isTty && _) in H; [done|].
    unfold Fs.bind in H. destruct (writeConfig cfg s) as [[[]|e'] s1]; [|done].
    destruct isTty; [by apply attempt_ok in H | done].
  - intros -> Hb. unfold cmdInit in H. cbn [spread initialAnswers ans_baseDir] in H.
    rewrite Hb in H. cbn in H. by injection H as <- <-.
  - intros [->| ->]; [done|]. by destruct isTty.
  - intros Hwd Hcodec -> Hbase Hskip. unfold cmdInit in H. fold cfg in H.
    assert (Hgo : isTty &&
              (negb (nonEmpty (orElse (ans_baseDir
                 (if isTty then spread initialAnswers a else initialAnswers)) "")) ||
               match ans_addIndex
                 (if isTty then spread initialAnswers a else initialAnswers) with
               | Some _ => false | None => true end) = false).
    { destruct isTty; [|done]. cbn [andb]. apply orb_false_intro.
      - unfold cfg, initConfig in Hbase. cbn [baseDir] in Hbase.
        by destruct (orElse _ _).
      - cbn [spread initialAnswers ans_addIndex]. by destruct (ans_addIndex a). }
    rewrite Hgo in H. apply bind_ok in H as ([] & s1 & Hw & H).
    assert (s' = s1) as ->.
    { destruct Hskip as [->|Hskip]; [by injection H as <-|].
      destruct isTty; [|by injection H as <-].
      unfold attempt, getRegistry, Fs.bind in H.
      destruct (remoteRegistry REGISTRY_URL) as [registry|];
        unfold Fs.fetched, Fs.ret, Fs.throw in H; [|by injection H as <-].
      rewrite Hskip in H. cbn in H. by injection H as <-. }
    destruct (writeConfig_then_read cfg s s1 Hwd Hcodec Hw) as (Hr & Hd & _).
    done.
Qed.

(** ** The list of the installed hooks *)

Lemma rep_none {R} fl p prev (u rest : str)
    (k : option ascii -> str -> option R) :
  Forall (fun a => clsMatch fl p a = true) u ->
  match rest with d :: _ => clsMatch fl p d = false | [] => True end ->
  (forall u1 u2, u = u1 ++ u2 -> k (prevAfter prev u1) (u2 ++ rest) = None) ->
  rep fl p 0 prev (u ++ rest) k = None.
Proof.
  intros Hu Hrest. revert prev. induction Hu as [|a u Ha Hu IH]; intros prev Hk.
  - cbn [app]. specialize (Hk [] [] eq_refl). cbn [app] in Hk.
    rewrite prevAfter_nil in Hk.
    destruct rest as [|d rest]; cbn [rep]; [done|]. by rewrite Hrest.
  - cbn [app rep]. rewrite Ha. cbn [pred].
    rewrite IH.
    + specialize (Hk [] (a :: u) eq_refl). by rewrite prevAfter_nil in Hk.
    + intros u1 u2 ->. specialize (Hk (a :: u1) u2 eq_refl).
      by rewrite prevAfter_cons in Hk.
Qed.

(** A greedy repetition gives back characters until what follows the
    pattern succeeds. *)
Lemma rep_longest {R} fl p min prev (w u rest : str)
    (k : option ascii -> str -> option R) x :
  Forall (fun a => clsMatch fl p a = true) w ->
  Forall (fun a => clsMatch fl p a = true) u ->
  min <= length w ->
  match rest with d :: _ => clsMatch fl p d = false | [] => True end ->
  (forall u1 u2, u = u1 ++ u2 -> u1 <> [] ->
     k (prevAfter prev (w ++ u1)) (u2 ++ rest) = None) ->
  k (prevAfter prev w) (u ++ rest) = Some x ->
  rep fl p min prev (w ++ u ++ rest) k = Some x.
Proof.
  intros Hw Hu. revert min prev.
  induction Hw as [|a w Ha Hw IH]; intros min prev Hmin Hrest Hfail Hk.
  - cbn [length] in Hmin. assert (min = 0) as -> by lia. cbn [app] in *.
    rewrite prevAfter_nil in Hk.
    destruct Hu as [|b u Hb Hu].
    + cbn [app] in *. destruct rest as [|d rest]; cbn [rep]; [done|].
      by rewrite Hrest.
    + cbn [app rep]. rewrite Hb. cbn [pred].
      rewrite rep_none; [done | done | done |].
      intros u1 u2 ->. specialize (Hfail (b :: u1) u2 eq_refl).
      rewrite prevAfter_cons in Hfail. by apply Hfail.
  - cbn [app rep]. rewrite Ha.
    rewrite (IH (pred min) (Some a)); [done | cbn [length] in Hmin; lia | done | |].
    + intros u1 u2 Hu12 Hne. specialize (Hfail u1 u2 Hu12 Hne).
      cbn [app] in Hfail. by rewrite prevAfter_cons in Hfail.
    + by rewrite prevAfter_cons in Hk.
Qed.

Lemma anyChar_Forall (n : str) :
  forallb anyChar n = true -> Forall (fun a => clsMatch noflags anyChar a = true) n.
Proof.
  rewrite forallb_forall, Forall_forall.
  intros H a Ha. apply H. by apply list_elem_of_In.
Qed.

Lemma matchAt_indexRe (n rest : str) prev :
  n <> [] -> forallb anyChar n = true ->
  matchAt noflags indexRe prev (exportText n ++ LF :: rest) =
  Some (LF :: rest, [(1, n)]).
Proof.
  intros Hne Hn.
  assert (Hs : exportText n ++ LF :: rest =
               "export" ++ (" " ++ "*"%char :: (" " ++ "from" ++ (" " ++
                 dq :: "./" ++ (n ++ [dq; ";"%char] ++ LF :: rest))))).
  { unfold exportText. rewrite <- !app_assoc. reflexivity. }
  rewrite Hs. clear Hs. unfold matchAt, indexRe. cbn [run].
  rewrite run_lit. cbv beta.
  apply rep_greedy; [by repeat constructor | cbn; lia | done |].
  rewrite chrMatch_refl.
  apply rep_greedy; [by repeat constructor | cbn; lia | done |].
  rewrite run_lit. cbv beta.
  apply rep_greedy; [by repeat constructor | cbn; lia | done |].
  assert (clsMatch noflags isQuote dq = true) as -> by done.
  rewrite run_lit. cbv beta.
  apply rep_longest.
  - by apply anyChar_Forall.
  - by repeat constructor.
  - destruct n; [done|]. cbn. lia.
  - done.
  - intros u1 u2 Hu Hu1.
    destruct u1 as [|a [|b [|c u1]]]; [done| | |].
    + injection Hu as <- <-. done.
    + injection Hu as <- <- <-. done.
    + apply (f_equal length) in Hu. cbn in Hu. rewrite length_app in Hu. cbn in Hu. lia.
  - cbn [app run]. assert (clsMatch noflags isQuote dq = true) as -> by done.
    rewrite chrMatch_refl.
    change (dq :: ";"%char :: LF :: rest) with ([dq; ";"%char] ++ LF :: rest).
    by rewrite take_consumed.
Qed.

Lemma scan_exportLine (n rest : str) prev :
  n <> [] -> forallb anyChar n = true ->
  scan noflags indexRe 0 prev (exportLine n ++ rest) =
  Hit (exportText n) [(1, n)] :: Keep LF :: scan noflags indexRe 0 (Some LF) rest.
Proof.
  intros Hne Hn.
  assert (Hs : exportLine n ++ rest = exportText n ++ LF :: rest).
  { unfold exportLine, exportText. rewrite <- !app_assoc. reflexivity. }
  rewrite Hs. clear Hs.
  assert (Hm : take (length (exportText n ++ LF :: rest) - length (LF :: rest))
                 (exportText n ++ LF :: rest) = exportText n) by apply take_consumed.
  pose proof (matchAt_indexRe n rest prev Hne Hn) as Hat.
  destruct (exportText n) as [|c m'] eqn:E; [done|].
  cbn [scan app] in *. rewrite Hat. cbn [app length] in Hm. cbn [length].
  rewrite Hm. cbn [length]. f_equal.
  rewrite scan_skip. cbn [scan]. reflexivity.
Qed.

Lemma scan_index (names : list str) prev :
  Forall (fun n => n <> [] /\ forallb anyChar n = true) names ->
  omap (fun p => match p with Hit _ cs => Some cs | Keep _ => None end)
       (scan noflags indexRe 0 prev (concat (map exportLine names))) =
  map (fun n => [(1, n)]) names.
Proof.
  intros H. revert prev. induction H as [|n names [Hne Hn] _ IH]; intros prev.
  - done.
  - cbn [map concat]. rewrite scan_exportLine by done. cbn [omap list_omap].
    by rewrite IH.
Qed.

(** The index names the modules of its export lines, in their order. *)
Lemma indexIds_lines (names : list str) :
  Forall (fun n => n <> [] /\ forallb anyChar n = true) names ->
  indexIds (concat (map exportLine names)) = names.
Proof.
  intros H. unfold indexIds, matchAll. rewrite scan_index by done.
  rewrite <- list_fmap_compose. induction names as [|n names IH]; [done|].
  cbn [fmap list_fmap]. f_equal. apply IH. by inversion H.
Qed.

Lemma mapM_reads {A B} (f : A -> Fs.M B) (g : A -> B) (l : list A) (s : Fs.store) :
  (forall a, a ∈ l -> f a s = (Fs.Ok (g a), s)) ->
  mapM f l s = (Fs.Ok (map g l), s).
Proof.
  induction l as [|a l IH]; intros H; [done|].
  cbn [mapM map]. unfold Fs.bind. rewrite (H a) by apply list_elem_of_here.
  rewrite IH by (intros b Hb; by apply H, list_elem_of_further). done.
Qed.

Lemma bind_existsSync {B} (p : str) (k : bool -> Fs.M B) (s : Fs.store) :
  Fs.bind (existsSync p) k s = k (Fs.existsAt s (key p)) s.
Proof. reflexivity. Qed.

(** The list read from an index of export lines. *)
Lemma listLocalHooks_lines (baseDir : str) (names : list str) (s : Fs.store) :
  Path.canonical wd ->
  Forall (fun n => n <> [] /\ forallb anyChar n = true) names ->
  Fs.nodeAt s (Path.resolve wd [baseDir; "index.ts"]) =
    Some (Fs.File (concat (map exportLine names))) \/
  (Fs.nodeAt s (Path.resolve wd [baseDir; "index.ts"]) = None /\
   Fs.nodeAt s (Path.resolve wd [baseDir; "index.js"]) =
     Some (Fs.File (concat (map exportLine names)))) ->
  listLocalHooks baseDir s =
  (Fs.Ok (map (fun n =>
                 {| lh_id := n;
                    lh_file := if Fs.existsAt s (Path.resolve wd [baseDir; n ++ ".ts"])
                               then cwd [baseDir; n ++ ".ts"]
                               else cwd [baseDir; n ++ ".js"] |}) names), s).
Proof.
  intros Hwd Hnames Hidx. unfold listLocalHooks. cbv zeta.
  rewrite !bind_existsSync, !key_cwd by done.
  assert (Hmap : forall c, c = concat (map exportLine names) ->
    mapM (fun id =>
            hasFile <- existsSync (cwd [baseDir; id ++ ".ts"]) ;;
            Fs.ret {| lh_id := id;
                      lh_file := if hasFile then cwd [baseDir; id ++ ".ts"]
                                 else cwd [baseDir; id ++ ".js"] |})
         (indexIds c) s =
    (Fs.Ok (map (fun n =>
                 {| lh_id := n;
                    lh_file := if Fs.existsAt s (Path.resolve wd [baseDir; n ++ ".ts"])
                               then cwd [baseDir; n ++ ".ts"]
                               else cwd [baseDir; n ++ ".js"] |}) names), s)).
  { intros c ->. rewrite indexIds_lines by done. apply mapM_reads.
    intros n _. rewrite bind_existsSync. by rewrite key_cwd by done. }
  unfold Fs.existsAt.
  destruct Hidx as [Hts|[Hts Hjs]].
  - rewrite Hts. cbn [orb]. cbv iota.
    rewrite bind_existsSync, key_cwd by done. unfold Fs.existsAt. rewrite Hts.
    unfold Fs.bind at 1. rewrite key_cwd by done.
    unfold Fs.readFile. rewrite Hts. by apply Hmap.
  - rewrite Hts, Hjs. cbn [orb]. cbv iota.
    rewrite bind_existsSync, key_cwd by done. unfold Fs.existsAt. rewrite Hts.
    unfold Fs.bind at 1. rewrite key_cwd by done.
    unfold Fs.readFile. rewrite Hjs. by apply Hmap.
Qed.

(** X17.  With an index that holds the export lines of the names [names]
    (not empty, without a line terminator), as [installHook] writes them,
    [listLocalHooks] returns these names in the order of the lines, each
    with its [.ts] file when that exists and its [.js] file otherwise, and
    changes nothing.  [index.ts] is read when it is there, [index.js]
    otherwise. *)
Theorem listLocalHooks_index (baseDir : str) (names : list str) (s : Fs.store) :
  Path.canonical wd ->
  Forall (fun n => n <> [] /\ forallb anyChar n = true) names ->
  Fs.nodeAt s (Path.resolve wd [baseDir; "index.ts"]) =
    Some (Fs.File (concat (map exportLine names))) \/
  (Fs.nodeAt s (Path.resolve wd [baseDir; "index.ts"]) = None /\
   Fs.nodeAt s (Path.resolve wd [baseDir; "index.js"]) =
     Some (Fs.File (concat (map exportLine names)))) ->
  listLocalHooks baseDir s =
  (Fs.Ok (map (fun n =>
                 {| lh_id := n;
                    lh_file := if Fs.existsAt s (Path.resolve wd [baseDir; n ++ ".ts"])
                               then cwd [baseDir; n ++ ".ts"]
                               else cwd [baseDir; n ++ ".js"] |}) names), s).
Proof. apply listLocalHooks_lines. Qed.

Lemma testAtEnd_sound fl r prev (s : str) :
  testAtEnd fl r prev s = true ->
  exists a w cs, s = a ++ w /\ Matches fl r (prevAfter prev a) w [] cs.
Proof.
  revert prev. induction s as [|c s IH]; intros prev; cbn [testAtEnd].
  - destruct (run _ _ _ _ _ _) eqn:E; [|done]. intros _.
    apply run_sound in E as (w & s' & cs' & Hs & Hm & Hk).
    destruct s'; [|done]. exists [], w, cs'. by rewrite app_nil_r in Hs.
  - destruct (run _ _ _ _ _ _) eqn:E.
    + intros _. apply run_sound in E as (w & s' & cs' & Hs & Hm & Hk).
      destruct s'; [|done]. exists [], w, cs'. by rewrite app_nil_r in Hs.
    + intros (a & w & cs & -> & Hm)%IH. exists (c :: a), w, cs.
      by rewrite prevAfter_cons.
Qed.

Lemma testAtEnd_app fl r prev (a b : str) :
  run fl r (prevAfter prev a) b []
      (fun _ s' _ => match s' with [] => Some tt | _ :: _ => None end) = Some tt ->
  testAtEnd fl r prev (a ++ b) = true.
Proof.
  revert prev. induction a as [|c a IH]; intros prev H.
  - rewrite prevAfter_nil in H. cbn [app]. destruct b; cbn [testAtEnd]; by rewrite H.
  - cbn [app testAtEnd]. destruct (run fl r prev (c :: a ++ b) _ _); [done|].
    apply IH. by rewrite prevAfter_cons in H.
Qed.

(** What follows the last separator of a text. *)
Lemma after_last_sep (x1 x2 t1 t2 : str) (c1 c2 : ascii) :
  x1 ++ c1 :: t1 = x2 ++ c2 :: t2 ->
  isSep c1 = true -> isSep c2 = true ->
  forallb notSep t1 = true -> forallb notSep t2 = true -> t1 = t2.
Proof.
  intros H H1 H2 Ht1 Ht2. apply (f_equal (@rev ascii)) in H.
  rewrite !rev_app_distr in H. cbn [rev] in H. rewrite <- !app_assoc in H.
  cbn [app] in H. apply (f_equal (Path.takeWhile notSep)) in H.
  rewrite !takeWhile_app_stop in H
    by (rewrite ?forallb_rev; try done; unfold notSep; by rewrite ?H1, ?H2).
  apply (f_equal (@rev ascii)) in H. by rewrite !rev_involutive in H.
Qed.

Lemma notSep_Forall (m : str) :
  Forall (fun a => clsMatch noflags notSep a = true) m <-> forallb notSep m = true.
Proof.
  rewrite forallb_forall, Forall_forall. split; intros H a Ha; apply H.
  - by apply list_elem_of_In.
  - by apply list_elem_of_In.
Qed.

Lemma seg_notSep (seg : str) :
  Path.okSeg seg = true -> "\"%char ∉ seg -> forallb notSep seg = true.
Proof.
  intros (_ & _ & _ & Hs)%okSeg_inv Hb. rewrite forallb_forall in *.
  intros a Ha. specialize (Hs a Ha). unfold notSep, isSep.
  unfold Path.notSlash, Path.isSlash in Hs. apply negb_true_iff in Hs. rewrite Hs.
  cbn [orb]. apply negb_true_iff. destruct (Str.eqc a "\"%char) eqn:E; [|done].
  apply eqc_true in E. subst a. by apply list_elem_of_In in Ha.
Qed.

(** The test of [listLocalHooks] on the path of a file: its name is
    [use-<name>.ts] or [use-<name>.js]. *)
Lemma hookFile_spec (q : Path.path) (seg : str) :
  Path.canonical (q ++ [seg]) -> "\"%char ∉ seg ->
  testAtEnd noflags hookFileRe None (Path.render (q ++ [seg])) = true <->
  exists name e, name <> [] /\ (e = "ts" \/ e = "js") /\
                 seg = "use-" ++ name ++ "." ++ e.
Proof.
  intros Hc Hb. pose proof Hc as [_ Hseg]%canonical_snoc.
  pose proof (seg_notSep _ Hseg Hb) as Hns.
  rewrite render_snoc.
  set (X := if decide (q = []) then "" else Path.render q).
  split.
  - intros (a & w & cs & Hs & Hm)%testAtEnd_sound.
    unfold hookFileRe in Hm. cbn [Matches] in Hm.
    destruct Hm as (w0 & w1 & cs0 & -> & (c & -> & Hsep & ->) & Hm).
    destruct Hm as (w2 & w3 & cs1 & -> & [-> ->]%Matches_lit_eq & Hm).
    destruct Hm as (m & w4 & cs2 & -> & (Hm1 & Hlen & ->) & Hm).
    destruct Hm as (w5 & w6 & cs3 & -> & (d & -> & Hd & ->) & Hm).
    destruct Hm as (w7 & w8 & cs4 & -> & (cs5 & He & ->) & (f & -> & Hf & _)).
    apply eqc_true in Hd, Hf. subst d f.
    apply notSep_Forall in Hm1.
    assert (Hw7 : w7 = "t" \/ w7 = "j").
    { destruct He as [(e & -> & He & _)|(e & -> & He & _)];
        apply eqc_true in He; subst e; auto. }
    assert (Hseg' : seg = "use-" ++ m ++ "." ++ w7 ++ "s").
    { apply (after_last_sep X a seg _ "/"%char c Hs); [done | exact Hsep | done |].
      rewrite !forallb_app, Hm1. by destruct Hw7 as [-> | ->]. }
    exists m, (w7 ++ "s"). split; [by destruct m; [cbn in Hlen; lia|]|].
    split; [by destruct Hw7 as [-> | ->]; auto|]. done.
  - intros (name & e & Hne & He & ->).
    assert (Hname : forallb notSep name = true).
    { rewrite !forallb_app in Hns. by destruct (forallb notSep name). }
    apply testAtEnd_app. unfold hookFileRe.
    set (t0 := "use-" ++ name ++ "." ++ e). cbn [run app].
    assert (clsMatch noflags isSep "/" = true) as -> by done.
    unfold t0. rewrite run_lit. cbv beta.
    replace (name ++ "." ++ e) with (name ++ ("." ++ e) ++ [])
      by by rewrite app_nil_r.
    apply rep_longest.
    + by apply notSep_Forall.
    + destruct He as [-> | ->]; by repeat constructor.
    + destruct name; [done|]. cbn. lia.
    + done.
    + intros u1 u2 Hu Hu1. rewrite app_nil_r.
      destruct u1 as [|a [|b [|c [|d u1]]]]; [done|..].
      * injection Hu as <- <-. cbn [run]. by destruct He as [-> | ->].
      * destruct He as [-> | ->]; injection Hu as <- <- <-; done.
      * destruct He as [-> | ->]; injection Hu as <- <- <- <-; done.
      * destruct He as [-> | ->]; apply (f_equal length) in Hu; cbn in Hu;
          rewrite length_app in Hu; cbn in Hu; lia.
    + rewrite app_nil_r. destruct He as [-> | ->]; cbn [run app];
        rewrite ?chrMatch_refl; done.
Qed.

(** X18.  Without an index, [listLocalHooks] walks the base directory:
    when that is missing the list is empty, and when it is a file the walk
    fails.  When it is a directory whose files have no backslash in their
    names, the list holds exactly the files below it named
    [use-<name>.ts] or [use-<name>.js], each with the id [use-<name>];
    the store is not changed. *)
Theorem listLocalHooks_walk (baseDir : str) (s : Fs.store) :
  let B := Path.resolve wd [baseDir] in
  Path.canonical wd -> Fs.storeOk s ->
  Fs.nodeAt s (Path.resolve wd [baseDir; "index.ts"]) = None ->
  Fs.nodeAt s (Path.resolve wd [baseDir; "index.js"]) = None ->
  (Fs.nodeAt s B = None -> listLocalHooks baseDir s = (Fs.Ok [], s)) /\
  (Fs.isFile s B = true ->
   listLocalHooks baseDir s = (Fs.Err (Fs.ENOTDIR B), s)) /\
  (Fs.isDir s B = true ->
   (forall k, k ∈ Fs.walkKeys s B -> "\"%char ∉ lastSeg k) ->
   exists l, listLocalHooks baseDir s = (Fs.Ok l, s) /\
     forall h, h ∈ l <->
       exists q name e, name <> [] /\ (e = "ts" \/ e = "js") /\
         q ++ ["use-" ++ name ++ "." ++ e] ∈ Fs.walkKeys s B /\
         h = {| lh_id := "use-" ++ name;
                lh_file := Path.render (q ++ ["use-" ++ name ++ "." ++ e]) |}).
Proof.
  intros B Hwd Hok Hts Hjs.
  assert (E : listLocalHooks baseDir s =
    if negb (Fs.existsAt s B) then (Fs.Ok [], s)
    else if Fs.isDir s B
         then (Fs.Ok (map (fun f => {| lh_id := fileBaseName f; lh_file := f |})
                       (List.filter (testAtEnd noflags hookFileRe None)
                                    (Fs.walkFiles s B))), s)
         else if Fs.isFile s B || existsb (Fs.isFile s) (Fs.ups B)
              then (Fs.Err (Fs.ENOTDIR B), s)
              else (Fs.Err (Fs.ENOENT B), s)).
  { unfold listLocalHooks. cbv zeta.
    rewrite !bind_existsSync, !key_cwd by done. fold B.
    unfold Fs.existsAt at 1 2. rewrite Hts, Hjs. cbn [orb]. cbv iota.
    rewrite bind_existsSync, key_cwd by done. fold B.
    destruct (Fs.existsAt s B); cbn [negb]; [|done].
    unfold walk, Fs.bind. rewrite key_cwd by done. fold B.
    destruct (Fs.isDir s B); [done|].
    by destruct (Fs.isFile s B || existsb (Fs.isFile s) (Fs.ups B)). }
  rewrite E. clear E. unfold Fs.existsAt, Fs.isDir, Fs.isFile.
  split; [|split].
  - intros HB. by rewrite HB.
  - intros HB. by destruct (Fs.nodeAt s B) as [[c|]|].
  - intros HB Hback. destruct (Fs.nodeAt s B) as [[c|]|]; [done| |done].
    cbn [negb]. eexists. split; [reflexivity|].
    assert (Hkey : forall k, k ∈ Fs.walkKeys s B ->
              Path.canonical (removelast k ++ [lastSeg k]) /\
              k = removelast k ++ [lastSeg k]).
    { intros k Hk. pose proof Hk as [[c Hc] _]%elem_walkKeys.
      pose proof Hk as [[c' Hc'] _]%walkKeys_nodeAt.
      apply nodeAt_nonroot in Hc'. rewrite <- (snoc_lastSeg k Hc').
      split; [|done]. by apply (Hok k (Fs.File c)). }
    assert (Hname : forall q name e, name <> [] -> e = "ts" \/ e = "js" ->
              Path.canonical (q ++ ["use-" ++ name ++ "." ++ e]) ->
              fileBaseName (Path.render (q ++ ["use-" ++ name ++ "." ++ e])) =
              "use-" ++ name).
    { intros q name e Hne He Hc.
      destruct (fileBaseName_cases q ("use-" ++ name) e) as [H _].
      - intros Hd%list_elem_of_In.
        destruct He as [-> | ->]; cbn in Hd; destruct Hd as [Hd|[Hd|[]]]; done.
      - apply H; [|done]. by rewrite <- app_assoc. }
    intros h. rewrite list_elem_of_In, in_map_iff. split.
    + intros (f & <- & [Hf Ht]%filter_In).
      unfold Fs.walkFiles in Hf. apply in_map_iff in Hf as (k & <- & Hk%list_elem_of_In).
      destruct (Hkey k Hk) as [Hc Ek]. rewrite Ek in Ht.
      apply hookFile_spec in Ht as (name & e & Hne & He & Hseg);
        [|done|by apply Hback].
      exists (removelast k), name, e. split; [done|]. split; [done|].
      rewrite <- Hseg, <- Ek. split; [done|].
      rewrite Ek at 1. rewrite Hseg. rewrite Hname; [done..|]. by rewrite <- Hseg.
    + intros (q & name & e & Hne & He & Hk & ->).
      exists (Path.render (q ++ ["use-" ++ name ++ "." ++ e])).
      destruct (Hkey _ Hk) as [Hc _]. rewrite removelast_last, lastSeg_snoc in Hc.
      split; [by rewrite Hname|]. apply filter_In. split.
      * unfold Fs.walkFiles. apply in_map, list_elem_of_In, Hk.
      * apply hookFile_spec; [done| |by eauto].
        specialize (Hback _ Hk). by rewrite lastSeg_snoc in Hback.
Qed.

(** ** Installing and then listing *)

(** The list read after a successful install. *)
Lemma installHook_listed (hookId_ baseDir : str) (o : InstallOptions)
    (registry : Registry) (entry : HookEntry) (meta : Meta)
    (front : list FileDesc) (l : FileDesc) (names : list str) (s s' : Fs.store) :
  let IP := Path.resolve wd [baseDir] ++ ["index.ts"] in
  let name := fileBaseName (destOf baseDir l) in
  let listed :=
    if Str.includes (exportLine name) (concat (map exportLine names))
    then names else names ++ [name] in
  Path.canonical wd ->
  remoteRegistry REGISTRY_URL = Some registry ->
  findHook registry hookId_ = Some entry ->
  remoteMeta (metaUrl registry entry) = Some meta ->
  truthy (dry o) = false ->
  meta_files meta = front ++ [l] ->
  name <> [] -> forallb anyChar name = true ->
  Forall (fun n => n <> [] /\ forallb anyChar n = true) names ->
  ~ touched baseDir (meta_files meta) IP ->
  (Fs.nodeAt s IP = None /\ names = []) \/
    Fs.nodeAt s IP = Some (Fs.File (concat (map exportLine names))) ->
  installHook hookId_ baseDir true (Some o) s = (Fs.Ok tt, s') ->
  listLocalHooks baseDir s' =
  (Fs.Ok (map (fun n =>
                 {| lh_id := n;
                    lh_file := if Fs.existsAt s' (Path.resolve wd [baseDir; n ++ ".ts"])
                               then cwd [baseDir; n ++ ".ts"]
                               else cwd [baseDir; n ++ ".js"] |}) listed), s').
Proof.
  intros IP name listed Hwd Hreg Hfind Hmeta Hdry Hfiles Hne Hany Hnames HnT Hidx Hinst.
  destruct (installHook_written hookId_ baseDir true o registry entry meta s s'
              Hwd Hreg Hfind Hmeta Hdry Hinst) as [_ H].
  specialize (H front l eq_refl Hfiles Hne HnT). fold IP name in H.
  assert (HIP : Path.resolve wd [baseDir; "index.ts"] = IP).
  { destruct (indexKey baseDir Hwd) as [HK _]. by rewrite key_cwd in HK. }
  apply listLocalHooks_lines; [done| |].
  - unfold listed. destruct (Str.includes _ _); [done|].
    apply Forall_app. split; [done|]. by repeat constructor.
  - left. rewrite HIP, H. f_equal. f_equal. unfold listed.
    destruct Hidx as [[-> ->]| ->].
    + cbn [map concat]. replace (Str.includes (exportLine name) []) with false.
      * cbn [app map concat]. by rewrite app_nil_r.
      * unfold exportLine. reflexivity.
    + destruct (Str.includes _ _); [done|].
      rewrite map_app, concat_app. cbn [map concat]. by rewrite app_nil_r.
Qed.

(** X19.  Installing and then listing: after a successful install (not a
    dry run) with the index maintained, into a base directory whose
    [index.ts] was missing or held the export lines of [names],
    [listLocalHooks] returns [names] followed by the export name of the
    hook's last file, or [names] alone when the index already held that
    export line. *)
Theorem install_then_list (hookId_ baseDir : str) (o : InstallOptions)
    (registry : Registry) (entry : HookEntry) (meta : Meta)
    (front : list FileDesc) (l : FileDesc) (names : list str) (s s' : Fs.store) :
  let IP := Path.resolve wd [baseDir] ++ ["index.ts"] in
  let name := fileBaseName (destOf baseDir l) in
  let listed :=
    if Str.includes (exportLine name) (concat (map exportLine names))
    then names else names ++ [name] in
  Path.canonical wd ->
  remoteRegistry REGISTRY_URL = Some registry ->
  findHook registry hookId_ = Some entry ->
  remoteMeta (metaUrl registry entry) = Some meta ->
  truthy (dry o) = false ->
  meta_files meta = front ++ [l] ->
  name <> [] -> forallb anyChar name = true ->
  Forall (fun n => n <> [] /\ forallb anyChar n = true) names ->
  ~ touched baseDir (meta_files meta) IP ->
  (Fs.nodeAt s IP = None /\ names = []) \/
    Fs.nodeAt s IP = Some (Fs.File (concat (map exportLine names))) ->
  installHook hookId_ baseDir true (Some o) s = (Fs.Ok tt, s') ->
  listLocalHooks baseDir s' =
  (Fs.Ok (map (fun n =>
                 {| lh_id := n;
                    lh_file := if Fs.existsAt s' (Path.resolve wd [baseDir; n ++ ".ts"])
                               then cwd [baseDir; n ++ ".ts"]
                               else cwd [baseDir; n ++ ".js"] |}) listed), s').
Proof. apply installHook_listed. Qed.

(** ** The doctor *)

Lemma Preserves_mapM R `{!Reflexive R} `{!Transitive R} {A B}
    (f : A -> Fs.M B) (l : list A) :
  (forall a, a ∈ l -> Preserves R (f a)) -> Preserves R (mapM f l).
Proof.
  induction l as [|a l IH]; intros H; cbn [mapM].
  - by apply Preserves_ret.
  - apply Preserves_bind; [done | apply H, list_elem_of_here |]. intros b.
    apply Preserves_bind; [done | |intros; by apply Preserves_ret].
    apply IH. intros c Hc. by apply H, list_elem_of_further.
Qed.

Lemma Preserves_existsSync R `{!Reflexive R} (p : str) : Preserves R (existsSync p).
Proof. intros s r s' [= <- <-]. reflexivity. Qed.

Lemma Preserves_parseLocalHookVersion R `{!Reflexive R} `{!Transitive R} (p : str) :
  Preserves R (parseLocalHookVersion p).
Proof.
  unfold parseLocalHookVersion.
  apply Preserves_bind; [done | by apply Preserves_existsSync |]. intros ex.
  destruct (negb ex); [by apply Preserves_ret|].
  apply Preserves_bind; [done | by apply Preserves_readFile |]. intros c.
  by apply Preserves_ret.
Qed.

Lemma Preserves_walk R `{!Reflexive R} (d : str) : Preserves R (walk d).
Proof.
  intros s r s'. unfold walk.
  destruct (Fs.isDir s (key d));
    [|destruct (Fs.isFile s (key d) || existsb (Fs.isFile s) (Fs.ups (key d)))];
    intros [= <- <-]; reflexivity.
Qed.

Lemma Preserves_listLocalHooks R `{!Reflexive R} `{!Transitive R} (baseDir : str) :
  Preserves R (listLocalHooks baseDir).
Proof.
  unfold listLocalHooks.
  apply Preserves_bind; [done | by apply Preserves_existsSync |]. intros hasTs.
  apply Preserves_bind; [done | by apply Preserves_existsSync |]. intros hasJs.
  destruct (hasTs || hasJs).
  - apply Preserves_bind; [done | by apply Preserves_existsSync |]. intros hasTs'.
    apply Preserves_bind; [done | by apply Preserves_readFile |]. intros c.
    apply Preserves_mapM; [done..|]. intros id _.
    apply Preserves_bind; [done | by apply Preserves_existsSync |]. intros ex.
    by apply Preserves_ret.
  - apply Preserves_bind; [done | by apply Preserves_existsSync |]. intros ex.
    destruct (negb ex); [by apply Preserves_ret|].
    apply Preserves_bind; [done | by apply Preserves_walk |]. intros all.
    by apply Preserves_ret.
Qed.

Lemma Preserves_diagnose R `{!Reflexive R} `{!Transitive R} (registry : Registry)
    (l : LocalHook) :
  Preserves R (diagnose registry l).
Proof.
  unfold diagnose.
  apply Preserves_bind; [done | by apply Preserves_existsSync |]. intros ex.
  destruct (negb ex); [by apply Preserves_ret|].
  apply Preserves_bind; [done | by apply Preserves_parseLocalHookVersion |].
  intros parsed. destruct (lv_id parsed) as [[|c id]|]; try by apply Preserves_ret.
  destruct (negb _); [by apply Preserves_ret|].
  destruct (existsb _ _); by apply Preserves_ret.
Qed.

(** X20.  [cmdDoctor] writes nothing, whatever its outcome.  And after a
    successful install (not a dry run) with the index maintained, into a
    base directory without an index, of a hook whose last file lies
    directly in the base directory as [<name>.ts], it prints one line:
    an id mismatch when the id of the hook is not [<name>], and else the
    hook with its version, or that the registry does not have [<name>]. *)
Theorem install_then_doctor (hookId_ bd : str) (o : InstallOptions)
    (registry : Registry) (entry : HookEntry) (meta : Meta)
    (front : list FileDesc) (l : FileDesc) (s s' : Fs.store) (d1 d2 d3 : str) :
  let IP := Path.resolve wd [bd] ++ ["index.ts"] in
  let name := fileBaseName (destOf bd l) in
  (forall t r t', cmdDoctor t = (r, t') -> t' = t) /\
  (Path.canonical wd ->
   remoteRegistry REGISTRY_URL = Some registry ->
   findHook registry hookId_ = Some entry ->
   remoteMeta (metaUrl registry entry) = Some meta ->
   truthy (dry o) = false ->
   meta_files meta = front ++ [l] ->
   name <> [] -> forallb anyChar name = true ->
   key (destOf bd l) = Path.resolve wd [bd; name ++ ".ts"] ->
   ~ touched bd (meta_files meta) IP ->
   ~ key (destOf bd l) `prefix_of` IP ->
   Fs.nodeAt s IP = None ->
   hookId (meta_id meta) -> digits d1 -> digits d2 -> digits d3 ->
   orElse (meta_version meta) "0.0.0" = version d1 d2 d3 ->
   length ("/* Installed via wkkkis-hooks | hook:" ++ meta_id meta ++ "@" ++
           version d1 d2 d3) <= 2048 ->
   (forall g, g ∈ meta_files meta ->
      key (destOf bd l) <> key (destOf bd g ++ ".bak")) ->
   installHook hookId_ bd true (Some o) s = (Fs.Ok tt, s') ->
   orElse (baseDir <$> readConfig s') "src/hooks" = bd ->
   cmdDoctor s' =
   (Fs.Ok [if bool_decide (meta_id meta = name)
           then if existsb (fun h => bool_decide (entry_id h = name))
                           (reg_hooks registry)
                then Good name (Some (version d1 d2 d3))
                else NotInRegistry name
           else IdMismatch name (meta_id meta)], s')).
Proof.
  intros IP name. split.
  { assert (HP : Preserves eq cmdDoctor).
    { unfold cmdDoctor. apply Preserves_bind; [tc_solve | |].
      - intros ? ? ? [= <- <-]. done.
      - intros cfg. apply Preserves_bind; [tc_solve | by apply Preserves_fetched |].
        intros reg. apply Preserves_bind;
          [tc_solve | apply Preserves_listLocalHooks; tc_solve |].
        intros locals. apply Preserves_mapM; [tc_solve..|]. intros h _.
        apply Preserves_diagnose; tc_solve. }
    intros t r t' H. symmetry. exact (HP t r t' H). }
  intros Hwd Hreg Hfind Hmeta Hdry Hfiles Hne Hany Hplace HnT Hnp Hidx Hid H1 H2 H3 Hv Hlen
    Hbak Hinst Hcfg.
  assert (Hl : l ∈ meta_files meta).
  { rewrite Hfiles. apply elem_of_app. right. apply list_elem_of_here. }
  pose proof (installHook_header hookId_ bd true o registry entry meta s s' l
                d1 d2 d3 Hwd Hreg Hfind Hmeta Hdry Hinst Hid H1 H2 H3 Hv Hlen Hl
                Hbak Hnp) as Hparse.
  pose proof (installHook_listed hookId_ bd o registry entry meta front l []
                s s' Hwd Hreg Hfind Hmeta Hdry Hfiles Hne Hany (Forall_nil_2 _) HnT
                (or_introl (conj Hidx eq_refl)) Hinst) as Hlist.
  destruct (installHook_written hookId_ bd true o registry entry meta s s'
              Hwd Hreg Hfind Hmeta Hdry Hinst) as [Hdest _].
  specialize (Hdest l Hl). rewrite Hplace in Hdest.
  assert (Hex : Fs.existsAt s' (Path.resolve wd [bd; name ++ ".ts"]) = true).
  { unfold Fs.isFile in Hdest. unfold Fs.existsAt. by destruct (Fs.nodeAt s' _). }
  fold name in Hlist.
  change (Str.includes (exportLine name) (concat (map exportLine []))) with false
    in Hlist.
  cbn [map app] in Hlist. rewrite Hex in Hlist.
  assert (Hsame : destOf bd l = cwd [bd; name ++ ".ts"]).
  { unfold cwd. rewrite <- Hplace. unfold destOf at 1, cwd.
    f_equal. unfold destOf. by rewrite key_cwd. }
  rewrite Hsame in Hparse.
  unfold cmdDoctor, getConfig, getRegistry. unfold Fs.bind at 1. rewrite Hcfg, Hreg.
  unfold Fs.fetched. rewrite bind_ret_l. unfold Fs.bind at 1. rewrite Hlist.
  cbn [mapM]. unfold Fs.bind at 1. unfold diagnose.
  rewrite bind_existsSync. cbn [lh_file lh_id]. rewrite key_cwd, Hex by done.
  cbn [negb]. unfold Fs.bind at 1. rewrite Hparse. cbn [lv_id lv_version].
  destruct Hid as [Hidne _]. destruct (meta_id meta) as [|c id] eqn:E; [done|].
  destruct (bool_decide (c :: id = name)); cbn [negb]; [|done].
  by destruct (existsb _ _).
Qed.

End Cli.

(** * The properties on the sample project *)

(** C9 on the versions 1.2.0 and 1.1.9. *)
Lemma cmpSemver_componentwise_witness :
  (cmpSemver (version "1" "2" "0") (version "1" "1" "9") ?= 0)%Z =
  lexCompare (decimal "1", decimal "2", decimal "0")
             (decimal "1", decimal "1", decimal "9").
Proof.
  apply (proj1 cmpSemver_componentwise "1" "2" "0" "1" "1" "9");
    (split; [reflexivity | vm_compute; reflexivity]).
Defined.

(** C2 on the header of the hook [use-x] at version 1.2.3. *)
Lemma header_roundtrip_witness :
  decodeHeader (header "use-x" (Some (version "1" "2" "3")) (Some "7") ++ "body") =
  {| lv_id := Some "use-x"; lv_version := Some (version "1" "2" "3") |}.
Proof.
  apply (proj1 (header_roundtrip Sample.wd) "use-x" "1" "2" "3" (Some "7") "body").
  - split; [discriminate | reflexivity].
  - split; [discriminate | reflexivity].
  - split; [discriminate | reflexivity].
  - split; [discriminate | reflexivity].
  - vm_compute. lia.
Defined.

(** C8 on a relative import. *)
Lemma rewrite_alias_noop_witness :
  rewriteAliasImports Sample.wd "import y from './y'" (Some "@") (Some "src")
    "/p/src/hooks/useX.ts" "/p" = "import y from './y'".
Proof.
  apply (proj1 (proj2 (proj2 (proj2 (proj2 (proj2
          (rewrite_alias_noop Sample.wd "import y from './y'"
             "/p/src/hooks/useX.ts" "/p"))))))).
  reflexivity.
Defined.

(** C6 on a hook the sample registry does not have. *)
Lemma unknown_hook_aborts_witness :
  (forall baseDir addIndex options,
     installHook Sample.wd Sample.parse Sample.remoteRegistry Sample.remoteMeta
       Sample.remoteText "use-y" baseDir addIndex options Sample.installed =
     (Fs.Err (Fs.UnknownHook "use-y"), Sample.installed)) /\
  (forall opts,
     cmdRemove Sample.wd Sample.parse Sample.remoteRegistry Sample.remoteMeta
       "use-y" opts Sample.installed =
     (Fs.Err (Fs.UnknownHook "use-y"), Sample.installed)).
Proof.
  destruct (unknown_hook_aborts Sample.wd Sample.parse Sample.remoteRegistry
              Sample.remoteMeta Sample.remoteText Sample.prompt
              "use-y" Sample.registry Sample.installed)
    as (Hi & _ & Hr & _).
  - reflexivity.
  - apply (bool_decide_unpack _). vm_compute. exact I.
  - split; [exact Hi | exact Hr].
Defined.

(** C10 on a dry install of the sample hook over an earlier copy. *)
Lemma dry_run_writes_nothing_witness :
  snd (installHook Sample.wd Sample.parse Sample.remoteRegistry Sample.remoteMeta
         Sample.remoteText "use-x" "src/hooks" true (Some Sample.dryOptions)
         Sample.installed) = Sample.installed.
Proof.
  destruct (dry_run_writes_nothing Sample.wd Sample.parse Sample.remoteRegistry
              Sample.remoteMeta Sample.remoteText "use-x" "src/hooks" true
              Sample.dryOptions Sample.installed) as [H _].
  - reflexivity.
  - exact H.
Defined.

(** C1 on a [require] of [@/lib/a] in the sample hook file: the import is
    rewritten to [../lib/a], the text before it is kept. *)
Lemma rewrite_alias_relative_witness :
  rewriteAliasImports Sample.wd "const a = require('@/lib/a')" (Some "@") (Some "src")
    "/p/src/hooks/useX.ts" "/p" = "const a = require('../lib/a')" /\
  Path.resolve Sample.wd [Path.dirname "/p/src/hooks/useX.ts"; "../lib/a"] =
  Path.resolve Sample.wd ["/p"; "src"; "lib/a"].
Proof.
  destruct (rewrite_alias_relative Sample.wd "const a = require('@/lib/a')" "@" "src"
              "/p/src/hooks/useX.ts" "/p") as [H _];
    [reflexivity | discriminate | discriminate |].
  specialize (H "const a = " "require('@/lib/a')" "" "require('" "lib/a" "')" eq_refl).
  cbv zeta in H. destruct H as (E & _ & _ & Hres).
  - split; [reflexivity|]. split; [|split; [discriminate | reflexivity]].
    apply (shape_require "" "" sq sq); reflexivity.
  - apply noImportInside_letters. reflexivity.
  - split.
    + rewrite E. vm_compute. reflexivity.
    + apply Hres. vm_compute. reflexivity.
Defined.

(** C1 fails on a subpath with a backslash: the import [@/a\b] of the
    sample hook file is one of the four shapes, it is rewritten to
    [../a/b], and that path names another file than the one under the
    alias target. *)
Lemma rewrite_alias_backslash_subpath :
  AliasImport (aliasPrefixOf "@") "from '@/a\b'" "from '" "a\b" "'" /\
  rewriteAliasImports Sample.wd "from '@/a\b'" (Some "@") (Some "src")
    "/p/src/hooks/useX.ts" "/p" = "from '" ++ "../a/b" ++ "'" /\
  Path.resolve Sample.wd [Path.dirname "/p/src/hooks/useX.ts"; "../a/b"] <>
  Path.resolve Sample.wd ["/p"; "src"; "a\b"].
Proof.
  split; [|split].
  - split; [reflexivity|]. split; [|split; [discriminate | reflexivity]].
    apply (shape_from " " sq sq); [discriminate | reflexivity..].
  - vm_compute. reflexivity.
  - vm_compute. discriminate.
Qed.


(** A run whose outcome is known leaves the store it leaves. *)
Lemma ok_run {A} (m : Fs.M A) (s : Fs.store) (a : A) :
  fst (m s) = Fs.Ok a -> m s = (Fs.Ok a, snd (m s)).
Proof. destruct (m s) as [r s']. cbn [fst snd]. by intros ->. Qed.

(** C5 on the sample index with one line of another module: after two
    runs of the index block the export line of [useX] is there once. *)
Lemma index_append_idempotent_witness :
  exists c2,
    Fs.nodeAt
      (snd (updateIndex Sample.wd "src/hooks" (Some Sample.options) "useX"
         (snd (updateIndex Sample.wd "src/hooks" (Some Sample.options) "useX"
                 (Sample.withIndex Sample.otherLine)))))
      (key Sample.wd (cwd Sample.wd ["src/hooks"; "index.ts"])) =
      Some (Fs.File c2) /\
    Str.occurrences (exportLine "useX") c2 = 1.
Proof.
  assert (E : Fs.nodeAt (Sample.withIndex Sample.otherLine)
                (key Sample.wd (cwd Sample.wd ["src/hooks"; "index.ts"])) =
              Some (Fs.File Sample.otherLine)) by (vm_compute; reflexivity).
  destruct (index_append_idempotent Sample.wd Sample.parse Sample.remoteRegistry
              Sample.remoteMeta Sample.remoteText Sample.prompt
              "src/hooks" "useX" Sample.options (Sample.withIndex Sample.otherLine))
    as (_ & _ & _ & _ & H).
  - reflexivity.
  - reflexivity.
  - refine (H (snd (updateIndex Sample.wd "src/hooks" (Some Sample.options) "useX"
                      (Sample.withIndex Sample.otherLine)))
              (snd (updateIndex Sample.wd "src/hooks" (Some Sample.options) "useX"
                 (snd (updateIndex Sample.wd "src/hooks" (Some Sample.options) "useX"
                         (Sample.withIndex Sample.otherLine))))) _ _ _ _).
    + reflexivity.
    + intros c Hc. pose proof (eq_trans (eq_sym E) Hc) as Hc'.
      injection Hc' as <-. vm_compute. lia.
    + apply ok_run. vm_compute. reflexivity.
    + apply ok_run. vm_compute. reflexivity.
Defined.

(** C5 fails on an index that already holds the export line twice: two
    installs of the sample hook succeed and leave it there twice. *)
Lemma index_duplicate_lines_stay :
  fst (installHook Sample.wd Sample.parse Sample.remoteRegistry Sample.remoteMeta
         Sample.remoteText "use-x" "src/hooks" true (Some Sample.options)
         (Sample.withIndex (Sample.useXLine ++ Sample.useXLine))) = Fs.Ok tt /\
  fst (installHook Sample.wd Sample.parse Sample.remoteRegistry Sample.remoteMeta
         Sample.remoteText "use-x" "src/hooks" true (Some Sample.options)
         (snd (installHook Sample.wd Sample.parse Sample.remoteRegistry
                 Sample.remoteMeta Sample.remoteText "use-x" "src/hooks" true
                 (Some Sample.options)
                 (Sample.withIndex (Sample.useXLine ++ Sample.useXLine)))))
    = Fs.Ok tt /\
  Str.occurrences Sample.useXLine
    (Fs.contentAt
       (snd (installHook Sample.wd Sample.parse Sample.remoteRegistry
               Sample.remoteMeta Sample.remoteText "use-x" "src/hooks" true
               (Some Sample.options)
               (snd (installHook Sample.wd Sample.parse Sample.remoteRegistry
                       Sample.remoteMeta Sample.remoteText "use-x" "src/hooks" true
                       (Some Sample.options)
                       (Sample.withIndex (Sample.useXLine ++ Sample.useXLine))))))
       Sample.indexTs) = 2.
Proof. vm_compute. repeat split. Qed.

(** ** Stores of canonical paths *)

Lemma storeOk_empty : Fs.storeOk ∅.
Proof. apply map_Forall_empty. Qed.

Lemma storeOk_insert (s : Fs.store) (p : Path.path) (n : Fs.node) :
  Path.canonical p -> Fs.storeOk s -> Fs.storeOk (<[p := n]> s).
Proof. intros Hp Hs. by apply map_Forall_insert_2. Qed.

Lemma canonical_prefix (p q : Path.path) :
  q `prefix_of` p -> Path.canonical p -> Path.canonical q.
Proof.
  intros [k ->]. unfold Path.canonical. rewrite forallb_app.
  by intros [? _]%andb_prop.
Qed.

Lemma storeOk_mkdirs (s : Fs.store) (p : Path.path) :
  Path.canonical p -> Fs.storeOk s -> Fs.storeOk (Fs.mkdirs s (Fs.ups p)).
Proof.
  intros Hp Hs. unfold Fs.mkdirs.
  assert (H : forall q, q ∈ Fs.ups p -> Path.canonical q).
  { intros q [_ Hq]%ups_spec. by eapply canonical_prefix. }
  induction (Fs.ups p) as [|a l IH]; [done|]. cbn [foldr].
  apply storeOk_insert.
  - apply H, list_elem_of_here.
  - apply IH. intros q Hq. apply H. by apply list_elem_of_further.
Qed.

Lemma storeOk_hooks : Fs.storeOk Sample.hooks.
Proof.
  unfold Sample.hooks.
  do 3 (apply storeOk_insert; [reflexivity|]).
  apply storeOk_mkdirs; [reflexivity | apply storeOk_empty].
Qed.

Lemma storeOk_nested : Fs.storeOk Sample.nested.
Proof.
  unfold Sample.nested.
  do 2 (apply storeOk_insert; [reflexivity|]).
  apply storeOk_mkdirs; [reflexivity | apply storeOk_empty].
Qed.

(** C7 on the sample with [a.ts] and [v2/a.ts], moved to
    [src/shared/hooks]: the run succeeds, the copy [a.ts] under the new
    root is that of [v2/a.ts], which the walk finds last, the file [a.ts]
    of the old root is as it was, and the configuration file holds the
    new configuration. *)
Lemma migrate_copies_witness :
  exists s',
    cmdMigrate Sample.wd Sample.parse Sample.stringify "src/shared/hooks"
      Sample.nested = (Fs.Ok tt, s') /\
    Fs.nodeAt s' (Path.resolve Sample.wd ["src/shared/hooks"] ++ ["a.ts"]) =
      Some (Fs.File "B") /\
    Fs.nodeAt s' (Sample.hooksDir ++ ["a.ts"]) =
      Fs.nodeAt Sample.nested (Sample.hooksDir ++ ["a.ts"]) /\
    Fs.nodeAt s' (Sample.wd ++ [CONFIG_FILE]) = Some (Fs.File ("{}" ++ [LF])).
Proof.
  destruct (migrate_copies Sample.wd Sample.parse Sample.stringify
              Sample.remoteRegistry Sample.remoteMeta Sample.remoteText
              Sample.prompt "src/shared/hooks" Sample.nested) as [_ H].
  assert (EO : Path.resolve Sample.wd
                 [baseDir (orElse (readConfig Sample.wd Sample.parse Sample.nested)
                                  DEFAULT_CFG)] = Sample.hooksDir)
    by (vm_compute; reflexivity).
  assert (EW : List.filter (fun p => recognized (Path.render p))
                 (Fs.walkKeys Sample.nested Sample.hooksDir) =
               [Sample.hooksDir ++ ["a.ts"]; Sample.hooksDir ++ ["v2"; "a.ts"]])
    by (vm_compute; reflexivity).
  destruct H as (s' & Hrun & Hcopy & Hold & Hcfg & _).
  - reflexivity.
  - apply storeOk_nested.
  - vm_compute. discriminate.
  - vm_compute. discriminate.
  - rewrite EO. intros [k Hk]. vm_compute in Hk. discriminate.
  - rewrite EO. intros [k Hk]. vm_compute in Hk. discriminate.
  - vm_compute. reflexivity.
  - rewrite <- Forall_forall. apply (bool_decide_unpack _). vm_compute. exact I.
  - vm_compute. reflexivity.
  - vm_compute. reflexivity.
  - apply (bool_decide_unpack _). vm_compute. exact I.
  - rewrite <- Forall_forall. apply (bool_decide_unpack _). vm_compute. exact I.
  - exists s'. split; [exact Hrun|]. split; [|split; [|exact Hcfg]].
    + destruct (Hcopy (Sample.hooksDir ++ ["a.ts"]))
        as (front & q' & back & EL & Hlast & Hback & Hn).
      { rewrite EO. apply (bool_decide_unpack _). vm_compute. exact I. }
      { reflexivity. }
      rewrite EO, EW in EL.
      assert (Eq' : q' = Sample.hooksDir ++ ["v2"; "a.ts"]).
      { destruct front as [|x [|y front]].
        - injection EL as <- <-. exfalso.
          apply (Hback (Sample.hooksDir ++ ["v2"; "a.ts"])); [|reflexivity].
          apply list_elem_of_here.
        - by injection EL as _ <- _.
        - apply (f_equal length) in EL. cbn in EL. rewrite length_app in EL.
          cbn in EL. lia. }
      rewrite Eq' in Hn. exact Hn.
    + apply Hold.
      * rewrite EO. by exists ["a.ts"].
      * rewrite EO. intros E. apply (f_equal length) in E. vm_compute in E. discriminate.
Defined.

(** C7 fails when the new root lies inside the old one: in the sample
    with [src/hooks/v2/a.ts], the move to [src/hooks/v2] succeeds and
    overwrites that file of the old root with [src/hooks/a.ts]. *)
Lemma migrate_overwrites_nested_file :
  fst (cmdMigrate Sample.wd Sample.parse Sample.stringify "src/hooks/v2" Sample.nested)
    = Fs.Ok tt /\
  Fs.nodeAt Sample.nested (Sample.hooksDir ++ ["v2"; "a.ts"]) = Some (Fs.File "B") /\
  Fs.nodeAt (snd (cmdMigrate Sample.wd Sample.parse Sample.stringify "src/hooks/v2"
                    Sample.nested))
            (Sample.hooksDir ++ ["v2"; "a.ts"]) = Some (Fs.File "A").
Proof. vm_compute. repeat split. Qed.

(** C3 on the sample hook and an index with one line of another module:
    after the install and the removal the hook's file is gone and the
    index is as it was before the install. *)
Lemma install_then_remove_witness :
  exists s2,
    cmdRemove Sample.wd Sample.parse Sample.remoteRegistry Sample.remoteMeta "use-x"
      (Some {| opt_baseDir := Some "src/hooks"; opt_addIndex := None;
               opt_dry := None; opt_force := None |})
      (snd (installHook Sample.wd Sample.parse Sample.remoteRegistry
              Sample.remoteMeta Sample.remoteText "use-x" "src/hooks" true
              (Some Sample.options) (Sample.withIndex Sample.otherLine)))
      = (Fs.Ok tt, s2) /\
    Fs.existsAt s2
      (key Sample.wd
         (destOf Sample.wd "src/hooks"
            {| file_from := "useX.ts"; file_to := "src/hooks/useX.ts" |})) = false /\
    Fs.contentAt s2 (Path.resolve Sample.wd ["src/hooks"] ++ ["index.ts"]) =
    Fs.contentAt (Sample.withIndex Sample.otherLine)
      (Path.resolve Sample.wd ["src/hooks"] ++ ["index.ts"]).
Proof.
  destruct (install_then_remove Sample.wd Sample.parse Sample.remoteRegistry
              Sample.remoteMeta Sample.remoteText Sample.prompt
              "use-x" "src/hooks" Sample.options
              {| opt_baseDir := Some "src/hooks"; opt_addIndex := None;
                 opt_dry := None; opt_force := None |}
              Sample.registry {| entry_id := "use-x"; entry_path := "hooks/use-x" |}
              Sample.meta (Sample.withIndex Sample.otherLine)
              (snd (installHook Sample.wd Sample.parse Sample.remoteRegistry
                      Sample.remoteMeta Sample.remoteText "use-x" "src/hooks" true
                      (Some Sample.options) (Sample.withIndex Sample.otherLine))))
    as (s2 & Hrun & Hgone & Hidx & _).
  - reflexivity.
  - reflexivity.
  - reflexivity.
  - reflexivity.
  - reflexivity.
  - reflexivity.
  - apply ok_run. vm_compute. reflexivity.
  - intros f Hf. apply list_elem_of_singleton in Hf. subst f.
    split; [vm_compute; reflexivity|]. split; [vm_compute; reflexivity|].
    split; intros [k Hk]; vm_compute in Hk; discriminate.
  - right. exists Sample.otherText. vm_compute. reflexivity.
  - vm_compute. reflexivity.
  - vm_compute. exact I.
  - exists s2. split; [exact Hrun|]. split; [|exact Hidx].
    apply Hgone. apply list_elem_of_here.
Defined.

(** C3 fails on an index that does not end its last line: the install
    of the sample hook puts its export statement on that line, the removal
    finds no line that starts with it, and the statement stays. *)
Lemma remove_misses_unterminated_index :
  fst (installHook Sample.wd Sample.parse Sample.remoteRegistry Sample.remoteMeta
         Sample.remoteText "use-x" "src/hooks" true (Some Sample.options)
         (Sample.withIndex Sample.otherText)) = Fs.Ok tt /\
  fst (cmdRemove Sample.wd Sample.parse Sample.remoteRegistry Sample.remoteMeta
         "use-x" None
         (snd (installHook Sample.wd Sample.parse Sample.remoteRegistry
                 Sample.remoteMeta Sample.remoteText "use-x" "src/hooks" true
                 (Some Sample.options) (Sample.withIndex Sample.otherText))))
    = Fs.Ok tt /\
  Fs.contentAt
    (snd (cmdRemove Sample.wd Sample.parse Sample.remoteRegistry Sample.remoteMeta
            "use-x" None
            (snd (installHook Sample.wd Sample.parse Sample.remoteRegistry
                    Sample.remoteMeta Sample.remoteText "use-x" "src/hooks" true
                    (Some Sample.options) (Sample.withIndex Sample.otherText)))))
    Sample.indexTs = Sample.otherText ++ Sample.useXLine.
Proof. vm_compute. repeat split. Qed.

(** * The further properties on the sample project *)

(** X2 on the destination of the sample hook and the base directory
    [lib/hooks]. *)
Lemma remapToBaseDir_cases_witness :
  remapToBaseDir "src/hooks/useX.ts" "lib/hooks" = "lib/hooks" ++ "/useX.ts".
Proof.
  apply (proj1 (remapToBaseDir_cases "src/hooks/useX.ts" "lib/hooks"
                  ltac:(apply (bool_decide_unpack _); vm_compute; exact I))).
  reflexivity.
Defined.

(** X3 on a module that starts with the directive. *)
Lemma removeUseClient_spec_witness :
  removeUseClient
    ("" ++ [dq] ++ "use client" ++ [dq] ++ ";" ++ "" ++ [LF] ++ "export const a = 1;")
  = "export const a = 1;".
Proof.
  apply (proj1 (removeUseClient_spec "") "" dq dq "" "export const a = 1;");
    reflexivity.
Defined.

(** X4 on the default configuration, written into the sample tree. *)
Lemma writeConfig_readConfig_witness :
  readConfig Sample.wd sampleParse
    (snd (writeConfig Sample.wd sampleStringify DEFAULT_CFG Sample.tree))
  = Some DEFAULT_CFG.
Proof.
  apply (writeConfig_readConfig Sample.wd sampleParse sampleStringify
           Sample.remoteRegistry Sample.remoteMeta Sample.remoteText Sample.prompt
           DEFAULT_CFG Sample.tree).
  - reflexivity.
  - reflexivity.
  - apply ok_run. vm_compute. reflexivity.
Defined.

(** X5 on a working directory whose parent holds the configuration
    file. *)
Lemma findConfig_nearest_witness :
  exists d, d `prefix_of` Sample.hooksDir /\
    ["p"; CONFIG_FILE] = d ++ [CONFIG_FILE] /\
    Fs.existsAt (<[["p"; CONFIG_FILE] := Fs.File "{}"]> Sample.tree)
      ["p"; CONFIG_FILE] = true /\
    forall d', d `prefix_of` d' -> d' `prefix_of` Sample.hooksDir -> d' <> d ->
      Fs.existsAt (<[["p"; CONFIG_FILE] := Fs.File "{}"]> Sample.tree)
        (d' ++ [CONFIG_FILE]) = false.
Proof.
  apply (proj2 (findConfig_nearest Sample.hooksDir
                  (<[["p"; CONFIG_FILE] := Fs.File "{}"]> Sample.tree))).
  vm_compute. reflexivity.
Defined.

(** X6 on an install of the sample hook over an earlier copy. *)
Lemma installHook_frame_witness :
  frame (fun p => touched Sample.wd "src/hooks" (meta_files Sample.meta) p \/
                  p `prefix_of` Path.resolve Sample.wd ["src/hooks"] ++ ["index.ts"])
    Sample.installed
    (snd (installHook Sample.wd Sample.parse Sample.remoteRegistry Sample.remoteMeta
            Sample.remoteText "use-x" "src/hooks" true (Some Sample.options)
            Sample.installed)).
Proof.
  apply (installHook_frame Sample.wd Sample.parse
           Sample.remoteRegistry Sample.remoteMeta Sample.remoteText Sample.prompt
           "use-x" "src/hooks" true (Some Sample.options) Sample.registry
           {| entry_id := "use-x"; entry_path := "hooks/use-x" |} Sample.meta
           Sample.installed _
           (fst (installHook Sample.wd Sample.parse Sample.remoteRegistry
                   Sample.remoteMeta Sample.remoteText "use-x" "src/hooks" true
                   (Some Sample.options) Sample.installed))).
  - reflexivity.
  - reflexivity.
  - reflexivity.
  - reflexivity.
  - apply surjective_pairing.
Defined.

(** X7 on the removal of the sample hook after its install. *)
Lemma cmdRemove_outside_witness :
  outside
    (fun p => p ∈ map (fun f => key Sample.wd (destOf Sample.wd "src/hooks" f))
                      (meta_files Sample.meta) \/
              p = Path.resolve Sample.wd ["src/hooks"] ++ ["index.ts"] \/
              p = Path.resolve Sample.wd ["src/hooks"] ++ ["index.js"])
    Sample.installed
    (snd (cmdRemove Sample.wd Sample.parse Sample.remoteRegistry Sample.remoteMeta
            "use-x"
            (Some {| opt_baseDir := Some "src/hooks"; opt_addIndex := None;
                     opt_dry := None; opt_force := None |})
            Sample.installed)).
Proof.
  apply (cmdRemove_outside Sample.wd Sample.parse Sample.remoteRegistry
           Sample.remoteMeta Sample.remoteText Sample.prompt "use-x"
           (Some {| opt_baseDir := Some "src/hooks"; opt_addIndex := None;
                    opt_dry := None; opt_force := None |})
           Sample.registry {| entry_id := "use-x"; entry_path := "hooks/use-x" |}
           Sample.meta Sample.installed _
           (fst (cmdRemove Sample.wd Sample.parse Sample.remoteRegistry
                   Sample.remoteMeta "use-x"
                   (Some {| opt_baseDir := Some "src/hooks"; opt_addIndex := None;
                            opt_dry := None; opt_force := None |})
                   Sample.installed))).
  - reflexivity.
  - reflexivity.
  - reflexivity.
  - reflexivity.
  - apply surjective_pairing.
  - vm_compute. discriminate.
Defined.

(** X8 on the sample tree, where the sample hook is not installed. *)
Lemma cmdRemove_not_installed_witness :
  cmdRemove Sample.wd Sample.parse Sample.remoteRegistry Sample.remoteMeta "use-x"
    (Some {| opt_baseDir := Some "src/hooks"; opt_addIndex := None;
             opt_dry := None; opt_force := None |})
    Sample.tree = (Fs.Ok tt, Sample.tree).
Proof.
  apply (cmdRemove_not_installed Sample.wd Sample.parse Sample.remoteRegistry
           Sample.remoteMeta Sample.remoteText Sample.prompt "use-x"
           (Some {| opt_baseDir := Some "src/hooks"; opt_addIndex := None;
                    opt_dry := None; opt_force := None |})
           Sample.registry {| entry_id := "use-x"; entry_path := "hooks/use-x" |}
           Sample.meta Sample.tree).
  - reflexivity.
  - reflexivity.
  - reflexivity.
  - reflexivity.
  - intros f Hf. apply list_elem_of_singleton in Hf. subst f. vm_compute. reflexivity.
  - vm_compute. exact I.
  - vm_compute. exact I.
Defined.

(** X9 on the install of the sample hook into the sample tree. *)
Lemma install_then_version_witness :
  parseLocalHookVersion Sample.wd
    (destOf Sample.wd "src/hooks"
       {| file_from := "useX.ts"; file_to := "src/hooks/useX.ts" |})
    (snd (installHook Sample.wd Sample.parse Sample.remoteRegistry Sample.remoteMeta
            Sample.remoteText "use-x" "src/hooks" true (Some Sample.options)
            Sample.tree)) =
  (Fs.Ok {| lv_id := Some (meta_id Sample.meta);
            lv_version := Some (version "1" "0" "0") |},
   snd (installHook Sample.wd Sample.parse Sample.remoteRegistry Sample.remoteMeta
          Sample.remoteText "use-x" "src/hooks" true (Some Sample.options)
          Sample.tree)).
Proof.
  apply (install_then_version Sample.wd Sample.parse Sample.remoteRegistry
           Sample.remoteMeta Sample.remoteText Sample.prompt "use-x" "src/hooks"
           true Sample.options Sample.registry
           {| entry_id := "use-x"; entry_path := "hooks/use-x" |} Sample.meta
           Sample.tree).
  - reflexivity.
  - reflexivity.
  - reflexivity.
  - reflexivity.
  - reflexivity.
  - apply ok_run. vm_compute. reflexivity.
  - split; [discriminate | reflexivity].
  - split; [discriminate | reflexivity].
  - split; [discriminate | reflexivity].
  - split; [discriminate | reflexivity].
  - reflexivity.
  - vm_compute. lia.
  - apply list_elem_of_here.
  - intros g Hg. apply list_elem_of_singleton in Hg. subst g.
    vm_compute. discriminate.
  - intros [k Hk]. vm_compute in Hk. discriminate.
Defined.

(** X10 on the versions 1 and 1.0.0. *)
Lemma cmpSemver_components_witness :
  cmpSemver "1" "1.0.0" = cmpSemver (version "1" "0" "0") "1.0.0".
Proof.
  apply (cmpSemver_components "1" "2" "3" "4" "1.0.0");
    (split; [reflexivity | vm_compute; reflexivity]).
Defined.

(** X11 on an install of the sample hook beside an index with one line of
    another module. *)
Lemma installHook_result_witness :
  Fs.isFile
    (snd (installHook Sample.wd Sample.parse Sample.remoteRegistry Sample.remoteMeta
            Sample.remoteText "use-x" "src/hooks" true (Some Sample.options)
            (Sample.withIndex Sample.otherLine)))
    (key Sample.wd
       (destOf Sample.wd "src/hooks"
          {| file_from := "useX.ts"; file_to := "src/hooks/useX.ts" |})) = true /\
  Fs.nodeAt
    (snd (installHook Sample.wd Sample.parse Sample.remoteRegistry Sample.remoteMeta
            Sample.remoteText "use-x" "src/hooks" true (Some Sample.options)
            (Sample.withIndex Sample.otherLine)))
    (Path.resolve Sample.wd ["src/hooks"] ++ ["index.ts"]) =
  Some (Fs.File (Sample.otherLine ++ Sample.useXLine)).
Proof.
  pose proof (installHook_result Sample.wd Sample.parse Sample.remoteRegistry
                Sample.remoteMeta Sample.remoteText Sample.prompt "use-x"
                "src/hooks" true Sample.options Sample.registry
                {| entry_id := "use-x"; entry_path := "hooks/use-x" |} Sample.meta
                (Sample.withIndex Sample.otherLine)
                (snd (installHook Sample.wd Sample.parse Sample.remoteRegistry
                        Sample.remoteMeta Sample.remoteText "use-x" "src/hooks"
                        true (Some Sample.options)
                        (Sample.withIndex Sample.otherLine)))) as H.
  cbv zeta in H. destruct H as [H1 H2].
  - reflexivity.
  - reflexivity.
  - reflexivity.
  - reflexivity.
  - reflexivity.
  - apply ok_run. vm_compute. reflexivity.
  - split.
    + apply H1. apply list_elem_of_here.
    + rewrite (H2 [] {| file_from := "useX.ts"; file_to := "src/hooks/useX.ts" |}).
      * vm_compute. reflexivity.
      * reflexivity.
      * reflexivity.
      * vm_compute. discriminate.
      * intros (f & Hf & Hp). apply list_elem_of_singleton in Hf. subst f.
        destruct Hp as [[k Hk]|Hp]; [vm_compute in Hk | vm_compute in Hp]; discriminate.
Defined.

(** X12 on the destination of the sample hook. *)
Lemma fileBaseName_segment_witness :
  fileBaseName (Path.render (Sample.hooksDir ++ ["useX" ++ "." ++ "ts"])) = "useX".
Proof.
  destruct (fileBaseName_segment Sample.wd Sample.parse Sample.remoteRegistry
              Sample.remoteMeta Sample.remoteText Sample.prompt Sample.hooksDir
              "useX" "ts") as [H _].
  - intros Hd%list_elem_of_In. cbn in Hd. destruct Hd as [Hd|[Hd|[]]]; discriminate.
  - apply H; [reflexivity | discriminate].
Defined.

(** The preset on the sample tree, with the remote that has its five
    hooks. *)
Lemma preset_run :
  fst (cmdPreset Sample.wd Sample.parse Sample.presetRemoteRegistry
         Sample.presetRemoteMeta Sample.remoteText "essentials" Sample.tree) = Fs.Ok tt.
Proof. vm_compute. reflexivity. Qed.

Lemma preset_dest (id : str) :
  id ∈ Sample.presetIds ->
  key Sample.wd (destOf Sample.wd "src/hooks"
                   {| file_from := id ++ ".ts"; file_to := "src/hooks/" ++ id ++ ".ts" |}) =
  Sample.hooksDir ++ [id ++ ".ts"].
Proof.
  intros H.
  repeat (apply elem_of_cons in H as [->|H]; [vm_compute; reflexivity|]).
  by apply elem_of_nil in H.
Qed.

(** X13 on the sample project.  With the sample remote, whose registry has
    none of the preset's hooks, the preset fails at once; with the remote
    that has the five hooks it succeeds, and the file of every hook is in
    the hooks directory afterwards. *)
Lemma cmdPreset_frame_witness :
  cmdPreset Sample.wd Sample.parse Sample.remoteRegistry Sample.remoteMeta
    Sample.remoteText "minimal" Sample.tree = (Fs.Ok tt, Sample.tree) /\
  cmdPreset Sample.wd Sample.parse Sample.remoteRegistry Sample.remoteMeta
    Sample.remoteText "essentials" Sample.tree =
    (Fs.Err (Fs.UnknownHook "use-boolean"), Sample.tree) /\
  frame (fun p => exists h, h ∈ essentials /\
                    forcedScope Sample.wd Sample.remoteRegistry Sample.remoteMeta
                      (orElse (baseDir <$> readConfig Sample.wd Sample.parse Sample.tree)
                              "src/hooks") h p)
    Sample.tree
    (snd (cmdPreset Sample.wd Sample.parse Sample.remoteRegistry Sample.remoteMeta
            Sample.remoteText "essentials" Sample.tree)) /\
  exists s',
    cmdPreset Sample.wd Sample.parse Sample.presetRemoteRegistry
      Sample.presetRemoteMeta Sample.remoteText "essentials" Sample.tree =
      (Fs.Ok tt, s') /\
    forall id, id ∈ essentials ->
      Fs.isFile s' (Sample.hooksDir ++ [id ++ ".ts"]) = true.
Proof.
  pose proof (cmdPreset_frame Sample.wd Sample.parse Sample.remoteRegistry
                Sample.remoteMeta Sample.remoteText Sample.prompt "minimal"
                Sample.tree) as H.
  cbv zeta in H. destruct H as [H1 _].
  pose proof (cmdPreset_frame Sample.wd Sample.parse Sample.remoteRegistry
                Sample.remoteMeta Sample.remoteText Sample.prompt "essentials"
                Sample.tree) as H.
  cbv zeta in H. destruct H as (_ & H2 & H3 & _).
  pose proof (cmdPreset_frame Sample.wd Sample.parse Sample.presetRemoteRegistry
                Sample.presetRemoteMeta Sample.remoteText Sample.prompt "essentials"
                Sample.tree) as H.
  cbv zeta in H. destruct H as (_ & _ & _ & H4 & _).
  split; [|split; [|split]].
  - apply H1. discriminate.
  - apply (H3 Sample.registry); reflexivity.
  - apply (H2 eq_refl
             (fst (cmdPreset Sample.wd Sample.parse Sample.remoteRegistry
                     Sample.remoteMeta Sample.remoteText "essentials" Sample.tree))).
    apply surjective_pairing.
  - pose proof (ok_run _ _ _ preset_run) as Hrun.
    specialize (H4 eq_refl _ Hrun).
    eexists. split; [exact Hrun|]. clear Hrun.
    generalize dependent
      (snd (cmdPreset Sample.wd Sample.parse Sample.presetRemoteRegistry
              Sample.presetRemoteMeta Sample.remoteText "essentials" Sample.tree)).
    intros s' H4 id Hid.
    destruct (list_elem_of_split _ _ Hid) as (front & back & Hl).
    destruct (H4 front id back Hl)
      as (registry & entry & meta & t & t1 & Hreg & Hfind & Hmeta & _ & _ & _ & Hfiles).
    injection Hreg as <-.
    assert (Hem : meta = Sample.presetMetaOf id).
    { clear -Hid Hfind Hmeta.
      repeat (apply elem_of_cons in Hid as [->|Hid];
              [vm_compute in Hfind; injection Hfind as <-;
               vm_compute in Hmeta; by injection Hmeta as <-|]).
      by apply elem_of_nil in Hid. }
    subst meta.
    rewrite <- (preset_dest id Hid). apply Hfiles. apply list_elem_of_here.
Defined.

(** X14 on the sample hook, with the options of an update without flags. *)
Lemma cmdAdd_as_update_witness :
  cmdAdd Sample.wd Sample.parse Sample.remoteRegistry Sample.remoteMeta
    Sample.remoteText Sample.prompt (Some "use-x")
    (Some {| opt_baseDir := None; opt_addIndex := None;
             opt_dry := Some false; opt_force := Some false |})
    Sample.installed =
  cmdUpdate Sample.wd Sample.parse Sample.remoteRegistry Sample.remoteMeta
    Sample.remoteText "use-x"
    (Some {| opt_baseDir := None; opt_addIndex := None;
             opt_dry := Some false; opt_force := Some false |})
    Sample.installed.
Proof.
  apply (cmdAdd_as_update Sample.wd Sample.parse Sample.remoteRegistry
           Sample.remoteMeta Sample.remoteText Sample.prompt "use-x"
           (Some {| opt_baseDir := None; opt_addIndex := None;
                    opt_dry := Some false; opt_force := Some false |})
           Sample.installed).
  - discriminate.
  - reflexivity.
  - reflexivity.
Defined.

(** X15 on a forced update of the sample hook over an earlier copy. *)
Lemma cmdUpdate_force_frame_witness :
  frame
    (forcedScope Sample.wd Sample.remoteRegistry Sample.remoteMeta
       (orElse
          (Some {| opt_baseDir := None; opt_addIndex := None;
                   opt_dry := None; opt_force := Some true |} ≫= opt_baseDir)
          (orElse (baseDir <$> readConfig Sample.wd Sample.parse Sample.installed)
                  "src/hooks"))
       "use-x")
    Sample.installed
    (snd (cmdUpdate Sample.wd Sample.parse Sample.remoteRegistry Sample.remoteMeta
            Sample.remoteText "use-x"
            (Some {| opt_baseDir := None; opt_addIndex := None;
                     opt_dry := None; opt_force := Some true |})
            Sample.installed)).
Proof.
  apply (cmdUpdate_force_frame Sample.wd Sample.parse Sample.remoteRegistry
           Sample.remoteMeta Sample.remoteText Sample.prompt "use-x"
           (Some {| opt_baseDir := None; opt_addIndex := None;
                    opt_dry := None; opt_force := Some true |})
           Sample.installed
           (fst (cmdUpdate Sample.wd Sample.parse Sample.remoteRegistry
                   Sample.remoteMeta Sample.remoteText "use-x"
                   (Some {| opt_baseDir := None; opt_addIndex := None;
                            opt_dry := None; opt_force := Some true |})
                   Sample.installed))).
  - reflexivity.
  - reflexivity.
  - apply surjective_pairing.
Defined.

(** X16 on an interactive run in the sample tree where every prompt is
    cancelled: the default configuration is written and read back. *)
Lemma cmdInit_outcome_witness :
  readConfig Sample.wd sampleParse
    (snd (cmdInit Sample.wd sampleParse sampleStringify Sample.remoteRegistry
            Sample.remoteMeta Sample.remoteText true noAnswers Sample.prompt
            Sample.tree)) = Some DEFAULT_CFG /\
  Fs.isDir
    (snd (cmdInit Sample.wd sampleParse sampleStringify Sample.remoteRegistry
            Sample.remoteMeta Sample.remoteText true noAnswers Sample.prompt
            Sample.tree))
    (Path.resolve Sample.wd ["src/hooks"]) = true.
Proof.
  pose proof (cmdInit_outcome Sample.wd sampleParse sampleStringify
                Sample.remoteRegistry Sample.remoteMeta Sample.remoteText
                Sample.prompt true noAnswers Sample.prompt Sample.tree
                (fst (cmdInit Sample.wd sampleParse sampleStringify
                        Sample.remoteRegistry Sample.remoteMeta Sample.remoteText
                        true noAnswers Sample.prompt Sample.tree))
                (snd (cmdInit Sample.wd sampleParse sampleStringify
                        Sample.remoteRegistry Sample.remoteMeta Sample.remoteText
                        true noAnswers Sample.prompt Sample.tree))) as H.
  cbv zeta in H. destruct H as (_ & _ & _ & H).
  - apply surjective_pairing.
  - apply H.
    + reflexivity.
    + reflexivity.
    + vm_compute. reflexivity.
    + discriminate.
    + right. reflexivity.
Defined.

(** X17 on the sample tree with an index of two export lines. *)
Lemma listLocalHooks_index_witness :
  listLocalHooks Sample.wd "src/hooks"
    (Sample.withIndex (concat (map exportLine ["other"; "useX"]))) =
  (Fs.Ok (map (fun n =>
                 {| lh_id := n;
                    lh_file :=
                      if Fs.existsAt
                           (Sample.withIndex (concat (map exportLine ["other"; "useX"])))
                           (Path.resolve Sample.wd ["src/hooks"; n ++ ".ts"])
                      then cwd Sample.wd ["src/hooks"; n ++ ".ts"]
                      else cwd Sample.wd ["src/hooks"; n ++ ".js"] |})
              ["other"; "useX"]),
   Sample.withIndex (concat (map exportLine ["other"; "useX"]))).
Proof.
  apply (listLocalHooks_index Sample.wd "src/hooks" ["other"; "useX"]
           (Sample.withIndex (concat (map exportLine ["other"; "useX"])))).
  - reflexivity.
  - repeat constructor; discriminate.
  - left. vm_compute. reflexivity.
Defined.

(** X18 on the sample hooks directory with one more file, named
    [use-x.ts]. *)
Lemma listLocalHooks_walk_witness :
  exists l,
    listLocalHooks Sample.wd "src/hooks"
      (<[Sample.hooksDir ++ ["use-x.ts"] := Fs.File "X"]> Sample.hooks) =
    (Fs.Ok l, <[Sample.hooksDir ++ ["use-x.ts"] := Fs.File "X"]> Sample.hooks) /\
    forall h, h ∈ l <->
      exists q name e, name <> [] /\ (e = "ts" \/ e = "js") /\
        q ++ ["use-" ++ name ++ "." ++ e] ∈
          Fs.walkKeys (<[Sample.hooksDir ++ ["use-x.ts"] := Fs.File "X"]> Sample.hooks)
                      (Path.resolve Sample.wd ["src/hooks"]) /\
        h = {| lh_id := "use-" ++ name;
               lh_file := Path.render (q ++ ["use-" ++ name ++ "." ++ e]) |}.
Proof.
  pose proof (listLocalHooks_walk Sample.wd Sample.parse Sample.remoteRegistry
                Sample.remoteMeta Sample.remoteText Sample.prompt "src/hooks"
                (<[Sample.hooksDir ++ ["use-x.ts"] := Fs.File "X"]> Sample.hooks)) as H.
  cbv zeta in H. destruct H as (_ & _ & H).
  - reflexivity.
  - apply storeOk_insert; [reflexivity | apply storeOk_hooks].
  - vm_compute. reflexivity.
  - vm_compute. reflexivity.
  - apply H.
    + vm_compute. reflexivity.
    + assert (HF : Forall (fun k => "\"%char ∉ lastSeg k)
                     (Fs.walkKeys
                        (<[Sample.hooksDir ++ ["use-x.ts"] := Fs.File "X"]> Sample.hooks)
                        (Path.resolve Sample.wd ["src/hooks"]))).
      { apply (bool_decide_unpack _). vm_compute. exact I. }
      intros k Hk. exact (proj1 (Forall_forall _ _) HF k Hk).
Defined.

(** X19 on an install of the sample hook beside an index with one line of
    another module. *)
Lemma install_then_list_witness :
  listLocalHooks Sample.wd "src/hooks"
    (snd (installHook Sample.wd Sample.parse Sample.remoteRegistry Sample.remoteMeta
            Sample.remoteText "use-x" "src/hooks" true (Some Sample.options)
            (Sample.withIndex Sample.otherLine))) =
  (Fs.Ok (map (fun n =>
                 {| lh_id := n;
                    lh_file :=
                      if Fs.existsAt
                           (snd (installHook Sample.wd Sample.parse
                                   Sample.remoteRegistry Sample.remoteMeta
                                   Sample.remoteText "use-x" "src/hooks" true
                                   (Some Sample.options)
                                   (Sample.withIndex Sample.otherLine)))
                           (Path.resolve Sample.wd ["src/hooks"; n ++ ".ts"])
                      then cwd Sample.wd ["src/hooks"; n ++ ".ts"]
                      else cwd Sample.wd ["src/hooks"; n ++ ".js"] |})
              ["other"; "useX"]),
   snd (installHook Sample.wd Sample.parse Sample.remoteRegistry Sample.remoteMeta
          Sample.remoteText "use-x" "src/hooks" true (Some Sample.options)
          (Sample.withIndex Sample.otherLine))).
Proof.
  pose proof (install_then_list Sample.wd Sample.parse Sample.remoteRegistry
                Sample.remoteMeta Sample.remoteText Sample.prompt "use-x"
                "src/hooks" Sample.options Sample.registry
                {| entry_id := "use-x"; entry_path := "hooks/use-x" |} Sample.meta
                [] {| file_from := "useX.ts"; file_to := "src/hooks/useX.ts" |}
                ["other"] (Sample.withIndex Sample.otherLine)
                (snd (installHook Sample.wd Sample.parse Sample.remoteRegistry
                        Sample.remoteMeta Sample.remoteText "use-x" "src/hooks"
                        true (Some Sample.options)
                        (Sample.withIndex Sample.otherLine)))) as H.
  cbv zeta in H.
  assert (E : (if Str.includes
                    (exportLine
                       (fileBaseName
                          (destOf Sample.wd "src/hooks"
                             {| file_from := "useX.ts";
                                file_to := "src/hooks/useX.ts" |})))
                    (concat (map exportLine ["other"]))
               then ["other"]
               else ["other"] ++
                    [fileBaseName
                       (destOf Sample.wd "src/hooks"
                          {| file_from := "useX.ts";
                             file_to := "src/hooks/useX.ts" |})]) =
              ["other"; "useX"]) by (vm_compute; reflexivity).
  rewrite E in H. apply H.
  - reflexivity.
  - reflexivity.
  - reflexivity.
  - reflexivity.
  - reflexivity.
  - reflexivity.
  - vm_compute. discriminate.
  - vm_compute. reflexivity.
  - repeat constructor; discriminate.
  - intros (f & Hf & Hp). apply list_elem_of_singleton in Hf. subst f.
    destruct Hp as [[k Hk]|Hp]; [vm_compute in Hk | vm_compute in Hp]; discriminate.
  - right. vm_compute. reflexivity.
  - apply ok_run. vm_compute. reflexivity.
Defined.

(** X20 on an install of the sample hook into the sample tree: the file is
    [useX.ts] and the id of the hook is [use-x], so the doctor reports a
    mismatch. *)
Lemma install_then_doctor_witness :
  cmdDoctor Sample.wd Sample.parse Sample.remoteRegistry
    (snd (installHook Sample.wd Sample.parse Sample.remoteRegistry Sample.remoteMeta
            Sample.remoteText "use-x" "src/hooks" true (Some Sample.options)
            Sample.tree)) =
  (Fs.Ok [IdMismatch "useX" "use-x"],
   snd (installHook Sample.wd Sample.parse Sample.remoteRegistry Sample.remoteMeta
          Sample.remoteText "use-x" "src/hooks" true (Some Sample.options)
          Sample.tree)).
Proof.
  pose proof (install_then_doctor Sample.wd Sample.parse Sample.remoteRegistry
                Sample.remoteMeta Sample.remoteText Sample.prompt "use-x"
                "src/hooks" Sample.options Sample.registry
                {| entry_id := "use-x"; entry_path := "hooks/use-x" |} Sample.meta
                [] {| file_from := "useX.ts"; file_to := "src/hooks/useX.ts" |}
                Sample.tree
                (snd (installHook Sample.wd Sample.parse Sample.remoteRegistry
                        Sample.remoteMeta Sample.remoteText "use-x" "src/hooks"
                        true (Some Sample.options) Sample.tree))
                "1" "0" "0") as H.
  cbv zeta in H. destruct H as [_ H].
  assert (E : (if bool_decide
                    (meta_id Sample.meta =
                     fileBaseName
                       (destOf Sample.wd "src/hooks"
                          {| file_from := "useX.ts";
                             file_to := "src/hooks/useX.ts" |}))
               then
                 if existsb
                      (fun h =>
                         bool_decide
                           (entry_id h =
                            fileBaseName
                              (destOf Sample.wd "src/hooks"
                                 {| file_from := "useX.ts";
                                    file_to := "src/hooks/useX.ts" |})))
                      (reg_hooks Sample.registry)
                 then Good
                        (fileBaseName
                           (destOf Sample.wd "src/hooks"
                              {| file_from := "useX.ts";
                                 file_to := "src/hooks/useX.ts" |}))
                        (Some (version "1" "0" "0"))
                 else NotInRegistry
                        (fileBaseName
                           (destOf Sample.wd "src/hooks"
                              {| file_from := "useX.ts";
                                 file_to := "src/hooks/useX.ts" |}))
               else IdMismatch
                      (fileBaseName
                         (destOf Sample.wd "src/hooks"
                            {| file_from := "useX.ts";
                               file_to := "src/hooks/useX.ts" |}))
                      (meta_id Sample.meta)) =
              IdMismatch "useX" "use-x") by (vm_compute; reflexivity).
  rewrite E in H. apply H.
  - reflexivity.
  - reflexivity.
  - reflexivity.
  - reflexivity.
  - reflexivity.
  - reflexivity.
  - vm_compute. discriminate.
  - vm_compute. reflexivity.
  - vm_compute. reflexivity.
  - intros (f & Hf & Hp). apply list_elem_of_singleton in Hf. subst f.
    destruct Hp as [[k Hk]|Hp]; [vm_compute in Hk | vm_compute in Hp]; discriminate.
  - intros [k Hk]. vm_compute in Hk. discriminate.
  - vm_compute. reflexivity.
  - split; [discriminate | reflexivity].
  - split; [discriminate | reflexivity].
  - split; [discriminate | reflexivity].
  - split; [discriminate | reflexivity].
  - reflexivity.
  - vm_compute. lia.
  - intros g Hg. apply list_elem_of_singleton in Hg. subst g.
    vm_compute. discriminate.
  - apply ok_run. vm_compute. reflexivity.
  - vm_compute. reflexivity.
Defined.
